(** * SkyMatrix: the satellite-raster analytics core, embedded in Rocq

    The development follows the C++ sources file by file:
    - [Utils.h] / [Utils.cpp]: [Region], [AnomalyRegion] and its comparison
      operators;
    - [PrefixSum.cpp]: the summed-area tables and the range queries;
    - [RegionTree.cpp]: the quadrant tree stored in one [std::vector];
    - [AnomalyDetector.cpp]: the z-score of every node;
    - [QueryEngine.cpp]: bounded heap selection, union-find and depth-first
      component discovery.

    Conventions.  A C++ [int] is a [Z] normalised by [int32], an [int64_t] a
    [Z] normalised by [int64] (two's complement wrap-around); a [double] is a
    primitive IEEE-754 binary64 [float]; a [std::vector] is a [list] read and
    written by index with stdpp's lookup and insert.  Container sizes and
    loop counters that only index containers are natural numbers. *)

From Stdlib Require Import ZArith List Lia Bool Strings.Byte PrimFloat SpecFloat FloatOps.
From Stdlib Require FloatAxioms.
From stdpp Require Import base list relations.
Import ListNotations.

Open Scope Z_scope.

(** ** Machine integers *)

Definition wrap (w : Z) (z : Z) : Z := (z + 2 ^ (w - 1)) mod 2 ^ w - 2 ^ (w - 1).

Definition int32 (z : Z) : Z := wrap 32 z.
Definition int64 (z : Z) : Z := wrap 64 z.

Definition in_int32 (z : Z) : Prop := - 2 ^ 31 <= z < 2 ^ 31.
Definition in_int64 (z : Z) : Prop := - 2 ^ 63 <= z < 2 ^ 63.

(** [INT_MAX] *)
Definition INT_MAX : Z := 2 ^ 31 - 1.

(** [a / b] on C++ integers truncates towards zero. *)
Definition cdiv (a b : Z) : Z := Z.quot a b.

(** ** Utils.h: Region *)

Record Region : Set := mkRegion { row1 : Z; col1 : Z; row2 : Z; col2 : Z }.

Definition area (r : Region) : Z :=
  int64 (int64 (int32 (int32 (row2 r - row1 r) + 1))
         * int64 (int32 (int32 (col2 r - col1 r) + 1))).

Definition isValid (r : Region) : bool :=
  (row1 r <=? row2 r) && (col1 r <=? col2 r).

Definition contains (r : Region) (row col : Z) : bool :=
  (row >=? row1 r) && (row <=? row2 r) && (col >=? col1 r) && (col <=? col2 r).

(** [Region::center]: [{(row1 + row2) / 2, (col1 + col2) / 2}] *)
Definition center (r : Region) : Z * Z :=
  (cdiv (int32 (row1 r + row2 r)) 2, cdiv (int32 (col1 r + col2 r)) 2).

(** Utils.cpp, [Region::isAdjacentTo]. *)
Definition isAdjacentTo (this other : Region) : bool :=
  let xOverlap := negb ((col2 this <? col1 other) || (col2 other <? col1 this)) in
  let yOverlap := negb ((row2 this <? row1 other) || (row2 other <? row1 this)) in
  if xOverlap && yOverlap then false
  else if yOverlap
          && ((int32 (col2 this + 1) =? col1 other) || (int32 (col2 other + 1) =? col1 this))
       then true
  else if xOverlap
          && ((int32 (row2 this + 1) =? row1 other) || (int32 (row2 other + 1) =? row1 this))
       then true
  else false.

(** Two regions overlap when some cell belongs to both. *)
Definition overlaps (a b : Region) : Prop :=
  exists row col, contains a row col = true /\ contains b row col = true.


(** ** Utils.cpp: [formatNumber] *)

(** The characters of a decimal numeral. *)
Fixpoint digits (d : Decimal.uint) : list byte :=
  match d with
  | Decimal.Nil => []
  | Decimal.D0 d => "0"%byte :: digits d
  | Decimal.D1 d => "1"%byte :: digits d
  | Decimal.D2 d => "2"%byte :: digits d
  | Decimal.D3 d => "3"%byte :: digits d
  | Decimal.D4 d => "4"%byte :: digits d
  | Decimal.D5 d => "5"%byte :: digits d
  | Decimal.D6 d => "6"%byte :: digits d
  | Decimal.D7 d => "7"%byte :: digits d
  | Decimal.D8 d => "8"%byte :: digits d
  | Decimal.D9 d => "9"%byte :: digits d
  end.

(** [std::to_string(number)] for an [int64_t]: the decimal numeral, with a
    minus sign before a negative one. *)
Definition to_string (number : Z) : list byte :=
  match Z.to_int number with
  | Decimal.Pos d => digits d
  | Decimal.Neg d => "-"%byte :: digits d
  end.

(** The body of the loop of [formatNumber], lines 55-59, on [result] and
    [count]:
    [if (count > 0 && count % 3 == 0) result = "," + result;
     result = numStr[i] + result; count++;] *)
Definition formatStep (st : list byte * Z) (ch : byte) : list byte * Z :=
  let result :=
    if (snd st >? 0) && (Z.rem (snd st) 3 =? 0) then ","%byte :: fst st else fst st in
  (ch :: result, int32 (snd st + 1)).

(** [formatNumber]: the loop takes the characters of [numStr] from the last
    to the first. *)
Definition formatNumber (number : Z) : list byte :=
  fst (fold_left formatStep (rev (to_string number)) ([], 0)).
(** ** Utils.h: pixels, matrices, doubles *)

Abbreviation Pixel := byte (only parsing).
Abbreviation Matrix := (list (list byte)) (only parsing).
Abbreviation PrefixMatrix := (list (list Z)) (only parsing).

(** The value of a [uint8_t] pixel once widened to [int64_t]. *)
Definition pixelValue (p : Pixel) : Z := Z.of_N (Byte.to_N p).

(** [static_cast<double>(z)]: the binary64 number nearest to [z]. *)
Definition double_of_int (z : Z) : float :=
  SF2Prim (binary_normalize prec emax z 0 false).

(** [std::max(a, b)] and [std::min(a, b)] on doubles, as the library defines
    them: [(a < b) ? b : a] and [(b < a) ? b : a]. *)
Definition fmax (a b : float) : float := if PrimFloat.ltb a b then b else a.
Definition fmin (a b : float) : float := if PrimFloat.ltb b a then b else a.

Record RegionStats : Set := mkRegionStats {
  mean : float;
  variance : float;
  stdDev : float;
  sum : Z;
  stats_area : Z
}.

(** [RegionStats()] *)
Definition RegionStats_default : RegionStats :=
  mkRegionStats PrimFloat.zero PrimFloat.zero PrimFloat.zero 0 0.

(** [AnomalyRegion]: a region with its score and the node it comes from. *)
Record AnomalyRegion : Set := mkAnomalyRegion {
  ar_region : Region;
  ar_anomalyScore : float;
  ar_nodeId : Z
}.

(** [AnomalyRegion::operator<]: [return anomalyScore > other.anomalyScore;] *)
Definition AnomalyRegion_lt (this other : AnomalyRegion) : bool :=
  PrimFloat.ltb (ar_anomalyScore other) (ar_anomalyScore this).

(** [AnomalyRegion::operator>]: [return anomalyScore < other.anomalyScore;] *)
Definition AnomalyRegion_gt (this other : AnomalyRegion) : bool :=
  PrimFloat.ltb (ar_anomalyScore this) (ar_anomalyScore other).

(** [std::greater<AnomalyRegion>]: [a > b], which is [operator>] above. *)
Definition std_greater (a b : AnomalyRegion) : bool := AnomalyRegion_gt a b.

(** [std::sort(first, last, [](a, b) { return a.anomalyScore > b.anomalyScore; })]
    in [getAnomalousRegions] and [queryRectangle].  The order [std::sort]
    gives to regions of equal score is not specified; the model inserts
    stably. *)
Fixpoint insertByScore (x : AnomalyRegion) (l : list AnomalyRegion) : list AnomalyRegion :=
  match l with
  | [] => [x]
  | y :: l' =>
      if PrimFloat.ltb (ar_anomalyScore y) (ar_anomalyScore x)
      then x :: l else y :: insertByScore x l'
  end.

Definition sortByScore (l : list AnomalyRegion) : list AnomalyRegion :=
  fold_left (fun acc x => insertByScore x acc) l [].

(** ** PrefixSum.cpp *)

Module PrefixSum.

Record t : Set := mk {
  prefix : PrefixMatrix;
  prefixSquares : PrefixMatrix;
  height : Z;
  width : Z;
  built : bool;
  globalMean : float;
  globalVariance : float;
  globalStdDev : float;
  totalSum : Z;
  totalPixels : Z
}.

(** [PrefixSum::PrefixSum()] *)
Definition init : t :=
  mk [] [] 0 0 false PrimFloat.zero PrimFloat.zero PrimFloat.zero 0 0.

(** [image[r][c]]; the raster is rectangular, so no read is outside it. *)
Definition imageAt (image : Matrix) (r c : nat) : Pixel :=
  default "000"%byte (image !! r ≫= fun row => row !! c).

(** [m[i][j]] inside the loops of [build], where [i] and [j] range over
    the rows and columns the table was allocated with. *)
Definition cell (m : PrefixMatrix) (i j : nat) : Z :=
  default 0 (m !! i ≫= fun row => row !! j).

(** [m[i][j] = v] *)
Definition setCell (m : PrefixMatrix) (i j : nat) (v : Z) : PrefixMatrix :=
  alter (fun row => <[j := v]> row) i m.

(** The body of the inner loop of [build], lines 91-104. *)
Definition build_cell (image : Matrix) (i j : nat)
    (st : PrefixMatrix * PrefixMatrix) : PrefixMatrix * PrefixMatrix :=
  let pixelValue := pixelValue (imageAt image (i - 1) (j - 1)) in
  let prefix := fst st in
  let prefixSquares := snd st in
  (setCell prefix i j
     (int64 (int64 (int64 (pixelValue + cell prefix (i - 1) j)
                    + cell prefix i (j - 1))
             - cell prefix (i - 1) (j - 1))),
   setCell prefixSquares i j
     (int64 (int64 (int64 (int64 (pixelValue * pixelValue)
                           + cell prefixSquares (i - 1) j)
                    + cell prefixSquares i (j - 1))
             - cell prefixSquares (i - 1) (j - 1)))).

(** [for (int j = 1; j <= width; j++)] *)
Definition build_row (image : Matrix) (w : nat) (i : nat)
    (st : PrefixMatrix * PrefixMatrix) : PrefixMatrix * PrefixMatrix :=
  fold_left (fun st j => build_cell image i j st) (seq 1 w) st.

(** [for (int i = 1; i <= height; i++)] *)
Definition build_tables (image : Matrix) (h w : nat)
    (st : PrefixMatrix * PrefixMatrix) : PrefixMatrix * PrefixMatrix :=
  fold_left (fun st i => build_row image w i st) (seq 1 h) st.

(** [PrefixSum::build] *)
Definition build (ps : t) (image : Matrix) : t :=
  match image with
  | [] => ps
  | [] :: _ => ps
  | (_ :: _) as row0 :: _ =>
      let height := int32 (Z.of_nat (length image)) in
      let width := int32 (Z.of_nat (length row0)) in
      let totalPixels := int64 (height * width) in
      let zeros :=
        replicate (Z.to_nat (int32 (height + 1)))
                  (replicate (Z.to_nat (int32 (width + 1))) 0) in
      let tables :=
        build_tables image (Z.to_nat height) (Z.to_nat width) (zeros, zeros) in
      let totalSum := cell (fst tables) (Z.to_nat height) (Z.to_nat width) in
      let globalMean :=
        PrimFloat.div (double_of_int totalSum) (double_of_int totalPixels) in
      let sumSquares := cell (snd tables) (Z.to_nat height) (Z.to_nat width) in
      let meanOfSquares :=
        PrimFloat.div (double_of_int sumSquares) (double_of_int totalPixels) in
      let globalVariance :=
        PrimFloat.sub meanOfSquares (PrimFloat.mul globalMean globalMean) in
      let globalStdDev := PrimFloat.sqrt (fmax PrimFloat.zero globalVariance) in
      mk (fst tables) (snd tables) height width true
         globalMean globalVariance globalStdDev totalSum totalPixels
  end.

(** [m[i][j]] in a query: [None] stands for a read outside the vector,
    which the C++ leaves undefined. *)
Definition at2 (m : PrefixMatrix) (i j : Z) : option Z :=
  if (i <? 0) || (j <? 0) then None
  else m !! Z.to_nat i ≫= fun row => row !! Z.to_nat j.

(** The four-corner lookup shared by [querySum] and [querySumSquares]. *)
Definition lookup4 (m : PrefixMatrix) (r1 c1 r2 c2 : Z) : option Z :=
  a ← at2 m (int32 (r2 + 1)) (int32 (c2 + 1));
  b ← at2 m r1 (int32 (c2 + 1));
  c ← at2 m (int32 (r2 + 1)) c1;
  d ← at2 m r1 c1;
  Some (int64 (int64 (int64 (a - b) - c) + d)).

(** [PrefixSum::querySum(int r1, int c1, int r2, int c2)] *)
Definition querySum (ps : t) (r1 c1 r2 c2 : Z) : option Z :=
  if negb (built ps) then Some 0
  else
    let r1 := Z.max 0 r1 in
    let c1 := Z.max 0 c1 in
    let r2 := Z.min (int32 (height ps - 1)) r2 in
    let c2 := Z.min (int32 (width ps - 1)) c2 in
    if (r1 >? r2) || (c1 >? c2) then Some 0
    else lookup4 (prefix ps) r1 c1 r2 c2.

(** [PrefixSum::querySumSquares(int r1, int c1, int r2, int c2)] *)
Definition querySumSquares (ps : t) (r1 c1 r2 c2 : Z) : option Z :=
  if negb (built ps) then Some 0
  else
    let r1 := Z.max 0 r1 in
    let c1 := Z.max 0 c1 in
    let r2 := Z.min (int32 (height ps - 1)) r2 in
    let c2 := Z.min (int32 (width ps - 1)) c2 in
    if (r1 >? r2) || (c1 >? c2) then Some 0
    else lookup4 (prefixSquares ps) r1 c1 r2 c2.

(** The overloads taking a [Region]. *)
Definition querySumR (ps : t) (region : Region) : option Z :=
  querySum ps (row1 region) (col1 region) (row2 region) (col2 region).

Definition querySumSquaresR (ps : t) (region : Region) : option Z :=
  querySumSquares ps (row1 region) (col1 region) (row2 region) (col2 region).

(** [PrefixSum::queryStats(int r1, int c1, int r2, int c2)] *)
Definition queryStats (ps : t) (r1 c1 r2 c2 : Z) : option RegionStats :=
  if negb (built ps) || (r1 >? r2) || (c1 >? c2) then Some RegionStats_default
  else
    s ← querySum ps r1 c1 r2 c2;
    let area := int64 (int64 (int32 (int32 (r2 - r1) + 1))
                       * int64 (int32 (int32 (c2 - c1) + 1))) in
    if area =? 0
    then Some (mkRegionStats PrimFloat.zero PrimFloat.zero PrimFloat.zero s area)
    else
      let mean := PrimFloat.div (double_of_int s) (double_of_int area) in
      sumSquares ← querySumSquares ps r1 c1 r2 c2;
      let meanOfSquares :=
        PrimFloat.div (double_of_int sumSquares) (double_of_int area) in
      let variance :=
        fmax PrimFloat.zero (PrimFloat.sub meanOfSquares (PrimFloat.mul mean mean)) in
      Some (mkRegionStats mean variance (PrimFloat.sqrt variance) s area).

Definition queryStatsR (ps : t) (region : Region) : option RegionStats :=
  queryStats ps (row1 region) (col1 region) (row2 region) (col2 region).

(** [PrefixSum::queryMean] *)
Definition queryMean (ps : t) (region : Region) : option float :=
  if negb (built ps) then Some PrimFloat.zero
  else
    s ← querySumR ps region;
    let a := area region in
    Some (if a >? 0 then PrimFloat.div (double_of_int s) (double_of_int a)
          else PrimFloat.zero).

(** [PrefixSum::queryVariance] *)
Definition queryVariance (ps : t) (region : Region) : option float :=
  variance <$> queryStatsR ps region.

(** The body of the double loop of [verify], lines 235-241.  The state is
    [(bruteSum, bruteSumSquares)]; [None] is a read outside a row. *)
Definition verify_cell (image : Matrix) (r c : Z) (acc : Z * Z) : option (Z * Z) :=
  if (r >=? 0) && (r <? int32 (Z.of_nat (length image)))
     && (c >=? 0) && (c <? int32 (Z.of_nat (length (default [] (head image)))))
  then
    p ← image !! Z.to_nat r ≫= (fun row => row !! Z.to_nat c);
    let val := pixelValue p in
    Some (int64 (fst acc + val), int64 (snd acc + int64 (val * val)))
  else Some acc.

(** [for (int c = region.col1; c <= region.col2; c++)] *)
Definition verify_row (image : Matrix) (region : Region) (acc : option (Z * Z)) (r : Z)
    : option (Z * Z) :=
  fold_left (fun acc c => a ← acc; verify_cell image r c a)
            (seqZ (col1 region) (col2 region - col1 region + 1)) acc.

(** The two loops of [verify].  A loop whose bound is [INT_MAX] does not end
    (its counter overflows): [None]. *)
Definition verify_sums (image : Matrix) (region : Region) : option (Z * Z) :=
  if (row1 region <=? row2 region)
     && ((row2 region =? INT_MAX)
         || ((col1 region <=? col2 region) && (col2 region =? INT_MAX)))
  then None
  else fold_left (verify_row image region)
                 (seqZ (row1 region) (row2 region - row1 region + 1)) (Some (0, 0)).

(** [PrefixSum::verify] *)
Definition verify (ps : t) (image : Matrix) (region : Region) : option bool :=
  brute ← verify_sums image region;
  prefixSumResult ← querySumR ps region;
  prefixSumSquaresResult ← querySumSquaresR ps region;
  Some ((fst brute =? prefixSumResult) && (snd brute =? prefixSumSquaresResult)).

End PrefixSum.


(** ** RegionTree.h / RegionTree.cpp *)

Module RegionTree.

Record RegionTreeNode : Set := mkNode {
  id : Z;
  bounds : Region;
  stats : RegionStats;
  anomalyScore : float;
  isAnomaly : bool;
  depth : Z;
  children : list Z;        (* [int children[4]]: NW, NE, SW, SE; -1 if no child *)
  parent : Z
}.

(** [RegionTreeNode()] *)
Definition defaultNode : RegionTreeNode :=
  mkNode (-1) (mkRegion 0 0 0 0) RegionStats_default PrimFloat.zero false 0
         [-1; -1; -1; -1] (-1).

(** [node.children[i]] *)
Definition child (n : RegionTreeNode) (i : nat) : Z := default (-1) (children n !! i).

Definition isLeaf (n : RegionTreeNode) : bool :=
  (child n 0 =? -1) && (child n 1 =? -1) && (child n 2 =? -1) && (child n 3 =? -1).

(** The assignments of [buildRecursive], lines 96-100. *)
Definition initNode (nodeIdx : Z) (region : Region) (depth parentIdx : Z)
    (n : RegionTreeNode) : RegionTreeNode :=
  mkNode nodeIdx region (stats n) (anomalyScore n) (isAnomaly n) depth
         [-1; -1; -1; -1] parentIdx.

Definition setStats (s : RegionStats) (n : RegionTreeNode) : RegionTreeNode :=
  mkNode (id n) (bounds n) s (anomalyScore n) (isAnomaly n) (depth n)
         (children n) (parent n).

(** [node.children[i] = c] *)
Definition setChild (i : nat) (c : Z) (n : RegionTreeNode) : RegionTreeNode :=
  mkNode (id n) (bounds n) (stats n) (anomalyScore n) (isAnomaly n) (depth n)
         (<[i := c]> (children n)) (parent n).

(** The tree.  [nodes] is a [std::vector]: besides its elements it has a
    capacity, and growing past the capacity moves the elements to new
    storage, after which every reference taken before is invalid.
    [moves] counts these reallocations, so that a reference can remember
    the storage it points into; [dangling] records that a write went through
    an invalidated reference (undefined behaviour in C++: the write lands in
    storage the vector no longer owns, and the vector does not change). *)
Record t : Set := mk {
  nodes : list RegionTreeNode;
  capacity : nat;
  moves : nat;
  dangling : bool;
  prefixSum : option PrefixSum.t;
  rootIndex : Z;
  nodeCount : Z;
  leafCount : Z;
  maxDepth : Z;
  minRegionSize : Z
}.

(** [RegionTree::RegionTree()] *)
Definition init : t := mk [] 0 0 false None (-1) 0 0 0 16.

Definition withNodes (tr : t) (ns : list RegionTreeNode) : t :=
  mk ns (capacity tr) (moves tr) (dangling tr) (prefixSum tr) (rootIndex tr)
     (nodeCount tr) (leafCount tr) (maxDepth tr) (minRegionSize tr).

(** [nodes.emplace_back()]: within the capacity the element is appended in
    place; otherwise the storage is reallocated (libstdc++ doubles it). *)
Definition emplace_back (tr : t) : t :=
  if (length (nodes tr) <? capacity tr)%nat
  then withNodes tr (nodes tr ++ [defaultNode])
  else mk (nodes tr ++ [defaultNode]) (Nat.max 1 (2 * capacity tr)) (S (moves tr))
          (dangling tr) (prefixSum tr) (rootIndex tr)
          (nodeCount tr) (leafCount tr) (maxDepth tr) (minRegionSize tr).

(** [nodes.reserve(n)] *)
Definition reserve (n : nat) (tr : t) : t :=
  if (n <=? capacity tr)%nat then tr
  else mk (nodes tr) n (S (moves tr)) (dangling tr) (prefixSum tr) (rootIndex tr)
          (nodeCount tr) (leafCount tr) (maxDepth tr) (minRegionSize tr).

(** A reference [RegionTreeNode& node = nodes[idx]]: the storage it points
    into and the position. *)
Record NodeRef : Set := mkRef { ref_storage : nat; ref_index : nat }.

Definition refTo (tr : t) (idx : nat) : NodeRef := mkRef (moves tr) idx.

(** An assignment [node.field = ...] through a reference. *)
Definition writeVia (node : NodeRef) (upd : RegionTreeNode -> RegionTreeNode)
    (tr : t) : t :=
  if (ref_storage node =? moves tr)%nat
  then withNodes tr (alter upd (ref_index node) (nodes tr))
  else mk (nodes tr) (capacity tr) (moves tr) true (prefixSum tr) (rootIndex tr)
          (nodeCount tr) (leafCount tr) (maxDepth tr) (minRegionSize tr).

(** [RegionTree::splitRegion] *)
Definition splitRegion (region : Region) : list Region :=
  let midRow := cdiv (int32 (row1 region + row2 region)) 2 in
  let midCol := cdiv (int32 (col1 region + col2 region)) 2 in
  [ mkRegion (row1 region) (col1 region) midRow midCol;                       (* NW *)
    mkRegion (row1 region) (int32 (midCol + 1)) midRow (col2 region);         (* NE *)
    mkRegion (int32 (midRow + 1)) (col1 region) (row2 region) midCol;         (* SW *)
    mkRegion (int32 (midRow + 1)) (int32 (midCol + 1)) (row2 region) (col2 region) ]. (* SE *)

(** [RegionTree::computeNodeStats].  [queryStats] reads inside its tables on
    every built index, so its [None] does not arise here. *)
Definition computeNodeStats (node : NodeRef) (region : Region) (tr : t) : t :=
  match prefixSum tr with
  | None => tr
  | Some ps =>
      if negb (PrefixSum.built ps) then tr
      else match PrefixSum.queryStatsR ps region with
           | Some s => writeVia node (setStats s) tr
           | None => tr
           end
  end.

(** [maxDepth = std::max(maxDepth, depth); nodeCount++;] *)
Definition countNode (depth : Z) (tr : t) : t :=
  mk (nodes tr) (capacity tr) (moves tr) (dangling tr) (prefixSum tr) (rootIndex tr)
     (int32 (nodeCount tr + 1)) (leafCount tr) (Z.max (maxDepth tr) depth)
     (minRegionSize tr).

(** [leafCount++;] *)
Definition countLeaf (tr : t) : t :=
  mk (nodes tr) (capacity tr) (moves tr) (dangling tr) (prefixSum tr) (rootIndex tr)
     (nodeCount tr) (int32 (leafCount tr + 1)) (maxDepth tr) (minRegionSize tr).

(** One round of the loop of [buildRecursive], lines 123-127:
    [if (quadrants[i].isValid())
       node.children[i] = buildRecursive(quadrants[i], depth + 1, nodeIdx);]
    The recursive call runs first and may grow the vector; the assignment
    then goes through [node], the reference taken before the call. *)
Definition buildChild (recurse : Region -> Z -> Z -> t -> option (Z * t))
    (node : NodeRef) (nodeIdx depth : Z) (acc : option t) (iq : nat * Region)
    : option t :=
  tr ← acc;
  if isValid (snd iq)
  then
    r ← recurse (snd iq) (int32 (depth + 1)) nodeIdx tr;
    Some (writeVia node (setChild (fst iq) (fst r)) (snd r))
  else Some tr.

(** [RegionTree::buildRecursive].  The recursion is bounded by [fuel];
    [None] means the fuel ran out. *)
Fixpoint buildRecursive (fuel : nat) (region : Region) (depth parentIdx : Z)
    (tr : t) : option (Z * t) :=
  match fuel with
  | O => None
  | S fuel =>
      let nodeIdx := length (nodes tr) in
      let tr := emplace_back tr in
      let node := refTo tr nodeIdx in
      let tr := writeVia node (initNode (Z.of_nat nodeIdx) region depth parentIdx) tr in
      let tr := computeNodeStats node region tr in
      let tr := countNode depth tr in
      let regionHeight := int32 (int32 (row2 region - row1 region) + 1) in
      let regionWidth := int32 (int32 (col2 region - col1 region) + 1) in
      if (regionHeight <=? minRegionSize tr) || (regionWidth <=? minRegionSize tr)
      then Some (Z.of_nat nodeIdx, countLeaf tr)
      else
        tr' ← fold_left (buildChild (buildRecursive fuel) node (Z.of_nat nodeIdx) depth)
                (zip [0; 1; 2; 3]%nat (splitRegion region)) (Some tr);
        Some (Z.of_nat nodeIdx, tr')
  end.

(** [RegionTree::build].  [None] stands for a run that does not return:
    the division by a zero [minSize], the [std::length_error] of a negative
    reservation, or a recursion that outlasts the fuel. *)
Definition build (fuel : nat) (tr : t) (prefix : option PrefixSum.t) (minSize : Z)
    : option t :=
  match prefix with
  | None => Some tr
  | Some ps =>
      if negb (PrefixSum.built ps) then Some tr
      else if minSize =? 0 then None
      else
        let estimatedNodes :=
          int32 (int32 (int32 (cdiv (PrefixSum.height ps) minSize + 1)
                        * int32 (cdiv (PrefixSum.width ps) minSize + 1)) * 2) in
        if estimatedNodes <? 0 then None
        else
          let tr := mk [] (capacity tr) (moves tr) (dangling tr) (Some ps)
                       (rootIndex tr) 0 0 0 minSize in
          let tr := reserve (Z.to_nat estimatedNodes) tr in
          let fullImage :=
            mkRegion 0 0 (int32 (PrefixSum.height ps - 1))
                     (int32 (PrefixSum.width ps - 1)) in
          r ← buildRecursive fuel fullImage 0 (-1) tr;
          Some (mk (nodes (snd r)) (capacity (snd r)) (moves (snd r))
                   (dangling (snd r)) (prefixSum (snd r)) (fst r)
                   (nodeCount (snd r)) (leafCount (snd r)) (maxDepth (snd r))
                   (minRegionSize (snd r)))
  end.

(** [RegionTree::getLeaves] *)
Definition getLeaves (tr : t) : list RegionTreeNode := filter (fun n => isLeaf n = true) (nodes tr).

(** [RegionTree::getNodesAtDepth] *)
Definition getNodesAtDepth (tr : t) (d : Z) : list RegionTreeNode :=
  filter (fun n => depth n = d) (nodes tr).

(** [for (int i = 0; i < 4; i++) if (node.children[i] >= 0) queue.push(node.children[i]);]
    The queue is a list with its front first. *)
Definition enqueueChildren (node : RegionTreeNode) (queue : list Z) : list Z :=
  fold_left (fun q i => if child node i >=? 0 then q ++ [child node i] else q)
            [0; 1; 2; 3]%nat queue.

(** The test of lines 237-240. *)
Definition intersects (bounds queryRegion : Region) : bool :=
  negb ((row2 bounds <? row1 queryRegion) || (row1 bounds >? row2 queryRegion)
        || (col2 bounds <? col1 queryRegion) || (col1 bounds >? col2 queryRegion)).

(** The [while (!queue.empty())] loop of [queryRegion], lines 229-253; one
    unit of fuel per iteration.  [None] is a run out of fuel or a read
    [nodes[idx]] outside the vector. *)
Fixpoint queryLoop (fuel : nat) (nodes : list RegionTreeNode) (queryRegion : Region)
    (queue : list Z) (result : list RegionTreeNode) : option (list RegionTreeNode) :=
  match queue with
  | [] => Some result
  | idx :: queue =>
      match fuel with
      | O => None
      | S fuel =>
          if idx <? 0 then None
          else
            node ← nodes !! Z.to_nat idx;
            if negb (intersects (bounds node) queryRegion)
            then queryLoop fuel nodes queryRegion queue result
            else if isLeaf node
            then queryLoop fuel nodes queryRegion queue (result ++ [node])
            else queryLoop fuel nodes queryRegion (enqueueChildren node queue) result
      end
  end.

(** [RegionTree::queryRegion] *)
Definition queryRegion (fuel : nat) (tr : t) (queryRegion : Region)
    : option (list RegionTreeNode) :=
  if rootIndex tr <? 0 then Some []
  else queryLoop fuel (nodes tr) queryRegion [rootIndex tr] [].

End RegionTree.

(** ** AnomalyDetector.h / AnomalyDetector.cpp *)

Module AnomalyDetector.

Record AnomalyStats : Set := mkStats {
  totalRegions : Z;
  anomalousRegions : Z;
  minScore : float;
  maxScore : float;
  meanScore : float
}.

Record t : Set := mk {
  prefixSum : option PrefixSum.t;
  threshold : float;
  globalMean : float;
  globalStdDev : float;
  stats : AnomalyStats;
  detectionComplete : bool
}.

(** [AnomalyDetector::AnomalyDetector(double threshold)] *)
Definition new (threshold : float) : t :=
  mk None threshold PrimFloat.zero PrimFloat.zero
     (mkStats 0 0 PrimFloat.zero PrimFloat.zero PrimFloat.zero) false.

(** [AnomalyDetector::initialize] *)
Definition initialize (det : t) (prefix : option PrefixSum.t) : t :=
  match prefix with
  | Some ps =>
      if PrefixSum.built ps
      then mk prefix (threshold det) (PrefixSum.globalMean ps)
              (PrefixSum.globalStdDev ps) (stats det) false
      else mk prefix (threshold det) (globalMean det) (globalStdDev det)
              (stats det) false
  | None =>
      mk prefix (threshold det) (globalMean det) (globalStdDev det) (stats det) false
  end.

(** The literal [1e-10]: the binary64 number nearest to it. *)
Definition EPSILON : float := 0x1.b7cdfd9d7bdbbp-34%float.

(** [AnomalyDetector::computeScore]; [None] as in [PrefixSum.querySum]. *)
Definition computeScore (det : t) (region : Region) : option float :=
  match prefixSum det with
  | None => Some PrimFloat.zero
  | Some ps =>
      if negb (PrefixSum.built ps) then Some PrimFloat.zero
      else if PrimFloat.ltb (globalStdDev det) EPSILON then Some PrimFloat.zero
      else
        regionMean ← PrefixSum.queryMean ps region;
        let deviation := PrimFloat.abs (PrimFloat.sub regionMean (globalMean det)) in
        Some (PrimFloat.div deviation (globalStdDev det))
  end.

(** [AnomalyDetector::isAnomalous(double score)] *)
Definition isAnomalous (det : t) (score : float) : bool :=
  PrimFloat.ltb (threshold det) score.

(** What the loop of [detectInTree] accumulates besides the nodes. *)
Record Tally : Set := mkTally {
  tally_stats : AnomalyStats;
  tally_totalScore : float
}.

(** The body of the loop of [detectInTree], lines 113-128. *)
Definition scoreNode (det : t) (node : RegionTree.RegionTreeNode) (acc : Tally)
    : option (RegionTree.RegionTreeNode * Tally) :=
  score ← computeScore det (RegionTree.bounds node);
  let node' :=
    RegionTree.mkNode (RegionTree.id node) (RegionTree.bounds node)
      (RegionTree.stats node) score (isAnomalous det score)
      (RegionTree.depth node) (RegionTree.children node) (RegionTree.parent node) in
  let st := tally_stats acc in
  if RegionTree.isLeaf node'
  then
    Some (node',
          mkTally
            (mkStats (int32 (totalRegions st + 1))
               (if RegionTree.isAnomaly node' then int32 (anomalousRegions st + 1)
                else anomalousRegions st)
               (fmin (minScore st) score) (fmax (maxScore st) score) (meanScore st))
            (PrimFloat.add (tally_totalScore acc) score))
  else Some (node', acc).

(** [for (auto& node : nodes)] *)
Fixpoint scoreNodes (det : t) (nodes : list RegionTree.RegionTreeNode) (acc : Tally)
    : option (list RegionTree.RegionTreeNode * Tally) :=
  match nodes with
  | [] => Some ([], acc)
  | node :: rest =>
      r ← scoreNode det node acc;
      rs ← scoreNodes det rest (snd r);
      Some (fst r :: fst rs, snd rs)
  end.

(** [std::numeric_limits<double>::max()] *)
Definition DBL_MAX : float := 0x1.fffffffffffffp+1023%float.

(** [AnomalyDetector::detectInTree] *)
Definition detectInTree (det : t) (tree : RegionTree.t)
    : option (t * RegionTree.t) :=
  match prefixSum det with
  | None => Some (det, tree)
  | Some ps =>
      if negb (PrefixSum.built ps) then Some (det, tree)
      else
        r ← scoreNodes det (RegionTree.nodes tree)
               (mkTally (mkStats 0 0 DBL_MAX PrimFloat.zero (meanScore (stats det)))
                        PrimFloat.zero);
        let st := tally_stats (snd r) in
        let meanScore :=
          if totalRegions st >? 0
          then PrimFloat.div (tally_totalScore (snd r)) (double_of_int (totalRegions st))
          else PrimFloat.zero in
        Some (mk (prefixSum det) (threshold det) (globalMean det) (globalStdDev det)
                 (mkStats (totalRegions st) (anomalousRegions st) (minScore st)
                          (maxScore st) meanScore)
                 true,
              RegionTree.withNodes tree (fst r))
  end.

(** [AnomalyDetector::isAnomalous(const Region&)] *)
Definition isAnomalousR (det : t) (region : Region) : option bool :=
  score ← computeScore det region;
  Some (PrimFloat.ltb (threshold det) score).

(** [AnomalyDetector::getAnomalousRegions] *)
Definition getAnomalousRegions (det : t) (tree : RegionTree.t) : list AnomalyRegion :=
  sortByScore
    (map (fun node => mkAnomalyRegion (RegionTree.bounds node)
                        (RegionTree.anomalyScore node) (RegionTree.id node))
         (filter (fun node => RegionTree.isAnomaly node = true)
                 (RegionTree.getLeaves tree))).

End AnomalyDetector.

(** ** QueryEngine.h / QueryEngine.cpp *)

(** *** [std::priority_queue<T, std::vector<T>, Compare>]

    The standard fixes the contract, not the layout: [top()] is an element
    that [comp] orders before no other element of the queue.  The model
    keeps the elements in a list with the top first; among elements that
    [comp] does not tell apart the one pushed first stays nearer the top. *)
Module PriorityQueue.

Section Queue.

Variable T : Type.
Variable comp : T -> T -> bool.

Fixpoint push (x : T) (q : list T) : list T :=
  match q with
  | [] => [x]
  | y :: q' => if comp y x then x :: q else y :: push x q'
  end.

Definition top (q : list T) : option T := head q.

Definition pop (q : list T) : list T := tail q.

(** [while (!q.empty()) { out.push_back(q.top()); q.pop(); }] *)
Fixpoint drain (q : list T) : list T :=
  match q with
  | [] => []
  | x :: q' => x :: drain q'
  end.

End Queue.

End PriorityQueue.

(** *** [UnionFind] *)
Module UnionFind.

Record t : Set := mk {
  parent : list nat;
  rank : list nat;
  size : list Z;
  numComponents : Z
}.

(** [UnionFind::UnionFind(int n)] *)
Definition new (n : nat) : t :=
  mk (seq 0 n) (replicate n 0%nat) (replicate n 1) (Z.of_nat n).

(** [UnionFind::find], with path compression.  [fuel] bounds the depth of
    the recursion; [None] is a run out of fuel or a read outside a vector. *)
Fixpoint find (fuel : nat) (uf : t) (x : nat) : option (nat * t) :=
  match fuel with
  | O => None
  | S fuel =>
      p ← parent uf !! x;
      if (p =? x)%nat then Some (p, uf)
      else
        r ← find fuel uf p;
        let uf' := snd r in
        Some (fst r,
              mk (<[x := fst r]> (parent uf')) (rank uf') (size uf') (numComponents uf'))
  end.

(** [UnionFind::unite], union by rank. *)
Definition unite (fuel : nat) (uf : t) (x y : nat) : option (bool * t) :=
  rx ← find fuel uf x;
  ry ← find fuel (snd rx) y;
  let rootX := fst rx in
  let rootY := fst ry in
  let uf := snd ry in
  if (rootX =? rootY)%nat then Some (false, uf)
  else
    rankX ← rank uf !! rootX;
    rankY ← rank uf !! rootY;
    sizeX ← size uf !! rootX;
    sizeY ← size uf !! rootY;
    if (rankX <? rankY)%nat
    then Some (true,
               mk (<[rootX := rootY]> (parent uf)) (rank uf)
                  (<[rootY := int64 (sizeY + sizeX)]> (size uf))
                  (int32 (numComponents uf - 1)))
    else if (rankY <? rankX)%nat
    then Some (true,
               mk (<[rootY := rootX]> (parent uf)) (rank uf)
                  (<[rootX := int64 (sizeX + sizeY)]> (size uf))
                  (int32 (numComponents uf - 1)))
    else Some (true,
               mk (<[rootY := rootX]> (parent uf)) (<[rootX := S rankX]> (rank uf))
                  (<[rootX := int64 (sizeX + sizeY)]> (size uf))
                  (int32 (numComponents uf - 1))).

(** [UnionFind::connected] *)
Definition connected (fuel : nat) (uf : t) (x y : nat) : option (bool * t) :=
  rx ← find fuel uf x;
  ry ← find fuel (snd rx) y;
  Some ((fst rx =? fst ry)%nat, snd ry).

(** [UnionFind::setSize] *)
Definition setSize (fuel : nat) (uf : t) (x : nat) (s : Z) : option t :=
  r ← find fuel uf x;
  let uf := snd r in
  Some (mk (parent uf) (rank uf) (<[fst r := s]> (size uf)) (numComponents uf)).

(** [UnionFind::getSize]: [return size[find(x)];] *)
Definition getSize (fuel : nat) (uf : t) (x : nat) : option (Z * t) :=
  r ← find fuel uf x;
  s ← size (snd r) !! fst r;
  Some (s, snd r).

(** [UnionFind::getNumComponents] *)
Definition getNumComponents (uf : t) : Z := numComponents uf.

End UnionFind.

Module QueryEngine.

Record ConnectedComponent : Set := mkComponent {
  cc_id : Z;
  nodeIndices : list Z;
  boundingBox : Region;
  totalArea : Z;
  maxScore : float;
  avgScore : float
}.

Record QueryResult : Set := mkResult {
  regions : list AnomalyRegion;
  nodesVisited : Z;
  nodesPruned : Z
}.

Record t : Set := mk {
  regionTree : option RegionTree.t;
  prefixSum : option PrefixSum.t;
  detector : option AnomalyDetector.t
}.

(** [QueryEngine::QueryEngine()] and [QueryEngine::initialize] *)
Definition new : t := mk None None None.

Definition initialize (tree : option RegionTree.t) (prefix : option PrefixSum.t)
    (det : option AnomalyDetector.t) : t := mk tree prefix det.

(** [QueryEngine::areAdjacent] *)
Definition areAdjacent (a b : Region) : bool :=
  let xOverlap := (col1 a <=? col2 b) && (col1 b <=? col2 a) in
  let yOverlap := (row1 a <=? row2 b) && (row1 b <=? row2 a) in
  if yOverlap && ((int32 (col2 a + 1) =? col1 b) || (int32 (col2 b + 1) =? col1 a))
  then true
  else if xOverlap && ((int32 (row2 a + 1) =? row1 b) || (int32 (row2 b + 1) =? row1 a))
  then true
  else false.

(** [QueryEngine::regionsIntersect] *)
Definition regionsIntersect (a b : Region) : bool :=
  negb ((row2 a <? row1 b) || (row1 a >? row2 b)
        || (col2 a <? col1 b) || (col1 a >? col2 b)).

(** [QueryEngine::mergeBounds] *)
Definition mergeBounds (a b : Region) : Region :=
  mkRegion (Z.min (row1 a) (row1 b)) (Z.min (col1 a) (col1 b))
           (Z.max (row2 a) (row2 b)) (Z.max (col2 a) (col2 b)).

(** How a top-K query ends: with a result, at a [top()] of an empty heap
    (undefined behaviour), or out of fuel. *)
Inductive outcome (A : Type) : Type :=
| Ok (a : A)
| EmptyTop
| OutOfFuel.

Arguments Ok {A} a.
Arguments EmptyTop {A}.
Arguments OutOfFuel {A}.

Definition bind {A B : Type} (o : outcome A) (f : A -> outcome B) : outcome B :=
  match o with
  | Ok a => f a
  | EmptyTop => EmptyTop
  | OutOfFuel => OutOfFuel
  end.

(** The heap of both top-K queries:
    [std::priority_queue<AnomalyRegion, std::vector<AnomalyRegion>,
                         std::greater<AnomalyRegion>>]. *)
Definition heap_push := PriorityQueue.push AnomalyRegion std_greater.
Definition heap_top := PriorityQueue.top AnomalyRegion.
Definition heap_pop := PriorityQueue.pop AnomalyRegion.

Definition regionOf (node : RegionTree.RegionTreeNode) : AnomalyRegion :=
  mkAnomalyRegion (RegionTree.bounds node) (RegionTree.anomalyScore node)
                  (RegionTree.id node).

(** Lines 231-239 and 309-314: push while the heap has fewer than [k]
    elements, else replace the top when the candidate scores above it. *)
Definition offer (k : Z) (ar : AnomalyRegion) (minHeap : list AnomalyRegion)
    : outcome (list AnomalyRegion) :=
  if int32 (Z.of_nat (length minHeap)) <? k then Ok (heap_push ar minHeap)
  else
    match heap_top minHeap with
    | None => EmptyTop
    | Some t =>
        if PrimFloat.ltb (ar_anomalyScore t) (ar_anomalyScore ar)
        then Ok (heap_push ar (heap_pop minHeap))
        else Ok minHeap
    end.

(** The body of the loop of [topKAnomalies]; the state is the heap and
    [result.nodesVisited]. *)
Definition visit (k : Z) (leafOnly : bool) (node : RegionTree.RegionTreeNode)
    (st : list AnomalyRegion * Z) : outcome (list AnomalyRegion * Z) :=
  if leafOnly && negb (RegionTree.isLeaf node) then Ok st
  else bind (offer k (regionOf node) (fst st))
            (fun h => Ok (h, int32 (snd st + 1))).

Fixpoint visitAll (k : Z) (leafOnly : bool) (nodes : list RegionTree.RegionTreeNode)
    (st : list AnomalyRegion * Z) : outcome (list AnomalyRegion * Z) :=
  match nodes with
  | [] => Ok st
  | node :: rest => bind (visit k leafOnly node st) (visitAll k leafOnly rest)
  end.

(** [QueryEngine::topKAnomalies] *)
Definition topKAnomalies (qe : t) (k : Z) (leafOnly : bool) : outcome QueryResult :=
  match regionTree qe with
  | None => Ok (mkResult [] 0 0)
  | Some tree =>
      bind (visitAll k leafOnly (RegionTree.nodes tree) ([], 0))
           (fun st =>
              Ok (mkResult (rev (PriorityQueue.drain AnomalyRegion (fst st)))
                           (snd st) 0))
  end.

(** The state of the loop of [topKWithPruning]. *)
Record Pruning : Set := mkPruning {
  pr_heap : list AnomalyRegion;
  pr_toVisit : list Z;
  pr_visited : Z;
  pr_pruned : Z
}.

(** [for (int i = 0; i < 4; i++) if (node.children[i] >= 0) toVisit.push(...)] *)
Definition pushChildren (node : RegionTree.RegionTreeNode) (toVisit : list Z) : list Z :=
  fold_left (fun q i => if RegionTree.child node i >=? 0
                        then q ++ [RegionTree.child node i] else q)
            [0; 1; 2; 3]%nat toVisit.

(** The loop of [topKWithPruning], lines 287-323; one unit of fuel per
    iteration. *)
Fixpoint pruningLoop (fuel : nat) (nodes : list RegionTree.RegionTreeNode) (k : Z)
    (st : Pruning) : outcome Pruning :=
  match pr_toVisit st with
  | [] => Ok st
  | idx :: toVisit =>
      match fuel with
      | O => OutOfFuel
      | S fuel =>
          if (idx <? 0) || (idx >=? int32 (Z.of_nat (length nodes)))
          then pruningLoop fuel nodes k
                 (mkPruning (pr_heap st) toVisit (pr_visited st) (pr_pruned st))
          else
            let node := default RegionTree.defaultNode (nodes !! Z.to_nat idx) in
            let visited := int32 (pr_visited st + 1) in
            bind
              (if int32 (Z.of_nat (length (pr_heap st))) >=? k
               then match heap_top (pr_heap st) with
                    | None => EmptyTop
                    | Some t => Ok (PrimFloat.ltb (RegionTree.anomalyScore node)
                                                  (ar_anomalyScore t))
                    end
               else Ok false)
              (fun canPrune =>
                 if canPrune && negb (RegionTree.isLeaf node)
                 then pruningLoop fuel nodes k
                        (mkPruning (pr_heap st) toVisit visited
                                   (int32 (pr_pruned st + 1)))
                 else if RegionTree.isLeaf node
                 then bind (offer k (regionOf node) (pr_heap st))
                           (fun h => pruningLoop fuel nodes k
                                       (mkPruning h toVisit visited (pr_pruned st)))
                 else pruningLoop fuel nodes k
                        (mkPruning (pr_heap st) (pushChildren node toVisit) visited
                                   (pr_pruned st)))
      end
  end.

(** [QueryEngine::topKWithPruning] *)
Definition topKWithPruning (fuel : nat) (qe : t) (k : Z) : outcome QueryResult :=
  match regionTree qe with
  | None => Ok (mkResult [] 0 0)
  | Some tree =>
      bind (pruningLoop fuel (RegionTree.nodes tree) k (mkPruning [] [0] 0 0))
           (fun st =>
              Ok (mkResult (rev (PriorityQueue.drain AnomalyRegion (pr_heap st)))
                           (pr_visited st) (pr_pruned st)))
  end.

(** *** Connected components of the anomalous leaves *)

(** The anomalous leaves, as both component finders collect them. *)
Definition anomalousLeaves (tree : RegionTree.t) : list RegionTree.RegionTreeNode :=
  filter (fun leaf => RegionTree.isAnomaly leaf = true) (RegionTree.getLeaves tree).

(** [anomalousNodes[i]] *)
Definition nodeAt (anomalousNodes : list RegionTree.RegionTreeNode) (i : nat)
    : RegionTree.RegionTreeNode :=
  default RegionTree.defaultNode (anomalousNodes !! i).

(** A component while its members are being added. *)
Record Gathering : Set := mkGathering {
  g_nodeIndices : list Z;
  g_boundingBox : Region;
  g_totalArea : Z;
  g_maxScore : float;
  g_scoreSum : float
}.

(** Lines 422-429 and 524-535: one more member. *)
Definition gather (mergeFirst : bool) (node : RegionTree.RegionTreeNode)
    (g : Gathering) : Gathering :=
  mkGathering
    (g_nodeIndices g ++ [RegionTree.id node])
    (if mergeFirst then mergeBounds (g_boundingBox g) (RegionTree.bounds node)
     else RegionTree.bounds node)
    (int64 (g_totalArea g + area (RegionTree.bounds node)))
    (fmax (g_maxScore g) (RegionTree.anomalyScore node))
    (PrimFloat.add (g_scoreSum g) (RegionTree.anomalyScore node)).

(** [comp.avgScore = scoreSum / comp.nodeIndices.size(); components.push_back(comp);] *)
Definition finish (componentId : Z) (g : Gathering) : ConnectedComponent :=
  mkComponent componentId (g_nodeIndices g) (g_boundingBox g) (g_totalArea g)
    (g_maxScore g)
    (PrimFloat.div (g_scoreSum g) (double_of_int (Z.of_nat (length (g_nodeIndices g))))).

(** [std::sort] by descending [totalArea].  The order of components of
    equal area is not specified by [std::sort]; the model inserts stably. *)
Fixpoint insertByArea (c : ConnectedComponent) (l : list ConnectedComponent)
    : list ConnectedComponent :=
  match l with
  | [] => [c]
  | d :: l' => if totalArea d <? totalArea c then c :: l else d :: insertByArea c l'
  end.

Definition sortByArea (l : list ConnectedComponent) : list ConnectedComponent :=
  fold_left (fun acc c => insertByArea c acc) l [].

(** The pairs [(i, j)], [i < j < n], in the order of the two nested loops. *)
Definition pairs (n : nat) : list (nat * nat) :=
  flat_map (fun i => map (fun j => (i, j)) (seq (S i) (n - S i))) (seq 0 n).

(** Lines 384-386: the area of each leaf as the weight of its set. *)
Definition setSizes (fuel : nat) (anomalousNodes : list RegionTree.RegionTreeNode)
    (uf : UnionFind.t) : option UnionFind.t :=
  fold_left
    (fun acc i =>
       uf ← acc;
       UnionFind.setSize fuel uf i (area (RegionTree.bounds (nodeAt anomalousNodes i))))
    (seq 0 (length anomalousNodes)) (Some uf).

(** Lines 389-400: unite every adjacent pair. *)
Definition unitePair (fuel : nat) (anomalousNodes : list RegionTree.RegionTreeNode)
    (acc : option UnionFind.t) (ij : nat * nat) : option UnionFind.t :=
  uf ← acc;
  if areAdjacent (RegionTree.bounds (nodeAt anomalousNodes (fst ij)))
                 (RegionTree.bounds (nodeAt anomalousNodes (snd ij)))
  then
    u ← UnionFind.unite fuel uf (fst ij) (snd ij);
    if (fst u : bool)
    then r ← UnionFind.find fuel (snd u) (fst ij); Some (snd r)
    else Some (snd u)
  else Some uf.

Definition uniteAdjacent (fuel : nat) (anomalousNodes : list RegionTree.RegionTreeNode)
    (uf : UnionFind.t) : option UnionFind.t :=
  fold_left (unitePair fuel anomalousNodes) (pairs (length anomalousNodes)) (Some uf).

(** [rootToNodes[root].push_back(i)] on the [std::unordered_map].  The map
    is kept as an association list in the order the roots were first seen;
    the order in which an [unordered_map] is iterated is unspecified. *)
Fixpoint rootInsert (root i : nat) (m : list (nat * list nat)) : list (nat * list nat) :=
  match m with
  | [] => [(root, [i])]
  | (r, l) :: m' =>
      if (r =? root)%nat then (r, l ++ [i]) :: m' else (r, l) :: rootInsert root i m'
  end.

(** Lines 403-407: group the elements by their root. *)
Definition groupByRoot (fuel : nat) (n : nat) (uf : UnionFind.t)
    : option (list (nat * list nat)) :=
  r ← fold_left
        (fun acc i =>
           st ← acc;
           f ← UnionFind.find fuel (fst st) i;
           Some (snd f, rootInsert (fst f) i (snd st)))
        (seq 0 n) (Some (uf, []));
  Some (snd r).

(** Lines 411-434: one component per root. *)
Definition componentOfGroup (anomalousNodes : list RegionTree.RegionTreeNode)
    (componentId : Z) (members : list nat) : ConnectedComponent :=
  finish componentId
    (fold_left (fun g idx => gather true (nodeAt anomalousNodes idx) g) members
       (mkGathering []
          (RegionTree.bounds (nodeAt anomalousNodes (default 0%nat (head members))))
          0 PrimFloat.zero PrimFloat.zero)).

Definition componentsOfGroups (anomalousNodes : list RegionTree.RegionTreeNode)
    (groups : list (nat * list nat)) : list ConnectedComponent :=
  imap (fun k g => componentOfGroup anomalousNodes (Z.of_nat k) (snd g)) groups.

(** [QueryEngine::findConnectedComponents] *)
Definition findConnectedComponents (fuel : nat) (qe : t)
    : option (list ConnectedComponent) :=
  match regionTree qe with
  | None => Some []
  | Some tree =>
      let anomalousNodes := anomalousLeaves tree in
      let n := length anomalousNodes in
      if (n =? 0)%nat then Some []
      else
        uf ← setSizes fuel anomalousNodes (UnionFind.new n);
        uf ← uniteAdjacent fuel anomalousNodes uf;
        groups ← groupByRoot fuel n uf;
        Some (sortByArea (componentsOfGroups anomalousNodes groups))
  end.

(** Lines 488-496: the adjacency lists. *)
Definition addEdge (anomalousNodes : list RegionTree.RegionTreeNode)
    (adj : list (list nat)) (ij : nat * nat) : list (list nat) :=
  if areAdjacent (RegionTree.bounds (nodeAt anomalousNodes (fst ij)))
                 (RegionTree.bounds (nodeAt anomalousNodes (snd ij)))
  then alter (fun l => l ++ [fst ij]) (snd ij)
         (alter (fun l => l ++ [snd ij]) (fst ij) adj)
  else adj.

Definition adjacencyLists (anomalousNodes : list RegionTree.RegionTreeNode)
    : list (list nat) :=
  fold_left (addEdge anomalousNodes) (pairs (length anomalousNodes))
            (replicate (length anomalousNodes) []).

(** [for (int v : adj[u]) if (!visited[v]) stack.push(v);]
    The stack is a list with its top first. *)
Definition pushNeighbours (neighbours : list nat) (visited : list bool)
    (stack : list nat) : list nat :=
  fold_left (fun st v => if default true (visited !! v) then st else v :: st)
            neighbours stack.

(** The [while (!stack.empty())] loop, lines 517-543; one unit of fuel per
    iteration.  [first] of the C++ is [negb mergeFirst] here. *)
Fixpoint dfsLoop (fuel : nat) (anomalousNodes : list RegionTree.RegionTreeNode)
    (adj : list (list nat)) (stack : list nat) (visited : list bool)
    (mergeFirst : bool) (g : Gathering) : option (list bool * Gathering) :=
  match stack with
  | [] => Some (visited, g)
  | u :: stack =>
      match fuel with
      | O => None
      | S fuel =>
          seen ← visited !! u;
          if seen : bool
          then dfsLoop fuel anomalousNodes adj stack visited mergeFirst g
          else
            let visited := <[u := true]> visited in
            let g := gather mergeFirst (nodeAt anomalousNodes u) g in
            neighbours ← adj !! u;
            dfsLoop fuel anomalousNodes adj (pushNeighbours neighbours visited stack)
                    visited true g
      end
  end.

(** The [for (int start = 0; start < n; start++)] loop, lines 502-547. *)
Definition dfsFrom (fuel : nat) (anomalousNodes : list RegionTree.RegionTreeNode)
    (adj : list (list nat))
    (acc : option (list bool * list ConnectedComponent)) (start : nat)
    : option (list bool * list ConnectedComponent) :=
  st ← acc;
  seen ← fst st !! start;
  if seen : bool then Some st
  else
    r ← dfsLoop fuel anomalousNodes adj [start] (fst st) false
          (mkGathering [] (mkRegion 0 0 0 0) 0 PrimFloat.zero PrimFloat.zero);
    Some (fst r, snd st ++ [finish (Z.of_nat (length (snd st))) (snd r)]).

(** [QueryEngine::findConnectedComponentsDFS] *)
Definition findConnectedComponentsDFS (fuel : nat) (qe : t)
    : option (list ConnectedComponent) :=
  match regionTree qe with
  | None => Some []
  | Some tree =>
      let anomalousNodes := anomalousLeaves tree in
      let n := length anomalousNodes in
      if (n =? 0)%nat then Some []
      else
        let adj := adjacencyLists anomalousNodes in
        r ← fold_left (dfsFrom fuel anomalousNodes adj) (seq 0 n)
              (Some (replicate n false, []));
        Some (sortByArea (snd r))
  end.

(** [ConnectedComponent()] *)
Definition defaultComponent : ConnectedComponent :=
  mkComponent (-1) [] (mkRegion 0 0 0 0) 0 PrimFloat.zero PrimFloat.zero.

(** [QueryEngine::findLargestConnectedRegion] *)
Definition findLargestConnectedRegion (fuel : nat) (qe : t) : option ConnectedComponent :=
  components ← findConnectedComponents fuel qe;
  Some (match components with
        | [] => defaultComponent
        | first :: _ => first
        end).

(** [QueryEngine::queryRectangle] *)
Definition queryRectangle (fuel : nat) (qe : t) (queryRegion : Region)
    : option QueryResult :=
  match regionTree qe with
  | None => Some (mkResult [] 0 0)
  | Some tree =>
      matchingNodes ← RegionTree.queryRegion fuel tree queryRegion;
      let r :=
        fold_left
          (fun (st : list AnomalyRegion * Z) node =>
             (if RegionTree.isAnomaly node
              then fst st ++ [mkAnomalyRegion (RegionTree.bounds node)
                                (RegionTree.anomalyScore node) (RegionTree.id node)]
              else fst st,
              int32 (snd st + 1)))
          matchingNodes ([], 0) in
      Some (mkResult (sortByScore (fst r)) (snd r) 0)
  end.

(** [QueryEngine::queryRegionStats] *)
Definition queryRegionStats (qe : t) (region : Region) : option RegionStats :=
  match prefixSum qe with
  | None => Some RegionStats_default
  | Some ps => PrefixSum.queryStatsR ps region
  end.

(** [QueryEngine::countAnomalousRegions] *)
Definition countAnomalousRegions (qe : t) : Z :=
  match regionTree qe with
  | None => 0
  | Some tree =>
      fold_left (fun count leaf =>
                   if RegionTree.isAnomaly leaf then int32 (count + 1) else count)
                (RegionTree.getLeaves tree) 0
  end.

(** [QueryEngine::getTotalAnomalousArea] *)
Definition getTotalAnomalousArea (qe : t) : Z :=
  match regionTree qe with
  | None => 0
  | Some tree =>
      fold_left (fun total leaf =>
                   if RegionTree.isAnomaly leaf
                   then int64 (total + area (RegionTree.bounds leaf)) else total)
                (RegionTree.getLeaves tree) 0
  end.

End QueryEngine.
Section MachineIntegers.

Lemma wrap_small w z : 0 < w -> - 2 ^ (w - 1) <= z < 2 ^ (w - 1) -> wrap w z = z.
Proof.
  intros Hw Hz. unfold wrap.
  assert (E : 2 ^ w = 2 * 2 ^ (w - 1)).
  { replace w with (Z.succ (w - 1)) at 1 by lia. rewrite Z.pow_succ_r; lia. }
  rewrite Z.mod_small; lia.
Qed.

Lemma int32_small z : in_int32 z -> int32 z = z.
Proof. intros H. apply wrap_small; [lia | exact H]. Qed.

Lemma int64_small z : in_int64 z -> int64 z = z.
Proof. intros H. apply wrap_small; [lia | exact H]. Qed.

Lemma wrap_shift w z k : wrap w (z + k * 2 ^ w) = wrap w z.
Proof.
  unfold wrap. f_equal.
  replace (z + k * 2 ^ w + 2 ^ (w - 1)) with (z + 2 ^ (w - 1) + k * 2 ^ w) by lia.
  apply Z_mod_plus_full.
Qed.

Lemma wrap_repr w z : 0 < w -> exists k, wrap w z = z + k * 2 ^ w.
Proof.
  intros Hw. exists (- ((z + 2 ^ (w - 1)) / 2 ^ w)). unfold wrap.
  assert (0 < 2 ^ w) by (apply Z.pow_pos_nonneg; lia).
  pose proof (Z.div_mod (z + 2 ^ (w - 1)) (2 ^ w)) as E. lia.
Qed.

Lemma wrap_add_l w a b : 0 < w -> wrap w (wrap w a + b) = wrap w (a + b).
Proof.
  intros Hw. destruct (wrap_repr w a Hw) as [k ->].
  replace (a + k * 2 ^ w + b) with (a + b + k * 2 ^ w) by lia.
  apply wrap_shift.
Qed.

Lemma wrap_sub_r w a b : 0 < w -> wrap w (a - wrap w b) = wrap w (a - b).
Proof.
  intros Hw. destruct (wrap_repr w b Hw) as [k ->].
  replace (a - (b + k * 2 ^ w)) with (a - b + (- k) * 2 ^ w) by lia.
  apply wrap_shift.
Qed.

Lemma int64_add_l a b : int64 (int64 a + b) = int64 (a + b).
Proof. apply wrap_add_l. lia. Qed.

Lemma int64_add_r a b : int64 (a + int64 b) = int64 (a + b).
Proof. rewrite (Z.add_comm a), int64_add_l. f_equal; lia. Qed.

Lemma int64_sub_r a b : int64 (a - int64 b) = int64 (a - b).
Proof. apply wrap_sub_r. lia. Qed.

Lemma int64_sub_l a b : int64 (int64 a - b) = int64 (a - b).
Proof.
  replace (int64 a - b) with (int64 a + - b) by lia.
  rewrite int64_add_l. f_equal; lia.
Qed.

End MachineIntegers.

(** ** Adjacency of regions *)

Section Adjacency.

Lemma isAdjacentTo_sym (a b : Region) : isAdjacentTo a b = isAdjacentTo b a.
Proof.
  unfold isAdjacentTo.
  rewrite (orb_comm (col2 a <? col1 b)), (orb_comm (row2 a <? row1 b)).
  rewrite (orb_comm (int32 (col2 a + 1) =? col1 b)).
  rewrite (orb_comm (int32 (row2 a + 1) =? row1 b)).
  reflexivity.
Qed.

Lemma isAdjacentTo_overlapping (a b : Region) :
  overlaps a b -> isAdjacentTo a b = false.
Proof.
  intros (r & c & Ha & Hb). unfold contains in Ha, Hb. unfold isAdjacentTo.
  apply andb_prop in Ha as [Ha Ha4]. apply andb_prop in Ha as [Ha Ha3].
  apply andb_prop in Ha as [Ha1 Ha2].
  apply andb_prop in Hb as [Hb Hb4]. apply andb_prop in Hb as [Hb Hb3].
  apply andb_prop in Hb as [Hb1 Hb2].
  assert (X : ((col2 a <? col1 b) || (col2 b <? col1 a)) = false).
  { apply orb_false_intro; apply Z.ltb_ge; lia. }
  assert (Y : ((row2 a <? row1 b) || (row2 b <? row1 a)) = false).
  { apply orb_false_intro; apply Z.ltb_ge; lia. }
  rewrite X, Y. reflexivity.
Qed.

Lemma isAdjacentTo_self_valid (a : Region) :
  isValid a = true -> isAdjacentTo a a = false.
Proof.
  intros Hv. apply isAdjacentTo_overlapping.
  unfold isValid in Hv. apply andb_prop in Hv as [Hr Hc].
  assert (C : contains a (row1 a) (col1 a) = true).
  { unfold contains. rewrite !andb_true_iff, !Z.geb_le, !Z.leb_le.
    apply Z.leb_le in Hr, Hc. lia. }
  exists (row1 a), (col1 a). split; exact C.
Qed.

End Adjacency.


(** C8, as stated, fails for an inverted region: [Region(0,1,0,0)] has no
    cell, its column test [col2 + 1 == col1] succeeds against itself, and
    [isAdjacentTo] answers [true]. *)
Lemma isAdjacentTo_inverted_self :
  isValid (mkRegion 0 1 0 0) = false
  /\ isAdjacentTo (mkRegion 0 1 0 0) (mkRegion 0 1 0 0) = true.
Proof. split; reflexivity. Qed.

(** C8 (amended).  [isAdjacentTo] is symmetric for all regions; a valid
    region ([row1 <= row2], [col1 <= col2]) is never adjacent to itself;
    and two regions that share a cell are never adjacent. *)
Theorem isAdjacentTo_symmetric_irreflexive (a b : Region) :
  isAdjacentTo a b = isAdjacentTo b a
  /\ (isValid a = true -> isAdjacentTo a a = false)
  /\ (overlaps a b -> isAdjacentTo a b = false).
Proof.
  split; [apply isAdjacentTo_sym|]. split.
  - apply isAdjacentTo_self_valid.
  - apply isAdjacentTo_overlapping.
Qed.

Lemma isAdjacentTo_symmetric_irreflexive_witness :
  isAdjacentTo (mkRegion 0 0 15 15) (mkRegion 0 16 15 31)
  = isAdjacentTo (mkRegion 0 16 15 31) (mkRegion 0 0 15 15)
  /\ isAdjacentTo (mkRegion 0 0 15 15) (mkRegion 0 0 15 15) = false
  /\ isAdjacentTo (mkRegion 0 0 15 15) (mkRegion 8 8 20 20) = false.
Proof.
  pose proof (isAdjacentTo_symmetric_irreflexive (mkRegion 0 0 15 15)
                (mkRegion 0 16 15 31)) as [S [I _]].
  pose proof (isAdjacentTo_symmetric_irreflexive (mkRegion 0 0 15 15)
                (mkRegion 8 8 20 20)) as [_ [_ O]].
  split; [exact S|]. split; [apply I; reflexivity|].
  apply O. exists 10, 10. split; reflexivity.
Defined.
(** ** Brute-force sums over a raster *)

Definition Zsum (l : list Z) : Z := foldr Z.add 0 l.

(** The cells [r], [c] of the raster with [row1 <= r <= row2] and
    [col1 <= c <= col2], each read, transformed by [f] and added up: the
    double loop of [PrefixSum::verify]. *)
Definition bruteForce (f : Z -> Z) (image : Matrix) (region : Region) : Z :=
  Zsum (map (fun r =>
         Zsum (map (fun c =>
                f (pixelValue (PrefixSum.imageAt image (Z.to_nat r) (Z.to_nat c))))
               (seqZ (col1 region) (col2 region - col1 region + 1))))
        (seqZ (row1 region) (row2 region - row1 region + 1))).

Definition square (v : Z) : Z := v * v.

(** A raster is rectangular, with [h] rows of [w] pixels. *)
Definition rectangular (image : Matrix) (h w : nat) : Prop :=
  length image = h /\ Forall (fun row => length row = w) image.

(** A region lies within the raster of [h] rows and [w] columns. *)
Definition within (region : Region) (h w : Z) : Prop :=
  0 <= row1 region /\ row2 region < h /\ 0 <= col1 region /\ col2 region < w.

(** A test helper: the pixel of intensity [n]. *)
Definition px (n : N) : Pixel := default "000"%byte (Byte.of_N n).

Definition sample3x3 : Matrix :=
  [[px 1; px 2; px 3]; [px 4; px 5; px 6]; [px 7; px 8; px 200]].

Example querySum_sample :
  PrefixSum.querySum (PrefixSum.build PrefixSum.init sample3x3) 1 1 2 2 = Some 219
  /\ PrefixSum.querySumSquares (PrefixSum.build PrefixSum.init sample3x3) 1 1 2 2
     = Some (25 + 36 + 64 + 40000)
  /\ bruteForce id sample3x3 (mkRegion 1 1 2 2) = 219.
Proof. repeat split; vm_compute; reflexivity. Qed.

(** ** Correctness of the summed-area tables *)

Section SummedArea.

Variable f : Z -> Z.
Variable image : Matrix.

Let val (r c : nat) : Z := f (pixelValue (PrefixSum.imageAt image r c)).

(** The sum of the cells of row [r] in columns [c0 .. c0+n-1]. *)
Definition rowSum (r c0 n : nat) : Z := Zsum (map (val r) (seq c0 n)).

(** The sum over rows [r0 .. r0+m-1] and columns [c0 .. c0+n-1]. *)
Definition rectSum (r0 m c0 n : nat) : Z :=
  Zsum (map (fun r => rowSum r c0 n) (seq r0 m)).

(** What [prefix[i][j]] is meant to hold. *)
Definition P (i j : nat) : Z := rectSum 0 i 0 j.

Lemma Zsum_app (l1 l2 : list Z) : Zsum (l1 ++ l2) = Zsum l1 + Zsum l2.
Proof. induction l1 as [|x l1 IH]; simpl; [reflexivity | rewrite IH; lia]. Qed.

Lemma rowSum_split r c0 n1 n2 :
  rowSum r c0 (n1 + n2) = rowSum r c0 n1 + rowSum r (c0 + n1) n2.
Proof. unfold rowSum. rewrite seq_app, map_app, Zsum_app. reflexivity. Qed.

Lemma rowSum_one r c0 : rowSum r c0 1 = val r c0.
Proof. unfold rowSum. simpl. lia. Qed.

Lemma rectSum_split_rows r0 m1 m2 c0 n :
  rectSum r0 (m1 + m2) c0 n = rectSum r0 m1 c0 n + rectSum (r0 + m1) m2 c0 n.
Proof. unfold rectSum. rewrite seq_app, map_app, Zsum_app. reflexivity. Qed.

Lemma rectSum_split_cols r0 m c0 n1 n2 :
  rectSum r0 m c0 (n1 + n2) = rectSum r0 m c0 n1 + rectSum r0 m (c0 + n1) n2.
Proof.
  unfold rectSum. revert r0. induction m as [|m IH]; intros r0; simpl.
  - reflexivity.
  - rewrite IH, rowSum_split. lia.
Qed.

Lemma rectSum_zero_rows r0 c0 n : rectSum r0 0 c0 n = 0.
Proof. reflexivity. Qed.

Lemma rectSum_zero_cols r0 m c0 : rectSum r0 m c0 0 = 0.
Proof.
  unfold rectSum. revert r0. induction m as [|m IH]; intros r0; simpl;
    [reflexivity | rewrite IH; reflexivity].
Qed.

Lemma rectSum_one r c : rectSum r 1 c 1 = val r c.
Proof. unfold rectSum. simpl. rewrite rowSum_one. lia. Qed.

Lemma P_zero_l j : P 0 j = 0.
Proof. reflexivity. Qed.

Lemma P_zero_r i : P i 0 = 0.
Proof. apply rectSum_zero_cols. Qed.

(** The recurrence the dynamic programme implements. *)
Lemma P_step i j :
  P (S i) (S j) = val i j + P i (S j) + P (S i) j - P i j.
Proof.
  unfold P.
  replace (S i) with (i + 1)%nat by lia. replace (S j) with (j + 1)%nat by lia.
  rewrite (rectSum_split_rows 0 i 1 0 (j + 1)).
  rewrite (rectSum_split_rows 0 i 1 0 j).
  rewrite (rectSum_split_cols (0 + i) 1 0 j 1).
  simpl. rewrite rectSum_one. lia.
Qed.

(** Inclusion-exclusion: a rectangle from four prefix values. *)
Lemma rectSum_P r0 m c0 n :
  rectSum r0 m c0 n
  = P (r0 + m) (c0 + n) - P r0 (c0 + n) - P (r0 + m) c0 + P r0 c0.
Proof.
  unfold P.
  rewrite (rectSum_split_rows 0 r0 m 0 (c0 + n)).
  rewrite (rectSum_split_rows 0 r0 m 0 c0).
  rewrite (rectSum_split_cols (0 + r0) m 0 c0 n).
  simpl. lia.
Qed.

(** Bounds: the sum of [m * n] values of [0 .. k]. *)
Hypothesis f_bounds : forall p, 0 <= f (pixelValue p) <= 65025.

Lemma rowSum_bounds r c0 n : 0 <= rowSum r c0 n <= 65025 * Z.of_nat n.
Proof.
  revert c0. induction n as [|n IH]; intros c0.
  - unfold rowSum. simpl. lia.
  - replace (S n) with (1 + n)%nat by lia.
    rewrite rowSum_split, rowSum_one.
    specialize (IH (c0 + 1)%nat). unfold val.
    pose proof (f_bounds (PrefixSum.imageAt image r c0)). lia.
Qed.

Lemma rectSum_bounds r0 m c0 n :
  0 <= rectSum r0 m c0 n <= 65025 * (Z.of_nat m * Z.of_nat n).
Proof.
  revert r0. induction m as [|m IH]; intros r0.
  - unfold rectSum. simpl. lia.
  - replace (S m) with (1 + m)%nat by lia.
    rewrite rectSum_split_rows.
    specialize (IH (r0 + 1)%nat). pose proof (rowSum_bounds r0 c0 n) as B.
    assert (E : rectSum r0 1 c0 n = rowSum r0 c0 n).
    { unfold rectSum. simpl. lia. }
    rewrite E. nia.
Qed.

End SummedArea.

(** ** The tables as vectors of vectors *)

Section Tables.

Import PrefixSum.

(** A table of [h] rows, all of length [w]. *)
Definition dims (m : PrefixMatrix) (h w : nat) : Prop :=
  length m = h /\ forall i row, m !! i = Some row -> length row = w.

Lemma dims_replicate h w : dims (replicate h (replicate w 0)) h w.
Proof.
  split; [apply length_replicate|].
  intros i row Hrow. apply lookup_replicate in Hrow as [-> _].
  apply length_replicate.
Qed.

Lemma dims_setCell m h w i j v : dims m h w -> dims (setCell m i j v) h w.
Proof.
  intros [Hl Hr]. unfold setCell. split.
  - rewrite length_alter. exact Hl.
  - intros k row Hk. destruct (decide (i = k)) as [->|Hne].
    + rewrite list_lookup_alter_eq in Hk.
      destruct (m !! k) as [row0|] eqn:E; [|discriminate].
      simpl in Hk. injection Hk as <-. rewrite length_insert. eauto.
    + rewrite list_lookup_alter_ne in Hk by exact Hne. eauto.
Qed.

Lemma cell_setCell_eq m h w i j v :
  dims m h w -> (i < h)%nat -> (j < w)%nat -> cell (setCell m i j v) i j = v.
Proof.
  intros [Hl Hr] Hi Hj. unfold cell, setCell.
  rewrite list_lookup_alter_eq.
  destruct (m !! i) as [row|] eqn:E.
  - simpl. rewrite list_lookup_insert_eq; [reflexivity|].
    rewrite (Hr i row E). exact Hj.
  - apply lookup_ge_None in E. exfalso; lia.
Qed.

Lemma cell_setCell_ne m i j v a b :
  (a, b) <> (i, j) -> cell (setCell m i j v) a b = cell m a b.
Proof.
  intros Hne. unfold cell, setCell.
  destruct (decide (i = a)) as [->|Hia].
  - rewrite list_lookup_alter_eq. destruct (m !! a) as [row|]; [|reflexivity].
    simpl. rewrite list_lookup_insert_ne; [reflexivity|]. congruence.
  - rewrite list_lookup_alter_ne by exact Hia. reflexivity.
Qed.

Lemma at2_cell m h w i j :
  dims m h w -> 0 <= i < Z.of_nat h -> 0 <= j < Z.of_nat w ->
  at2 m i j = Some (cell m (Z.to_nat i) (Z.to_nat j)).
Proof.
  intros [Hl Hr] Hi Hj. unfold at2, cell.
  replace (i <? 0) with false by (symmetry; apply Z.ltb_ge; lia).
  replace (j <? 0) with false by (symmetry; apply Z.ltb_ge; lia).
  cbn [orb].
  destruct (m !! Z.to_nat i) as [row|] eqn:E.
  - cbn [mbind option_bind]. destruct (row !! Z.to_nat j) as [x|] eqn:F; [reflexivity|].
    apply lookup_ge_None in F. rewrite (Hr _ _ E) in F. exfalso; lia.
  - apply lookup_ge_None in E. exfalso; lia.
Qed.

Lemma int64_idem a : int64 (int64 a) = int64 a.
Proof. pose proof (int64_add_l a 0) as H. rewrite !Z.add_0_r in H. exact H. Qed.

Lemma int64_repr z : exists k, int64 z = z + k * 2 ^ 64.
Proof. apply wrap_repr. lia. Qed.

(** The value [build] writes into a cell, from the three neighbours. *)
Lemma int64_cell_value g v a b c :
  int64 g = int64 v ->
  int64 (int64 (int64 (g + int64 a) + int64 b) - int64 c) = int64 (v + a + b - c).
Proof.
  intros E.
  destruct (int64_repr g) as [kg Eg]. destruct (int64_repr v) as [kv Ev].
  destruct (int64_repr a) as [ka ->]. destruct (int64_repr b) as [kb ->].
  destruct (int64_repr c) as [kc ->].
  destruct (int64_repr (g + (a + ka * 2 ^ 64))) as [k1 ->].
  destruct (int64_repr (g + (a + ka * 2 ^ 64) + k1 * 2 ^ 64 + (b + kb * 2 ^ 64)))
    as [k2 ->].
  replace (g + (a + ka * 2 ^ 64) + k1 * 2 ^ 64 + (b + kb * 2 ^ 64) + k2 * 2 ^ 64
           - (c + kc * 2 ^ 64))
    with (v + a + b - c + (kv - kg + ka + k1 + kb + k2 - kc) * 2 ^ 64) by lia.
  apply wrap_shift.
Qed.

(** The value a query returns, from the four corners. *)
Lemma int64_query_value a b c d :
  int64 (int64 (int64 (int64 a - int64 b) - int64 c) + int64 d)
  = int64 (a - b - c + d).
Proof.
  destruct (int64_repr a) as [ka ->]. destruct (int64_repr b) as [kb ->].
  destruct (int64_repr c) as [kc ->]. destruct (int64_repr d) as [kd ->].
  destruct (int64_repr (a + ka * 2 ^ 64 - (b + kb * 2 ^ 64))) as [k1 ->].
  destruct (int64_repr (a + ka * 2 ^ 64 - (b + kb * 2 ^ 64) + k1 * 2 ^ 64
                        - (c + kc * 2 ^ 64))) as [k2 ->].
  replace (a + ka * 2 ^ 64 - (b + kb * 2 ^ 64) + k1 * 2 ^ 64 - (c + kc * 2 ^ 64)
           + k2 * 2 ^ 64 + (d + kd * 2 ^ 64))
    with (a - b - c + d + (ka - kb + k1 - kc + k2 + kd) * 2 ^ 64) by lia.
  apply wrap_shift.
Qed.

End Tables.

(** ** The loop invariant of [PrefixSum::build] *)

Section BuildInvariant.

Import PrefixSum.

Variable image : Matrix.
Variables h w : nat.

(** Cell [(a, b)] has received its final value once the loops stand at
    [(i, j)]: row and column 0 are the zero border, rows before [i] are
    complete, row [i] is complete up to column [j]. *)
Definition filled (i j a b : nat) : Prop :=
  a = 0%nat \/ b = 0%nat \/ (a < i)%nat \/ (a = i /\ (b <= j)%nat).

Definition table_inv (f : Z -> Z) (i j : nat) (T : PrefixMatrix) : Prop :=
  dims T (S h) (S w) /\
  forall a b, (a <= h)%nat -> (b <= w)%nat -> filled i j a b ->
              cell T a b = int64 (P f image a b).

Definition tables_inv (i j : nat) (st : PrefixMatrix * PrefixMatrix) : Prop :=
  table_inv id i j (fst st) /\ table_inv square i j (snd st).

Lemma table_inv_init f :
  table_inv f 0 w (replicate (S h) (replicate (S w) 0)).
Proof.
  split; [apply dims_replicate|].
  intros a b Ha Hb Hf.
  assert (Z0 : cell (replicate (S h) (replicate (S w) 0)) a b = 0).
  { unfold cell. rewrite lookup_replicate_2 by lia. cbn [mbind option_bind].
    rewrite lookup_replicate_2 by lia. reflexivity. }
  rewrite Z0.
  assert (E : P f image a b = 0).
  { destruct Hf as [->|[->|[Hlt|[-> _]]]];
      [apply P_zero_l | apply P_zero_r | lia | apply P_zero_l]. }
  rewrite E. reflexivity.
Qed.

(** One assignment of the inner loop. *)
Lemma table_inv_cell f g i j T :
  (i < h)%nat -> (j < w)%nat ->
  int64 g = int64 (f (pixelValue (imageAt image i j))) ->
  table_inv f (S i) j T ->
  table_inv f (S i) (S j)
    (setCell T (S i) (S j)
       (int64 (int64 (int64 (g + cell T i (S j)) + cell T (S i) j) - cell T i j))).
Proof.
  intros Hi Hj Hg [Hd Hc]. split; [apply dims_setCell; exact Hd|].
  intros a b Ha Hb Hf.
  destruct (decide ((a, b) = (S i, S j))) as [E|Hne].
  - injection E as -> ->.
    rewrite (cell_setCell_eq T (S h) (S w)) by (trivial; lia).
    rewrite (Hc i (S j)) by (unfold filled; lia).
    rewrite (Hc (S i) j) by (unfold filled; lia).
    rewrite (Hc i j) by (unfold filled; lia).
    rewrite (int64_cell_value g _ _ _ _ Hg), P_step. reflexivity.
  - rewrite cell_setCell_ne by exact Hne. apply Hc; trivial.
    unfold filled in *.
    assert (~ (a = S i /\ b = S j)) by (intros [-> ->]; apply Hne; reflexivity).
    lia.
Qed.

Lemma tables_inv_cell i j st :
  (i < h)%nat -> (j < w)%nat ->
  tables_inv (S i) j st -> tables_inv (S i) (S j) (build_cell image (S i) (S j) st).
Proof.
  intros Hi Hj [H1 H2]. unfold build_cell.
  replace (S i - 1)%nat with i by lia. replace (S j - 1)%nat with j by lia.
  split; cbn [fst snd].
  - apply table_inv_cell; trivial.
  - apply table_inv_cell; trivial. apply int64_idem.
Qed.

Lemma tables_inv_row_loop i n : forall k st,
  (i < h)%nat -> (k + n = w)%nat -> tables_inv (S i) k st ->
  tables_inv (S i) w (fold_left (fun st j => build_cell image (S i) j st) (seq (S k) n) st).
Proof.
  induction n as [|n IH]; intros k st Hi Hk Hinv.
  - simpl. replace w with k by lia. exact Hinv.
  - cbn [seq fold_left]. apply IH; [exact Hi | lia |].
    apply tables_inv_cell; [exact Hi | lia | exact Hinv].
Qed.

(** Moving to the next row changes nothing about which cells are filled. *)
Lemma tables_inv_next_row i st : tables_inv i w st -> tables_inv (S i) 0 st.
Proof.
  intros [[D1 H1] [D2 H2]].
  split; (split; [assumption|]); intros a b Ha Hb Hf;
    [apply H1 | apply H2]; trivial; unfold filled in *; lia.
Qed.

Lemma tables_inv_build_row i st :
  (i < h)%nat -> tables_inv i w st -> tables_inv (S i) w (build_row image w (S i) st).
Proof.
  intros Hi Hinv. unfold build_row.
  apply (tables_inv_row_loop i w 0%nat); [exact Hi | lia |].
  apply tables_inv_next_row. exact Hinv.
Qed.

Lemma tables_inv_rows_loop m : forall k st,
  (k + m = h)%nat -> tables_inv k w st ->
  tables_inv h w (fold_left (fun st i => build_row image w i st) (seq (S k) m) st).
Proof.
  induction m as [|m IH]; intros k st Hk Hinv.
  - simpl. replace h with k by lia. exact Hinv.
  - cbn [seq fold_left]. apply IH; [lia|].
    apply tables_inv_build_row; [lia | exact Hinv].
Qed.

Lemma tables_inv_build_tables :
  tables_inv h w
    (build_tables image h w
       (replicate (S h) (replicate (S w) 0), replicate (S h) (replicate (S w) 0))).
Proof.
  unfold build_tables. apply (tables_inv_rows_loop h 0%nat); [lia|].
  split; apply table_inv_init.
Qed.

Lemma table_inv_final f T a b :
  table_inv f h w T -> (a <= h)%nat -> (b <= w)%nat ->
  cell T a b = int64 (P f image a b).
Proof. intros [_ Hc] Ha Hb. apply Hc; trivial. unfold filled. lia. Qed.

End BuildInvariant.

(** ** Range queries against the brute-force sum *)

(** The raster's dimensions fit an [int] and the sum of all its squared
    pixels fits an [int64_t]. *)
Definition machine_sized (h w : nat) : Prop :=
  Z.of_nat h < 2 ^ 31 - 1 /\ Z.of_nat w < 2 ^ 31 - 1
  /\ 65025 * (Z.of_nat h * Z.of_nat w) < 2 ^ 63.

Section Queries.

Import PrefixSum.

Lemma pixelValue_bounds p : 0 <= pixelValue p <= 255.
Proof.
  unfold pixelValue. pose proof (Byte.to_N_bounded p) as B.
  split; [apply N2Z.is_nonneg | lia].
Qed.

Lemma id_bounds p : 0 <= id (pixelValue p) <= 65025.
Proof. pose proof (pixelValue_bounds p). unfold id. lia. Qed.

Lemma square_bounds p : 0 <= square (pixelValue p) <= 65025.
Proof. pose proof (pixelValue_bounds p). unfold square. nia. Qed.

Lemma seqZ_as_seq (g : nat -> Z) (a n : Z) :
  0 <= a ->
  map (fun r => g (Z.to_nat r)) (seqZ a n) = map g (seq (Z.to_nat a) (Z.to_nat n)).
Proof.
  intros Ha. unfold seqZ.
  assert (E : seq (Z.to_nat a) (Z.to_nat n) = Nat.add (Z.to_nat a) <$> seq 0 (Z.to_nat n)).
  { rewrite fmap_add_seq. f_equal. lia. }
  rewrite E. change (@map) with (@fmap list _). rewrite <- !list_fmap_compose.
  apply list_fmap_ext. intros _ x _. simpl. f_equal. lia.
Qed.

Lemma bruteForce_rectSum f image region :
  0 <= row1 region -> 0 <= col1 region ->
  bruteForce f image region
  = rectSum f image (Z.to_nat (row1 region))
      (Z.to_nat (row2 region - row1 region + 1))
      (Z.to_nat (col1 region)) (Z.to_nat (col2 region - col1 region + 1)).
Proof.
  intros Hr Hc. unfold bruteForce, rectSum, rowSum.
  rewrite (seqZ_as_seq
    (fun r => Zsum (map (fun c => f (pixelValue (imageAt image r (Z.to_nat c))))
                        (seqZ (col1 region) (col2 region - col1 region + 1))))
    _ _ Hr).
  f_equal. apply map_ext. intros r.
  rewrite (seqZ_as_seq (fun c => f (pixelValue (imageAt image r c))) _ _ Hc).
  reflexivity.
Qed.

Lemma lookup4_rectSum f image h w T r1 c1 r2 c2 :
  (forall p, 0 <= f (pixelValue p) <= 65025) ->
  machine_sized h w ->
  table_inv image h w f h w T ->
  0 <= r1 <= r2 -> r2 < Z.of_nat h -> 0 <= c1 <= c2 -> c2 < Z.of_nat w ->
  lookup4 T r1 c1 r2 c2
  = Some (rectSum f image (Z.to_nat r1) (Z.to_nat (r2 - r1 + 1))
                  (Z.to_nat c1) (Z.to_nat (c2 - c1 + 1))).
Proof.
  intros Hf (Hh & Hw & Hhw) Hinv Hr1 Hr2 Hc1 Hc2.
  pose proof Hinv as [Hd _]. unfold lookup4.
  rewrite (int32_small (r2 + 1)) by (unfold in_int32; lia).
  rewrite (int32_small (c2 + 1)) by (unfold in_int32; lia).
  rewrite !(at2_cell T (S h) (S w)) by (trivial; lia).
  cbn [mbind option_bind].
  rewrite !(table_inv_final image h w f T) by (trivial; lia).
  f_equal.
  rewrite int64_query_value.
  assert (E : P f image (Z.to_nat (r2 + 1)) (Z.to_nat (c2 + 1))
              - P f image (Z.to_nat r1) (Z.to_nat (c2 + 1))
              - P f image (Z.to_nat (r2 + 1)) (Z.to_nat c1)
              + P f image (Z.to_nat r1) (Z.to_nat c1)
              = rectSum f image (Z.to_nat r1) (Z.to_nat (r2 - r1 + 1))
                  (Z.to_nat c1) (Z.to_nat (c2 - c1 + 1))).
  { rewrite rectSum_P.
    replace (Z.to_nat r1 + Z.to_nat (r2 - r1 + 1))%nat with (Z.to_nat (r2 + 1)) by lia.
    replace (Z.to_nat c1 + Z.to_nat (c2 - c1 + 1))%nat with (Z.to_nat (c2 + 1)) by lia.
    reflexivity. }
  rewrite E. apply int64_small.
  pose proof (rectSum_bounds f image Hf (Z.to_nat r1) (Z.to_nat (r2 - r1 + 1))
                (Z.to_nat c1) (Z.to_nat (c2 - c1 + 1))) as B.
  unfold in_int64. split; [lia|].
  assert (Z.of_nat (Z.to_nat (r2 - r1 + 1)) * Z.of_nat (Z.to_nat (c2 - c1 + 1))
          <= Z.of_nat h * Z.of_nat w) by (apply Z.mul_le_mono_nonneg; lia).
  lia.
Qed.

End Queries.

(** ** What [build] establishes *)

Section BuiltIndex.

Import PrefixSum.

(** [ps] is the index of the non-empty raster [image]. *)
Definition indexes (ps : t) (image : Matrix) (h w : nat) : Prop :=
  built ps = true /\ height ps = Z.of_nat h /\ width ps = Z.of_nat w
  /\ (0 < h)%nat /\ (0 < w)%nat /\ machine_sized h w
  /\ table_inv image h w id h w (prefix ps)
  /\ table_inv image h w square h w (prefixSquares ps).

Lemma build_empty ps image h w :
  rectangular image h w -> (h = 0 \/ w = 0)%nat -> build ps image = ps.
Proof.
  intros [Hl Hr] Hz. destruct image as [|row0 rest]; [reflexivity|].
  destruct row0 as [|p row0]; [reflexivity|]. exfalso.
  apply Forall_cons in Hr as [Hr _]. simpl in Hl, Hr. lia.
Qed.

Lemma build_indexes ps image h w :
  rectangular image h w -> (0 < h)%nat -> (0 < w)%nat -> machine_sized h w ->
  indexes (build ps image) image h w.
Proof.
  intros [Hl Hr] Hh Hw Hm. pose proof Hm as (Mh & Mw & Mhw).
  destruct image as [|row0 rest]; [simpl in Hl; lia|].
  pose proof Hr as Hr'. apply Forall_cons in Hr' as [Hr0 _].
  destruct row0 as [|p row0]; [simpl in Hr0; lia|].
  unfold build. cbv zeta. rewrite Hl, Hr0.
  rewrite (int32_small (Z.of_nat h)) by (unfold in_int32; lia).
  rewrite (int32_small (Z.of_nat w)) by (unfold in_int32; lia).
  rewrite (int32_small (Z.of_nat h + 1)) by (unfold in_int32; lia).
  rewrite (int32_small (Z.of_nat w + 1)) by (unfold in_int32; lia).
  rewrite !Nat2Z.id.
  replace (Z.to_nat (Z.of_nat h + 1)) with (S h) by lia.
  replace (Z.to_nat (Z.of_nat w + 1)) with (S w) by lia.
  pose proof (tables_inv_build_tables (( p :: row0) :: rest) h w) as [H1 H2].
  unfold indexes. cbn [built height width prefix prefixSquares].
  split; [reflexivity|]. split; [reflexivity|]. split; [reflexivity|].
  split; [exact Hh|]. split; [exact Hw|]. split; [exact Hm|].
  split; assumption.
Qed.

(** The indexes a program can hold: the constructor's, and any number of
    calls of [build] on rasters. *)
Inductive reachable : t -> Prop :=
| reachable_init : reachable init
| reachable_build ps image h w :
    reachable ps -> rectangular image h w -> machine_sized h w ->
    reachable (build ps image).

Lemma reachable_indexes ps :
  reachable ps -> built ps = false \/ exists image h w, indexes ps image h w.
Proof.
  induction 1 as [|ps image h w _ IH Hrect Hm].
  - left. reflexivity.
  - destruct (Nat.eq_dec h 0%nat) as [->|Hh].
    { rewrite (build_empty ps image 0%nat w Hrect) by lia. exact IH. }
    destruct (Nat.eq_dec w 0%nat) as [->|Hw].
    { rewrite (build_empty ps image h 0%nat Hrect) by lia. exact IH. }
    right. exists image, h, w. apply build_indexes; trivial; lia.
Qed.

End BuiltIndex.

(** ** The two range queries on a built index *)

Section RangeQueries.

Import PrefixSum.

(** The bounds of a query after the four [std::max] / [std::min] calls. *)
Definition clamp (h w : Z) (r1 c1 r2 c2 : Z) : Region :=
  mkRegion (Z.max 0 r1) (Z.max 0 c1) (Z.min (h - 1) r2) (Z.min (w - 1) c2).

Lemma isValid_spec r :
  isValid r = true <-> row1 r <= row2 r /\ col1 r <= col2 r.
Proof. unfold isValid. rewrite andb_true_iff, !Z.leb_le. reflexivity. Qed.

Lemma inverted_test (r1 c1 r2 c2 : Z) :
  (r1 >? r2) || (c1 >? c2) = negb (isValid (mkRegion r1 c1 r2 c2)).
Proof.
  unfold isValid. cbn [row1 row2 col1 col2].
  rewrite !Z.gtb_ltb, negb_andb, !Z.leb_antisym, !negb_involutive. reflexivity.
Qed.

Lemma query_on_index ps image h w r1 c1 r2 c2 :
  indexes ps image h w ->
  let R := clamp (Z.of_nat h) (Z.of_nat w) r1 c1 r2 c2 in
  querySum ps r1 c1 r2 c2 = Some (if isValid R then bruteForce id image R else 0)
  /\ querySumSquares ps r1 c1 r2 c2
     = Some (if isValid R then bruteForce square image R else 0).
Proof.
  intros (Hb & Hh & Hw & Hhp & Hwp & Hm & T1 & T2) R.
  pose proof Hm as (Mh & Mw & _).
  unfold querySum, querySumSquares. rewrite Hb, Hh, Hw. cbn [negb].
  rewrite (int32_small (Z.of_nat h - 1)) by (unfold in_int32; lia).
  rewrite (int32_small (Z.of_nat w - 1)) by (unfold in_int32; lia).
  cbv zeta. rewrite inverted_test. fold (clamp (Z.of_nat h) (Z.of_nat w) r1 c1 r2 c2).
  fold R. destruct (isValid R) eqn:V; cbn [negb]; [|split; reflexivity].
  apply isValid_spec in V. unfold R, clamp in V. cbn [row1 row2 col1 col2] in V.
  rewrite (lookup4_rectSum id image h w) by (trivial; try apply id_bounds; lia).
  rewrite (lookup4_rectSum square image h w) by (trivial; try apply square_bounds; lia).
  rewrite !bruteForce_rectSum by (unfold R, clamp; cbn [row1 col1]; lia).
  split; reflexivity.
Qed.

Lemma clamp_within h w (R : Region) :
  within R h w -> clamp h w (row1 R) (col1 R) (row2 R) (col2 R) = R.
Proof.
  intros (H1 & H2 & H3 & H4). unfold clamp. destruct R as [a b c d].
  cbn [row1 row2 col1 col2] in *. f_equal; lia.
Qed.

End RangeQueries.

(** C1.  For every index built over a raster and every valid region [R]
    lying within the raster, [querySum R] is the brute-force sum of the
    raster's cells over [R], and [querySumSquares R] the brute-force sum of
    their squares.  The raster is rectangular and non-empty, its dimensions
    fit an [int], and the sum of all its squares fits an [int64_t]. *)
Theorem querySum_matches_bruteForce
    (ps0 : PrefixSum.t) (image : Matrix) (h w : nat) (R : Region) :
  rectangular image h w -> (0 < h)%nat -> (0 < w)%nat -> machine_sized h w ->
  isValid R = true -> within R (Z.of_nat h) (Z.of_nat w) ->
  PrefixSum.querySumR (PrefixSum.build ps0 image) R = Some (bruteForce id image R)
  /\ PrefixSum.querySumSquaresR (PrefixSum.build ps0 image) R
     = Some (bruteForce square image R).
Proof.
  intros Hrect Hh Hw Hm Hv Hin.
  pose proof (build_indexes ps0 image h w Hrect Hh Hw Hm) as Hidx.
  pose proof (query_on_index _ _ _ _ (row1 R) (col1 R) (row2 R) (col2 R) Hidx) as Q.
  cbv zeta in Q. rewrite (clamp_within _ _ R Hin), Hv in Q. exact Q.
Qed.

Lemma sample3x3_rectangular : rectangular sample3x3 3 3.
Proof. split; [reflexivity | repeat constructor]. Defined.

Lemma machine_sized_3_3 : machine_sized 3 3.
Proof. unfold machine_sized. repeat split; reflexivity. Defined.

Lemma querySum_matches_bruteForce_witness :
  PrefixSum.querySumR (PrefixSum.build PrefixSum.init sample3x3) (mkRegion 1 1 2 2)
  = Some (bruteForce id sample3x3 (mkRegion 1 1 2 2))
  /\ PrefixSum.querySumSquaresR (PrefixSum.build PrefixSum.init sample3x3)
       (mkRegion 1 1 2 2)
     = Some (bruteForce square sample3x3 (mkRegion 1 1 2 2)).
Proof.
  apply (querySum_matches_bruteForce PrefixSum.init sample3x3 3 3 (mkRegion 1 1 2 2)).
  - exact sample3x3_rectangular.
  - lia.
  - lia.
  - exact machine_sized_3_3.
  - reflexivity.
  - unfold within; cbn; lia.
Defined.

(** C9.  [querySum] and [querySumSquares] never read outside their table:
    on an unbuilt index they return 0; on a built one they answer for the
    bounds clamped to the raster, which is 0 whenever the clamped region is
    inverted, in particular for a region that is inverted or lies fully
    outside the raster. *)
Theorem querySum_clamps_and_never_fails
    (ps0 : PrefixSum.t) (image : Matrix) (h w : nat) (r1 c1 r2 c2 : Z) :
  rectangular image h w -> (0 < h)%nat -> (0 < w)%nat -> machine_sized h w ->
  let ps := PrefixSum.build ps0 image in
  let R := clamp (Z.of_nat h) (Z.of_nat w) r1 c1 r2 c2 in
  (PrefixSum.querySum ps r1 c1 r2 c2
     = Some (if isValid R then bruteForce id image R else 0)
   /\ PrefixSum.querySumSquares ps r1 c1 r2 c2
     = Some (if isValid R then bruteForce square image R else 0))
  /\ (r1 > r2 \/ c1 > c2 \/ r2 < 0 \/ c2 < 0 \/ Z.of_nat h <= r1 \/ Z.of_nat w <= c1 ->
      isValid R = false
      /\ PrefixSum.querySum ps r1 c1 r2 c2 = Some 0
      /\ PrefixSum.querySumSquares ps r1 c1 r2 c2 = Some 0)
  /\ (forall unbuilt : PrefixSum.t, PrefixSum.built unbuilt = false ->
      PrefixSum.querySum unbuilt r1 c1 r2 c2 = Some 0
      /\ PrefixSum.querySumSquares unbuilt r1 c1 r2 c2 = Some 0).
Proof.
  intros Hrect Hh Hw Hm ps R.
  pose proof (build_indexes ps0 image h w Hrect Hh Hw Hm) as Hidx.
  pose proof (query_on_index _ _ _ _ r1 c1 r2 c2 Hidx) as Q. cbv zeta in Q.
  fold ps R in Q. split; [exact Q|]. split.
  - intros Hout.
    assert (V : isValid R = false).
    { destruct (isValid R) eqn:V; [|reflexivity]. exfalso.
      apply isValid_spec in V. unfold R, clamp in V.
      cbn [row1 row2 col1 col2] in V. lia. }
    rewrite V in Q. split; [exact V | exact Q].
  - intros unbuilt Hu. unfold PrefixSum.querySum, PrefixSum.querySumSquares.
    rewrite Hu. split; reflexivity.
Qed.

Lemma querySum_clamps_and_never_fails_witness :
  PrefixSum.querySum (PrefixSum.build PrefixSum.init sample3x3) (-5) 1 7 9 = Some 224
  /\ PrefixSum.querySum (PrefixSum.build PrefixSum.init sample3x3) 2 0 1 2 = Some 0
  /\ PrefixSum.querySumSquares (PrefixSum.build PrefixSum.init sample3x3) 0 3 2 5 = Some 0.
Proof.
  pose proof (querySum_clamps_and_never_fails PrefixSum.init sample3x3 3 3 (-5) 1 7 9
                sample3x3_rectangular ltac:(lia) ltac:(lia) machine_sized_3_3) as A.
  pose proof (querySum_clamps_and_never_fails PrefixSum.init sample3x3 3 3 2 0 1 2
                sample3x3_rectangular ltac:(lia) ltac:(lia) machine_sized_3_3) as B.
  pose proof (querySum_clamps_and_never_fails PrefixSum.init sample3x3 3 3 0 3 2 5
                sample3x3_rectangular ltac:(lia) ltac:(lia) machine_sized_3_3) as C.
  cbv zeta in A, B, C.
  destruct A as [[A _] _]. destruct B as [_ [B _]]. destruct C as [_ [C _]].
  split; [etransitivity; [exact A | reflexivity]|]. split.
  - apply B. lia.
  - apply C. lia.
Defined.

(** ** RegionTree::splitRegion *)

Section SplitRegion.

Import RegionTree.

(** The number of rows and of columns of a region. *)
Definition regionHeight (r : Region) : Z := row2 r - row1 r + 1.
Definition regionWidth (r : Region) : Z := col2 r - col1 r + 1.

(** Coordinates far enough from the ends of [int] for [row1 + row2],
    [col1 + col2] and the two [+ 1] not to overflow. *)
Definition small (r : Region) : Prop :=
  - 2 ^ 30 <= row1 r < 2 ^ 30 /\ - 2 ^ 30 <= row2 r < 2 ^ 30
  /\ - 2 ^ 30 <= col1 r < 2 ^ 30 /\ - 2 ^ 30 <= col2 r < 2 ^ 30.

(** The four quadrants around the split row [midRow] and column [midCol]. *)
Definition quadrantsAt (r : Region) (midRow midCol : Z) : list Region :=
  [ mkRegion (row1 r) (col1 r) midRow midCol;
    mkRegion (row1 r) (midCol + 1) midRow (col2 r);
    mkRegion (midRow + 1) (col1 r) (row2 r) midCol;
    mkRegion (midRow + 1) (midCol + 1) (row2 r) (col2 r) ].

Lemma cdiv_between a b :
  a <= b -> a <= cdiv (a + b) 2 <= b.
Proof.
  intros Hab. unfold cdiv.
  destruct (Z.le_gt_cases 0 (a + b)) as [Hs|Hs].
  - rewrite Z.quot_div_nonneg by lia.
    pose proof (Z.div_mod (a + b) 2 ltac:(lia)).
    pose proof (Z.mod_pos_bound (a + b) 2 ltac:(lia)). lia.
  - pose proof (Z.quot_opp_l (a + b) 2 ltac:(lia)) as E.
    assert (Q : Z.quot (a + b) 2 = - Z.quot (- (a + b)) 2) by lia.
    rewrite Q, Z.quot_div_nonneg by lia.
    pose proof (Z.div_mod (- (a + b)) 2 ltac:(lia)).
    pose proof (Z.mod_pos_bound (- (a + b)) 2 ltac:(lia)). lia.
Qed.

Lemma cdiv_nonneg_floor s : 0 <= s -> cdiv s 2 = s / 2.
Proof. intros H. unfold cdiv. apply Z.quot_div_nonneg; lia. Qed.

Lemma splitRegion_small (r : Region) :
  small r -> isValid r = true ->
  splitRegion r
  = quadrantsAt r (cdiv (row1 r + row2 r) 2) (cdiv (col1 r + col2 r) 2).
Proof.
  intros (R1 & R2 & C1 & C2) Hv. apply isValid_spec in Hv as [Hr Hc].
  unfold splitRegion, quadrantsAt.
  rewrite (int32_small (row1 r + row2 r)) by (unfold in_int32; lia).
  rewrite (int32_small (col1 r + col2 r)) by (unfold in_int32; lia).
  pose proof (cdiv_between _ _ Hr). pose proof (cdiv_between _ _ Hc).
  rewrite (int32_small (cdiv (row1 r + row2 r) 2 + 1)) by (unfold in_int32; lia).
  rewrite (int32_small (cdiv (col1 r + col2 r) 2 + 1)) by (unfold in_int32; lia).
  reflexivity.
Qed.

End SplitRegion.

(** C7, as stated, fails on the 5 x 5 region [(0,0,4,4)]: the split row and
    column are 2, the NW quadrant is 3 x 3, and the quadrants to the east
    and to the south get the smaller half, 2. *)
Lemma splitRegion_5x5 :
  RegionTree.splitRegion (mkRegion 0 0 4 4)
  = [mkRegion 0 0 2 2; mkRegion 0 3 2 4; mkRegion 3 0 4 2; mkRegion 3 3 4 4]
  /\ map regionWidth (RegionTree.splitRegion (mkRegion 0 0 4 4)) = [3; 2; 3; 2]
  /\ map regionHeight (RegionTree.splitRegion (mkRegion 0 0 4 4)) = [3; 3; 2; 2].
Proof. repeat split; reflexivity. Qed.

(** C7 (amended).  For every valid region whose coordinates do not overflow,
    [splitRegion] cuts at the floor of the midpoint of each dimension.  When
    the width is odd the split column is the exact middle column, the
    western quadrants (NW, SW), which contain it, are the larger half,
    [(width + 1) / 2] columns wide, and the eastern ones (NE, SE) the
    smaller half, [(width - 1) / 2]; likewise for an odd height with the
    northern quadrants (NW, NE) the larger and the southern (SW, SE) the
    smaller half. *)
Theorem splitRegion_odd_dimension (r : Region) :
  small r -> isValid r = true ->
  exists midRow midCol,
    RegionTree.splitRegion r = quadrantsAt r midRow midCol
    /\ (Z.odd (regionWidth r) = true ->
        midCol = (col1 r + col2 r) / 2
        /\ 2 * midCol = col1 r + col2 r
        /\ map regionWidth (RegionTree.splitRegion r)
           = [(regionWidth r + 1) / 2; (regionWidth r - 1) / 2;
              (regionWidth r + 1) / 2; (regionWidth r - 1) / 2])
    /\ (Z.odd (regionHeight r) = true ->
        midRow = (row1 r + row2 r) / 2
        /\ 2 * midRow = row1 r + row2 r
        /\ map regionHeight (RegionTree.splitRegion r)
           = [(regionHeight r + 1) / 2; (regionHeight r + 1) / 2;
              (regionHeight r - 1) / 2; (regionHeight r - 1) / 2]).
Proof.
  intros Hs Hv.
  exists (cdiv (row1 r + row2 r) 2), (cdiv (col1 r + col2 r) 2).
  rewrite (splitRegion_small r Hs Hv). split; [reflexivity|].
  unfold regionWidth, regionHeight, quadrantsAt. cbn [map row1 row2 col1 col2].
  split; intros Hodd; apply Z.odd_spec in Hodd as [m Hm].
  - assert (Hk : col1 r + col2 r = (m + col1 r) * 2) by lia.
    rewrite Hk. unfold cdiv. rewrite Z.quot_mul, Z.div_mul by lia.
    replace (col2 r - col1 r + 1 + 1) with ((m + 1) * 2) by lia.
    replace (col2 r - col1 r + 1 - 1) with (m * 2) by lia.
    rewrite !Z.div_mul by lia.
    split; [reflexivity|]. split; [lia|]. repeat f_equal; lia.
  - assert (Hk : row1 r + row2 r = (m + row1 r) * 2) by lia.
    rewrite Hk. unfold cdiv. rewrite Z.quot_mul, Z.div_mul by lia.
    replace (row2 r - row1 r + 1 + 1) with ((m + 1) * 2) by lia.
    replace (row2 r - row1 r + 1 - 1) with (m * 2) by lia.
    rewrite !Z.div_mul by lia.
    split; [reflexivity|]. split; [lia|]. repeat f_equal; lia.
Qed.

Lemma small_0_0_4_6 : small (mkRegion 0 0 4 6).
Proof. unfold small; cbn; lia. Defined.

Lemma splitRegion_odd_dimension_witness :
  exists midRow midCol,
    RegionTree.splitRegion (mkRegion 0 0 4 6)
    = quadrantsAt (mkRegion 0 0 4 6) midRow midCol
    /\ midCol = 3 /\ midRow = 2
    /\ map regionWidth (RegionTree.splitRegion (mkRegion 0 0 4 6)) = [4; 3; 4; 3]
    /\ map regionHeight (RegionTree.splitRegion (mkRegion 0 0 4 6)) = [3; 3; 2; 2].
Proof.
  destruct (splitRegion_odd_dimension (mkRegion 0 0 4 6) small_0_0_4_6 eq_refl)
    as (midRow & midCol & E & W & H).
  exists midRow, midCol. split; [exact E|].
  destruct (W eq_refl) as (Wm & _ & Ww). destruct (H eq_refl) as (Hm & _ & Hh).
  split; [exact Wm|]. split; [exact Hm|]. split; [exact Ww | exact Hh].
Defined.

(** ** RegionTree::buildRecursive: what one call appends *)

Section TreeBuild.

Import RegionTree.

(** A valid region of non-negative coordinates that [int] arithmetic
    handles without overflow. *)
Definition good (R : Region) : Prop :=
  isValid R = true /\ 0 <= row1 R /\ 0 <= col1 R /\ row2 R < 2 ^ 30 /\ col2 R < 2 ^ 30.

(** [inner] lies within [outer]. *)
Definition subregion (inner outer : Region) : Prop :=
  row1 outer <= row1 inner /\ row2 inner <= row2 outer
  /\ col1 outer <= col1 inner /\ col2 inner <= col2 outer.

(** The node covers a good region within [R]. *)
Definition inside (R : Region) (n : RegionTreeNode) : Prop :=
  good (bounds n) /\ subregion (bounds n) R.

Definition b2n (b : bool) : nat := if b then 1%nat else 0%nat.

(** The number of leaves among [ns] whose region contains the pixel. *)
Fixpoint leafCover (ns : list RegionTreeNode) (r c : Z) : nat :=
  match ns with
  | [] => 0%nat
  | n :: ns' => (b2n (isLeaf n && contains (bounds n) r c) + leafCover ns' r c)%nat
  end.

(** The number of regions among [qs] that contain the pixel. *)
Fixpoint regionCover (qs : list (nat * Region)) (r c : Z) : nat :=
  match qs with
  | [] => 0%nat
  | q :: qs' => (b2n (contains (snd q) r c) + regionCover qs' r c)%nat
  end.

Lemma leafCover_app ns1 ns2 r c :
  leafCover (ns1 ++ ns2) r c = (leafCover ns1 r c + leafCover ns2 r c)%nat.
Proof. induction ns1 as [|n ns1 IH]; simpl; [reflexivity | rewrite IH; lia]. Qed.

Lemma regionCover_app qs1 qs2 r c :
  regionCover (qs1 ++ qs2) r c = (regionCover qs1 r c + regionCover qs2 r c)%nat.
Proof. induction qs1 as [|q qs1 IH]; simpl; [reflexivity | rewrite IH; lia]. Qed.

Lemma contains_spec R r c :
  contains R r c = true <-> row1 R <= r <= row2 R /\ col1 R <= c <= col2 R.
Proof.
  unfold contains. rewrite !andb_true_iff, !Z.geb_le, !Z.leb_le. lia.
Qed.

Lemma contains_false R r c :
  contains R r c = false <-> ~ (row1 R <= r <= row2 R /\ col1 R <= c <= col2 R).
Proof.
  rewrite <- contains_spec. destruct (contains R r c); split; congruence.
Qed.

Lemma good_small R : good R -> small R.
Proof.
  intros (Hv & H1 & H2 & H3 & H4). apply isValid_spec in Hv. unfold small. lia.
Qed.

Lemma inside_mono q R n : subregion q R -> inside q n -> inside R n.
Proof. unfold inside, subregion. intros ? [? ?]. split; [assumption | lia]. Qed.

(** What [splitRegion] returns on a good region: the quadrants that are
    valid are good and lie within the region, and every pixel of the region
    is in exactly one quadrant. *)
Lemma splitRegion_good R :
  good R ->
  exists q0 q1 q2 q3,
    splitRegion R = [q0; q1; q2; q3]
    /\ isValid q0 = true
    /\ Forall (fun q => isValid q = true -> good q /\ subregion q R) [q0; q1; q2; q3]
    /\ forall r c,
         regionCover [(0, q0); (1, q1); (2, q2); (3, q3)]%nat r c
         = b2n (contains R r c).
Proof.
  intros HR. pose proof HR as (Hv & H1 & H2 & H3 & H4).
  rewrite (splitRegion_small R (good_small R HR) Hv).
  apply isValid_spec in Hv as [Hr Hc].
  pose proof (cdiv_between _ _ Hr) as Mr. pose proof (cdiv_between _ _ Hc) as Mc.
  set (mr := cdiv (row1 R + row2 R) 2) in *.
  set (mc := cdiv (col1 R + col2 R) 2) in *.
  unfold quadrantsAt. do 4 eexists. split; [reflexivity|].
  split; [apply isValid_spec; cbn; lia|]. split.
  - assert (G : forall q, subregion q R -> isValid q = true -> good q /\ subregion q R).
    { intros q S V. split; [|exact S]. unfold good. split; [exact V|].
      apply isValid_spec in V. unfold subregion in S. lia. }
    repeat (apply Forall_cons; split); try (apply Forall_nil; exact I);
      apply G; unfold subregion; cbn [row1 row2 col1 col2]; lia.
  - intros r c. cbn [regionCover snd].
    destruct (contains R r c) eqn:E;
      [apply contains_spec in E | apply contains_false in E];
      repeat match goal with
      | |- context [contains ?q r c] =>
          let F := fresh "F" in
          destruct (contains q r c) eqn:F;
          [apply contains_spec in F | apply contains_false in F];
          cbn [row1 row2 col1 col2] in F
      end; cbn [b2n]; lia.
Qed.

(** *** The vector operations *)

Lemma emplace_back_nodes tr : nodes (emplace_back tr) = nodes tr ++ [defaultNode].
Proof. unfold emplace_back. destruct (_ <? _)%nat; reflexivity. Qed.

Lemma emplace_back_frame tr :
  prefixSum (emplace_back tr) = prefixSum tr
  /\ minRegionSize (emplace_back tr) = minRegionSize tr
  /\ dangling (emplace_back tr) = dangling tr
  /\ (moves tr <= moves (emplace_back tr))%nat
  /\ ((length (nodes tr) < capacity tr)%nat ->
      moves (emplace_back tr) = moves tr /\ capacity (emplace_back tr) = capacity tr).
Proof.
  unfold emplace_back. destruct (_ <? _)%nat eqn:E; cbn.
  - repeat split; trivial.
  - apply Nat.ltb_ge in E. repeat split; trivial; lia.
Qed.

Lemma writeVia_frame node upd tr :
  prefixSum (writeVia node upd tr) = prefixSum tr
  /\ minRegionSize (writeVia node upd tr) = minRegionSize tr
  /\ moves (writeVia node upd tr) = moves tr
  /\ capacity (writeVia node upd tr) = capacity tr.
Proof. unfold writeVia. destruct (_ =? _)%nat; cbn; repeat split. Qed.

Lemma writeVia_live node upd tr :
  ref_storage node = moves tr ->
  nodes (writeVia node upd tr) = alter upd (ref_index node) (nodes tr)
  /\ dangling (writeVia node upd tr) = dangling tr.
Proof.
  intros E. unfold writeVia. rewrite E, Nat.eqb_refl. cbn. split; reflexivity.
Qed.

Lemma writeVia_stale node upd tr :
  ref_storage node <> moves tr ->
  nodes (writeVia node upd tr) = nodes tr /\ dangling (writeVia node upd tr) = true.
Proof.
  intros E. unfold writeVia. apply Nat.eqb_neq in E. rewrite E. cbn.
  split; reflexivity.
Qed.

Lemma alter_middle {A} (f : A -> A) (l1 : list A) (x : A) (l2 : list A) :
  alter f (length l1) (l1 ++ x :: l2) = l1 ++ f x :: l2.
Proof.
  rewrite <- (Nat.add_0_r (length l1)) at 1. rewrite alter_app_r. reflexivity.
Qed.

End TreeBuild.

Section TreeBuildSpec.

Import RegionTree.

(** What a call of [buildRecursive] on [region] does to the tree: it
    appends the nodes [new], all within [region]; when no write went
    through an invalidated reference, the leaves among [new] cover every
    pixel of [region] once and no other pixel; and when the nodes still fit
    the capacity the call started with, the storage never moved. *)
Definition grows (region : Region) (tr tr' : t) (new : list RegionTreeNode) : Prop :=
  nodes tr' = nodes tr ++ new
  /\ (0 < length new)%nat
  /\ Forall (inside region) new
  /\ prefixSum tr' = prefixSum tr /\ minRegionSize tr' = minRegionSize tr
  /\ (moves tr <= moves tr')%nat
  /\ (dangling tr = true -> dangling tr' = true)
  /\ (dangling tr' = false ->
      forall r c, leafCover new r c = b2n (contains region r c))
  /\ ((length (nodes tr') <= capacity tr)%nat ->
      moves tr' = moves tr /\ capacity tr' = capacity tr
      /\ dangling tr' = dangling tr).

Definition recurse_ok (recurse : Region -> Z -> Z -> t -> option (Z * t)) : Prop :=
  forall q d p tr idx tr',
    good q -> recurse q d p tr = Some (idx, tr') ->
    idx = Z.of_nat (length (nodes tr)) /\ exists new, grows q tr tr' new.

(** The invariant of the loop over the four quadrants: [pre] are the nodes
    that were there before the call, [X] is the node of the call, [rest]
    the nodes of the quadrants [done] so far, [tr0] the tree when the loop
    starts. *)
Definition loopInv (region : Region) (tr0 : t) (pre : list RegionTreeNode)
    (done : list (nat * Region)) (tr : t) : Prop :=
  exists X rest,
    nodes tr = pre ++ X :: rest
    /\ bounds X = region /\ length (children X) = 4%nat
    /\ Forall (inside region) rest
    /\ prefixSum tr = prefixSum tr0 /\ minRegionSize tr = minRegionSize tr0
    /\ (moves tr0 <= moves tr)%nat
    /\ (dangling tr0 = true -> dangling tr = true)
    /\ (dangling tr = false ->
        moves tr = moves tr0
        /\ (forall i q, In (i, q) done -> isValid q = true -> 0 <= child X i)
        /\ forall r c, leafCover rest r c = regionCover done r c)
    /\ ((length (nodes tr) <= capacity tr0)%nat ->
        moves tr = moves tr0 /\ capacity tr = capacity tr0
        /\ dangling tr = dangling tr0).

Lemma contains_invalid q r c : isValid q = false -> contains q r c = false.
Proof.
  intros V. apply contains_false. intros [H1 H2].
  assert (isValid q = true) by (apply isValid_spec; lia). congruence.
Qed.

Lemma child_setChild_eq i c X :
  (i < length (children X))%nat -> child (setChild i c X) i = c.
Proof.
  intros H. unfold child, setChild. cbn [children].
  rewrite list_lookup_insert_eq by exact H. reflexivity.
Qed.

Lemma child_setChild_ne i j c X : i <> j -> child (setChild i c X) j = child X j.
Proof.
  intros H. unfold child, setChild. cbn [children].
  rewrite list_lookup_insert_ne by exact H. reflexivity.
Qed.

Lemma buildChild_step recurse region tr0 pre node nodeIdx depth done tr i q tr2 :
  recurse_ok recurse ->
  ref_storage node = moves tr0 -> ref_index node = length pre -> (i < 4)%nat ->
  (isValid q = true -> good q /\ subregion q region) ->
  loopInv region tr0 pre done tr ->
  buildChild recurse node nodeIdx depth (Some tr) (i, q) = Some tr2 ->
  loopInv region tr0 pre (done ++ [(i, q)]) tr2.
Proof.
  intros Hrec Hst Hix Hi Hq (X & rest & Hn & HbX & HcX & Hin & Hps & Hms & Hmv & Hd
                             & Hlive & Hfit) Hstep.
  unfold buildChild in Hstep. cbn [mbind option_bind fst snd] in Hstep.
  destruct (isValid q) eqn:V.
  - (* a valid quadrant: recurse, then assign the child index *)
    destruct (Hq eq_refl) as [Gq Sq].
    destruct (recurse q (int32 (depth + 1)) nodeIdx tr) as [[cidx tr1]|] eqn:R;
      [|discriminate].
    cbn [mbind option_bind fst snd] in Hstep. injection Hstep as <-.
    destruct (Hrec _ _ _ _ _ _ Gq R)
      as [Hc (new & Gn & Glen & Gin & Gps & Gms & Gmv & Gd & Gcover & Gfit)].
    pose proof (writeVia_frame node (setChild i cidx) tr1) as (Wps & Wms & Wmv & Wcap).
    assert (Hnew : Forall (inside region) (rest ++ new)).
    { apply Forall_app. split; [exact Hin|].
      eapply Forall_impl; [exact Gin|]. intros n. apply inside_mono. exact Sq. }
    destruct (Nat.eq_dec (ref_storage node) (moves tr1)) as [Elive|Estale].
    + (* the reference is still valid *)
      destruct (writeVia_live node (setChild i cidx) tr1 Elive) as [Wn Wd].
      exists (setChild i cidx X), (rest ++ new).
      rewrite Wn, Gn, Hn, Hix. rewrite <- List.app_assoc. cbn [app]. rewrite alter_middle.
      split; [reflexivity|].
      split; [exact HbX|]. split; [cbn; rewrite length_insert; exact HcX|].
      split; [exact Hnew|]. split; [congruence|]. split; [congruence|].
      split; [lia|]. split; [intros D; rewrite Wd; auto|]. split.
      * rewrite Wd. intros D1.
        assert (D : dangling tr = false).
        { destruct (dangling tr) eqn:D; [|reflexivity]. rewrite (Gd eq_refl) in D1.
          discriminate. }
        destruct (Hlive D) as (Lmv & Lch & Lcov).
        split; [lia|]. split.
        -- intros j q' Hj Vq'. apply in_app_or in Hj as [Hj|Hj].
           ++ destruct (Nat.eq_dec i j) as [<-|Hne].
              ** rewrite child_setChild_eq by lia. lia.
              ** rewrite child_setChild_ne by exact Hne. eauto.
           ++ destruct Hj as [Hj|[]]. injection Hj as <- <-.
              rewrite child_setChild_eq by lia. lia.
        -- intros r c. rewrite leafCover_app, regionCover_app, Lcov, (Gcover D1).
           cbn. lia.
      * intros F. rewrite Wmv, Wcap, Wd.
        rewrite length_app in F. cbn [length] in F. rewrite length_app in F.
        assert (F0 : (length (nodes tr) <= capacity tr0)%nat).
        { rewrite Hn, length_app. cbn [length]. lia. }
        destruct (Hfit F0) as (F1 & F2 & F3).
        assert (F4 : (length (nodes tr1) <= capacity tr)%nat).
        { rewrite Gn, Hn, !length_app. cbn [length]. lia. }
        destruct (Gfit F4) as (F5 & F6 & F7).
        repeat split; congruence.
    + (* the vector was reallocated during the recursion *)
      destruct (writeVia_stale node (setChild i cidx) tr1 Estale) as [Wn Wd].
      exists X, (rest ++ new).
      rewrite Wn, Gn, Hn, <- List.app_assoc. cbn [app].
      split; [reflexivity|]. split; [exact HbX|]. split; [exact HcX|].
      split; [exact Hnew|]. split; [congruence|]. split; [congruence|].
      split; [lia|]. split; [intros _; exact Wd|]. split.
      * rewrite Wd. discriminate.
      * intros F. exfalso.
        rewrite !length_app in F. cbn [length] in F. rewrite ?length_app in F.
        assert (F0 : (length (nodes tr) <= capacity tr0)%nat).
        { rewrite Hn, length_app. cbn [length]. lia. }
        destruct (Hfit F0) as (F1 & F2 & F3).
        assert (F4 : (length (nodes tr1) <= capacity tr)%nat).
        { rewrite Gn, Hn, !length_app. cbn [length]. lia. }
        destruct (Gfit F4) as (F5 & F6 & F7). congruence.
  - (* an invalid quadrant is skipped *)
    injection Hstep as <-. exists X, rest.
    split; [exact Hn|]. split; [exact HbX|]. split; [exact HcX|].
    split; [exact Hin|]. split; [exact Hps|]. split; [exact Hms|].
    split; [exact Hmv|]. split; [exact Hd|]. split; [|exact Hfit].
    intros D. destruct (Hlive D) as (Lmv & Lch & Lcov).
    split; [exact Lmv|]. split.
    + intros j q' Hj Vq'. apply in_app_or in Hj as [Hj|Hj]; [eauto|].
      destruct Hj as [Hj|[]]. injection Hj as <- <-. congruence.
    + intros r c. rewrite regionCover_app, Lcov. cbn.
      rewrite (contains_invalid q r c V). cbn. lia.
Qed.

Lemma fold_buildChild_None recurse node nodeIdx depth qs :
  fold_left (buildChild recurse node nodeIdx depth) qs None = None.
Proof. induction qs as [|iq qs IH]; [reflexivity | exact IH]. Qed.

Lemma buildChildren_loop recurse region tr0 pre node nodeIdx depth qs :
  recurse_ok recurse ->
  ref_storage node = moves tr0 -> ref_index node = length pre ->
  Forall (fun iq => (fst iq < 4)%nat
                    /\ (isValid (snd iq) = true ->
                        good (snd iq) /\ subregion (snd iq) region)) qs ->
  forall done tr tr',
    loopInv region tr0 pre done tr ->
    fold_left (buildChild recurse node nodeIdx depth) qs (Some tr) = Some tr' ->
    loopInv region tr0 pre (done ++ qs) tr'.
Proof.
  intros Hrec Hst Hix Hqs. induction Hqs as [|[i q] qs [Hi Hq] _ IH];
    intros done tr tr' Hinv Hfold.
  - cbn in Hfold. injection Hfold as <-. rewrite app_nil_r. exact Hinv.
  - cbn [fold_left] in Hfold.
    destruct (buildChild recurse node nodeIdx depth (Some tr) (i, q)) as [tr2|] eqn:S.
    + replace (done ++ (i, q) :: qs) with ((done ++ [(i, q)]) ++ qs)
        by (rewrite <- List.app_assoc; reflexivity).
      apply (IH _ tr2); [|exact Hfold].
      eapply buildChild_step; eauto.
    + rewrite fold_buildChild_None in Hfold. discriminate.
Qed.

Lemma computeNodeStats_spec node region tr pre X :
  ref_storage node = moves tr -> ref_index node = length pre ->
  nodes tr = pre ++ [X] ->
  exists X',
    nodes (computeNodeStats node region tr) = pre ++ [X']
    /\ bounds X' = bounds X /\ children X' = children X
    /\ prefixSum (computeNodeStats node region tr) = prefixSum tr
    /\ minRegionSize (computeNodeStats node region tr) = minRegionSize tr
    /\ moves (computeNodeStats node region tr) = moves tr
    /\ capacity (computeNodeStats node region tr) = capacity tr
    /\ dangling (computeNodeStats node region tr) = dangling tr.
Proof.
  intros Hst Hix Hn. unfold computeNodeStats.
  destruct (prefixSum tr) as [ps|] eqn:Eps; [|exists X; repeat split; auto].
  destruct (negb (PrefixSum.built ps)); [exists X; repeat split; auto|].
  destruct (PrefixSum.queryStatsR ps region) as [s|];
    [|exists X; repeat split; auto].
  pose proof (writeVia_frame node (setStats s) tr) as (Wps & Wms & Wmv & Wcap).
  destruct (writeVia_live node (setStats s) tr Hst) as [Wn Wd].
  exists (setStats s X). rewrite Wn, Hn, Hix, alter_middle.
  repeat split; auto; congruence.
Qed.

(** Every call of [buildRecursive] that returns meets [grows]. *)
Lemma buildRecursive_grows fuel : recurse_ok (buildRecursive fuel).
Proof.
  induction fuel as [|fuel IH]; intros region d p tr idx tr' Hg Hrun;
    [discriminate|].
  cbn [buildRecursive] in Hrun. cbv zeta in Hrun.
  set (pre := nodes tr) in *.
  set (tra := emplace_back tr) in *.
  set (node := refTo tra (length pre)) in *.
  set (trb := writeVia node (initNode (Z.of_nat (length pre)) region d p) tra) in *.
  set (trc := computeNodeStats node region trb) in *.
  set (trd := countNode d trc) in *.
  pose proof (emplace_back_nodes tr) as Ea. fold tra pre in Ea.
  pose proof (emplace_back_frame tr) as (Aps & Ams & Ad & Amv & Afit).
  fold tra pre in Aps, Ams, Ad, Amv, Afit.
  assert (Hst : ref_storage node = moves tra) by reflexivity.
  assert (Hix : ref_index node = length pre) by reflexivity.
  pose proof (writeVia_frame node (initNode (Z.of_nat (length pre)) region d p) tra)
    as (Bps & Bms & Bmv & Bcap). fold trb in Bps, Bms, Bmv, Bcap.
  destruct (writeVia_live node (initNode (Z.of_nat (length pre)) region d p) tra Hst)
    as [Bn Bd]. fold trb in Bn, Bd.
  rewrite Ea, Hix, alter_middle in Bn.
  destruct (computeNodeStats_spec node region trb pre _ ltac:(congruence) Hix Bn)
    as (X & Cn & CbX & CcX & Cps & Cms & Cmv & Ccap & Cd).
  fold trc in Cn, Cps, Cms, Cmv, Ccap, Cd.
  cbn [initNode bounds children] in CbX, CcX.
  assert (Dn : nodes trd = pre ++ [X]) by exact Cn.
  assert (Dps : prefixSum trd = prefixSum tr) by (cbn; congruence).
  assert (Dms : minRegionSize trd = minRegionSize tr) by (cbn; congruence).
  assert (Dmv : moves trd = moves tra) by (cbn; congruence).
  assert (Dcap : capacity trd = capacity tra) by (cbn; congruence).
  assert (Dd : dangling trd = dangling tr) by (cbn; congruence).
  assert (HX : inside region X).
  { unfold inside, subregion. rewrite CbX. split; [exact Hg | lia]. }
  match type of Hrun with (if ?b then _ else _) = _ => destruct b end.
  - (* the base case: a leaf *)
    injection Hrun as <- <-. split; [reflexivity|]. exists [X].
    unfold grows. cbn [nodes prefixSum minRegionSize moves capacity dangling countLeaf].
    split; [exact Dn|]. split; [cbn; lia|]. split; [apply Forall_singleton; exact HX|].
    split; [exact Dps|]. split; [exact Dms|]. split; [lia|].
    split; [congruence|]. split.
    + intros _ r c. cbn [leafCover]. rewrite CbX.
      assert (L : isLeaf X = true) by (unfold isLeaf, child; rewrite CcX; reflexivity).
      rewrite L. cbn. lia.
    + intros F. rewrite Dn, length_app in F. cbn [length] in F.
      destruct Afit as [A1 A2]; [lia|]. repeat split; congruence.
  - (* the recursive case: the loop over the quadrants *)
    match type of Hrun with (?o ≫= _) = _ => destruct o as [tre|] eqn:Hfold end;
      [|discriminate].
    cbn [mbind option_bind] in Hrun. injection Hrun as <- <-.
    split; [reflexivity|].
    destruct (splitRegion_good region Hg) as (q0 & q1 & q2 & q3 & Hsplit & V0 & Hq & Hcov).
    rewrite Hsplit in Hfold. cbn [zip zip_with] in Hfold.
    assert (Hinv0 : loopInv region trd pre [] trd).
    { exists X, []. split; [exact Dn|]. split; [exact CbX|].
      split; [rewrite CcX; reflexivity|]. split; [constructor|].
      repeat split; trivial. intros i q []. }
    assert (Hqs : Forall (fun iq => (fst iq < 4)%nat
                          /\ (isValid (snd iq) = true ->
                              good (snd iq) /\ subregion (snd iq) region))
                    [(0, q0); (1, q1); (2, q2); (3, q3)]%nat).
    { rewrite !Forall_cons in Hq. destruct Hq as (Q0 & Q1 & Q2 & Q3 & _).
      repeat (apply Forall_cons; split); try (apply Forall_nil; exact I);
        cbn [fst snd]; split; (lia || assumption). }
    pose proof (buildChildren_loop (buildRecursive fuel) region trd pre node
                  (Z.of_nat (length pre)) d _ IH ltac:(congruence) Hix Hqs
                  [] trd tre Hinv0 Hfold)
      as (X' & rest & En & EbX & EcX & Ein & Eps & Ems & Emv & Ed & Elive & Efit).
    cbn [app] in Elive.
    exists (X' :: rest). unfold grows.
    split; [exact En|]. split; [cbn; lia|].
    split; [constructor; [unfold inside, subregion; rewrite EbX; split; [exact Hg|lia]
                         | exact Ein]|].
    split; [congruence|]. split; [congruence|]. split; [lia|].
    split; [intros D; apply Ed; congruence|]. split.
    + intros D r c. destruct (Elive D) as (_ & Lch & Lcov).
      cbn [leafCover]. rewrite Lcov, Hcov.
      assert (L : isLeaf X' = false).
      { unfold isLeaf.
        assert (0 <= child X' 0) by (apply (Lch 0%nat q0); [left; reflexivity | exact V0]).
        replace (child X' 0 =? -1) with false by (symmetry; apply Z.eqb_neq; lia).
        reflexivity. }
      rewrite L. cbn. lia.
    + intros F. rewrite En, length_app in F. cbn [length] in F.
      destruct Afit as [A1 A2]; [lia|].
      destruct Efit as (E1 & E2 & E3).
      { rewrite En, length_app. cbn [length]. rewrite Dcap, A2. lia. }
      repeat split; congruence.
Qed.

End TreeBuildSpec.

(** ** RegionTree::build returns, for a positive minimum size *)

Section TreeBuildTotal.

Import RegionTree.

(** [Config::MAX_IMAGE_DIM] *)
Definition MAX_IMAGE_DIM : Z := 8192.

(** The raster sizes the program supports. *)
Definition supported (h w : nat) : Prop :=
  (0 < h)%nat /\ (0 < w)%nat
  /\ Z.of_nat h <= MAX_IMAGE_DIM /\ Z.of_nat w <= MAX_IMAGE_DIM.

Lemma supported_machine_sized h w : supported h w -> machine_sized h w.
Proof.
  unfold supported, machine_sized, MAX_IMAGE_DIM. intros (_ & _ & Hh & Hw).
  split; [lia|]. split; [lia|].
  assert (Z.of_nat h * Z.of_nat w <= 8192 * 8192) by (apply Z.mul_le_mono_nonneg; lia).
  lia.
Qed.

Lemma good_dims R :
  good R ->
  int32 (int32 (row2 R - row1 R) + 1) = regionHeight R
  /\ int32 (int32 (col2 R - col1 R) + 1) = regionWidth R.
Proof.
  intros (Hv & H1 & H2 & H3 & H4). apply isValid_spec in Hv.
  unfold regionHeight, regionWidth.
  rewrite (int32_small (row2 R - row1 R)), (int32_small (col2 R - col1 R))
    by (unfold in_int32; lia).
  rewrite !int32_small by (unfold in_int32; lia). split; reflexivity.
Qed.

(** Every quadrant of a region of at least two rows has fewer rows. *)
Lemma splitRegion_shorter R :
  good R -> 2 <= regionHeight R ->
  Forall (fun q => regionHeight q < regionHeight R) (splitRegion R).
Proof.
  intros HR H2. pose proof HR as (Hv & _).
  rewrite (splitRegion_small R (good_small R HR) Hv).
  apply isValid_spec in Hv as [Hr Hc]. unfold regionHeight in *.
  assert (M : row1 R <= cdiv (row1 R + row2 R) 2 < row2 R).
  { destruct HR as (_ & N1 & _). unfold cdiv. rewrite Z.quot_div_nonneg by lia.
    pose proof (Z.div_mod (row1 R + row2 R) 2 ltac:(lia)).
    pose proof (Z.mod_pos_bound (row1 R + row2 R) 2 ltac:(lia)). lia. }
  unfold quadrantsAt.
  repeat (apply Forall_cons; split); try (apply Forall_nil; exact I);
    cbn [row1 row2]; lia.
Qed.

Definition recurse_total (minSize : Z) (bound : Z)
    (recurse : Region -> Z -> Z -> t -> option (Z * t)) : Prop :=
  forall q d p tr,
    good q -> regionHeight q < bound -> minRegionSize tr = minSize ->
    exists r, recurse q d p tr = Some r.

Lemma buildChildren_total recurse region tr0 pre node nodeIdx depth qs bound :
  recurse_ok recurse -> recurse_total (minRegionSize tr0) bound recurse ->
  ref_storage node = moves tr0 -> ref_index node = length pre ->
  Forall (fun iq => (fst iq < 4)%nat
                    /\ (isValid (snd iq) = true ->
                        good (snd iq) /\ subregion (snd iq) region)) qs ->
  Forall (fun iq => regionHeight (snd iq) < bound) qs ->
  forall done tr,
    loopInv region tr0 pre done tr ->
    exists tr', fold_left (buildChild recurse node nodeIdx depth) qs (Some tr) = Some tr'.
Proof.
  intros Hok Htot Hst Hix Hqs. induction Hqs as [|[i q] qs [Hi Hq] _ IH];
    intros Hb done tr Hinv.
  - exists tr. reflexivity.
  - apply Forall_cons in Hb as [Hbq Hb]. cbn [snd] in Hbq. cbn [fold_left].
    assert (S : exists tr2, buildChild recurse node nodeIdx depth (Some tr) (i, q)
                            = Some tr2).
    { unfold buildChild. cbn [mbind option_bind fst snd].
      destruct (isValid q) eqn:V; [|eauto].
      destruct (Hq V) as [Gq _].
      destruct Hinv as (X & rest & _ & _ & _ & _ & _ & Hms & _).
      destruct (Htot q (int32 (depth + 1)) nodeIdx tr Gq Hbq Hms) as [r ->].
      cbn [mbind option_bind]. eauto. }
    destruct S as [tr2 S]. rewrite S.
    apply (IH Hb (done ++ [(i, q)])). eapply buildChild_step; eauto.
Qed.

Lemma buildRecursive_total minSize fuel :
  1 <= minSize ->
  recurse_total minSize (Z.of_nat fuel) (buildRecursive fuel).
Proof.
  intros Hm. induction fuel as [|fuel IH]; intros region d p tr Hg Hh Hms.
  - exfalso. destruct Hg as (Hv & _). apply isValid_spec in Hv.
    unfold regionHeight in Hh. lia.
  - cbn [buildRecursive]. cbv zeta.
    set (pre := nodes tr).
    set (tra := emplace_back tr).
    set (node := refTo tra (length pre)).
    set (trb := writeVia node (initNode (Z.of_nat (length pre)) region d p) tra).
    set (trc := computeNodeStats node region trb).
    set (trd := countNode d trc).
    pose proof (emplace_back_nodes tr) as Ea. fold tra pre in Ea.
    pose proof (emplace_back_frame tr) as (Aps & Ams & Ad & Amv & Afit).
    fold tra pre in Aps, Ams, Ad, Amv, Afit.
    assert (Hst : ref_storage node = moves tra) by reflexivity.
    assert (Hix : ref_index node = length pre) by reflexivity.
    pose proof (writeVia_frame node (initNode (Z.of_nat (length pre)) region d p) tra)
      as (Bps & Bms & Bmv & Bcap). fold trb in Bps, Bms, Bmv, Bcap.
    destruct (writeVia_live node (initNode (Z.of_nat (length pre)) region d p) tra Hst)
      as [Bn Bd]. fold trb in Bn, Bd.
    rewrite Ea, Hix, alter_middle in Bn.
    destruct (computeNodeStats_spec node region trb pre _ ltac:(congruence) Hix Bn)
      as (X & Cn & CbX & CcX & Cps & Cms & Cmv & Ccap & Cd).
    fold trc in Cn, Cps, Cms, Cmv, Ccap, Cd.
    cbn [initNode bounds children] in CbX, CcX.
    assert (Dms : minRegionSize trd = minSize) by (cbn; congruence).
    destruct (good_dims region Hg) as [-> ->]. rewrite Dms.
    destruct ((regionHeight region <=? minSize) || (regionWidth region <=? minSize))
      eqn:Leaf; [eauto|].
    apply orb_false_elim in Leaf as [L1 _]. apply Z.leb_gt in L1.
    destruct (splitRegion_good region Hg) as (q0 & q1 & q2 & q3 & Hsplit & V0 & Hq & _).
    pose proof (splitRegion_shorter region Hg ltac:(lia)) as Hshort.
    rewrite Hsplit in Hshort |- *. cbn [zip zip_with].
    assert (Hinv0 : loopInv region trd pre [] trd).
    { exists X, []. split; [exact Cn|]. split; [exact CbX|].
      split; [rewrite CcX; reflexivity|]. split; [constructor|].
      repeat split; trivial. intros i q []. }
    assert (Hqs : Forall (fun iq => (fst iq < 4)%nat
                          /\ (isValid (snd iq) = true ->
                              good (snd iq) /\ subregion (snd iq) region))
                    [(0, q0); (1, q1); (2, q2); (3, q3)]%nat).
    { rewrite !Forall_cons in Hq. destruct Hq as (Q0 & Q1 & Q2 & Q3 & _).
      repeat (apply Forall_cons; split); try (apply Forall_nil; exact I);
        cbn [fst snd]; split; (lia || assumption). }
    assert (Hbs : Forall (fun iq : nat * Region => regionHeight (snd iq) < Z.of_nat fuel)
                    [(0, q0); (1, q1); (2, q2); (3, q3)]%nat).
    { rewrite !Forall_cons in Hshort. destruct Hshort as (S0 & S1 & S2 & S3 & _).
      repeat (apply Forall_cons; split); try (apply Forall_nil; exact I);
        cbn [snd]; lia. }
    destruct (buildChildren_total (buildRecursive fuel) region trd pre node
                (Z.of_nat (length pre)) d _ (Z.of_nat fuel)
                (buildRecursive_grows fuel) ltac:(rewrite Dms; exact IH)
                ltac:(cbn; congruence) Hix Hqs Hbs [] trd Hinv0) as [tre ->].
    cbn [mbind option_bind]. eauto.
Qed.

End TreeBuildTotal.

(** ** RegionTree::build: the leaves against the raster *)

Section TreeBuildResult.

Import RegionTree.

(** The number of nodes [build] reserves room for, line 151. *)
Definition estimatedNodes (h w : nat) (minSize : Z) : Z :=
  (Z.of_nat h / minSize + 1) * (Z.of_nat w / minSize + 1) * 2.

(** The pixel [(r, c)] belongs to the raster of [h] rows and [w] columns. *)
Definition inRaster (h w : nat) (r c : Z) : bool :=
  contains (mkRegion 0 0 (Z.of_nat h - 1) (Z.of_nat w - 1)) r c.

Lemma reserve_spec n tr :
  nodes (reserve n tr) = nodes tr /\ dangling (reserve n tr) = dangling tr
  /\ minRegionSize (reserve n tr) = minRegionSize tr
  /\ prefixSum (reserve n tr) = prefixSum tr
  /\ (n <= capacity (reserve n tr))%nat /\ (capacity tr <= capacity (reserve n tr))%nat.
Proof.
  unfold reserve. destruct (n <=? capacity tr)%nat eqn:E; cbn.
  - apply Nat.leb_le in E. repeat split; lia.
  - apply Nat.leb_gt in E. repeat split; lia.
Qed.

(** On a supported raster and for a positive minimum size, [build] returns
    once the fuel exceeds the height.  Every node covers a valid region
    within the raster.  If the nodes fit the reservation, no reference is
    invalidated; and if none is, every pixel of the raster lies in exactly
    one leaf, and no leaf reaches outside the raster. *)
Lemma build_result ps0 image h w tr0 minSize fuel :
  rectangular image h w -> supported h w -> 1 <= minSize -> (h < fuel)%nat ->
  exists tree,
    build fuel tr0 (Some (PrefixSum.build ps0 image)) minSize = Some tree
    /\ Forall (fun n => isValid (bounds n) = true
                        /\ within (bounds n) (Z.of_nat h) (Z.of_nat w)) (nodes tree)
    /\ (dangling tr0 = false ->
        Z.of_nat (length (nodes tree)) <= estimatedNodes h w minSize ->
        dangling tree = false)
    /\ (dangling tree = false ->
        forall r c, leafCover (nodes tree) r c = b2n (inRaster h w r c)).
Proof.
  intros Hrect Hsup Hm Hfuel. pose proof Hsup as (Hh & Hw & Mh & Mw).
  unfold MAX_IMAGE_DIM in Mh, Mw.
  pose proof (build_indexes ps0 image h w Hrect Hh Hw (supported_machine_sized h w Hsup))
    as (Hb & Hhe & Hwi & _).
  unfold build. rewrite Hb, Hhe, Hwi. cbn [negb].
  replace (minSize =? 0) with false by (symmetry; apply Z.eqb_neq; lia).
  unfold cdiv. rewrite !Z.quot_div_nonneg by lia.
  assert (Dh : 0 <= Z.of_nat h / minSize <= 8192).
  { split; [apply Z.div_pos; lia|].
    transitivity (Z.of_nat h); [apply Z.div_le_upper_bound; nia | lia]. }
  assert (Dw : 0 <= Z.of_nat w / minSize <= 8192).
  { split; [apply Z.div_pos; lia|].
    transitivity (Z.of_nat w); [apply Z.div_le_upper_bound; nia | lia]. }
  assert (Dp : 0 <= (Z.of_nat h / minSize + 1) * (Z.of_nat w / minSize + 1)
               <= 8193 * 8193).
  { split; [apply Z.mul_nonneg_nonneg; lia | apply Z.mul_le_mono_nonneg; lia]. }
  rewrite (int32_small (Z.of_nat h / minSize + 1)) by (unfold in_int32; lia).
  rewrite (int32_small (Z.of_nat w / minSize + 1)) by (unfold in_int32; lia).
  rewrite (int32_small ((Z.of_nat h / minSize + 1) * (Z.of_nat w / minSize + 1)))
    by (unfold in_int32; lia).
  rewrite (int32_small ((Z.of_nat h / minSize + 1) * (Z.of_nat w / minSize + 1) * 2))
    by (unfold in_int32; lia).
  fold (estimatedNodes h w minSize).
  assert (De : 0 <= estimatedNodes h w minSize) by (unfold estimatedNodes; lia).
  replace (estimatedNodes h w minSize <? 0) with false
    by (symmetry; apply Z.ltb_ge; exact De).
  cbv zeta.
  rewrite (int32_small (Z.of_nat h - 1)), (int32_small (Z.of_nat w - 1))
    by (unfold in_int32; lia).
  set (tr1 := mk [] (capacity tr0) (moves tr0) (dangling tr0)
                 (Some (PrefixSum.build ps0 image)) (rootIndex tr0) 0 0 0 minSize).
  set (tr2 := reserve (Z.to_nat (estimatedNodes h w minSize)) tr1).
  pose proof (reserve_spec (Z.to_nat (estimatedNodes h w minSize)) tr1)
    as (Rn & Rd & Rms & _ & Rcap & _). fold tr2 in Rn, Rd, Rms, Rcap.
  set (root := mkRegion 0 0 (Z.of_nat h - 1) (Z.of_nat w - 1)).
  assert (Groot : good root).
  { unfold good, root. rewrite isValid_spec. cbn [row1 row2 col1 col2]. lia. }
  destruct (buildRecursive_total minSize fuel Hm root 0 (-1) tr2 Groot
              ltac:(unfold regionHeight, root; cbn [row1 row2]; lia) Rms)
    as [[idx tr'] Hrun].
  rewrite Hrun. cbn [mbind option_bind fst snd].
  destruct (buildRecursive_grows fuel _ _ _ _ _ _ Groot Hrun)
    as [_ (new & Gn & _ & Gin & _ & _ & _ & _ & Gcover & Gfit)].
  rewrite Rn in Gn. cbn [app] in Gn.
  eexists. split; [reflexivity|]. cbn [nodes dangling]. rewrite Gn.
  split; [|split].
  - eapply Forall_impl; [exact Gin|]. intros n [(Gv & G1 & G2 & _) S].
    split; [exact Gv|]. unfold within, subregion, root in *.
    cbn [row1 row2 col1 col2] in S. lia.
  - intros D0 Hfit. destruct Gfit as (_ & _ & Gd).
    { rewrite Gn. lia. }
    rewrite Gd, Rd. exact D0.
  - intros D r c. apply (Gcover D).
Qed.

End TreeBuildResult.

(** *** A raster on which the reservation is too small *)

(** A 67 x 67 raster (the 57 nodes of its tree for [minSize = 16] and the
    reservation of 50 do not depend on the pixel values). *)
Definition raster67 : Matrix := replicate 67 (replicate 67 (px 7)).

(** What is observed of a built tree: whether a write went through an
    invalidated reference, the number of nodes, of leaves counted by
    [leafCount], of nodes that [isLeaf] accepts, and of leaves covering
    the pixels (40, 40) and (0, 0). *)
Definition observed (tree : RegionTree.t) : bool * nat * Z * nat * nat * nat :=
  (RegionTree.dangling tree, length (RegionTree.nodes tree), RegionTree.leafCount tree,
   length (RegionTree.getLeaves tree),
   leafCover (RegionTree.nodes tree) 40 40, leafCover (RegionTree.nodes tree) 0 0).

(** C2 fails on the code.  For a 67 x 67 raster and the default minimum
    size 16, [build] reserves room for 50 nodes and creates 57.  The 51st
    [emplace_back] reallocates the vector while the calls for the nodes 0
    and 48 (and 49) still hold their reference [node]; their later
    assignments [node.children[i] = ...] go through the invalidated
    reference.  With the writes lost, the nodes 48 and 49 keep four [-1]
    children and count as leaves next to their own descendants: 45 nodes
    pass [isLeaf] for 43 leaves built, and the pixel (40, 40) lies in three
    of them. *)
Lemma build_67x67_overlapping_leaves :
  estimatedNodes 67 67 16 = 50
  /\ observed <$> RegionTree.build 100 RegionTree.init
                    (Some (PrefixSum.build PrefixSum.init raster67)) 16
     = Some (true, 57%nat, 43, 45%nat, 3%nat, 1%nat).
Proof. split; vm_compute; reflexivity. Qed.

(** X1.  Where the claim of C2 does hold: on a supported raster and for a
    positive minimum size [build] returns; every node covers a valid region
    of the raster; and if the nodes fit the reservation
    [(h / minSize + 1) * (w / minSize + 1) * 2], every pixel of the raster
    lies in exactly one leaf and no leaf covers anything else. *)
Theorem build_leaves_partition_within_reservation
    (ps0 : PrefixSum.t) (image : Matrix) (h w : nat) (minSize : Z) (fuel : nat) :
  rectangular image h w -> supported h w -> 1 <= minSize -> (h < fuel)%nat ->
  exists tree,
    RegionTree.build fuel RegionTree.init (Some (PrefixSum.build ps0 image)) minSize
    = Some tree
    /\ (Z.of_nat (length (RegionTree.nodes tree)) <= estimatedNodes h w minSize ->
        RegionTree.dangling tree = false
        /\ forall r c, leafCover (RegionTree.nodes tree) r c = b2n (inRaster h w r c)).
Proof.
  intros Hrect Hsup Hm Hfuel.
  destruct (build_result ps0 image h w RegionTree.init minSize fuel Hrect Hsup Hm Hfuel)
    as (tree & Hb & _ & Hfit & Hcover).
  exists tree. split; [exact Hb|]. intros Hn.
  pose proof (Hfit eq_refl Hn) as D. split; [exact D | exact (Hcover D)].
Qed.

Lemma build_leaves_partition_within_reservation_witness :
  exists tree,
    RegionTree.build 100 RegionTree.init (Some (PrefixSum.build PrefixSum.init sample3x3)) 1
    = Some tree
    /\ RegionTree.dangling tree = false
    /\ leafCover (RegionTree.nodes tree) 2 1 = 1%nat
    /\ leafCover (RegionTree.nodes tree) 3 1 = 0%nat.
Proof.
  destruct (build_leaves_partition_within_reservation PrefixSum.init sample3x3 3 3 1 100
              sample3x3_rectangular ltac:(unfold supported, MAX_IMAGE_DIM; lia)
              ltac:(lia) ltac:(lia)) as (tree & Hb & Hfit).
  exists tree. split; [exact Hb|].
  assert (N : Z.of_nat (length (RegionTree.nodes tree)) <= estimatedNodes 3 3 1).
  { pose proof tree as _. revert Hb. vm_compute. intros Hb. injection Hb as <-.
    vm_compute. discriminate. }
  destruct (Hfit N) as [D C]. split; [exact D|].
  split; [rewrite C; reflexivity | rewrite C; reflexivity].
Defined.

(** ** AnomalyDetector::detectInTree *)

Section Scores.


(** The mean of the pixels of a region, as a double:
    [static_cast<double>(sum) / area]. *)
Definition regionMean (image : Matrix) (R : Region) : float :=
  PrimFloat.div (double_of_int (bruteForce id image R))
                (double_of_int (regionHeight R * regionWidth R)).

(** [|mean - globalMean| / globalStdDev], and 0 when [globalStdDev < 1e-10]. *)
Definition zscore (ps : PrefixSum.t) (mean : float) : float :=
  if PrimFloat.ltb (PrefixSum.globalStdDev ps) AnomalyDetector.EPSILON then PrimFloat.zero
  else PrimFloat.div (PrimFloat.abs (PrimFloat.sub mean (PrefixSum.globalMean ps)))
                     (PrefixSum.globalStdDev ps).

(** A node after [detectInTree]: only its score and its flag change. *)
Definition scored (ps : PrefixSum.t) (threshold : float) (image : Matrix)
    (n : RegionTree.RegionTreeNode) : RegionTree.RegionTreeNode :=
  RegionTree.mkNode (RegionTree.id n) (RegionTree.bounds n) (RegionTree.stats n)
         (zscore ps (regionMean image (RegionTree.bounds n)))
         (PrimFloat.ltb threshold (zscore ps (regionMean image (RegionTree.bounds n))))
         (RegionTree.depth n) (RegionTree.children n) (RegionTree.parent n).

Lemma area_within R h w :
  machine_sized h w -> isValid R = true -> within R (Z.of_nat h) (Z.of_nat w) ->
  area R = regionHeight R * regionWidth R /\ 0 < regionHeight R * regionWidth R.
Proof.
  intros (Mh & Mw & Mhw) Hv (W1 & W2 & W3 & W4). apply isValid_spec in Hv as [Hr Hc].
  unfold area, regionHeight, regionWidth.
  rewrite (int32_small (row2 R - row1 R)), (int32_small (col2 R - col1 R))
    by (unfold in_int32; lia).
  rewrite (int32_small (row2 R - row1 R + 1)), (int32_small (col2 R - col1 R + 1))
    by (unfold in_int32; lia).
  rewrite (int64_small (row2 R - row1 R + 1)), (int64_small (col2 R - col1 R + 1))
    by (unfold in_int64; lia).
  assert (B : 0 < (row2 R - row1 R + 1) * (col2 R - col1 R + 1)
              <= Z.of_nat h * Z.of_nat w).
  { split; [apply Z.mul_pos_pos; lia | apply Z.mul_le_mono_nonneg; lia]. }
  rewrite int64_small by (unfold in_int64; lia). split; [reflexivity | lia].
Qed.

Lemma queryMean_within ps image h w R :
  indexes ps image h w -> isValid R = true -> within R (Z.of_nat h) (Z.of_nat w) ->
  PrefixSum.queryMean ps R = Some (regionMean image R).
Proof.
  intros Hidx Hv Hin. pose proof Hidx as (Hb & _ & _ & _ & _ & Hm & _).
  unfold PrefixSum.queryMean, PrefixSum.querySumR. rewrite Hb. cbn [negb].
  destruct (query_on_index ps image h w (row1 R) (col1 R) (row2 R) (col2 R) Hidx)
    as [Q _].
  cbv zeta in Q. rewrite (clamp_within _ _ R Hin), Hv in Q. rewrite Q.
  cbn [mbind option_bind].
  destruct (area_within R h w Hm Hv Hin) as [-> Hpos].
  replace (regionHeight R * regionWidth R >? 0) with true
    by (symmetry; apply Z.gtb_lt; lia).
  reflexivity.
Qed.

Lemma computeScore_within det ps image h w R :
  indexes ps image h w ->
  AnomalyDetector.prefixSum det = Some ps ->
  AnomalyDetector.globalMean det = PrefixSum.globalMean ps ->
  AnomalyDetector.globalStdDev det = PrefixSum.globalStdDev ps ->
  isValid R = true -> within R (Z.of_nat h) (Z.of_nat w) ->
  AnomalyDetector.computeScore det R = Some (zscore ps (regionMean image R)).
Proof.
  intros Hidx Hps Hgm Hsd Hv Hin. pose proof Hidx as (Hb & _).
  unfold AnomalyDetector.computeScore, zscore. rewrite Hps, Hb, Hgm, Hsd. cbn [negb].
  destruct (PrimFloat.ltb (PrefixSum.globalStdDev ps) AnomalyDetector.EPSILON); [reflexivity|].
  rewrite (queryMean_within ps image h w R Hidx Hv Hin). reflexivity.
Qed.

Lemma scoreNodes_within det ps image h w ns :
  indexes ps image h w ->
  AnomalyDetector.prefixSum det = Some ps ->
  AnomalyDetector.globalMean det = PrefixSum.globalMean ps ->
  AnomalyDetector.globalStdDev det = PrefixSum.globalStdDev ps ->
  Forall (fun n => isValid (RegionTree.bounds n) = true
                   /\ within (RegionTree.bounds n) (Z.of_nat h) (Z.of_nat w)) ns ->
  forall acc, exists acc',
    AnomalyDetector.scoreNodes det ns acc = Some (map (scored ps (AnomalyDetector.threshold det) image) ns, acc').
Proof.
  intros Hidx Hps Hgm Hsd Hns. induction Hns as [|n ns [Hv Hin] _ IH]; intros acc.
  - exists acc. reflexivity.
  - cbn [AnomalyDetector.scoreNodes map]. unfold AnomalyDetector.scoreNode.
    rewrite (computeScore_within det ps image h w _ Hidx Hps Hgm Hsd Hv Hin).
    cbn [mbind option_bind]. fold (scored ps (AnomalyDetector.threshold det) image n).
    unfold AnomalyDetector.isAnomalous.
    change (RegionTree.mkNode (RegionTree.id n) (RegionTree.bounds n) (RegionTree.stats n) (zscore ps (regionMean image (RegionTree.bounds n)))
              (PrimFloat.ltb (AnomalyDetector.threshold det) (zscore ps (regionMean image (RegionTree.bounds n))))
              (RegionTree.depth n) (RegionTree.children n) (RegionTree.parent n))
      with (scored ps (AnomalyDetector.threshold det) image n).
    destruct (RegionTree.isLeaf (scored ps (AnomalyDetector.threshold det) image n));
      cbn [mbind option_bind fst snd];
      match goal with |- context [AnomalyDetector.scoreNodes det ns ?a] =>
        destruct (IH a) as [acc' ->] end;
      cbn [mbind option_bind fst snd]; eauto.
Qed.

End Scores.

(** C3.  After [detectInTree] has run on a tree built over a built index,
    every node (leaves included) carries
    [anomalyScore = |mean(bounds) - globalMean| / globalStdDev], computed in
    binary64, with the score 0 whenever [globalStdDev < 1e-10], and
    [isAnomaly = (anomalyScore > threshold)]; nothing else of a node
    changes. *)
Theorem detectInTree_scores
    (ps0 : PrefixSum.t) (image : Matrix) (h w : nat) (tr0 tree : RegionTree.t)
    (minSize : Z) (fuel : nat) (threshold : float) :
  rectangular image h w -> supported h w -> 1 <= minSize -> (h < fuel)%nat ->
  RegionTree.build fuel tr0 (Some (PrefixSum.build ps0 image)) minSize = Some tree ->
  let ps := PrefixSum.build ps0 image in
  let det := AnomalyDetector.initialize (AnomalyDetector.new threshold) (Some ps) in
  exists det' tree',
    AnomalyDetector.detectInTree det tree = Some (det', tree')
    /\ RegionTree.nodes tree'
       = map (scored ps threshold image) (RegionTree.nodes tree)
    /\ Forall (fun n =>
                 RegionTree.anomalyScore n
                 = zscore ps (regionMean image (RegionTree.bounds n))
                 /\ RegionTree.isAnomaly n
                    = PrimFloat.ltb threshold (RegionTree.anomalyScore n))
              (RegionTree.nodes tree').
Proof.
  intros Hrect Hsup Hm Hfuel Hbuild ps det.
  destruct (build_result ps0 image h w tr0 minSize fuel Hrect Hsup Hm Hfuel)
    as (tree0 & Hb0 & Hin & _).
  rewrite Hbuild in Hb0. injection Hb0 as <-.
  pose proof (build_indexes ps0 image h w Hrect ltac:(apply Hsup) ltac:(apply Hsup)
                (supported_machine_sized h w Hsup)) as Hidx.
  fold ps in Hidx. pose proof Hidx as (Hbuilt & _).
  assert (Hdet : det = AnomalyDetector.mk (Some ps) threshold (PrefixSum.globalMean ps)
                         (PrefixSum.globalStdDev ps)
                         (AnomalyDetector.stats (AnomalyDetector.new threshold)) false).
  { unfold det, AnomalyDetector.initialize. rewrite Hbuilt. reflexivity. }
  unfold AnomalyDetector.detectInTree.
  rewrite Hdet. cbn [AnomalyDetector.prefixSum]. rewrite Hbuilt. cbn [negb].
  match goal with |- context [AnomalyDetector.scoreNodes ?d ?ns ?a] =>
    destruct (scoreNodes_within d ps image h w ns Hidx eq_refl eq_refl eq_refl Hin a)
      as [acc' ->] end.
  cbn [mbind option_bind fst snd AnomalyDetector.threshold].
  eexists. eexists. split; [reflexivity|].
  cbn [RegionTree.withNodes RegionTree.nodes]. split; [reflexivity|].
  apply Forall_fmap. apply Forall_forall. intros n _. split; reflexivity.
Qed.

(** A 4 x 4 raster of four constant 2 x 2 blocks: 0, 10, 20 and 100. *)
Definition blocks4 : Matrix :=
  [[px 0; px 0; px 10; px 10]; [px 0; px 0; px 10; px 10];
   [px 20; px 20; px 100; px 100]; [px 20; px 20; px 100; px 100]].

Definition index4 : PrefixSum.t := PrefixSum.build PrefixSum.init blocks4.

(** Its tree for [minSize = 2]: the root and four leaves. *)
Definition tree4 : RegionTree.t :=
  default RegionTree.init (RegionTree.build 100 RegionTree.init (Some index4) 2).

Lemma blocks4_rectangular : rectangular blocks4 4 4.
Proof. split; [reflexivity | repeat constructor]. Defined.

Lemma supported_4_4 : supported 4 4.
Proof. unfold supported, MAX_IMAGE_DIM. lia. Defined.

Lemma tree4_built :
  RegionTree.build 100 RegionTree.init (Some (PrefixSum.build PrefixSum.init blocks4)) 2
  = Some tree4.
Proof. vm_compute. reflexivity. Defined.

Lemma detectInTree_scores_witness :
  exists det' tree',
    AnomalyDetector.detectInTree
      (AnomalyDetector.initialize (AnomalyDetector.new 0.5%float) (Some index4)) tree4
    = Some (det', tree')
    /\ map RegionTree.isAnomaly (RegionTree.nodes tree')
       = [false; true; true; false; true].
Proof.
  destruct (detectInTree_scores PrefixSum.init blocks4 4 4 RegionTree.init tree4 2 100
              0.5%float blocks4_rectangular supported_4_4 ltac:(lia) ltac:(lia)
              tree4_built) as (det' & tree' & E & N & _).
  exists det', tree'. split; [exact E|]. rewrite N. vm_compute. reflexivity.
Defined.

(** ** The top-K queries *)

Section HeapAccess.

Import QueryEngine.

(** With [k >= 1] the heap-full test fails on an empty heap, so [top()] is
    only read from a non-empty one. *)
Lemma full_heap_nonempty (k : Z) (heap : list AnomalyRegion) :
  1 <= k -> (int32 (Z.of_nat (length heap)) <? k) = false -> heap <> [].
Proof.
  intros Hk Hfull ->. apply Z.ltb_ge in Hfull.
  change (int32 (Z.of_nat (length (@nil AnomalyRegion)))) with 0 in Hfull. lia.
Qed.

Lemma offer_safe k ar heap : 1 <= k -> exists heap', offer k ar heap = Ok heap'.
Proof.
  intros Hk. unfold offer.
  destruct (int32 (Z.of_nat (length heap)) <? k) eqn:E; [eauto|].
  pose proof (full_heap_nonempty k heap Hk E) as Hne.
  destruct heap as [|t heap]; [congruence|]. cbn [heap_top PriorityQueue.top head].
  destruct (PrimFloat.ltb _ _); eauto.
Qed.

Lemma visitAll_safe k leafOnly nodes : 1 <= k ->
  forall st, exists st', visitAll k leafOnly nodes st = Ok st'.
Proof.
  intros Hk. induction nodes as [|node rest IH]; intros st; [eexists; reflexivity|].
  cbn [visitAll]. unfold visit.
  destruct (leafOnly && negb (RegionTree.isLeaf node)); cbn [bind]; [apply IH|].
  destruct (offer_safe k (regionOf node) (fst st) Hk) as [h ->]. cbn [bind]. apply IH.
Qed.

Lemma pruningLoop_safe k nodes fuel : 1 <= k ->
  forall st, (exists st', pruningLoop fuel nodes k st = Ok st')
             \/ pruningLoop fuel nodes k st = OutOfFuel.
Proof.
  intros Hk. induction fuel as [|fuel IH]; intros st.
  - cbn [pruningLoop]. destruct (pr_toVisit st); [left; eauto | right; reflexivity].
  - cbn [pruningLoop]. destruct (pr_toVisit st) as [|idx toVisit]; [left; eauto|].
    destruct ((idx <? 0) || (idx >=? int32 (Z.of_nat (length nodes)))); [apply IH|].
    cbv zeta.
    set (node := default RegionTree.defaultNode (nodes !! Z.to_nat idx)).
    assert (C : exists canPrune,
              (if int32 (Z.of_nat (length (pr_heap st))) >=? k
               then match heap_top (pr_heap st) with
                    | None => EmptyTop
                    | Some t => Ok (PrimFloat.ltb (RegionTree.anomalyScore node)
                                                  (ar_anomalyScore t))
                    end
               else Ok false) = Ok canPrune).
    { destruct (int32 (Z.of_nat (length (pr_heap st))) >=? k) eqn:E; [|eauto].
      assert (F : (int32 (Z.of_nat (length (pr_heap st))) <? k) = false).
      { rewrite Z.geb_leb in E. apply Z.leb_le in E. apply Z.ltb_ge. exact E. }
      pose proof (full_heap_nonempty k _ Hk F) as Hne.
      destruct (pr_heap st) as [|t heap]; [congruence|]. cbn. eauto. }
    destruct C as [canPrune ->]. cbn [bind].
    destruct (canPrune && negb (RegionTree.isLeaf node)); [apply IH|].
    destruct (RegionTree.isLeaf node); [|apply IH].
    destruct (offer_safe k (regionOf node) (pr_heap st) Hk) as [h ->]. cbn [bind].
    apply IH.
Qed.

(** With [k <= 0] the first node offered to the heap reads the top of an
    empty heap. *)
Lemma offer_empty_unsafe k ar : k <= 0 -> offer k ar [] = EmptyTop.
Proof.
  intros Hk. unfold offer. cbn [length].
  change (int32 (Z.of_nat 0)) with 0.
  replace (0 <? k) with false by (symmetry; apply Z.ltb_ge; lia).
  reflexivity.
Qed.

Lemma visitAll_unsafe k leafOnly nodes : k <= 0 ->
  Exists (fun node => leafOnly && negb (RegionTree.isLeaf node) = false) nodes ->
  forall visited, visitAll k leafOnly nodes ([], visited) = EmptyTop.
Proof.
  intros Hk Hex. induction Hex as [node rest Hv|node rest _ IH]; intros visited.
  - cbn [visitAll]. unfold visit. rewrite Hv. cbn [fst].
    rewrite (offer_empty_unsafe k _ Hk). reflexivity.
  - cbn [visitAll]. unfold visit.
    destruct (leafOnly && negb (RegionTree.isLeaf node)); cbn [bind fst];
      [apply IH|].
    rewrite (offer_empty_unsafe k _ Hk). reflexivity.
Qed.

End HeapAccess.

(** C10.  Under [k >= 1] neither top-K query reads [minHeap.top()] on an
    empty heap: [topKAnomalies] always ends with a result, and
    [topKWithPruning] ends with a result unless the fuel runs out.  The
    guard rests on [k >= 1]: for [k <= 0] the heap-full test succeeds on the
    empty heap, and the first node offered reads its top (the tree has at
    least one node, and fewer than [2^31]). *)
Theorem heap_top_guarded_by_k (qe : QueryEngine.t) (k : Z) :
  (1 <= k ->
   (forall leafOnly, exists r, QueryEngine.topKAnomalies qe k leafOnly = QueryEngine.Ok r)
   /\ (forall fuel,
         (exists r, QueryEngine.topKWithPruning fuel qe k = QueryEngine.Ok r)
         \/ QueryEngine.topKWithPruning fuel qe k = QueryEngine.OutOfFuel))
  /\ (k <= 0 ->
      forall tree node rest,
        QueryEngine.regionTree qe = Some tree ->
        RegionTree.nodes tree = node :: rest ->
        Z.of_nat (length (RegionTree.nodes tree)) < 2 ^ 31 ->
        QueryEngine.topKAnomalies qe k false = QueryEngine.EmptyTop
        /\ (RegionTree.isLeaf node = true ->
            QueryEngine.topKAnomalies qe k true = QueryEngine.EmptyTop)
        /\ forall fuel,
             QueryEngine.topKWithPruning (S fuel) qe k = QueryEngine.EmptyTop).
Proof.
  split.
  - intros Hk. split.
    + intros leafOnly. unfold QueryEngine.topKAnomalies.
      destruct (QueryEngine.regionTree qe) as [tree|]; [|eauto].
      destruct (visitAll_safe k leafOnly (RegionTree.nodes tree) Hk ([], 0))
        as [st ->].
      cbn [QueryEngine.bind]. eauto.
    + intros fuel. unfold QueryEngine.topKWithPruning.
      destruct (QueryEngine.regionTree qe) as [tree|]; [|left; eauto].
      destruct (pruningLoop_safe k (RegionTree.nodes tree) fuel Hk
                  (QueryEngine.mkPruning [] [0] 0 0)) as [[st ->]| ->];
        cbn [QueryEngine.bind]; [left; eauto | right; reflexivity].
  - intros Hk tree node rest Htree Hnodes Hsize.
    unfold QueryEngine.topKAnomalies, QueryEngine.topKWithPruning.
    rewrite Hnodes in Hsize. rewrite Htree, Hnodes. split; [|split].
    + rewrite (visitAll_unsafe k false (node :: rest) Hk); [reflexivity|].
      left. reflexivity.
    + intros Hleaf. rewrite (visitAll_unsafe k true (node :: rest) Hk); [reflexivity|].
      left. rewrite Hleaf. reflexivity.
    + intros fuel. cbn [QueryEngine.pruningLoop QueryEngine.pr_toVisit].
      replace (0 <? 0) with false by reflexivity.
      replace (0 >=? int32 (Z.of_nat (length (node :: rest)))) with false.
      2: { symmetry. rewrite Z.geb_leb. apply Z.leb_gt.
           rewrite int32_small by (unfold in_int32; lia).
           cbn [length]. lia. }
      cbn [orb]. cbv zeta. cbn [QueryEngine.pr_heap length].
      change (int32 (Z.of_nat 0)) with 0.
      replace (0 >=? k) with true
        by (symmetry; rewrite Z.geb_leb; apply Z.leb_le; lia).
      reflexivity.
Qed.

(** The 4 x 4 raster of blocks, scored with threshold 0.5, and its engine. *)
Definition detector4 : AnomalyDetector.t :=
  AnomalyDetector.initialize (AnomalyDetector.new 0.5%float) (Some index4).

Definition scoredTree4 : RegionTree.t :=
  default tree4 (snd <$> AnomalyDetector.detectInTree detector4 tree4).

Definition engine4 : QueryEngine.t :=
  QueryEngine.initialize (Some scoredTree4) (Some index4) (Some detector4).

Lemma heap_top_guarded_by_k_witness :
  (exists r, QueryEngine.topKAnomalies engine4 2 true = QueryEngine.Ok r)
  /\ QueryEngine.topKAnomalies engine4 0 false = QueryEngine.EmptyTop.
Proof.
  split.
  - destruct (heap_top_guarded_by_k engine4 2) as [Safe _].
    destruct (Safe ltac:(lia)) as [A _]. exact (A true).
  - destruct (heap_top_guarded_by_k engine4 0) as [_ Unsafe].
    destruct (Unsafe ltac:(lia) scoredTree4
                (default RegionTree.defaultNode (head (RegionTree.nodes scoredTree4)))
                (tail (RegionTree.nodes scoredTree4))
                eq_refl ltac:(vm_compute; reflexivity)
                ltac:(vm_compute; reflexivity)) as [A _].
    exact A.
Defined.

(** *** The result the specification describes *)

(** The claim's reference for top-K: sort all leaves by descending score
    and keep the first [k]. *)
Fixpoint insertDescending (x : AnomalyRegion) (l : list AnomalyRegion)
    : list AnomalyRegion :=
  match l with
  | [] => [x]
  | y :: l' =>
      if PrimFloat.ltb (ar_anomalyScore y) (ar_anomalyScore x)
      then x :: l else y :: insertDescending x l'
  end.

Definition sortDescending (l : list AnomalyRegion) : list AnomalyRegion :=
  foldr insertDescending [] l.

Definition topKReference (k : nat) (tree : RegionTree.t) : list AnomalyRegion :=
  take k (sortDescending (map QueryEngine.regionOf (RegionTree.getLeaves tree))).

(** No element scores below its successor. *)
Fixpoint nonIncreasing (l : list AnomalyRegion) : bool :=
  match l with
  | x :: ((y :: _) as l') =>
      negb (PrimFloat.ltb (ar_anomalyScore x) (ar_anomalyScore y)) && nonIncreasing l'
  | _ => true
  end.

(** The node ids of a query's result. *)
Definition resultIds (o : QueryEngine.outcome QueryEngine.QueryResult) : option (list Z) :=
  match o with
  | QueryEngine.Ok r => Some (map ar_nodeId (QueryEngine.regions r))
  | _ => None
  end.

Definition resultSorted (o : QueryEngine.outcome QueryEngine.QueryResult) : option bool :=
  match o with
  | QueryEngine.Ok r => Some (nonIncreasing (QueryEngine.regions r))
  | _ => None
  end.

(** C4 fails on the code.  On the 4 x 4 raster of blocks the leaves 1, 2, 3,
    4 score about 0.82, 0.57, 0.32 and 1.70.  The two highest are leaves 4
    and 1, but [topKAnomalies(2)] returns leaves 2 and 4, in ascending
    order of score: [std::greater] calls [AnomalyRegion::operator>], which
    is itself inverted, so the queue keeps its maximum on top. *)
Lemma topKAnomalies_blocks4 :
  resultIds (QueryEngine.topKAnomalies engine4 2 true) = Some [2; 4]
  /\ resultSorted (QueryEngine.topKAnomalies engine4 2 true) = Some false
  /\ map ar_nodeId (topKReference 2 scoredTree4) = [4; 1]
  /\ map ar_nodeId (sortDescending (map QueryEngine.regionOf
                                        (RegionTree.getLeaves scoredTree4)))
     = [4; 1; 2; 3].
Proof. repeat split; vm_compute; reflexivity. Qed.

(** *** The pruned query against the unpruned one *)

(** The tree of a 5 x 5 raster for [minSize = 2]: the root 0, its NW
    quadrant 1 with the leaves 2, 3, 4, 5, and the leaves 6, 7, 8. *)
Definition tree5 : RegionTree.t :=
  default RegionTree.init
    (RegionTree.build 100 RegionTree.init
       (Some (PrefixSum.build PrefixSum.init (replicate 5 (replicate 5 (px 7))))) 2).

(** Scores written into the nodes, as a caller does through
    [getAllNodesMutable()]. *)
Definition withScores (scores : list float) (tree : RegionTree.t) : RegionTree.t :=
  RegionTree.withNodes tree
    (zip_with (fun n s =>
                 RegionTree.mkNode (RegionTree.id n) (RegionTree.bounds n)
                   (RegionTree.stats n) s (RegionTree.isAnomaly n)
                   (RegionTree.depth n) (RegionTree.children n) (RegionTree.parent n))
              (RegionTree.nodes tree) scores).

(** The leaves below the node [idx]. *)
Fixpoint subtreeLeaves (fuel : nat) (nodes : list RegionTree.RegionTreeNode) (idx : Z)
    : list RegionTree.RegionTreeNode :=
  match fuel with
  | O => []
  | S fuel =>
      match nodes !! Z.to_nat idx with
      | None => []
      | Some n =>
          if RegionTree.isLeaf n then [n]
          else flat_map (fun i => if RegionTree.child n i >=? 0
                                  then subtreeLeaves fuel nodes (RegionTree.child n i)
                                  else [])
                        [0; 1; 2; 3]%nat
      end
  end.

(** The assumption of C5: no leaf scores above an ancestor. *)
Definition scoresBoundSubtrees (fuel : nat) (tree : RegionTree.t) : bool :=
  forallb (fun n =>
             forallb (fun l => negb (PrimFloat.ltb (RegionTree.anomalyScore n)
                                                   (RegionTree.anomalyScore l)))
                     (subtreeLeaves fuel (RegionTree.nodes tree) (RegionTree.id n)))
          (RegionTree.nodes tree).

Definition scoredTree5 : RegionTree.t :=
  withScores [10; 10; 1; 2; 3; 4; 5; 6; 7]%float tree5.

Definition engine5 : QueryEngine.t := QueryEngine.initialize (Some scoredTree5) None None.

(** C5 fails on the code.  On the tree of a 5 x 5 raster, with the scores
    10 for the two internal nodes and 1 .. 7 for the leaves 2 .. 8 (every
    internal node bounds the leaves below it, and no two leaves tie),
    [topKAnomalies(2)] returns the leaves 2 and 8 and [topKWithPruning(2)]
    the leaves 6 and 8; the two highest leaves are 8 and 7.  The heap keeps
    its maximum on top, so what it retains depends on the order of the
    visit: the order of the vector for one, breadth first for the other. *)
Lemma topKWithPruning_tree5 :
  map RegionTree.isLeaf (RegionTree.nodes scoredTree5)
  = [false; false; true; true; true; true; true; true; true]
  /\ scoresBoundSubtrees 10 scoredTree5 = true
  /\ resultIds (QueryEngine.topKAnomalies engine5 2 true) = Some [2; 8]
  /\ resultIds (QueryEngine.topKWithPruning 100 engine5 2) = Some [6; 8]
  /\ map ar_nodeId (topKReference 2 scoredTree5) = [8; 7].
Proof. repeat split; vm_compute; reflexivity. Qed.

(** ** Union-find: the forest of parent links *)

Section Forest.

(** Following the parent links from [x] ends at the root [r]. *)
Inductive reaches (p : list nat) : nat -> nat -> Prop :=
| reaches_root r : p !! r = Some r -> reaches p r r
| reaches_step x y r : p !! x = Some y -> y <> x -> reaches p y r -> reaches p x r.

Lemma reaches_is_root p x r : reaches p x r -> p !! r = Some r.
Proof. induction 1; assumption. Qed.

Lemma reaches_det p x r1 r2 : reaches p x r1 -> reaches p x r2 -> r1 = r2.
Proof.
  intros H1. revert r2. induction H1 as [r Hr|x y r Hx Hne _ IH]; intros r2 H2.
  - inversion H2 as [r' Hr'|x' y' r' Hx' Hne' _]; subst; [reflexivity|congruence].
  - inversion H2 as [r' Hr'|x' y' r' Hx' Hne' Hy']; subst; [congruence|].
    apply IH. replace y with y' by congruence. exact Hy'.
Qed.

Lemma reaches_lt p x r : reaches p x r -> (x < length p)%nat.
Proof. intros H. destruct H as [r Hr|x y r Hx _ _]; eapply lookup_lt_Some; eauto. Qed.

(** [rank[x]] *)
Definition rk (rank : list nat) (x : nat) : nat := default 0%nat (rank !! x).

(** Ranks grow strictly along the parent links. *)
Definition ranked (p rank : list nat) : Prop :=
  forall x y, p !! x = Some y -> y <> x -> (rk rank x < rk rank y)%nat.

Lemma reaches_rank p rank x r :
  ranked p rank -> reaches p x r -> x <> r -> (rk rank x < rk rank r)%nat.
Proof.
  intros Hrk H. induction H as [r Hr|x y r Hx Hne Hy IH]; intros Hxr; [congruence|].
  pose proof (Hrk x y Hx Hne). destruct (Nat.eq_dec y r) as [->|Hyr]; [assumption|].
  specialize (IH Hyr). lia.
Qed.

(** Path compression: pointing [x] straight at its root changes no root. *)
Lemma reaches_redirect p a ra x r :
  reaches p a ra -> reaches p x r -> r <> x -> reaches (<[x := r]> p) a ra.
Proof.
  intros Ha Hx Hne. pose proof (reaches_lt p x r Hx) as Hlt.
  pose proof (reaches_is_root p x r Hx) as Hroot.
  induction Ha as [ra Hra|a y ra Hay Hya Hy IH].
  - destruct (Nat.eq_dec ra x) as [->|Hrx].
    + exfalso. apply Hne. eapply reaches_det; [exact Hx|]. apply reaches_root. exact Hra.
    + apply reaches_root. rewrite list_lookup_insert_ne by congruence. exact Hra.
  - destruct (Nat.eq_dec a x) as [->|Hax].
    + assert (ra = r).
      { eapply reaches_det; [|exact Hx]. eapply reaches_step; eauto. }
      subst ra. eapply reaches_step; [apply list_lookup_insert_eq; exact Hlt | exact Hne|].
      apply reaches_root. rewrite list_lookup_insert_ne by congruence. exact Hroot.
    + eapply reaches_step; [|exact Hya|exact IH].
      rewrite list_lookup_insert_ne by congruence. exact Hay.
Qed.

(** Linking the root [r1] under the root [r2] moves the trees of [r1] to
    [r2] and leaves the others. *)
Lemma reaches_link p a ra r1 r2 :
  reaches p a ra -> p !! r1 = Some r1 -> p !! r2 = Some r2 -> r1 <> r2 ->
  reaches (<[r1 := r2]> p) a (if decide (ra = r1) then r2 else ra).
Proof.
  intros Ha H1 H2 Hne. pose proof (lookup_lt_Some _ _ _ H1) as Hlt.
  assert (R2 : reaches (<[r1 := r2]> p) r2 r2).
  { apply reaches_root. rewrite list_lookup_insert_ne by congruence. exact H2. }
  induction Ha as [ra Hra|a y ra Hay Hya Hy IH].
  - destruct (decide (ra = r1)) as [->|Hr].
    + eapply reaches_step; [apply list_lookup_insert_eq; exact Hlt | congruence | exact R2].
    + apply reaches_root. rewrite list_lookup_insert_ne by congruence. exact Hra.
  - assert (a <> r1) by congruence.
    eapply reaches_step; [|exact Hya|exact IH].
    rewrite list_lookup_insert_ne by congruence. exact Hay.
Qed.

Lemma ranked_redirect p rank x r :
  ranked p rank -> reaches p x r -> r <> x -> ranked (<[x := r]> p) rank.
Proof.
  intros Hrk Hx Hne a b Hab Hba.
  destruct (Nat.eq_dec a x) as [->|Hax].
  - rewrite list_lookup_insert_eq in Hab by (eapply reaches_lt; eauto).
    injection Hab as <-. eapply reaches_rank; eauto.
  - rewrite list_lookup_insert_ne in Hab by congruence. eauto.
Qed.

Lemma ranked_link p rank rank' r1 r2 :
  ranked p rank -> p !! r1 = Some r1 -> p !! r2 = Some r2 ->
  (forall z, z <> r2 -> rk rank' z = rk rank z) ->
  (rk rank r2 <= rk rank' r2)%nat -> (rk rank' r1 < rk rank' r2)%nat ->
  ranked (<[r1 := r2]> p) rank'.
Proof.
  intros Hrk H1 H2 Hsame Hge Hlt a b Hab Hba.
  destruct (Nat.eq_dec a r1) as [->|Har].
  - rewrite list_lookup_insert_eq in Hab by (eapply lookup_lt_Some; eauto).
    injection Hab as <-. exact Hlt.
  - rewrite list_lookup_insert_ne in Hab by congruence.
    assert (a <> r2) by congruence.
    pose proof (Hrk a b Hab Hba) as L. rewrite (Hsame a) by assumption.
    destruct (Nat.eq_dec b r2) as [->|Hb]; [lia|]. rewrite (Hsame b) by assumption. lia.
Qed.

End Forest.

(** ** Union-find: [find] and [unite] on the forest *)

Section UnionFindOps.

Local Open Scope nat_scope.

Variable n : nat.

(** The state of a [UnionFind] over [n] elements whose ranks are at most [B]. *)
Definition uf_inv (B : nat) (uf : UnionFind.t) : Prop :=
  length (UnionFind.parent uf) = n /\
  length (UnionFind.rank uf) = n /\
  length (UnionFind.size uf) = n /\
  (forall x y, UnionFind.parent uf !! x = Some y -> y < n) /\
  ranked (UnionFind.parent uf) (UnionFind.rank uf) /\
  (forall x, rk (UnionFind.rank uf) x <= B).

(** [x] and [y] are in the same set. *)
Definition same (uf : UnionFind.t) (x y : nat) : Prop :=
  exists r, reaches (UnionFind.parent uf) x r /\ reaches (UnionFind.parent uf) y r.

(** The two states have the same roots. *)
Definition sameRoots (uf uf' : UnionFind.t) : Prop :=
  forall a r, reaches (UnionFind.parent uf) a r <-> reaches (UnionFind.parent uf') a r.

Lemma uf_inv_weaken B B' uf : B <= B' -> uf_inv B uf -> uf_inv B' uf.
Proof.
  intros L (H1 & H2 & H3 & H4 & H5 & H6). repeat split; auto.
  intros x. specialize (H6 x). lia.
Qed.

Lemma find_forward B fuel : forall uf x,
  uf_inv B uf -> x < n -> B < fuel + rk (UnionFind.rank uf) x ->
  exists r uf',
    UnionFind.find fuel uf x = Some (r, uf') /\
    reaches (UnionFind.parent uf) x r /\
    uf_inv B uf' /\
    UnionFind.rank uf' = UnionFind.rank uf /\
    UnionFind.size uf' = UnionFind.size uf /\
    (forall a ra, reaches (UnionFind.parent uf) a ra -> reaches (UnionFind.parent uf') a ra).
Proof.
  induction fuel as [|fuel IH]; intros uf x Inv Hx Hfuel.
  - destruct Inv as (_ & _ & _ & _ & _ & HB). specialize (HB x). lia.
  - pose proof Inv as (Hlen & Hrl & Hsl & Hval & Hrk & HB).
    destruct (UnionFind.parent uf !! x) as [p|] eqn:Hp;
      [|apply lookup_ge_None in Hp; lia].
    cbn [UnionFind.find]. rewrite Hp. cbn [mbind option_bind].
    destruct (Nat.eqb_spec p x) as [->|Hpx].
    + exists x, uf. repeat split; auto. apply reaches_root. exact Hp.
    + pose proof (Hrk x p Hp Hpx) as Hlt.
      destruct (IH uf p Inv (Hval x p Hp) ltac:(lia))
        as (r & uf' & Hfind & Hreach & Inv' & Er & Es & Hfw).
      rewrite Hfind. cbn [mbind option_bind fst snd].
      pose proof Inv' as (Hlen' & Hrl' & Hsl' & Hval' & Hrk' & HB').
      assert (Hxr : reaches (UnionFind.parent uf) x r) by (eapply reaches_step; eauto).
      assert (Hne : r <> x).
      { intros ->. pose proof (reaches_is_root _ _ _ Hreach). congruence. }
      assert (Hr : r < n).
      { rewrite <- Hlen. eapply lookup_lt_Some. eapply reaches_is_root. exact Hreach. }
      eexists _, _. split; [reflexivity|]. split; [exact Hxr|].
      split; [|split; [exact Er|split; [exact Es|]]].
      * unfold uf_inv. cbn [UnionFind.parent UnionFind.rank UnionFind.size].
        rewrite length_insert. repeat split; auto.
        -- intros a b Hab. destruct (Nat.eq_dec a x) as [->|Hax].
           ++ rewrite list_lookup_insert_eq in Hab by lia. congruence.
           ++ rewrite list_lookup_insert_ne in Hab by congruence. eauto.
        -- eapply ranked_redirect; eauto.
      * intros a ra Ha. cbn [UnionFind.parent]. eapply reaches_redirect; eauto.
Qed.

Lemma reaches_total B uf x : uf_inv B uf -> x < n -> exists r, reaches (UnionFind.parent uf) x r.
Proof.
  intros Inv Hx. destruct (find_forward B (S B) uf x Inv Hx ltac:(lia)) as (r & _ & _ & H & _).
  exists r. exact H.
Qed.

Lemma reaches_bound B uf x r : uf_inv B uf -> reaches (UnionFind.parent uf) x r -> x < n /\ r < n.
Proof.
  intros (Hlen & _) H. rewrite <- Hlen. split.
  - eapply reaches_lt; eauto.
  - eapply lookup_lt_Some. eapply reaches_is_root. exact H.
Qed.

(** [find] returns the root of [x]; path compression changes no root. *)
Lemma find_spec B fuel uf x :
  uf_inv B uf -> x < n -> B < fuel ->
  exists r uf',
    UnionFind.find fuel uf x = Some (r, uf') /\
    reaches (UnionFind.parent uf) x r /\
    uf_inv B uf' /\
    UnionFind.rank uf' = UnionFind.rank uf /\
    UnionFind.size uf' = UnionFind.size uf /\
    sameRoots uf uf'.
Proof.
  intros Inv Hx Hfuel.
  destruct (find_forward B fuel uf x Inv Hx ltac:(lia))
    as (r & uf' & Hfind & Hreach & Inv' & Er & Es & Hfw).
  exists r, uf'. do 5 (split; [assumption|]).
  intros a ra. split; [apply Hfw|]. intros Ha.
  destruct (reaches_bound B uf' a ra Inv' Ha) as [Han _].
  destruct (reaches_total B uf a Inv Han) as [r1 H1].
  rewrite (reaches_det _ _ _ _ Ha (Hfw _ _ H1)). exact H1.
Qed.

Lemma sameRoots_refl uf : sameRoots uf uf.
Proof. intros a r. reflexivity. Qed.

Lemma sameRoots_trans uf1 uf2 uf3 : sameRoots uf1 uf2 -> sameRoots uf2 uf3 -> sameRoots uf1 uf3.
Proof. intros H1 H2 a r. rewrite (H1 a r). apply H2. Qed.

Lemma sameRoots_same uf uf' a c : sameRoots uf uf' -> same uf a c <-> same uf' a c.
Proof.
  intros H. unfold same. split; intros (r & Ha & Hc); exists r; split; apply H; assumption.
Qed.

Lemma same_sym uf a c : same uf a c -> same uf c a.
Proof. intros (r & Ha & Hc). exists r. split; assumption. Qed.

Lemma same_trans uf a b c : same uf a b -> same uf b c -> same uf a c.
Proof.
  intros (r & Ha & Hb) (r' & Hb' & Hc). exists r. split; [exact Ha|].
  rewrite (reaches_det _ _ _ _ Hb Hb'). exact Hc.
Qed.

Lemma link_same p r1 r2 a c ra rc :
  p !! r1 = Some r1 -> p !! r2 = Some r2 -> r1 <> r2 ->
  reaches p a ra -> reaches p c rc ->
  (exists r, reaches (<[r1 := r2]> p) a r /\ reaches (<[r1 := r2]> p) c r) <->
  ra = rc \/ (ra = r1 /\ rc = r2) \/ (ra = r2 /\ rc = r1).
Proof.
  intros H1 H2 Hne Ha Hc.
  pose proof (reaches_link p a ra r1 r2 Ha H1 H2 Hne) as A.
  pose proof (reaches_link p c rc r1 r2 Hc H1 H2 Hne) as C.
  split.
  - intros (r & Ha' & Hc').
    pose proof (reaches_det _ _ _ _ Ha' A) as Ea.
    pose proof (reaches_det _ _ _ _ Hc' C) as Ec.
    destruct (decide (ra = r1)), (decide (rc = r1)); subst; auto.
  - intros [E|[[E1 E2]|[E1 E2]]]; subst.
    + eauto.
    + eexists; split; [exact A|]. destruct (decide (r1 = r1)); [|congruence].
      destruct (decide (r2 = r1)); [congruence|exact C].
    + eexists; split; [exact A|]. destruct (decide (r1 = r1)); [|congruence].
      destruct (decide (r2 = r1)); [congruence|exact C].
Qed.

(** The state after [parent[r1] = r2] for two distinct roots. *)
Lemma link_inv B uf r1 r2 rank' size' nc :
  uf_inv B uf ->
  UnionFind.parent uf !! r1 = Some r1 -> UnionFind.parent uf !! r2 = Some r2 ->
  length rank' = n -> length size' = n ->
  (forall z, z <> r2 -> rk rank' z = rk (UnionFind.rank uf) z) ->
  rk (UnionFind.rank uf) r2 <= rk rank' r2 -> rk rank' r2 <= S B ->
  rk rank' r1 < rk rank' r2 ->
  uf_inv (S B) (UnionFind.mk (<[r1 := r2]> (UnionFind.parent uf)) rank' size' nc).
Proof.
  intros (Hlen & Hrl & Hsl & Hval & Hrk & HB) H1 H2 Lr Ls Hsame Hge Hle Hlt.
  unfold uf_inv. cbn [UnionFind.parent UnionFind.rank UnionFind.size].
  rewrite length_insert. do 3 (split; [assumption|]). split; [|split].
  - intros a b Hab. destruct (Nat.eq_dec a r1) as [->|Hax].
    + rewrite list_lookup_insert_eq in Hab by (eapply lookup_lt_Some; eauto).
      injection Hab as <-. eauto.
    + rewrite list_lookup_insert_ne in Hab by congruence. eauto.
  - eapply ranked_link; eauto.
  - intros z. destruct (Nat.eq_dec z r2) as [->|Hz]; [assumption|].
    rewrite (Hsame z Hz). specialize (HB z). lia.
Qed.

Lemma link_unites B uf uf' r1 r2 x y :
  uf_inv B uf ->
  UnionFind.parent uf' = <[r1 := r2]> (UnionFind.parent uf) ->
  UnionFind.parent uf !! r1 = Some r1 -> UnionFind.parent uf !! r2 = Some r2 -> r1 <> r2 ->
  (reaches (UnionFind.parent uf) x r1 /\ reaches (UnionFind.parent uf) y r2) \/
  (reaches (UnionFind.parent uf) x r2 /\ reaches (UnionFind.parent uf) y r1) ->
  forall a c,
    same uf' a c <->
    same uf a c \/ (same uf a x /\ same uf y c) \/ (same uf a y /\ same uf x c).
Proof.
  intros Inv Ep H1 H2 Hne Hxy a c. unfold same at 1. rewrite Ep.
  split.
  - intros (r & Ha' & Hc').
    assert (Han : a < n).
    { pose proof (reaches_lt _ _ _ Ha') as L. rewrite length_insert in L.
      destruct Inv as (Hlen & _). lia. }
    assert (Hcn : c < n).
    { pose proof (reaches_lt _ _ _ Hc') as L. rewrite length_insert in L.
      destruct Inv as (Hlen & _). lia. }
    destruct (reaches_total B uf a Inv Han) as [ra Ha].
    destruct (reaches_total B uf c Inv Hcn) as [rc Hc].
    pose proof (proj1 (link_same _ r1 r2 a c ra rc H1 H2 Hne Ha Hc)
                  (ex_intro _ r (conj Ha' Hc'))) as D.
    destruct Hxy as [[Hx Hy]|[Hx Hy]]; destruct D as [E|[[E1 E2]|[E1 E2]]]; subst;
      unfold same; eauto 10.
  - intros D.
    assert (exists ra rc, reaches (UnionFind.parent uf) a ra /\
                          reaches (UnionFind.parent uf) c rc /\
                          (ra = rc \/ ra = r1 /\ rc = r2 \/ ra = r2 /\ rc = r1))
      as (ra & rc & Ha & Hc & E).
    { destruct D as [(r & Ha & Hc)|[[(r & Ha & Hx') (r' & Hy' & Hc)]|[(r & Ha & Hy') (r' & Hx' & Hc)]]].
      - exists r, r. auto.
      - exists r, r'. do 2 (split; [assumption|]).
        destruct Hxy as [[Hx Hy]|[Hx Hy]];
          rewrite (reaches_det _ _ _ _ Hx' Hx), (reaches_det _ _ _ _ Hy' Hy); auto.
      - exists r, r'. do 2 (split; [assumption|]).
        destruct Hxy as [[Hx Hy]|[Hx Hy]];
          rewrite (reaches_det _ _ _ _ Hx' Hx), (reaches_det _ _ _ _ Hy' Hy); auto. }
    apply (link_same _ r1 r2 a c ra rc H1 H2 Hne Ha Hc). exact E.
Qed.

Lemma rk_lookup (rank : list nat) x v : rank !! x = Some v -> rk rank x = v.
Proof. intros H. unfold rk. rewrite H. reflexivity. Qed.

Lemma rk_insert_ne (rank : list nat) x z v : z <> x -> rk (<[x := v]> rank) z = rk rank z.
Proof. intros H. unfold rk. rewrite list_lookup_insert_ne by congruence. reflexivity. Qed.

Lemma rk_insert_eq (rank : list nat) x v : x < length rank -> rk (<[x := v]> rank) x = v.
Proof. intros H. unfold rk. rewrite list_lookup_insert_eq by assumption. reflexivity. Qed.

(** [unite] merges the sets of [x] and [y] and nothing else. *)
Lemma unite_spec B fuel uf x y :
  uf_inv B uf -> x < n -> y < n -> B < fuel ->
  exists b uf',
    UnionFind.unite fuel uf x y = Some (b, uf') /\
    uf_inv (S B) uf' /\
    forall a c,
      same uf' a c <->
      same uf a c \/ (same uf a x /\ same uf y c) \/ (same uf a y /\ same uf x c).
Proof.
  intros Inv Hx Hy Hfuel. unfold UnionFind.unite.
  destruct (find_spec B fuel uf x Inv Hx Hfuel) as (rx & uf1 & F1 & R1 & Inv1 & _ & _ & S1).
  destruct (find_spec B fuel uf1 y Inv1 Hy Hfuel) as (ry & uf2 & F2 & R2 & Inv2 & _ & _ & S2).
  rewrite F1. cbn [mbind option_bind fst snd]. rewrite F2. cbn [mbind option_bind fst snd].
  pose proof (sameRoots_trans _ _ _ S1 S2) as S12.
  assert (Rx : reaches (UnionFind.parent uf2) x rx) by (apply S12; exact R1).
  assert (Ry : reaches (UnionFind.parent uf2) y ry) by (apply S2; exact R2).
  assert (T : forall a c,
             same uf2 a c \/ (same uf2 a x /\ same uf2 y c) \/ (same uf2 a y /\ same uf2 x c) <->
             same uf a c \/ (same uf a x /\ same uf y c) \/ (same uf a y /\ same uf x c)).
  { intros a c. rewrite !(sameRoots_same uf uf2) by assumption. reflexivity. }
  pose proof (reaches_is_root _ _ _ Rx) as Hrx.
  pose proof (reaches_is_root _ _ _ Ry) as Hry.
  destruct (Nat.eqb_spec rx ry) as [E|Hne].
  - subst ry. exists false, uf2. split; [reflexivity|].
    split; [eapply uf_inv_weaken; [|exact Inv2]; lia|].
    intros a c. rewrite <- T.
    assert (Sxy : same uf2 x y) by (exists rx; split; assumption).
    split; [auto|]. intros [H|[[H1 H2]|[H1 H2]]]; [assumption| |].
    + eapply same_trans; [exact H1|]. eapply same_trans; [exact Sxy|exact H2].
    + eapply same_trans; [exact H1|]. eapply same_trans; [apply same_sym; exact Sxy|exact H2].
  - pose proof Inv2 as (Hlen & Hrl & Hsl & Hval & Hrk & HB).
    pose proof (lookup_lt_Some _ _ _ Hrx) as Lx.
    pose proof (lookup_lt_Some _ _ _ Hry) as Ly.
    destruct (UnionFind.rank uf2 !! rx) as [rankX|] eqn:ErX;
      [|apply lookup_ge_None in ErX; lia].
    destruct (UnionFind.rank uf2 !! ry) as [rankY|] eqn:ErY;
      [|apply lookup_ge_None in ErY; lia].
    destruct (UnionFind.size uf2 !! rx) as [sizeX|] eqn:EsX;
      [|apply lookup_ge_None in EsX; lia].
    destruct (UnionFind.size uf2 !! ry) as [sizeY|] eqn:EsY;
      [|apply lookup_ge_None in EsY; lia].
    cbn [mbind option_bind].
    pose proof (rk_lookup _ _ _ ErX) as KX. pose proof (rk_lookup _ _ _ ErY) as KY.
    pose proof (HB rx) as BX. pose proof (HB ry) as BY.
    destruct (Nat.ltb_spec rankX rankY) as [Lt|Ge];
      [|destruct (Nat.ltb_spec rankY rankX) as [Gt|Le]].
    + eexists true, _. split; [reflexivity|]. split.
      * apply link_inv; auto; try (rewrite length_insert; assumption); lia.
      * intros a c. rewrite <- T.
        apply (link_unites B uf2 _ rx ry x y); auto.
    + eexists true, _. split; [reflexivity|]. split.
      * apply link_inv; auto; try (rewrite length_insert; assumption); lia.
      * intros a c. rewrite <- T.
        apply (link_unites B uf2 _ ry rx x y); auto.
    + eexists true, _. split; [reflexivity|]. split.
      * apply link_inv; auto; try (rewrite length_insert; assumption).
        -- intros z Hz. apply rk_insert_ne. exact Hz.
        -- rewrite rk_insert_eq by lia. lia.
        -- rewrite rk_insert_eq by lia. lia.
        -- rewrite rk_insert_eq by lia. rewrite rk_insert_ne by congruence. lia.
      * intros a c. rewrite <- T.
        apply (link_unites B uf2 _ ry rx x y); auto.
Qed.

End UnionFindOps.

(** ** The adjacency graph of the anomalous leaves *)

Section Graph.

Local Open Scope nat_scope.

(** [u] and [v] are the two ends of one of the edges [es]. *)
Definition linked (es : list (nat * nat)) (u v : nat) : Prop :=
  (u, v) ∈ es \/ (v, u) ∈ es.

(** Joined by a path of edges. *)
Definition conn (es : list (nat * nat)) : nat -> nat -> Prop := rtc (linked es).

Lemma linked_sym es u v : linked es u v -> linked es v u.
Proof. unfold linked. tauto. Qed.

Lemma conn_refl es a : conn es a a.
Proof. apply rtc_refl. Qed.

Lemma conn_trans es a b c : conn es a b -> conn es b c -> conn es a c.
Proof. unfold conn. intros H1 H2. etransitivity; eassumption. Qed.

Lemma conn_sym es a c : conn es a c -> conn es c a.
Proof.
  induction 1 as [|a b c Hab _ IH]; [apply rtc_refl|].
  eapply rtc_r; [exact IH|]. apply linked_sym. exact Hab.
Qed.

Lemma conn_linked es a c : linked es a c -> conn es a c.
Proof. apply rtc_once. Qed.

Lemma linked_snoc es x y u v :
  linked (es ++ [(x, y)]) u v <-> linked es u v \/ (u = x /\ v = y) \/ (u = y /\ v = x).
Proof.
  unfold linked. rewrite !elem_of_app, !list_elem_of_singleton.
  split.
  - intros [[H|H]|[H|H]]; auto; injection H as -> ->; auto.
  - intros [[H|H]|[[-> ->]|[-> ->]]]; auto.
Qed.

Lemma conn_snoc_l es x y a c : conn es a c -> conn (es ++ [(x, y)]) a c.
Proof.
  induction 1 as [|a b c Hab _ IH]; [apply rtc_refl|].
  eapply rtc_l; [|exact IH]. apply linked_snoc. left. exact Hab.
Qed.

(** One more edge joins the classes of its two ends and changes nothing else. *)
Lemma conn_snoc es x y a c :
  conn (es ++ [(x, y)]) a c <->
  conn es a c \/ (conn es a x /\ conn es y c) \/ (conn es a y /\ conn es x c).
Proof.
  split.
  - induction 1 as [a|a b c Hab _ IH]; [left; apply rtc_refl|].
    apply linked_snoc in Hab. destruct Hab as [Hab|[[-> ->]|[-> ->]]].
    + apply conn_linked in Hab.
      destruct IH as [H|[[H1 H2]|[H1 H2]]]; eauto using conn_trans.
    + destruct IH as [H|[[H1 H2]|[H1 H2]]]; eauto using conn_refl, conn_trans.
    + destruct IH as [H|[[H1 H2]|[H1 H2]]]; eauto using conn_refl, conn_trans.
  - assert (Hxy : conn (es ++ [(x, y)]) x y).
    { apply conn_linked. apply linked_snoc. auto. }
    intros [H|[[H1 H2]|[H1 H2]]].
    + apply conn_snoc_l. exact H.
    + eapply conn_trans; [apply conn_snoc_l; exact H1|].
      eapply conn_trans; [exact Hxy|apply conn_snoc_l; exact H2].
    + eapply conn_trans; [apply conn_snoc_l; exact H1|].
      eapply conn_trans; [apply conn_sym; exact Hxy|apply conn_snoc_l; exact H2].
Qed.

Lemma conn_nil a c : conn [] a c <-> a = c.
Proof.
  split; [|intros ->; apply rtc_refl].
  induction 1 as [|a b c Hab _ IH]; [reflexivity|].
  destruct Hab as [H|H]; apply elem_of_nil in H; destruct H.
Qed.

(** The ends of a path stay among the ends of the edges. *)
Lemma conn_bound es n a c :
  (forall u v, linked es u v -> v < n) -> conn es a c -> a < n -> c < n.
Proof.
  intros Hb. induction 1 as [|a b c Hab _ IH]; [auto|]. intros _. apply IH. eauto.
Qed.

Lemma elem_of_pairs n i j : (i, j) ∈ QueryEngine.pairs n <-> i < j < n.
Proof.
  unfold QueryEngine.pairs. rewrite list_elem_of_In, in_flat_map. split.
  - intros (i' & Hi & Hj). apply in_map_iff in Hj. destruct Hj as (j' & E & Hj).
    injection E as -> ->. apply in_seq in Hi. apply in_seq in Hj. lia.
  - intros H. exists i. split; [apply in_seq; lia|].
    apply in_map_iff. exists j. split; [reflexivity|]. apply in_seq. lia.
Qed.

Lemma pairs_from_length k : forall m,
  2 * length (flat_map (fun i => map (fun j => (i, j)) (seq (S i) (m + k - S i))) (seq m k))
  = k * (k - 1).
Proof.
  induction k as [|k IH]; intros m; [reflexivity|].
  cbn [seq flat_map]. rewrite length_app, length_map, length_seq.
  replace (m + S k) with (S m + k) by lia.
  specialize (IH (S m)). nia.
Qed.

Lemma pairs_length n : 2 * length (QueryEngine.pairs n) = n * (n - 1).
Proof. apply (pairs_from_length n 0). Qed.

End Graph.

(** ** Partitions into classes *)

Section Partitions.

Local Open Scope nat_scope.

(** Two lists of groups are the same partition: the same groups, whatever
    the order of the groups and the order of the members in a group. *)
Definition samePartition {A : Type} (Gs Ms : list (list A)) : Prop :=
  exists Ms', Ms ≡ₚ Ms' /\ Forall2 (fun G M => G ≡ₚ M) Gs Ms'.

Lemma Forall2_Permutation_l {A B : Type} (R : A -> B -> Prop) (l l' : list A) :
  l ≡ₚ l' -> forall k, Forall2 R l k -> exists k', k ≡ₚ k' /\ Forall2 R l' k'.
Proof.
  induction 1 as [|x l l' _ IH|x y l|l l' l'' _ IH1 _ IH2]; intros k Hk.
  - exists k. split; [reflexivity|assumption].
  - inversion Hk as [|? b ? k0 Hxb Hk0]; subst.
    destruct (IH k0 Hk0) as (k' & P & F). exists (b :: k'). split.
    + constructor. exact P.
    + constructor; assumption.
  - inversion Hk as [|? b ? k0 Hyb Hk0]; subst.
    inversion Hk0 as [|? c ? k1 Hxc Hk1]; subst.
    exists (c :: b :: k1). split; [apply perm_swap|]. repeat constructor; assumption.
  - destruct (IH1 k Hk) as (k' & P1 & F1). destruct (IH2 k' F1) as (k'' & P2 & F2).
    exists k''. split; [etransitivity; eassumption|assumption].
Qed.

Lemma samePartition_Permutation {A : Type} (Gs Gs' Ms Ms' : list (list A)) :
  Gs ≡ₚ Gs' -> Ms ≡ₚ Ms' -> samePartition Gs Ms -> samePartition Gs' Ms'.
Proof.
  intros PG PM (L & P & F).
  destruct (Forall2_Permutation_l _ _ _ PG L F) as (L' & PL & F').
  exists L'. split; [|exact F'].
  etransitivity; [symmetry; exact PM|]. etransitivity; eassumption.
Qed.

Lemma samePartition_fmap {A B : Type} (f : A -> B) (Gs Ms : list (list A)) :
  samePartition Gs Ms -> samePartition (map (map f) Gs) (map (map f) Ms).
Proof.
  intros (L & P & F). exists (map (map f) L). split.
  - apply (fmap_Permutation (map f)). exact P.
  - apply Forall2_fmap. eapply Forall2_impl; [exact F|].
    intros G M H. cbn. apply (fmap_Permutation f). exact H.
Qed.

Variable es : list (nat * nat).

(** [M] lists, once each, the nodes joined to one node. *)
Definition is_class (M : list nat) : Prop :=
  NoDup M /\ exists s, forall u, u ∈ M <-> conn es s u.

Lemma is_class_nonempty M : is_class M -> M <> [].
Proof.
  intros (_ & s & H) ->. specialize (H s). rewrite elem_of_nil in H.
  apply H. apply conn_refl.
Qed.

Lemma is_class_share M G x : is_class M -> is_class G -> x ∈ M -> x ∈ G -> M ≡ₚ G.
Proof.
  intros (NM & s & HM) (NG & t & HG) xM xG. apply NoDup_Permutation; [assumption..|].
  apply HM in xM. apply HG in xG. intros u. rewrite HM, HG. split; intros H.
  - eapply conn_trans; [exact xG|]. eapply conn_trans; [apply conn_sym; exact xM|exact H].
  - eapply conn_trans; [exact xM|]. eapply conn_trans; [apply conn_sym; exact xG|exact H].
Qed.

(** Two lists of the classes that cover the same nodes are the same partition. *)
Lemma classes_unique Gs : forall Ms,
  Forall is_class Gs -> Forall is_class Ms ->
  NoDup (mjoin Gs) -> NoDup (mjoin Ms) ->
  (forall u, u ∈ mjoin Gs <-> u ∈ mjoin Ms) ->
  samePartition Gs Ms.
Proof.
  induction Gs as [|G Gs IH]; intros Ms CG CM NG NM Hcov.
  - destruct Ms as [|M Ms]; [exists []; split; [reflexivity|constructor]|].
    exfalso. apply Forall_cons in CM. destruct CM as [CM _].
    destruct M as [|x M]; [eapply is_class_nonempty; eauto|].
    specialize (Hcov x). cbn in Hcov. rewrite elem_of_nil in Hcov. apply Hcov. left.
  - apply Forall_cons in CG. destruct CG as [CG CGs].
    destruct G as [|x G0] eqn:EG; [exfalso; eapply is_class_nonempty; eauto|].
    rewrite <- EG in *. assert (xG : x ∈ G) by (rewrite EG; left).
    assert (xMs : x ∈ mjoin Ms) by (apply Hcov; cbn; apply elem_of_app; auto).
    apply list_elem_of_join in xMs. destruct xMs as (M & xM & HM).
    apply elem_of_Permutation in HM. destruct HM as (Ms0 & PM).
    assert (CM' : Forall is_class (M :: Ms0)) by (rewrite <- PM; exact CM).
    apply Forall_cons in CM'. destruct CM' as [CM0 CMs0].
    pose proof (is_class_share G M x CG CM0 xG xM) as PGM.
    assert (NM' : NoDup (M ++ mjoin Ms0)).
    { change (NoDup (mjoin (M :: Ms0))). rewrite <- PM. exact NM. }
    cbn in NG. apply NoDup_app in NG. destruct NG as (_ & DG & NGs).
    apply NoDup_app in NM'. destruct NM' as (_ & DM & NMs0).
    assert (Hcov' : forall u, u ∈ mjoin Gs <-> u ∈ mjoin Ms0).
    { intros u. specialize (Hcov u). rewrite PM in Hcov. cbn in Hcov.
      rewrite !elem_of_app in Hcov. split; intros H.
      - destruct (proj1 Hcov (or_intror H)) as [HuM|]; [|assumption].
        exfalso. rewrite <- PGM in HuM. exact (DG u HuM H).
      - destruct (proj2 Hcov (or_intror H)) as [HuG|]; [|assumption].
        exfalso. rewrite PGM in HuG. exact (DM u HuG H). }
    destruct (IH Ms0 CGs CMs0 NGs NMs0 Hcov') as (L & PL & FL).
    exists (M :: L). split.
    + rewrite PM. constructor. exact PL.
    + constructor; assumption.
Qed.

(** A list of classes that covers the nodes below [n], each once. *)
Definition classPartition (n : nat) (Ms : list (list nat)) : Prop :=
  Forall is_class Ms /\ NoDup (mjoin Ms) /\ forall u, u ∈ mjoin Ms <-> u < n.

Lemma classPartition_unique n Gs Ms : classPartition n Gs -> classPartition n Ms -> samePartition Gs Ms.
Proof.
  intros (CG & NG & HG) (CM & NM & HM). apply classes_unique; auto.
  intros u. rewrite HG, HM. reflexivity.
Qed.

End Partitions.

(** ** [findConnectedComponents]: the sets of the union-find are the classes *)

Section DisjointSets.

Local Open Scope nat_scope.

Variable anomalousNodes : list RegionTree.RegionTreeNode.

Let n := length anomalousNodes.

(** The test of both finders on the pair [(i, j)]. *)
Definition adjacentAt (ij : nat * nat) : bool :=
  QueryEngine.areAdjacent
    (RegionTree.bounds (QueryEngine.nodeAt anomalousNodes (fst ij)))
    (RegionTree.bounds (QueryEngine.nodeAt anomalousNodes (snd ij))).

(** The adjacent pairs among [ps]. *)
Definition edgesIn (ps : list (nat * nat)) : list (nat * nat) :=
  filter (fun ij => adjacentAt ij = true) ps.

(** The edges of the graph that both finders explore. *)
Definition edges : list (nat * nat) := edgesIn (QueryEngine.pairs n).

Lemma edgesIn_snoc_true ps ij :
  adjacentAt ij = true -> edgesIn (ps ++ [ij]) = edgesIn ps ++ [ij].
Proof.
  intros H. unfold edgesIn. rewrite filter_app. f_equal.
  rewrite filter_cons_True by assumption. reflexivity.
Qed.

Lemma edgesIn_snoc_false ps ij :
  adjacentAt ij = false -> edgesIn (ps ++ [ij]) = edgesIn ps.
Proof.
  intros H. unfold edgesIn. rewrite filter_app.
  rewrite filter_cons_False by congruence. rewrite filter_nil. apply app_nil_r.
Qed.

Lemma linked_edges u v : linked edges u v -> u < n /\ v < n.
Proof.
  unfold linked, edges, edgesIn. rewrite !list_elem_of_filter, !elem_of_pairs. lia.
Qed.

(** The sets of [uf] are the classes of the graph with the edges [es]. *)
Definition models (uf : UnionFind.t) (es : list (nat * nat)) : Prop :=
  forall a c, a < n -> c < n -> (same uf a c <-> conn es a c).

Lemma reaches_new x r : reaches (seq 0 n) x r <-> x = r /\ x < n.
Proof.
  split.
  - intros H. destruct H as [r Hr|x y r Hx Hne _].
    + apply lookup_seq in Hr. lia.
    + apply lookup_seq in Hx. lia.
  - intros [-> H]. apply reaches_root. apply lookup_seq. lia.
Qed.

Lemma new_inv : uf_inv n 0 (UnionFind.new n).
Proof.
  unfold uf_inv, UnionFind.new. cbn [UnionFind.parent UnionFind.rank UnionFind.size].
  rewrite length_seq, !length_replicate. do 3 (split; [reflexivity|]).
  split; [|split].
  - intros x y H. apply lookup_seq in H. lia.
  - intros x y H Hne. apply lookup_seq in H. lia.
  - intros x. unfold rk. destruct (replicate n 0 !! x) as [v|] eqn:E; [|cbn; lia].
    apply lookup_replicate in E. cbn. lia.
Qed.

Lemma new_models : models (UnionFind.new n) [].
Proof.
  intros a c Ha Hc. rewrite conn_nil. unfold same, UnionFind.new. cbn [UnionFind.parent].
  split.
  - intros (r & H1 & H2). apply reaches_new in H1. apply reaches_new in H2. lia.
  - intros ->. exists c. split; apply reaches_new; auto.
Qed.

Lemma models_sameRoots uf uf' es : sameRoots uf uf' -> models uf es -> models uf' es.
Proof.
  intros S M a c Ha Hc. rewrite <- (sameRoots_same uf uf') by assumption. apply M; assumption.
Qed.

Lemma setSize_spec B fuel uf x s :
  uf_inv n B uf -> x < n -> B < fuel ->
  exists uf', UnionFind.setSize fuel uf x s = Some uf' /\ uf_inv n B uf' /\ sameRoots uf uf'.
Proof.
  intros Inv Hx Hfuel. unfold UnionFind.setSize.
  destruct (find_spec n B fuel uf x Inv Hx Hfuel) as (r & uf1 & F & _ & Inv1 & _ & _ & S1).
  rewrite F. cbn [mbind option_bind fst snd]. eexists. split; [reflexivity|].
  destruct Inv1 as (H1 & H2 & H3 & H4 & H5 & H6). split; [|exact S1].
  unfold uf_inv. cbn [UnionFind.parent UnionFind.rank UnionFind.size].
  rewrite length_insert. auto 10.
Qed.

Lemma setSizes_loop B fuel (f : nat -> Z) : forall l uf,
  uf_inv n B uf -> B < fuel -> Forall (fun i => i < n) l ->
  exists uf',
    fold_left (fun acc i => uf ← acc; UnionFind.setSize fuel uf i (f i)) l (Some uf) = Some uf' /\
    uf_inv n B uf' /\ sameRoots uf uf'.
Proof.
  induction l as [|i l IH]; intros uf Inv Hfuel Hl.
  - exists uf. split; [reflexivity|]. split; [assumption|apply sameRoots_refl].
  - apply Forall_cons in Hl. destruct Hl as [Hi Hl].
    destruct (setSize_spec B fuel uf i (f i) Inv Hi Hfuel) as (uf1 & E1 & Inv1 & S1).
    cbn [fold_left mbind option_bind]. rewrite E1.
    destruct (IH uf1 Inv1 Hfuel Hl) as (uf' & E & Inv' & S').
    exists uf'. split; [exact E|]. split; [exact Inv'|]. eapply sameRoots_trans; eauto.
Qed.

Lemma Forall_seq_lt k : Forall (fun i => i < k) (seq 0 k).
Proof. apply Forall_forall. intros i H. apply elem_of_seq in H. lia. Qed.

Lemma setSizes_spec fuel uf B :
  uf_inv n B uf -> B < fuel ->
  exists uf',
    QueryEngine.setSizes fuel anomalousNodes uf = Some uf' /\
    uf_inv n B uf' /\ sameRoots uf uf'.
Proof.
  intros Inv Hfuel. unfold QueryEngine.setSizes.
  apply (setSizes_loop B fuel
           (fun i => area (RegionTree.bounds (QueryEngine.nodeAt anomalousNodes i))));
    auto. apply Forall_seq_lt.
Qed.

(** One round of the double loop of lines 389-400. *)
Lemma unitePair_spec B fuel uf done ij :
  uf_inv n B uf -> models uf (edgesIn done) -> S B < fuel -> fst ij < n -> snd ij < n ->
  exists uf',
    QueryEngine.unitePair fuel anomalousNodes (Some uf) ij = Some uf' /\
    uf_inv n (S B) uf' /\ models uf' (edgesIn (done ++ [ij])).
Proof.
  intros Inv M Hfuel Hi Hj. unfold QueryEngine.unitePair. cbn [mbind option_bind].
  fold (adjacentAt ij). destruct (adjacentAt ij) eqn:Eadj.
  - destruct (unite_spec n B fuel uf (fst ij) (snd ij) Inv Hi Hj ltac:(lia))
      as (b & uf1 & E1 & Inv1 & U).
    rewrite E1. cbn [mbind option_bind fst snd].
    assert (M1 : models uf1 (edgesIn (done ++ [ij]))).
    { intros a c Ha Hc. rewrite edgesIn_snoc_true by assumption.
      rewrite U. destruct ij as [i j]. cbn [fst snd] in *. rewrite conn_snoc.
      rewrite (M a c), (M a i), (M j c), (M a j), (M i c) by assumption. reflexivity. }
    destruct b.
    + destruct (find_spec n (S B) fuel uf1 (fst ij) Inv1 Hi Hfuel)
        as (r & uf2 & F & _ & Inv2 & _ & _ & S2).
      rewrite F. cbn [mbind option_bind snd]. exists uf2.
      split; [reflexivity|]. split; [exact Inv2|]. eapply models_sameRoots; eauto.
    + exists uf1. auto.
  - exists uf. split; [reflexivity|]. split; [eapply uf_inv_weaken; [|exact Inv]; lia|].
    rewrite edgesIn_snoc_false by assumption. exact M.
Qed.

Lemma unitePairs_loop fuel : forall ps done uf B,
  uf_inv n B uf -> models uf (edgesIn done) -> B + length ps < fuel ->
  Forall (fun ij => fst ij < n /\ snd ij < n) ps ->
  exists uf',
    fold_left (QueryEngine.unitePair fuel anomalousNodes) ps (Some uf) = Some uf' /\
    uf_inv n (B + length ps) uf' /\ models uf' (edgesIn (done ++ ps)).
Proof.
  induction ps as [|ij ps IH]; intros done uf B Inv M Hfuel Hps.
  - exists uf. rewrite app_nil_r, Nat.add_0_r. auto.
  - apply Forall_cons in Hps. destruct Hps as [[Hi Hj] Hps]. cbn [length] in Hfuel.
    destruct (unitePair_spec B fuel uf done ij Inv M ltac:(lia) Hi Hj) as (uf1 & E1 & Inv1 & M1).
    cbn [fold_left]. rewrite E1.
    destruct (IH (done ++ [ij]) uf1 (S B) Inv1 M1 ltac:(lia) Hps) as (uf' & E & Inv' & M').
    exists uf'. split; [exact E|]. cbn [length].
    replace (B + S (length ps)) with (S B + length ps) by lia.
    split; [exact Inv'|]. rewrite <- List.app_assoc in M'. exact M'.
Qed.

Lemma pairs_bounded : Forall (fun ij => fst ij < n /\ snd ij < n) (QueryEngine.pairs n).
Proof.
  apply Forall_forall. intros [i j] H. apply elem_of_pairs in H. cbn [fst snd]. lia.
Qed.

(** After lines 384-400 the sets are the classes of the adjacency graph. *)
Lemma uniteAdjacent_spec fuel :
  length (QueryEngine.pairs n) < fuel ->
  exists uf0 uf,
    QueryEngine.setSizes fuel anomalousNodes (UnionFind.new n) = Some uf0 /\
    QueryEngine.uniteAdjacent fuel anomalousNodes uf0 = Some uf /\
    uf_inv n (length (QueryEngine.pairs n)) uf /\ models uf edges.
Proof.
  intros Hfuel.
  destruct (setSizes_spec fuel (UnionFind.new n) 0 new_inv ltac:(lia)) as (uf0 & E0 & Inv0 & S0).
  pose proof (models_sameRoots _ _ _ S0 new_models) as M0.
  destruct (unitePairs_loop fuel (QueryEngine.pairs n) [] uf0 0 Inv0 M0 ltac:(lia) pairs_bounded)
    as (uf & E & Inv & M).
  exists uf0, uf. do 2 (split; [assumption|]). split; assumption.
Qed.

(** The map [rootToNodes] after [rootToNodes[root].push_back(i)]. *)
Lemma rootInsert_join root i (m : list (nat * list nat)) :
  mjoin (QueryEngine.rootInsert root i m).*2 ≡ₚ mjoin m.*2 ++ [i].
Proof.
  induction m as [|[r l] m IH]; [reflexivity|].
  cbn [QueryEngine.rootInsert]. destruct (r =? root).
  - cbn. rewrite <- !List.app_assoc. apply Permutation_app_head. apply Permutation_app_comm.
  - cbn. rewrite IH. rewrite List.app_assoc. reflexivity.
Qed.

Lemma rootInsert_key root i (m : list (nat * list nat)) k :
  k ∈ (QueryEngine.rootInsert root i m).*1 -> k = root \/ k ∈ m.*1.
Proof.
  induction m as [|[r l] m IH]; cbn [QueryEngine.rootInsert].
  - cbn. rewrite list_elem_of_singleton. auto.
  - destruct (r =? root); cbn; rewrite !elem_of_cons; [auto|].
    intros [H|H]; [auto|]. destruct (IH H); auto.
Qed.

Lemma rootInsert_NoDup root i (m : list (nat * list nat)) :
  NoDup m.*1 -> NoDup (QueryEngine.rootInsert root i m).*1.
Proof.
  induction m as [|[r l] m IH]; cbn [QueryEngine.rootInsert]; intros H.
  - cbn. apply NoDup_singleton.
  - destruct (Nat.eqb_spec r root) as [E|E]; [exact H|].
    cbn in *. apply NoDup_cons in H. destruct H as [H1 H2]. apply NoDup_cons. split; [|auto].
    intros K. apply rootInsert_key in K. destruct K; congruence.
Qed.

Lemma rootInsert_group root i (m : list (nat * list nat)) r' l' :
  (r', l') ∈ QueryEngine.rootInsert root i m ->
  (r', l') ∈ m \/ (r' = root /\ (l' = [i] \/ exists l, (root, l) ∈ m /\ l' = l ++ [i])).
Proof.
  induction m as [|[r l] m IH]; cbn [QueryEngine.rootInsert].
  - rewrite list_elem_of_singleton. intros E. injection E as -> ->. auto.
  - destruct (Nat.eqb_spec r root) as [E|E]; rewrite !elem_of_cons.
    + intros [H|H]; [|auto]. injection H as -> ->. subst. right. split; [reflexivity|].
      right. exists l. split; [left|reflexivity].
    + intros [H|H]; [auto|]. destruct (IH H) as [K|[-> [K|(l0 & K1 & K2)]]]; auto.
      right. split; [reflexivity|]. right. exists l0. split; [right; exact K1|exact K2].
Qed.

Lemma NoDup_keys (m : list (nat * list nat)) r l l' :
  NoDup m.*1 -> (r, l) ∈ m -> (r, l') ∈ m -> l = l'.
Proof.
  induction m as [|[r0 l0] m IH]; intros N H H'; [apply elem_of_nil in H; destruct H|].
  cbn in N. apply NoDup_cons in N. destruct N as [N1 N2].
  apply elem_of_cons in H. apply elem_of_cons in H'.
  destruct H as [H|H], H' as [H'|H'].
  - congruence.
  - injection H as -> ->. exfalso. apply N1. apply (list_elem_of_fmap_2 fst _ _ H').
  - injection H' as -> ->. exfalso. apply N1. apply (list_elem_of_fmap_2 fst _ _ H).
  - eauto.
Qed.

Lemma NoDup_join_member (ls : list (list nat)) l : NoDup (mjoin ls) -> l ∈ ls -> NoDup l.
Proof.
  induction ls as [|l0 ls IH]; intros N H; [apply elem_of_nil in H; destruct H|].
  cbn in N. apply NoDup_app in N. destruct N as (N1 & _ & N2).
  apply elem_of_cons in H. destruct H as [->|H]; auto.
Qed.

(** The groups of [rootToNodes] once the elements below [k] are in. *)
Definition grouped (p0 : list nat) (k : nat) (m : list (nat * list nat)) : Prop :=
  NoDup m.*1 /\
  mjoin m.*2 ≡ₚ seq 0 k /\
  forall r l, (r, l) ∈ m -> l <> [] /\ forall i, i ∈ l -> reaches p0 i r.

Lemma grouped_step p0 k m r :
  grouped p0 k m -> reaches p0 k r -> grouped p0 (S k) (QueryEngine.rootInsert r k m).
Proof.
  intros (N & P & G) Hr. split; [apply rootInsert_NoDup; exact N|]. split.
  - rewrite rootInsert_join, P, seq_S. reflexivity.
  - intros r' l' H. apply rootInsert_group in H.
    destruct H as [H|[-> [->|(l & H & ->)]]].
    + apply G. exact H.
    + split; [discriminate|]. intros i Hi. apply list_elem_of_singleton in Hi. subst. exact Hr.
    + destruct (G _ _ H) as [_ Gl]. split; [destruct l; discriminate|].
      intros i Hi. apply elem_of_app in Hi. destruct Hi as [Hi|Hi]; [auto|].
      apply list_elem_of_singleton in Hi. subst. exact Hr.
Qed.

Lemma groupByRoot_loop B fuel uf0 : forall len k uf m,
  k + len <= n -> B < fuel -> uf_inv n B uf -> sameRoots uf0 uf ->
  grouped (UnionFind.parent uf0) k m ->
  exists st,
    fold_left
      (fun acc i =>
         st ← acc;
         f ← UnionFind.find fuel (fst st) i;
         Some (snd f, QueryEngine.rootInsert (fst f) i (snd st)))
      (seq k len) (Some (uf, m)) = Some st /\
    grouped (UnionFind.parent uf0) (k + len) (snd st).
Proof.
  induction len as [|len IH]; intros k uf m Hk Hfuel Inv S0 G.
  - exists (uf, m). rewrite Nat.add_0_r. split; [reflexivity|exact G].
  - destruct (find_spec n B fuel uf k Inv ltac:(lia) Hfuel) as (r & uf1 & F & R & Inv1 & _ & _ & S1).
    cbn [seq fold_left mbind option_bind fst snd]. rewrite F. cbn [mbind option_bind fst snd].
    apply S0 in R.
    destruct (IH (S k) uf1 (QueryEngine.rootInsert r k m) ltac:(lia) Hfuel Inv1
                 (sameRoots_trans _ _ _ S0 S1) (grouped_step _ _ _ _ G R)) as (st & E & G').
    exists st. split; [exact E|]. replace (k + S len) with (S k + len) by lia. exact G'.
Qed.

(** Lines 403-407: the groups are the classes of the graph. *)
Lemma groupByRoot_spec B fuel uf :
  uf_inv n B uf -> models uf edges -> B < fuel ->
  exists groups,
    QueryEngine.groupByRoot fuel n uf = Some groups /\ classPartition edges n groups.*2.
Proof.
  intros Inv M Hfuel. unfold QueryEngine.groupByRoot.
  assert (G0 : grouped (UnionFind.parent uf) 0 []).
  { split; [constructor|]. split; [reflexivity|]. intros r l H. apply elem_of_nil in H. destruct H. }
  destruct (groupByRoot_loop B fuel uf n 0 uf [] ltac:(lia) Hfuel Inv (sameRoots_refl uf) G0)
    as ([uf' m] & E & (N & P & G)).
  rewrite E. cbn [mbind option_bind snd] in *. exists m. split; [reflexivity|].
  assert (ND : NoDup (mjoin m.*2)) by (rewrite P; apply NoDup_seq).
  assert (Cov : forall u, u ∈ mjoin m.*2 <-> u < n).
  { intros u. rewrite P, elem_of_seq. lia. }
  split; [|split; assumption].
  apply Forall_forall. intros l Hl. apply list_elem_of_fmap in Hl.
  destruct Hl as ([r l0] & -> & Hl). cbn [snd].
  destruct (G _ _ Hl) as [Hne Hreach].
  split; [eapply NoDup_join_member; [exact ND|]; apply (list_elem_of_fmap_2 snd _ _ Hl)|].
  destruct l0 as [|s l1] eqn:El; [congruence|]. rewrite <- El in *.
  assert (Hs : s ∈ l0) by (rewrite El; left).
  pose proof (Hreach s Hs) as Rs.
  destruct (reaches_bound n B uf s r Inv Rs) as [Ls _].
  exists s. intros u. split.
  - intros Hu. pose proof (Hreach u Hu) as Ru.
    destruct (reaches_bound n B uf u r Inv Ru) as [Lu _].
    apply M; [assumption..|]. exists r. split; assumption.
  - intros C.
    assert (Lu : u < n).
    { eapply conn_bound; [|exact C|exact Ls]. intros a b H. apply linked_edges in H. lia. }
    apply M in C; [|assumption..]. destruct C as (r' & Rs' & Ru).
    rewrite <- (reaches_det _ _ _ _ Rs Rs') in Ru.
    apply Cov in Lu. apply list_elem_of_join in Lu. destruct Lu as (l' & Hu & Hl').
    apply list_elem_of_fmap in Hl'. destruct Hl' as ([r2 l2] & -> & Hl2). cbn [snd] in Hu.
    destruct (G _ _ Hl2) as [_ Hreach2]. pose proof (Hreach2 u Hu) as Ru2.
    pose proof (reaches_det _ _ _ _ Ru Ru2) as <-.
    rewrite (NoDup_keys m r l0 l2 N Hl Hl2). exact Hu.
Qed.

End DisjointSets.

(** ** [findConnectedComponentsDFS]: each traversal collects one class *)

Section AdjacencyLists.

Local Open Scope nat_scope.

Variable anomalousNodes : list RegionTree.RegionTreeNode.

Let n := length anomalousNodes.

(** [adj] after the pairs [done] of the double loop of lines 488-496. *)
Definition adj_inv (done : list (nat * nat)) (adj : list (list nat)) : Prop :=
  length adj = n /\
  (forall u l v, adj !! u = Some l -> (v ∈ l <-> linked (edgesIn anomalousNodes done) u v)) /\
  sum_list (length <$> adj) <= 2 * length done.

Lemma push_back_spec (Q : nat -> nat -> Prop) (adj : list (list nat)) i x :
  (forall u l v, adj !! u = Some l -> (v ∈ l <-> Q u v)) ->
  forall u l v,
    alter (fun l => l ++ [x]) i adj !! u = Some l -> (v ∈ l <-> Q u v \/ (u = i /\ v = x)).
Proof.
  intros Hadj u l v H. destruct (Nat.eq_dec i u) as [->|Hne].
  - rewrite list_lookup_alter_eq in H. destruct (adj !! u) as [l0|] eqn:E; [|discriminate].
    cbn in H. injection H as <-. rewrite elem_of_app, list_elem_of_singleton, (Hadj u l0 v E).
    tauto.
  - rewrite list_lookup_alter_ne in H by assumption. rewrite (Hadj u l v H).
    split; [auto|]. intros [K|[K _]]; [assumption|congruence].
Qed.

Lemma push_back_sum (adj : list (list nat)) x : forall i,
  i < length adj ->
  sum_list (length <$> alter (fun l => l ++ [x]) i adj) = S (sum_list (length <$> adj)).
Proof.
  induction adj as [|l adj IH]; intros i Hi; [cbn in Hi; lia|].
  destruct i as [|i]; cbn in *.
  - rewrite length_app. cbn. lia.
  - rewrite IH by lia. lia.
Qed.

Lemma addEdge_spec done adj ij :
  adj_inv done adj -> fst ij < n -> snd ij < n ->
  adj_inv (done ++ [ij]) (QueryEngine.addEdge anomalousNodes adj ij).
Proof.
  intros (Hlen & Hadj & Hsum) Hi Hj. unfold QueryEngine.addEdge.
  fold (adjacentAt anomalousNodes ij). destruct (adjacentAt anomalousNodes ij) eqn:E.
  - split; [rewrite !length_alter; exact Hlen|]. split.
    + intros u l v H. rewrite edgesIn_snoc_true by assumption.
      destruct ij as [i j]. cbn [fst snd] in *. rewrite linked_snoc.
      rewrite (push_back_spec _ _ _ _ (push_back_spec _ _ _ _ Hadj) u l v H). tauto.
    + rewrite push_back_sum by (rewrite length_alter; lia).
      rewrite push_back_sum by lia. rewrite length_app. cbn. lia.
  - split; [exact Hlen|]. split.
    + rewrite edgesIn_snoc_false by assumption. exact Hadj.
    + rewrite length_app. lia.
Qed.

Lemma addEdges_loop : forall ps done adj,
  adj_inv done adj -> Forall (fun ij => fst ij < n /\ snd ij < n) ps ->
  adj_inv (done ++ ps) (fold_left (QueryEngine.addEdge anomalousNodes) ps adj).
Proof.
  induction ps as [|ij ps IH]; intros done adj Inv Hps.
  - rewrite app_nil_r. exact Inv.
  - apply Forall_cons in Hps. destruct Hps as [[Hi Hj] Hps]. cbn [fold_left].
    replace (done ++ ij :: ps) with ((done ++ [ij]) ++ ps) by (rewrite <- List.app_assoc; reflexivity).
    apply IH; [|exact Hps]. apply addEdge_spec; assumption.
Qed.

(** The adjacency lists hold the neighbours in the graph of [edges]. *)
Lemma adjacencyLists_spec :
  adj_inv (QueryEngine.pairs n) (QueryEngine.adjacencyLists anomalousNodes).
Proof.
  unfold QueryEngine.adjacencyLists.
  apply (addEdges_loop (QueryEngine.pairs n) [] (replicate n [])); [|apply pairs_bounded].
  split; [apply length_replicate|]. split.
  - intros u l v H. apply lookup_replicate in H. destruct H as [-> _].
    unfold linked, edgesIn. rewrite filter_nil, !elem_of_nil. tauto.
  - rewrite fmap_replicate, sum_list_replicate. cbn. lia.
Qed.

End AdjacencyLists.

Section DepthFirst.

Local Open Scope nat_scope.

Variable anomalousNodes : list RegionTree.RegionTreeNode.

Let n := length anomalousNodes.

Let es := edges anomalousNodes.

Variable adj : list (list nat).

Hypothesis adj_length : length adj = n.

Hypothesis adj_neighbours : forall u l v, adj !! u = Some l -> (v ∈ l <-> linked es u v).

(** The id of the tree node behind [anomalousNodes[i]]. *)
Definition idAt (i : nat) : Z := RegionTree.id (QueryEngine.nodeAt anomalousNodes i).

(** [visited[u]] *)
Definition vis (visited : list bool) (u : nat) : Prop := visited !! u = Some true.

(** The iterations that the loop of lines 517-543 has left: one for each
    entry of the stack, and for each node not yet visited one more than it
    has neighbours. *)
Definition cost (l : list nat) (b : bool) : nat := if b then 0 else S (length l).

Definition weight (visited : list bool) : nat := sum_list (zip_with cost adj visited).

Lemma weight_bound_gen (a : list (list nat)) : forall visited,
  sum_list (zip_with cost a visited) <= length a + sum_list (length <$> a).
Proof.
  induction a as [|l a IH]; intros [|b visited]; cbn; try lia.
  specialize (IH visited). unfold cost at 1. destruct b; lia.
Qed.

Lemma weight_bound visited : weight visited <= n + sum_list (length <$> adj).
Proof. unfold weight. rewrite <- adj_length. apply weight_bound_gen. Qed.

Lemma weight_visit_gen (a : list (list nat)) : forall visited u l,
  a !! u = Some l -> visited !! u = Some false ->
  sum_list (zip_with cost a (<[u := true]> visited)) + S (length l)
  = sum_list (zip_with cost a visited).
Proof.
  induction a as [|l0 a IH]; intros [|b visited] [|u] l Ha Hv; try discriminate.
  - cbn in Ha, Hv. injection Ha as ->. injection Hv as ->.
    cbn [insert list_insert zip_with sum_list cost]. apply Nat.add_comm.
  - cbn in Ha, Hv. cbn [insert list_insert zip_with sum_list].
    rewrite <- (IH visited u l Ha Hv). rewrite Nat.add_assoc. reflexivity.
Qed.

Lemma weight_visit visited u l :
  adj !! u = Some l -> visited !! u = Some false ->
  weight (<[u := true]> visited) + S (length l) = weight visited.
Proof. apply weight_visit_gen. Qed.

Lemma elem_of_pushNeighbours visited : forall l stack v,
  v ∈ QueryEngine.pushNeighbours l visited stack <->
  v ∈ stack \/ (v ∈ l /\ visited !! v = Some false).
Proof.
  unfold QueryEngine.pushNeighbours.
  induction l as [|w l IH]; intros stack v; cbn [fold_left].
  - rewrite elem_of_nil. tauto.
  - rewrite IH, (elem_of_cons l v w). destruct (visited !! w) as [[|]|] eqn:E; cbn.
    + split; [tauto|]. intros [H|[[->|H] K]]; [tauto|congruence|tauto].
    + rewrite (elem_of_cons stack v w). split; [intros [[->|H]|H]; tauto|].
      intros [H|[[->|H] K]]; tauto.
    + split; [tauto|]. intros [H|[[->|H] K]]; [tauto|congruence|tauto].
Qed.

Lemma pushNeighbours_length visited : forall l stack,
  length (QueryEngine.pushNeighbours l visited stack) <= length stack + length l.
Proof.
  unfold QueryEngine.pushNeighbours.
  induction l as [|w l IH]; intros stack; cbn [fold_left length]; [lia|].
  etransitivity; [apply IH|]. destruct (default true (visited !! w)); cbn [length]; lia.
Qed.

(** The state of one traversal from [s]: [visited0] is the array when it
    starts, [ms] the nodes it has visited so far. *)
Record dfs_inv (visited0 : list bool) (s : nat) (stack : list nat)
    (visited : list bool) (ms : list nat) : Prop := mk_dfs_inv {
  inv_length : length visited = n;
  inv_visited : forall u, vis visited u <-> vis visited0 u \/ u ∈ ms;
  inv_fresh : forall u, u ∈ ms -> ~ vis visited0 u;
  inv_nodup : NoDup ms;
  inv_members : forall u, u ∈ ms -> conn es s u;
  inv_stack : forall v, v ∈ stack -> v < n /\ conn es s v;
  inv_frontier : forall u v, u ∈ ms -> linked es u v -> vis visited v \/ v ∈ stack;
  inv_start : s ∈ ms \/ s ∈ stack
}.

Lemma vis_insert visited u v :
  u < length visited -> vis (<[u := true]> visited) v <-> vis visited v \/ v = u.
Proof.
  intros Hu. unfold vis. destruct (Nat.eq_dec u v) as [->|Hne].
  - rewrite list_lookup_insert_eq by assumption. tauto.
  - rewrite list_lookup_insert_ne by assumption. split; [auto|].
    intros [H|H]; [assumption|congruence].
Qed.

(** An entry that was visited meanwhile is dropped. *)
Lemma dfs_inv_skip visited0 s u stack visited ms :
  ~ vis visited0 s -> vis visited u ->
  dfs_inv visited0 s (u :: stack) visited ms -> dfs_inv visited0 s stack visited ms.
Proof.
  intros Hs Hu [I1 I2 I3 I4 I5 I6 I7 I8]. constructor; auto.
  - intros v Hv. apply I6. right. exact Hv.
  - intros a v Ha Hl. destruct (I7 a v Ha Hl) as [H|H]; [auto|].
    apply elem_of_cons in H. destruct H as [->|H]; auto.
  - destruct I8 as [H|H]; [auto|]. apply elem_of_cons in H. destruct H as [->|H]; [|auto].
    apply I2 in Hu. destruct Hu; [contradiction|auto].
Qed.

(** A new node is visited and its unvisited neighbours are pushed. *)
Lemma dfs_inv_visit visited0 s u stack visited ms l :
  visited !! u = Some false -> adj !! u = Some l ->
  dfs_inv visited0 s (u :: stack) visited ms ->
  dfs_inv visited0 s (QueryEngine.pushNeighbours l (<[u := true]> visited) stack)
          (<[u := true]> visited) (ms ++ [u]).
Proof.
  intros Hu Hl [I1 I2 I3 I4 I5 I6 I7 I8].
  assert (Lu : u < length visited) by (eapply lookup_lt_Some; eauto).
  assert (Nu : ~ vis visited u) by (unfold vis; congruence).
  destruct (I6 u ltac:(left)) as [_ Cu].
  constructor.
  - rewrite length_insert. exact I1.
  - intros v. rewrite vis_insert by assumption. rewrite I2, elem_of_app, list_elem_of_singleton.
    tauto.
  - intros v Hv. apply elem_of_app in Hv. destruct Hv as [Hv|Hv]; [auto|].
    apply list_elem_of_singleton in Hv. subst v. intros K. apply Nu. apply I2. auto.
  - apply NoDup_app. split; [exact I4|]. split; [|apply NoDup_singleton].
    intros v Hv K. apply list_elem_of_singleton in K. subst v. apply Nu. apply I2. auto.
  - intros v Hv. apply elem_of_app in Hv. destruct Hv as [Hv|Hv]; [auto|].
    apply list_elem_of_singleton in Hv. subst v. exact Cu.
  - intros v Hv. apply elem_of_pushNeighbours in Hv. destruct Hv as [Hv|[Hv Hf]].
    + apply I6. right. exact Hv.
    + apply (adj_neighbours u l v Hl) in Hv. split.
      * apply lookup_lt_Some in Hf. rewrite length_insert in Hf. lia.
      * eapply rtc_r; [exact Cu|exact Hv].
  - intros a v Ha Hav. rewrite vis_insert by assumption. rewrite elem_of_pushNeighbours.
    apply elem_of_app in Ha. destruct Ha as [Ha|Ha].
    + destruct (I7 a v Ha Hav) as [H|H]; [auto|].
      apply elem_of_cons in H. destruct H as [->|H]; auto.
    + apply list_elem_of_singleton in Ha. subst a.
      pose proof (proj2 (adj_neighbours u l v Hl) Hav) as Hv.
      assert (Lv : v < length (<[u := true]> visited)).
      { rewrite length_insert, I1. apply (linked_edges anomalousNodes u v Hav). }
      destruct (<[u := true]> visited !! v) as [[|]|] eqn:E.
      * left. apply vis_insert; [assumption|]. exact E.
      * right. right. split; [exact Hv|reflexivity].
      * apply lookup_ge_None in E. lia.
  - rewrite elem_of_app, list_elem_of_singleton, elem_of_pushNeighbours.
    destruct I8 as [H|H]; [auto|]. apply elem_of_cons in H. destruct H as [->|H]; auto.
Qed.

(** The loop of lines 517-543 ends and leaves the invariant with an empty stack. *)
Lemma dfsLoop_spec visited0 s :
  ~ vis visited0 s ->
  forall fuel stack visited mergeFirst g ms,
    dfs_inv visited0 s stack visited ms ->
    QueryEngine.g_nodeIndices g = idAt <$> ms ->
    weight visited + length stack <= fuel ->
    exists visited' g' ms',
      QueryEngine.dfsLoop fuel anomalousNodes adj stack visited mergeFirst g
        = Some (visited', g') /\
      dfs_inv visited0 s [] visited' ms' /\
      QueryEngine.g_nodeIndices g' = idAt <$> ms'.
Proof.
  intros Hs. induction fuel as [|fuel IH]; intros stack visited mergeFirst g ms Inv Hg Hfuel.
  - destruct stack as [|u stack]; [|cbn [length] in Hfuel; lia].
    exists visited, g, ms. auto.
  - destruct stack as [|u stack]; [exists visited, g, ms; auto|].
    cbn [QueryEngine.dfsLoop]. cbn [length] in Hfuel.
    destruct (inv_stack _ _ _ _ _ Inv u ltac:(left)) as [Lu _].
    pose proof (inv_length _ _ _ _ _ Inv) as Lv.
    destruct (visited !! u) as [[|]|] eqn:Eu; [| |apply lookup_ge_None in Eu; lia];
      cbn [mbind option_bind].
    + apply (IH stack visited mergeFirst g ms); [|assumption|lia].
      eapply dfs_inv_skip; eauto.
    + destruct (adj !! u) as [l|] eqn:El; [|apply lookup_ge_None in El; lia].
      cbn [mbind option_bind].
      pose proof (weight_visit visited u l El Eu) as W.
      pose proof (pushNeighbours_length (<[u := true]> visited) l stack) as P.
      apply (IH _ _ true _ (ms ++ [u])); [|..].
      * apply dfs_inv_visit; assumption.
      * cbn [QueryEngine.gather QueryEngine.g_nodeIndices].
        rewrite Hg, fmap_app. reflexivity.
      * lia.
Qed.

Hypothesis adj_sum : sum_list (length <$> adj) <= 2 * length (QueryEngine.pairs n).

Lemma weight_le visited : weight visited <= n * n.
Proof.
  pose proof (weight_bound visited) as W. pose proof (pairs_length n) as P.
  destruct n; [lia|]. nia.
Qed.

(** The state of the loop of lines 502-547 before the start node [k]:
    [Ms] are the members of the components found so far. *)
Definition traversed (k : nat) (visited : list bool)
    (comps : list QueryEngine.ConnectedComponent) (Ms : list (list nat)) : Prop :=
  length visited = n /\
  (forall u, vis visited u <-> u ∈ mjoin Ms) /\
  Forall (is_class es) Ms /\
  NoDup (mjoin Ms) /\
  map QueryEngine.nodeIndices comps = map (map idAt) Ms /\
  forall u, u < k -> vis visited u.

Lemma traversed_closed k visited comps Ms u v :
  traversed k visited comps Ms -> vis visited u -> linked es u v -> vis visited v.
Proof.
  intros (_ & V & C & _) Hu Huv. apply V in Hu. apply V.
  apply list_elem_of_join in Hu. destruct Hu as (M & Hu & HM).
  apply list_elem_of_join. exists M. split; [|exact HM].
  rewrite Forall_forall in C. destruct (C M HM) as (_ & s & Hs).
  apply Hs. eapply rtc_r; [apply Hs; exact Hu|exact Huv].
Qed.

(** A finished traversal has collected the class of its start node. *)
Lemma dfs_inv_class k visited comps Ms visited' ms :
  traversed k visited comps Ms -> dfs_inv visited k [] visited' ms -> is_class es ms.
Proof.
  intros T [I1 I2 I3 I4 I5 I6 I7 I8]. split; [exact I4|]. exists k. intros u.
  split; [apply I5|]. revert u. apply (rtc_ind_r (fun u => u ∈ ms) k).
  - destruct I8 as [H|H]; [exact H|apply elem_of_nil in H; destruct H].
  - intros u v _ Huv IH.
    destruct (I7 u v IH Huv) as [H|H]; [|apply elem_of_nil in H; destruct H].
    apply I2 in H. destruct H as [H|H]; [|exact H]. exfalso.
    apply (I3 u IH). eapply traversed_closed; [exact T|exact H|].
    apply linked_sym. exact Huv.
Qed.

(** One round of the loop over the start nodes. *)
Lemma dfsFrom_spec fuel k visited comps Ms :
  n * n < fuel -> k < n -> traversed k visited comps Ms ->
  exists st Ms',
    QueryEngine.dfsFrom fuel anomalousNodes adj (Some (visited, comps)) k = Some st /\
    traversed (S k) (fst st) (snd st) Ms'.
Proof.
  intros Hfuel Hk T. pose proof T as (L & V & C & N & G & D).
  unfold QueryEngine.dfsFrom. cbn [mbind option_bind fst snd].
  destruct (visited !! k) as [[|]|] eqn:Ek; [| |apply lookup_ge_None in Ek; lia];
    cbn [mbind option_bind].
  - exists (visited, comps), Ms. split; [reflexivity|]. cbn [fst snd].
    do 5 (split; [assumption|]). intros u Hu.
    destruct (Nat.eq_dec u k) as [->|Hne]; [exact Ek|]. apply D. lia.
  - assert (Nk : ~ vis visited k) by (unfold vis; congruence).
    assert (I0 : dfs_inv visited k [k] visited []).
    { constructor; auto.
      - intros u. rewrite elem_of_nil. tauto.
      - intros u H. apply elem_of_nil in H. destruct H.
      - constructor.
      - intros u H. apply elem_of_nil in H. destruct H.
      - intros v H. apply list_elem_of_singleton in H. subst v. split; [exact Hk|apply conn_refl].
      - intros u v H. apply elem_of_nil in H. destruct H.
      - right. left. }
    pose proof (weight_le visited) as W.
    destruct (dfsLoop_spec visited k Nk fuel [k] visited false
                (QueryEngine.mkGathering [] (mkRegion 0 0 0 0) 0 PrimFloat.zero PrimFloat.zero)
                [] I0 eq_refl ltac:(cbn [length]; lia))
      as (visited' & g' & ms & E & I & Hg).
    rewrite E. cbn [mbind option_bind fst snd].
    eexists (_, _), (Ms ++ [ms]). split; [reflexivity|]. cbn [fst snd].
    pose proof (dfs_inv_class k visited comps Ms visited' ms T I) as Cms.
    destruct I as [I1 I2 I3 I4 I5 I6 I7 I8].
    assert (J : mjoin (Ms ++ [ms]) = mjoin Ms ++ ms).
    { rewrite join_app. cbn. rewrite app_nil_r. reflexivity. }
    split; [exact I1|]. split; [|split; [|split; [|split]]].
    + intros u. rewrite J, elem_of_app, I2, V. reflexivity.
    + apply Forall_app. split; [exact C|]. apply Forall_singleton. exact Cms.
    + rewrite J. apply NoDup_app. split; [exact N|]. split; [|exact I4].
      intros u Hu Hu'. apply (I3 u Hu'). apply V. exact Hu.
    + rewrite !map_app, G. cbn [map QueryEngine.finish QueryEngine.nodeIndices].
      rewrite Hg. reflexivity.
    + intros u Hu. apply I2. destruct (Nat.eq_dec u k) as [->|Hne].
      * right. destruct I8 as [H|H]; [exact H|apply elem_of_nil in H; destruct H].
      * left. apply D. lia.
Qed.

Lemma dfsStarts_loop fuel : forall len k visited comps Ms,
  n * n < fuel -> k + len <= n -> traversed k visited comps Ms ->
  exists st Ms',
    fold_left (QueryEngine.dfsFrom fuel anomalousNodes adj) (seq k len)
      (Some (visited, comps)) = Some st /\
    traversed (k + len) (fst st) (snd st) Ms'.
Proof.
  induction len as [|len IH]; intros k visited comps Ms Hfuel Hk T.
  - exists (visited, comps), Ms. rewrite Nat.add_0_r. split; [reflexivity|exact T].
  - destruct (dfsFrom_spec fuel k visited comps Ms Hfuel ltac:(lia) T)
      as ([visited1 comps1] & Ms1 & E1 & T1).
    cbn [seq fold_left]. rewrite E1. cbn [fst snd] in T1.
    destruct (IH (S k) visited1 comps1 Ms1 Hfuel ltac:(lia) T1) as (st & Ms' & E & T').
    exists st, Ms'. split; [exact E|].
    replace (k + S len) with (S k + len) by lia. exact T'.
Qed.

(** Lines 498-547: the components are the classes of the graph. *)
Lemma dfsStarts_spec fuel :
  n * n < fuel ->
  exists st Ms,
    fold_left (QueryEngine.dfsFrom fuel anomalousNodes adj) (seq 0 n)
      (Some (replicate n false, [])) = Some st /\
    classPartition es n Ms /\
    map QueryEngine.nodeIndices (snd st) = map (map idAt) Ms.
Proof.
  intros Hfuel.
  assert (T0 : traversed 0 (replicate n false) [] []).
  { split; [apply length_replicate|]. split; [|split; [constructor|split; [constructor|]]].
    - intros u. cbn. rewrite elem_of_nil. unfold vis. split; [|tauto].
      intros H. apply lookup_replicate in H. destruct H. discriminate.
    - split; [reflexivity|]. intros u Hu. lia. }
  destruct (dfsStarts_loop fuel n 0 (replicate n false) [] [] Hfuel ltac:(lia) T0)
    as (st & Ms & E & (L & V & C & N & G & D)).
  exists st, Ms. split; [exact E|]. split; [|exact G].
  split; [exact C|]. split; [exact N|]. intros u. rewrite <- V. split.
  - intros H. apply lookup_lt_Some in H. lia.
  - apply D.
Qed.

End DepthFirst.

(** ** The two component finders produce the same partition *)

Section ComponentFinders.

Local Open Scope nat_scope.

Lemma insertByArea_Permutation c l : QueryEngine.insertByArea c l ≡ₚ c :: l.
Proof.
  induction l as [|d l IH]; [reflexivity|]. cbn [QueryEngine.insertByArea].
  destruct (QueryEngine.totalArea d <? QueryEngine.totalArea c)%Z; [reflexivity|].
  rewrite IH. apply perm_swap.
Qed.

Lemma sortByArea_loop l : forall acc,
  fold_left (fun acc c => QueryEngine.insertByArea c acc) l acc ≡ₚ acc ++ l.
Proof.
  induction l as [|c l IH]; intros acc; cbn [fold_left].
  - rewrite app_nil_r. reflexivity.
  - rewrite IH, insertByArea_Permutation. cbn [app]. apply Permutation_middle.
Qed.

(** The sort only reorders the components. *)
Lemma sortByArea_Permutation l : QueryEngine.sortByArea l ≡ₚ l.
Proof. unfold QueryEngine.sortByArea. apply (sortByArea_loop l []). Qed.

Lemma sortByArea_nodeIndices l :
  map QueryEngine.nodeIndices (QueryEngine.sortByArea l) ≡ₚ map QueryEngine.nodeIndices l.
Proof. apply (fmap_Permutation QueryEngine.nodeIndices). apply sortByArea_Permutation. Qed.

Variable anomalousNodes : list RegionTree.RegionTreeNode.

Lemma gather_nodeIndices members : forall g,
  QueryEngine.g_nodeIndices
    (fold_left (fun g idx => QueryEngine.gather true (QueryEngine.nodeAt anomalousNodes idx) g)
       members g)
  = QueryEngine.g_nodeIndices g ++ map (idAt anomalousNodes) members.
Proof.
  induction members as [|i members IH]; intros g; cbn [fold_left map].
  - rewrite app_nil_r. reflexivity.
  - rewrite IH. cbn [QueryEngine.gather QueryEngine.g_nodeIndices].
    rewrite <- List.app_assoc. reflexivity.
Qed.

Lemma componentOfGroup_nodeIndices componentId members :
  QueryEngine.nodeIndices (QueryEngine.componentOfGroup anomalousNodes componentId members)
  = map (idAt anomalousNodes) members.
Proof.
  unfold QueryEngine.componentOfGroup. cbn [QueryEngine.finish QueryEngine.nodeIndices].
  rewrite gather_nodeIndices. reflexivity.
Qed.

Lemma imap_nodeIndices (groups : list (nat * list nat)) : forall h : nat -> Z,
  map QueryEngine.nodeIndices
    (imap (fun k g => QueryEngine.componentOfGroup anomalousNodes (h k) (snd g)) groups)
  = map (map (idAt anomalousNodes)) groups.*2.
Proof.
  induction groups as [|g groups IH]; intros h; [reflexivity|].
  rewrite imap_cons. cbn [map fmap list_fmap]. rewrite componentOfGroup_nodeIndices.
  f_equal. apply (IH (fun k => h (S k))).
Qed.

Lemma componentsOfGroups_nodeIndices (groups : list (nat * list nat)) :
  map QueryEngine.nodeIndices (QueryEngine.componentsOfGroups anomalousNodes groups)
  = map (map (idAt anomalousNodes)) groups.*2.
Proof. apply (imap_nodeIndices groups (fun k => Z.of_nat k)). Qed.

Lemma idAt_seq : map (idAt anomalousNodes) (seq 0 (length anomalousNodes))
                 = map RegionTree.id anomalousNodes.
Proof.
  apply list_eq. intros i. change (map ?f ?l) with (f <$> l). rewrite !list_lookup_fmap.
  destruct (anomalousNodes !! i) as [x|] eqn:E.
  - rewrite lookup_seq_lt by (eapply lookup_lt_Some; eauto). cbn.
    unfold idAt, QueryEngine.nodeAt. rewrite E. reflexivity.
  - rewrite lookup_seq_ge by (apply lookup_ge_None; exact E). reflexivity.
Qed.

Lemma join_map_map {A B : Type} (f : A -> B) (ls : list (list A)) :
  mjoin (map (map f) ls) = map f (mjoin ls).
Proof.
  induction ls as [|l ls IH]; [reflexivity|].
  change (map f l ++ mjoin (map (map f) ls) = map f (l ++ mjoin ls)).
  rewrite IH, map_app. reflexivity.
Qed.

(** The groups of a partition hold the ids of the anomalous leaves, each once. *)
Lemma classPartition_ids es Ms :
  classPartition es (length anomalousNodes) Ms ->
  mjoin (map (map (idAt anomalousNodes)) Ms) ≡ₚ map RegionTree.id anomalousNodes.
Proof.
  intros (_ & N & Cov). rewrite join_map_map, <- idAt_seq.
  apply (fmap_Permutation (idAt anomalousNodes)).
  apply NoDup_Permutation; [exact N|apply NoDup_seq|].
  intros u. rewrite Cov, elem_of_seq. lia.
Qed.

End ComponentFinders.

(** The anomalous leaves that both component finders collect. *)
Definition anomalousNodesOf (qe : QueryEngine.t) : list RegionTree.RegionTreeNode :=
  match QueryEngine.regionTree qe with
  | Some tree => QueryEngine.anomalousLeaves tree
  | None => []
  end.

(** C6.  For every query engine, whatever its tree, the union-find finder
    [findConnectedComponents] and the depth-first finder
    [findConnectedComponentsDFS] both return (with fuel above the square of
    the number [n] of anomalous leaves, the recursion of [find] and the
    traversal loop end), and their results are the same partition: the lists
    of node ids of the components agree up to the order of the components
    and the order of the ids in a component.  Each of the two lists of
    components holds the ids of the anomalous leaves, each leaf once. *)
Theorem findConnectedComponents_same_partition (qe : QueryEngine.t) (fuel : nat) :
  (length (anomalousNodesOf qe) * length (anomalousNodesOf qe) < fuel)%nat ->
  exists dsu dfs,
    QueryEngine.findConnectedComponents fuel qe = Some dsu /\
    QueryEngine.findConnectedComponentsDFS fuel qe = Some dfs /\
    samePartition (map QueryEngine.nodeIndices dsu) (map QueryEngine.nodeIndices dfs) /\
    mjoin (map QueryEngine.nodeIndices dsu) ≡ₚ map RegionTree.id (anomalousNodesOf qe) /\
    mjoin (map QueryEngine.nodeIndices dfs) ≡ₚ map RegionTree.id (anomalousNodesOf qe).
Proof.
  unfold anomalousNodesOf, QueryEngine.findConnectedComponents,
    QueryEngine.findConnectedComponentsDFS.
  destruct (QueryEngine.regionTree qe) as [tree|].
  2:{ intros _. exists [], []. repeat split; try reflexivity. exists []. split; constructor. }
  set (ns := QueryEngine.anomalousLeaves tree). intros Hfuel.
  destruct (Nat.eqb_spec (length ns) 0) as [E|E].
  { apply nil_length_inv in E. rewrite E.
    exists [], []. repeat split; try reflexivity. exists []. split; constructor. }
  pose proof (pairs_length (length ns)) as PL.
  assert (Hpairs : (length (QueryEngine.pairs (length ns)) < fuel)%nat) by nia.
  destruct (uniteAdjacent_spec ns fuel Hpairs) as (uf0 & uf & E0 & E1 & Inv & M).
  destruct (groupByRoot_spec ns _ fuel uf Inv M Hpairs) as (groups & E2 & PG).
  rewrite E0. cbn [mbind option_bind]. rewrite E1. cbn [mbind option_bind].
  rewrite E2. cbn [mbind option_bind].
  destruct (adjacencyLists_spec ns) as (AL & AN & AS).
  destruct (dfsStarts_spec ns (QueryEngine.adjacencyLists ns) AL AN AS fuel Hfuel)
    as (st & Ms & E3 & PM & G).
  rewrite E3. cbn [mbind option_bind].
  eexists _, _. split; [reflexivity|]. split; [reflexivity|].
  pose proof (componentsOfGroups_nodeIndices ns groups) as GG.
  split; [|split].
  - eapply samePartition_Permutation.
    + symmetry. rewrite sortByArea_nodeIndices, GG. reflexivity.
    + symmetry. rewrite sortByArea_nodeIndices, G. reflexivity.
    + apply samePartition_fmap. eapply classPartition_unique; eassumption.
  - rewrite sortByArea_nodeIndices, GG. eapply classPartition_ids. exact PG.
  - rewrite sortByArea_nodeIndices, G. eapply classPartition_ids. exact PM.
Qed.

Lemma findConnectedComponents_same_partition_witness :
  exists dsu dfs,
    QueryEngine.findConnectedComponents 100 engine4 = Some dsu /\
    QueryEngine.findConnectedComponentsDFS 100 engine4 = Some dfs /\
    samePartition (map QueryEngine.nodeIndices dsu) (map QueryEngine.nodeIndices dfs) /\
    mjoin (map QueryEngine.nodeIndices dsu) ≡ₚ [1; 2; 4]%Z.
Proof.
  destruct (findConnectedComponents_same_partition engine4 100)
    as (dsu & dfs & E1 & E2 & S & P & _).
  - vm_compute. lia.
  - exists dsu, dfs. do 3 (split; [assumption|]). exact P.
Defined.

(** ** Regions: centre, intersection, adjacency and bounding boxes *)

Section Geometry.

(** The two [+ 1] of the adjacency tests stay within [int]. *)
Definition edgesFit (r : Region) : Prop :=
  in_int32 (row2 r + 1) /\ in_int32 (col2 r + 1).

Lemma areAdjacent_sym (a b : Region) :
  QueryEngine.areAdjacent a b = QueryEngine.areAdjacent b a.
Proof.
  unfold QueryEngine.areAdjacent.
  rewrite (andb_comm (col1 a <=? col2 b)), (andb_comm (row1 a <=? row2 b)).
  rewrite (orb_comm (int32 (col2 a + 1) =? col1 b)).
  rewrite (orb_comm (int32 (row2 a + 1) =? row1 b)).
  reflexivity.
Qed.

Lemma areAdjacent_isAdjacentTo (a b : Region) :
  edgesFit a -> edgesFit b -> QueryEngine.areAdjacent a b = isAdjacentTo a b.
Proof.
  intros [Ha1 Ha2] [Hb1 Hb2]. unfold QueryEngine.areAdjacent, isAdjacentTo.
  rewrite !int32_small by assumption.
  destruct (Z.leb_spec (col1 a) (col2 b)), (Z.leb_spec (col1 b) (col2 a)),
           (Z.leb_spec (row1 a) (row2 b)), (Z.leb_spec (row1 b) (row2 a)),
           (Z.ltb_spec (col2 a) (col1 b)), (Z.ltb_spec (col2 b) (col1 a)),
           (Z.ltb_spec (row2 a) (row1 b)), (Z.ltb_spec (row2 b) (row1 a));
    try lia; cbn [andb orb negb];
    destruct (Z.eqb_spec (col2 a + 1) (col1 b)), (Z.eqb_spec (col2 b + 1) (col1 a)),
             (Z.eqb_spec (row2 a + 1) (row1 b)), (Z.eqb_spec (row2 b + 1) (row1 a));
    try lia; reflexivity.
Qed.

Lemma regionsIntersect_spec (a b : Region) :
  QueryEngine.regionsIntersect a b = true <->
  row1 b <= row2 a /\ row1 a <= row2 b /\ col1 b <= col2 a /\ col1 a <= col2 b.
Proof.
  unfold QueryEngine.regionsIntersect.
  rewrite negb_true_iff, !orb_false_iff, !Z.ltb_ge, !Z.gtb_ltb, !Z.ltb_ge. lia.
Qed.

End Geometry.

(** X2.  The two adjacency tests of the program agree: on regions whose
    coordinates are not at the top of the [int] range (so that [row2 + 1]
    and [col2 + 1] do not overflow), [QueryEngine::areAdjacent(a, b)]
    returns what [Region::isAdjacentTo] returns, and it does not depend on
    the order of its arguments. *)
Theorem areAdjacent_agrees_with_isAdjacentTo (a b : Region) :
  edgesFit a -> edgesFit b ->
  QueryEngine.areAdjacent a b = isAdjacentTo a b
  /\ QueryEngine.areAdjacent a b = QueryEngine.areAdjacent b a.
Proof.
  intros Ha Hb. split; [apply areAdjacent_isAdjacentTo; assumption | apply areAdjacent_sym].
Qed.

Lemma areAdjacent_agrees_with_isAdjacentTo_witness :
  QueryEngine.areAdjacent (mkRegion 0 0 15 15) (mkRegion 0 16 15 31)
  = isAdjacentTo (mkRegion 0 0 15 15) (mkRegion 0 16 15 31)
  /\ QueryEngine.areAdjacent (mkRegion 0 0 15 15) (mkRegion 0 16 15 31)
     = QueryEngine.areAdjacent (mkRegion 0 16 15 31) (mkRegion 0 0 15 15).
Proof.
  apply (areAdjacent_agrees_with_isAdjacentTo (mkRegion 0 0 15 15) (mkRegion 0 16 15 31));
    unfold edgesFit, in_int32; cbn; lia.
Defined.

(** X3.  [QueryEngine::regionsIntersect] is symmetric; for two valid
    regions it answers [true] exactly when they share a cell; and two
    regions that [areAdjacent] accepts never intersect (their coordinates
    not being at the top of the [int] range). *)
Theorem regionsIntersect_shares_a_cell (a b : Region) :
  QueryEngine.regionsIntersect a b = QueryEngine.regionsIntersect b a
  /\ (isValid a = true -> isValid b = true ->
      (QueryEngine.regionsIntersect a b = true <-> overlaps a b))
  /\ (edgesFit a -> edgesFit b -> QueryEngine.areAdjacent a b = true ->
      QueryEngine.regionsIntersect a b = false).
Proof.
  split; [|split].
  - destruct (QueryEngine.regionsIntersect a b) eqn:E1,
             (QueryEngine.regionsIntersect b a) eqn:E2; try reflexivity.
    + apply regionsIntersect_spec in E1.
      assert (E3 : QueryEngine.regionsIntersect b a = true)
        by (apply regionsIntersect_spec; lia).
      congruence.
    + apply regionsIntersect_spec in E2.
      assert (E3 : QueryEngine.regionsIntersect a b = true)
        by (apply regionsIntersect_spec; lia).
      congruence.
  - intros Va Vb. apply isValid_spec in Va, Vb. rewrite regionsIntersect_spec. split.
    + intros H. exists (Z.max (row1 a) (row1 b)), (Z.max (col1 a) (col1 b)).
      rewrite !contains_spec. lia.
    + intros (r & c & Ha & Hb). apply contains_spec in Ha, Hb. lia.
  - intros Ha Hb Adj. rewrite (areAdjacent_isAdjacentTo a b Ha Hb) in Adj.
    destruct (QueryEngine.regionsIntersect a b) eqn:E; [|reflexivity].
    apply regionsIntersect_spec in E. exfalso.
    unfold isAdjacentTo in Adj.
    destruct (Z.ltb_spec (col2 a) (col1 b)), (Z.ltb_spec (col2 b) (col1 a)),
             (Z.ltb_spec (row2 a) (row1 b)), (Z.ltb_spec (row2 b) (row1 a));
      try lia. cbn in Adj. discriminate.
Qed.

(** X4.  [QueryEngine::mergeBounds(a, b)] is the smallest region around [a]
    and [b]: every cell of [a] and every cell of [b] is a cell of it, a
    region contains both [a] and [b] exactly when it contains it, and it is
    valid as soon as [a] is. *)
Theorem mergeBounds_is_the_bounding_box (a b : Region) :
  (forall r c, contains a r c = true \/ contains b r c = true ->
               contains (QueryEngine.mergeBounds a b) r c = true)
  /\ (forall R, subregion (QueryEngine.mergeBounds a b) R <->
                subregion a R /\ subregion b R)
  /\ (isValid a = true -> isValid (QueryEngine.mergeBounds a b) = true).
Proof.
  split; [|split].
  - intros r c H. rewrite !contains_spec in *. unfold QueryEngine.mergeBounds.
    cbn [row1 row2 col1 col2]. lia.
  - intros R. unfold subregion, QueryEngine.mergeBounds. cbn [row1 row2 col1 col2]. lia.
  - rewrite !isValid_spec. unfold QueryEngine.mergeBounds. cbn [row1 row2 col1 col2]. lia.
Qed.

(** X5.  The centre of a valid region is one of its cells, when the sums
    [row1 + row2] and [col1 + col2] fit an [int]. *)
Theorem center_is_a_cell (r : Region) :
  isValid r = true -> in_int32 (row1 r + row2 r) -> in_int32 (col1 r + col2 r) ->
  contains r (fst (center r)) (snd (center r)) = true.
Proof.
  intros Hv Hr Hc. apply isValid_spec in Hv as [Vr Vc]. unfold center. cbn [fst snd].
  rewrite !int32_small by assumption. apply contains_spec.
  pose proof (cdiv_between _ _ Vr). pose proof (cdiv_between _ _ Vc). lia.
Qed.

Lemma center_is_a_cell_witness :
  contains (mkRegion (-3) 2 (-2) 7) (fst (center (mkRegion (-3) 2 (-2) 7)))
           (snd (center (mkRegion (-3) 2 (-2) 7))) = true.
Proof.
  apply (center_is_a_cell (mkRegion (-3) 2 (-2) 7));
    [reflexivity | unfold in_int32; cbn; lia | unfold in_int32; cbn; lia].
Defined.

(** ** PrefixSum: the self-check, the global statistics and [queryStats] *)

Section SelfCheck.

Import PrefixSum.

(** A sum over a range of which only the entries within [0, w) count is the
    sum over the part of the range within [0, w). *)
Lemma Zsum_clip (F : Z -> Z) (w a n : Z) :
  0 < w ->
  Zsum (map (fun c => if (c >=? 0) && (c <? w) then F c else 0) (seqZ a n))
  = Zsum (map F (seqZ (Z.max 0 a) (Z.min (a + n) w - Z.max 0 a))).
Proof.
  intros Hw. destruct (Z.le_gt_cases n 0) as [Hn|Hn].
  { rewrite !seqZ_nil by lia. reflexivity. }
  assert (G : forall k : nat,
             Zsum (map (fun c => if (c >=? 0) && (c <? w) then F c else 0)
                       (seqZ a (Z.of_nat k)))
             = Zsum (map F (seqZ (Z.max 0 a) (Z.min (a + Z.of_nat k) w - Z.max 0 a)))).
  { induction k as [|k IH].
    - rewrite !seqZ_nil by lia. reflexivity.
    - rewrite seqZ_S, map_app, Zsum_app, IH. cbn [map Zsum foldr].
      destruct (Z.geb_spec (a + Z.of_nat k) 0) as [H0|H0];
        [destruct (Z.ltb_spec (a + Z.of_nat k) w) as [H1|H1]|]; cbn [andb].
      + replace (Z.min (a + Z.of_nat (S k)) w - Z.max 0 a)
          with ((Z.min (a + Z.of_nat k) w - Z.max 0 a) + 1) by lia.
        rewrite seqZ_app by lia. rewrite map_app, Zsum_app.
        change (seqZ ?m 1) with [m]. cbn [map Zsum foldr].
        replace (Z.max 0 a + (Z.min (a + Z.of_nat k) w - Z.max 0 a))
          with (a + Z.of_nat k) by lia.
        reflexivity.
      + replace (Z.min (a + Z.of_nat (S k)) w) with (Z.min (a + Z.of_nat k) w) by lia.
        lia.
      + rewrite !seqZ_nil by lia. reflexivity. }
  specialize (G (Z.to_nat n)). rewrite Z2Nat.id in G by lia. exact G.
Qed.

Lemma Zsum_cons x l : Zsum (x :: l) = x + Zsum l.
Proof. reflexivity. Qed.

Lemma Zsum_nil : Zsum [] = 0.
Proof. reflexivity. Qed.

Lemma Zsum_map_zero {A : Type} (g : A -> Z) (l : list A) :
  (forall x, g x = 0) -> Zsum (map g l) = 0.
Proof.
  intros H. induction l as [|x l IH]; [reflexivity|].
  cbn [map]. rewrite Zsum_cons, H, IH. reflexivity.
Qed.

Lemma bruteForce_invalid f (image : Matrix) R : isValid R = false -> bruteForce f image R = 0.
Proof.
  intros V. unfold bruteForce.
  destruct (Z.le_gt_cases (row1 R) (row2 R)) as [Hr|Hr].
  - assert (Hc : col2 R < col1 R).
    { destruct (Z.le_gt_cases (col1 R) (col2 R)) as [Hc|Hc]; [|lia].
      exfalso. assert (isValid R = true) by (apply isValid_spec; lia). congruence. }
    rewrite (seqZ_nil (col1 R)) by lia. apply Zsum_map_zero. reflexivity.
  - rewrite (seqZ_nil (row1 R)) by lia. reflexivity.
Qed.

Variable image : Matrix.
Variables h w : nat.
Hypothesis image_rect : rectangular image h w.
Hypothesis h_pos : (0 < h)%nat.
Hypothesis w_pos : (0 < w)%nat.
Hypothesis sized : machine_sized h w.

(** What one cell adds to the sum of [f] over the pixels. *)
Definition counted (f : Z -> Z) (r c : Z) : Z :=
  if (r >=? 0) && (r <? Z.of_nat h) && ((c >=? 0) && (c <? Z.of_nat w))
  then f (pixelValue (imageAt image (Z.to_nat r) (Z.to_nat c))) else 0.

Lemma head_length : length (default [] (head image)) = w.
Proof.
  destruct image_rect as [Hl Hr]. destruct image as [|row0 rest]; [cbn in Hl; lia|].
  apply Forall_cons in Hr as [Hr _]. exact Hr.
Qed.

Lemma verify_cell_spec r c s q :
  verify_cell image r c (int64 s, int64 q)
  = Some (int64 (s + counted id r c), int64 (q + counted square r c)).
Proof.
  destruct image_rect as [Hl Hr]. destruct sized as (Mh & Mw & _).
  unfold verify_cell, counted. rewrite head_length, Hl.
  rewrite !int32_small by (unfold in_int32; lia).
  rewrite <- andb_assoc.
  destruct (Z.geb_spec r 0) as [R0|R0]; cbn [andb]; [|rewrite !Z.add_0_r; reflexivity].
  destruct (Z.ltb_spec r (Z.of_nat h)) as [R1|R1]; cbn [andb];
    [|rewrite !Z.add_0_r; reflexivity].
  destruct (Z.geb_spec c 0) as [C0|C0]; cbn [andb]; [|rewrite !Z.add_0_r; reflexivity].
  destruct (Z.ltb_spec c (Z.of_nat w)) as [C1|C1]; cbn [andb];
    [|rewrite !Z.add_0_r; reflexivity].
  unfold imageAt.
  destruct (image !! Z.to_nat r) as [row|] eqn:Er;
    [|apply lookup_ge_None in Er; lia].
  cbn [mbind option_bind].
  assert (Lrow : length row = w).
  { rewrite Forall_forall in Hr. apply Hr. eapply list_elem_of_lookup_2. exact Er. }
  destruct (row !! Z.to_nat c) as [p|] eqn:Ec;
    [|apply lookup_ge_None in Ec; lia].
  cbn [mbind option_bind default fst snd]. unfold id, square.
  rewrite int64_add_l, int64_add_l, int64_add_r. reflexivity.
Qed.

Lemma verify_row_spec region r s q :
  verify_row image region (Some (int64 s, int64 q)) r
  = Some (int64 (s + Zsum (map (counted id r)
                               (seqZ (col1 region) (col2 region - col1 region + 1)))),
          int64 (q + Zsum (map (counted square r)
                               (seqZ (col1 region) (col2 region - col1 region + 1))))).
Proof.
  unfold verify_row. generalize (seqZ (col1 region) (col2 region - col1 region + 1)).
  intros cs. revert s q. induction cs as [|c cs IH]; intros s q; cbn [fold_left map]; rewrite ?Zsum_cons, ?Zsum_nil.
  - rewrite !Z.add_0_r. reflexivity.
  - cbn [mbind option_bind]. rewrite verify_cell_spec, IH. do 3 f_equal; lia.
Qed.

Lemma verify_rows_spec region : forall rs s q,
  fold_left (verify_row image region) rs (Some (int64 s, int64 q))
  = Some (int64 (s + Zsum (map (fun r =>
                     Zsum (map (counted id r)
                               (seqZ (col1 region) (col2 region - col1 region + 1)))) rs)),
          int64 (q + Zsum (map (fun r =>
                     Zsum (map (counted square r)
                               (seqZ (col1 region) (col2 region - col1 region + 1)))) rs))).
Proof.
  induction rs as [|r rs IH]; intros s q; cbn [fold_left map]; rewrite ?Zsum_cons, ?Zsum_nil.
  - rewrite !Z.add_0_r. reflexivity.
  - rewrite verify_row_spec, IH. do 3 f_equal; lia.
Qed.

(** The guarded double sum is the sum over the clamped region. *)
Lemma counted_sum f region :
  Zsum (map (fun r =>
         Zsum (map (counted f r) (seqZ (col1 region) (col2 region - col1 region + 1))))
        (seqZ (row1 region) (row2 region - row1 region + 1)))
  = bruteForce f image
      (clamp (Z.of_nat h) (Z.of_nat w) (row1 region) (col1 region)
             (row2 region) (col2 region)).
Proof.
  unfold bruteForce, clamp. cbn [row1 row2 col1 col2].
  set (F := fun r =>
         Zsum (map (fun c => f (pixelValue (imageAt image (Z.to_nat r) (Z.to_nat c))))
                   (seqZ (Z.max 0 (col1 region))
                         (Z.min (Z.of_nat w - 1) (col2 region)
                          - Z.max 0 (col1 region) + 1)))).
  transitivity
    (Zsum (map (fun r => if (r >=? 0) && (r <? Z.of_nat h) then F r else 0)
               (seqZ (row1 region) (row2 region - row1 region + 1)))).
  - f_equal. apply map_ext. intros r. unfold counted.
    destruct ((r >=? 0) && (r <? Z.of_nat h)); cbn [andb].
    + rewrite (Zsum_clip (fun c => f (pixelValue (imageAt image (Z.to_nat r) (Z.to_nat c)))))
        by lia.
      unfold F. do 3 f_equal. lia.
    + apply Zsum_map_zero. reflexivity.
  - rewrite (Zsum_clip F) by lia. do 3 f_equal. lia.
Qed.

Lemma bruteForce_clamp_bounds f region :
  (forall p, 0 <= f (pixelValue p) <= 65025) ->
  in_int64 (bruteForce f image
              (clamp (Z.of_nat h) (Z.of_nat w) (row1 region) (col1 region)
                     (row2 region) (col2 region))).
Proof.
  intros Hf. destruct sized as (_ & _ & M).
  rewrite bruteForce_rectSum by (unfold clamp; cbn [row1 col1]; lia).
  match goal with |- in_int64 (rectSum _ _ ?r0 ?m ?c0 ?n) =>
    pose proof (rectSum_bounds f image Hf r0 m c0 n) as B;
    assert (Z.of_nat m * Z.of_nat n <= Z.of_nat h * Z.of_nat w)
      by (unfold clamp; cbn [row1 row2 col1 col2]; apply Z.mul_le_mono_nonneg; lia)
  end.
  unfold in_int64. lia.
Qed.

Lemma verify_on_index ps0 region :
  row2 region < INT_MAX -> col2 region < INT_MAX ->
  verify (build ps0 image) image region = Some true.
Proof.
  intros Hr Hc. unfold verify, verify_sums.
  replace (row2 region =? INT_MAX) with false by (symmetry; apply Z.eqb_neq; lia).
  replace (col2 region =? INT_MAX) with false by (symmetry; apply Z.eqb_neq; lia).
  rewrite andb_false_r, orb_false_r, andb_false_r.
  change (Some (0, 0)) with (Some (int64 0, int64 0)).
  rewrite verify_rows_spec. cbn [mbind option_bind fst snd].
  rewrite !Z.add_0_l, !counted_sum.
  pose proof (build_indexes ps0 image h w image_rect h_pos w_pos sized) as Hidx.
  pose proof (query_on_index _ _ _ _ (row1 region) (col1 region) (row2 region)
                (col2 region) Hidx) as [Q1 Q2].
  unfold querySumR, querySumSquaresR. rewrite Q1, Q2. cbn [mbind option_bind].
  rewrite !int64_small
    by (apply bruteForce_clamp_bounds; first [apply id_bounds | apply square_bounds]).
  destruct (isValid _) eqn:V.
  - rewrite !Z.eqb_refl. reflexivity.
  - rewrite !(bruteForce_invalid _ _ _ V). reflexivity.
Qed.

(** The whole raster as a region. *)
Definition fullRaster : Region := mkRegion 0 0 (Z.of_nat h - 1) (Z.of_nat w - 1).

Lemma bruteForce_fullRaster f : bruteForce f image fullRaster = P f image h w.
Proof.
  rewrite bruteForce_rectSum by (cbn; lia). unfold fullRaster, P. cbn [row1 row2 col1 col2].
  f_equal; lia.
Qed.

Lemma P_in_int64 f :
  (forall p, 0 <= f (pixelValue p) <= 65025) -> in_int64 (P f image h w).
Proof.
  intros Hf. destruct sized as (_ & _ & M).
  pose proof (rectSum_bounds f image Hf 0 h 0 w) as B. unfold P, in_int64. lia.
Qed.

End SelfCheck.

Section GlobalStatistics.

Import PrefixSum.

Lemma build_totals ps0 image h w :
  rectangular image h w -> (0 < h)%nat -> (0 < w)%nat -> machine_sized h w ->
  let ps := build ps0 image in
  totalPixels ps = Z.of_nat h * Z.of_nat w
  /\ totalSum ps = bruteForce id image (fullRaster h w)
  /\ globalMean ps
     = PrimFloat.div (double_of_int (totalSum ps)) (double_of_int (totalPixels ps))
  /\ globalVariance ps
     = PrimFloat.sub
         (PrimFloat.div (double_of_int (bruteForce square image (fullRaster h w)))
                        (double_of_int (totalPixels ps)))
         (PrimFloat.mul (globalMean ps) (globalMean ps))
  /\ globalStdDev ps = PrimFloat.sqrt (fmax PrimFloat.zero (globalVariance ps)).
Proof.
  intros Hrect Hh Hw Hm. pose proof Hrect as [Hl Hr]. pose proof Hm as (Mh & Mw & Mhw).
  pose proof (tables_inv_build_tables image h w) as [T1 T2].
  pose proof (table_inv_final image h w id _ h w T1 ltac:(lia) ltac:(lia)) as C1.
  pose proof (table_inv_final image h w square _ h w T2 ltac:(lia) ltac:(lia)) as C2.
  rewrite int64_small in C1 by (apply (P_in_int64 image h w Hh Hw Hm); apply id_bounds).
  rewrite int64_small in C2 by (apply (P_in_int64 image h w Hh Hw Hm); apply square_bounds).
  rewrite <- (bruteForce_fullRaster image h w Hh Hw) in C1, C2.
  destruct image as [|row0 rest]; [simpl in Hl; lia|].
  pose proof Hr as Hr'. apply Forall_cons in Hr' as [Hr0 _].
  destruct row0 as [|p row0]; [simpl in Hr0; lia|].
  unfold build. cbv zeta. rewrite Hl, Hr0.
  rewrite (int32_small (Z.of_nat h)) by (unfold in_int32; lia).
  rewrite (int32_small (Z.of_nat w)) by (unfold in_int32; lia).
  rewrite (int32_small (Z.of_nat h + 1)) by (unfold in_int32; lia).
  rewrite (int32_small (Z.of_nat w + 1)) by (unfold in_int32; lia).
  rewrite !Nat2Z.id.
  replace (Z.to_nat (Z.of_nat h + 1)) with (S h) by lia.
  replace (Z.to_nat (Z.of_nat w + 1)) with (S w) by lia.
  cbn [totalPixels totalSum globalMean globalVariance globalStdDev].
  rewrite C1, C2.
  rewrite (int64_small (Z.of_nat h * Z.of_nat w)) by (unfold in_int64; lia).
  repeat split; reflexivity.
Qed.

End GlobalStatistics.

Section Statistics.

Import PrefixSum.

(** [std::max(0.0, v)] is never negative and never a NaN. *)
Lemma fmax_zero_nonneg (v : float) :
  PrimFloat.ltb (fmax PrimFloat.zero v) PrimFloat.zero = false
  /\ PrimFloat.is_nan (fmax PrimFloat.zero v) = false.
Proof.
  unfold fmax. destruct (PrimFloat.ltb PrimFloat.zero v) eqn:E; [|split; reflexivity].
  unfold PrimFloat.is_nan. rewrite FloatAxioms.ltb_spec in E.
  rewrite FloatAxioms.ltb_spec, FloatAxioms.eqb_spec.
  change (Prim2SF PrimFloat.zero) with (S754_zero false) in *.
  destruct (Prim2SF v) as [s|s| |s m e]; cbn in E |- *; try discriminate.
  - destruct s; [discriminate|]. split; reflexivity.
  - destruct s; [discriminate|]. unfold SFeqb, SFcompare.
    rewrite Z.compare_refl, Pos.compare_cont_refl. split; reflexivity.
Qed.

Lemma query_clamped ps image h w r1 c1 r2 c2 :
  indexes ps image h w ->
  querySum ps r1 c1 r2 c2
  = Some (bruteForce id image (clamp (Z.of_nat h) (Z.of_nat w) r1 c1 r2 c2))
  /\ querySumSquares ps r1 c1 r2 c2
     = Some (bruteForce square image (clamp (Z.of_nat h) (Z.of_nat w) r1 c1 r2 c2)).
Proof.
  intros Hidx. pose proof (query_on_index ps image h w r1 c1 r2 c2 Hidx) as [Q1 Q2].
  cbv zeta in Q1, Q2. rewrite Q1, Q2.
  destruct (isValid _) eqn:V; [split; reflexivity|].
  rewrite !(bruteForce_invalid _ image _ V). split; reflexivity.
Qed.

(** The statistics of a region that is not inverted. *)
Lemma queryStats_on_index ps image h w r1 c1 r2 c2 :
  indexes ps image h w ->
  r1 <= r2 -> c1 <= c2 -> r2 - r1 < INT_MAX -> c2 - c1 < INT_MAX ->
  let R := clamp (Z.of_nat h) (Z.of_nat w) r1 c1 r2 c2 in
  let area := (r2 - r1 + 1) * (c2 - c1 + 1) in
  let mean := PrimFloat.div (double_of_int (bruteForce id image R)) (double_of_int area) in
  let variance :=
    fmax PrimFloat.zero
      (PrimFloat.sub
         (PrimFloat.div (double_of_int (bruteForce square image R)) (double_of_int area))
         (PrimFloat.mul mean mean)) in
  queryStats ps r1 c1 r2 c2
  = Some (mkRegionStats mean variance (PrimFloat.sqrt variance)
            (bruteForce id image R) area).
Proof.
  intros Hidx Hr Hc Hrs Hcs R area mean variance. unfold INT_MAX in *.
  pose proof Hidx as (Hb & _). pose proof (query_clamped ps image h w r1 c1 r2 c2 Hidx) as [Q1 Q2].
  unfold queryStats. rewrite Hb, Q1. cbn [negb orb mbind option_bind].
  replace (r1 >? r2) with false by (symmetry; rewrite Z.gtb_ltb; apply Z.ltb_ge; lia).
  replace (c1 >? c2) with false by (symmetry; rewrite Z.gtb_ltb; apply Z.ltb_ge; lia).
  cbn [orb].
  rewrite (int32_small (r2 - r1)), (int32_small (c2 - c1)) by (unfold in_int32; lia).
  rewrite (int32_small (r2 - r1 + 1)), (int32_small (c2 - c1 + 1)) by (unfold in_int32; lia).
  rewrite (int64_small (r2 - r1 + 1)), (int64_small (c2 - c1 + 1)) by (unfold in_int64; lia).
  assert (A : 1 <= (r2 - r1 + 1) * (c2 - c1 + 1) < 2 ^ 62) by nia.
  rewrite (int64_small ((r2 - r1 + 1) * (c2 - c1 + 1))) by (unfold in_int64; lia).
  fold area in A |- *.
  replace (area =? 0) with false by (symmetry; apply Z.eqb_neq; lia).
  rewrite Q2. cbn [mbind option_bind]. reflexivity.
Qed.

(** Whatever the bounds, [queryStats] returns, with a variance that is
    neither negative nor a NaN. *)
Lemma queryStats_variance ps image h w r1 c1 r2 c2 :
  indexes ps image h w ->
  exists st,
    queryStats ps r1 c1 r2 c2 = Some st
    /\ PrimFloat.ltb (variance st) PrimFloat.zero = false
    /\ PrimFloat.is_nan (variance st) = false.
Proof.
  intros Hidx. pose proof (query_clamped ps image h w r1 c1 r2 c2 Hidx) as [Q1 Q2].
  unfold queryStats. rewrite Q1, Q2.
  destruct (negb (built ps) || (r1 >? r2) || (c1 >? c2));
    [eexists; split; [reflexivity|split; reflexivity]|].
  cbn [mbind option_bind].
  destruct (_ =? 0); eexists; (split; [reflexivity|]); cbn [variance];
    [split; reflexivity | apply fmax_zero_nonneg].
Qed.

End Statistics.

(** X6.  The self-check accepts the index: for the index built from a
    raster, [verify(image, region)] returns [true] for every region, inside
    the raster, across its border or outside it.  (The raster is
    rectangular and non-empty and its sums fit; the region's upper bounds
    are below [INT_MAX], so that the two loops of [verify] end.) *)
Theorem verify_accepts_the_built_index
    (ps0 : PrefixSum.t) (image : Matrix) (h w : nat) (region : Region) :
  rectangular image h w -> (0 < h)%nat -> (0 < w)%nat -> machine_sized h w ->
  row2 region < INT_MAX -> col2 region < INT_MAX ->
  PrefixSum.verify (PrefixSum.build ps0 image) image region = Some true.
Proof.
  intros Hrect Hh Hw Hm Hr Hc. apply (verify_on_index image h w); assumption.
Qed.

Lemma verify_accepts_the_built_index_witness :
  PrefixSum.verify (PrefixSum.build PrefixSum.init sample3x3) sample3x3
    (mkRegion (-1) 1 5 2) = Some true.
Proof.
  apply (verify_accepts_the_built_index PrefixSum.init sample3x3 3 3 (mkRegion (-1) 1 5 2)).
  - exact sample3x3_rectangular.
  - lia.
  - lia.
  - exact machine_sized_3_3.
  - unfold INT_MAX; cbn; lia.
  - unfold INT_MAX; cbn; lia.
Defined.

(** X7.  What [build] records about the whole raster: the index is built,
    [height] and [width] are the raster's, [totalPixels] is their product,
    [totalSum] is the sum of all pixels, and the global mean, variance and
    standard deviation are computed from the two totals as
    [sum / pixels], [squares / pixels - mean * mean] and
    [sqrt(max(0, variance))]. *)
Theorem build_global_statistics
    (ps0 : PrefixSum.t) (image : Matrix) (h w : nat) :
  rectangular image h w -> (0 < h)%nat -> (0 < w)%nat -> machine_sized h w ->
  let ps := PrefixSum.build ps0 image in
  PrefixSum.built ps = true
  /\ PrefixSum.height ps = Z.of_nat h /\ PrefixSum.width ps = Z.of_nat w
  /\ PrefixSum.totalPixels ps = Z.of_nat h * Z.of_nat w
  /\ PrefixSum.totalSum ps = bruteForce id image (fullRaster h w)
  /\ PrefixSum.globalMean ps
     = PrimFloat.div (double_of_int (PrefixSum.totalSum ps))
                     (double_of_int (PrefixSum.totalPixels ps))
  /\ PrefixSum.globalVariance ps
     = PrimFloat.sub
         (PrimFloat.div (double_of_int (bruteForce square image (fullRaster h w)))
                        (double_of_int (PrefixSum.totalPixels ps)))
         (PrimFloat.mul (PrefixSum.globalMean ps) (PrefixSum.globalMean ps))
  /\ PrefixSum.globalStdDev ps
     = PrimFloat.sqrt (fmax PrimFloat.zero (PrefixSum.globalVariance ps)).
Proof.
  intros Hrect Hh Hw Hm ps.
  pose proof (build_indexes ps0 image h w Hrect Hh Hw Hm) as (Hb & Hhe & Hwi & _).
  pose proof (build_totals ps0 image h w Hrect Hh Hw Hm) as T. cbv zeta in T.
  fold ps in Hb, Hhe, Hwi, T. tauto.
Qed.

Lemma build_global_statistics_witness :
  PrefixSum.totalPixels (PrefixSum.build PrefixSum.init sample3x3) = 9
  /\ PrefixSum.totalSum (PrefixSum.build PrefixSum.init sample3x3) = 236.
Proof.
  pose proof (build_global_statistics PrefixSum.init sample3x3 3 3 sample3x3_rectangular
                ltac:(lia) ltac:(lia) machine_sized_3_3) as (_ & _ & _ & P & S & _).
  split; [exact P|]. rewrite S. reflexivity.
Defined.

(** X8.  [queryStats] on a built index, for bounds with [r1 <= r2] and
    [c1 <= c2]: it returns without reading outside its tables; [sum] is the
    sum of the pixels of the region clamped to the raster, while [area] is
    the area of the region as requested, not clamped; the mean is
    [sum / area], the variance [max(0, squares / area - mean * mean)] and
    the standard deviation its square root. *)
Theorem queryStats_sum_over_clamped_region
    (ps0 : PrefixSum.t) (image : Matrix) (h w : nat) (r1 c1 r2 c2 : Z) :
  rectangular image h w -> (0 < h)%nat -> (0 < w)%nat -> machine_sized h w ->
  r1 <= r2 -> c1 <= c2 -> r2 - r1 < INT_MAX -> c2 - c1 < INT_MAX ->
  let R := clamp (Z.of_nat h) (Z.of_nat w) r1 c1 r2 c2 in
  let area := (r2 - r1 + 1) * (c2 - c1 + 1) in
  let mean := PrimFloat.div (double_of_int (bruteForce id image R)) (double_of_int area) in
  let variance :=
    fmax PrimFloat.zero
      (PrimFloat.sub
         (PrimFloat.div (double_of_int (bruteForce square image R)) (double_of_int area))
         (PrimFloat.mul mean mean)) in
  PrefixSum.queryStats (PrefixSum.build ps0 image) r1 c1 r2 c2
  = Some (mkRegionStats mean variance (PrimFloat.sqrt variance)
            (bruteForce id image R) area).
Proof.
  intros Hrect Hh Hw Hm. apply queryStats_on_index. apply build_indexes; assumption.
Qed.

Lemma queryStats_sum_over_clamped_region_witness :
  sum <$> PrefixSum.queryStats (PrefixSum.build PrefixSum.init sample3x3) (-1) 1 5 2
  = Some 224
  /\ stats_area <$> PrefixSum.queryStats (PrefixSum.build PrefixSum.init sample3x3) (-1) 1 5 2
     = Some 14.
Proof.
  pose proof (queryStats_sum_over_clamped_region PrefixSum.init sample3x3 3 3 (-1) 1 5 2
                sample3x3_rectangular ltac:(lia) ltac:(lia) machine_sized_3_3
                ltac:(lia) ltac:(lia) ltac:(unfold INT_MAX; lia) ltac:(unfold INT_MAX; lia))
    as Q.
  cbv zeta in Q. rewrite Q. split; reflexivity.
Defined.

(** X9.  On a built index [queryVariance] returns for every region, and the
    variance it reports is never negative and never a NaN: the clamp
    [std::max(0.0, variance)] of [queryStats] absorbs both the rounding
    below zero and the NaN of a degenerate division. *)
Theorem queryVariance_never_negative
    (ps0 : PrefixSum.t) (image : Matrix) (h w : nat) (region : Region) :
  rectangular image h w -> (0 < h)%nat -> (0 < w)%nat -> machine_sized h w ->
  exists v,
    PrefixSum.queryVariance (PrefixSum.build ps0 image) region = Some v
    /\ PrimFloat.ltb v PrimFloat.zero = false
    /\ PrimFloat.is_nan v = false.
Proof.
  intros Hrect Hh Hw Hm.
  destruct (queryStats_variance _ image h w (row1 region) (col1 region) (row2 region)
              (col2 region) (build_indexes ps0 image h w Hrect Hh Hw Hm))
    as (st & E & N & A).
  exists (variance st). unfold PrefixSum.queryVariance, PrefixSum.queryStatsR.
  rewrite E. auto.
Qed.

Lemma queryVariance_never_negative_witness :
  exists v,
    PrefixSum.queryVariance (PrefixSum.build PrefixSum.init sample3x3) (mkRegion 0 0 2 2)
    = Some v
    /\ PrimFloat.ltb v PrimFloat.zero = false
    /\ PrimFloat.is_nan v = false.
Proof.
  apply (queryVariance_never_negative PrefixSum.init sample3x3 3 3 (mkRegion 0 0 2 2)
           sample3x3_rectangular ltac:(lia) ltac:(lia) machine_sized_3_3).
Defined.

(** ** Union-find: what its callers observe *)

Section UnionFindObserved.

Local Open Scope nat_scope.

Variable n : nat.

Lemma find_numComponents fuel : forall uf x r uf',
  UnionFind.find fuel uf x = Some (r, uf') ->
  UnionFind.numComponents uf' = UnionFind.numComponents uf.
Proof.
  induction fuel as [|fuel IH]; intros uf x r uf' H; [discriminate|].
  cbn [UnionFind.find] in H.
  destruct (UnionFind.parent uf !! x) as [p|]; [|discriminate]. cbn [mbind option_bind] in H.
  destruct (p =? x).
  - injection H as _ <-. reflexivity.
  - destruct (UnionFind.find fuel uf p) as [[r1 uf1]|] eqn:E; [|discriminate].
    cbn [mbind option_bind fst snd] in H. injection H as _ <-.
    cbn [UnionFind.numComponents]. eapply IH. exact E.
Qed.

Lemma same_refl B uf x : uf_inv n B uf -> x < n -> same uf x x.
Proof.
  intros Inv Hx. destruct (reaches_total n B uf x Inv Hx) as [r Hr]. exists r. auto.
Qed.

(** [connected(x, y)] tells whether [x] and [y] are in the same set, and
    changes no set. *)
Lemma connected_spec B fuel uf x y :
  uf_inv n B uf -> x < n -> y < n -> B < fuel ->
  exists b uf',
    UnionFind.connected fuel uf x y = Some (b, uf')
    /\ (b = true <-> same uf x y)
    /\ uf_inv n B uf' /\ sameRoots uf uf'
    /\ UnionFind.size uf' = UnionFind.size uf
    /\ UnionFind.numComponents uf' = UnionFind.numComponents uf.
Proof.
  intros Inv Hx Hy Hfuel. unfold UnionFind.connected.
  destruct (find_spec n B fuel uf x Inv Hx Hfuel) as (rx & uf1 & F1 & R1 & Inv1 & _ & Z1 & S1).
  destruct (find_spec n B fuel uf1 y Inv1 Hy Hfuel) as (ry & uf2 & F2 & R2 & Inv2 & _ & Z2 & S2).
  rewrite F1. cbn [mbind option_bind fst snd]. rewrite F2. cbn [mbind option_bind fst snd].
  eexists _, _. split; [reflexivity|].
  apply S1 in R2. split; [|split; [exact Inv2|split; [eapply sameRoots_trans; eauto|split]]].
  - rewrite Nat.eqb_eq. split.
    + intros ->. exists ry. split; assumption.
    + intros (r & Rx & Ry). rewrite (reaches_det _ _ _ _ R1 Rx), (reaches_det _ _ _ _ R2 Ry).
      reflexivity.
  - congruence.
  - rewrite (find_numComponents _ _ _ _ _ F2). apply (find_numComponents _ _ _ _ _ F1).
Qed.

(** What [unite] returns and what it does to the count of sets. *)
Lemma unite_returns B fuel uf x y b uf' :
  uf_inv n B uf -> x < n -> y < n -> B < fuel ->
  UnionFind.unite fuel uf x y = Some (b, uf') ->
  (b = false <-> same uf x y)
  /\ UnionFind.numComponents uf'
     = if b then int32 (UnionFind.numComponents uf - 1) else UnionFind.numComponents uf.
Proof.
  intros Inv Hx Hy Hfuel. unfold UnionFind.unite.
  destruct (find_spec n B fuel uf x Inv Hx Hfuel) as (rx & uf1 & F1 & R1 & Inv1 & _ & _ & S1).
  destruct (find_spec n B fuel uf1 y Inv1 Hy Hfuel) as (ry & uf2 & F2 & R2 & Inv2 & _ & _ & S2).
  rewrite F1. cbn [mbind option_bind fst snd]. rewrite F2. cbn [mbind option_bind fst snd].
  pose proof (find_numComponents _ _ _ _ _ F1) as N1.
  pose proof (find_numComponents _ _ _ _ _ F2) as N2.
  apply S1 in R2.
  assert (Q : rx = ry <-> same uf x y).
  { split.
    - intros ->. exists ry. split; assumption.
    - intros (r & Rx & Ry). rewrite (reaches_det _ _ _ _ R1 Rx), (reaches_det _ _ _ _ R2 Ry).
      reflexivity. }
  destruct (Nat.eqb_spec rx ry) as [E|E].
  - intros H. injection H as <- <-. split; [tauto | congruence].
  - intros H.
    destruct (UnionFind.rank uf2 !! rx) as [rankX|]; [|discriminate].
    destruct (UnionFind.rank uf2 !! ry) as [rankY|]; [|discriminate].
    destruct (UnionFind.size uf2 !! rx) as [sizeX|]; [|discriminate].
    destruct (UnionFind.size uf2 !! ry) as [sizeY|]; [|discriminate].
    cbn [mbind option_bind] in H.
    assert (Nb : b = true /\ UnionFind.numComponents uf'
                            = int32 (UnionFind.numComponents uf2 - 1)).
    { destruct (rankX <? rankY); [|destruct (rankY <? rankX)];
        injection H as <- <-; split; reflexivity. }
    destruct Nb as [-> Nb]. split; [split; [discriminate | tauto]|].
    rewrite Nb. congruence.
Qed.

(** The weight recorded for the set of [x]: [size[root of x]]. *)
Definition sizeOfSet (uf : UnionFind.t) (x : nat) (v : Z) : Prop :=
  exists r, reaches (UnionFind.parent uf) x r /\ UnionFind.size uf !! r = Some v.

Lemma sizeOfSet_det uf x v v' : sizeOfSet uf x v -> sizeOfSet uf x v' -> v = v'.
Proof.
  intros (r & R & E) (r' & R' & E'). rewrite (reaches_det _ _ _ _ R R') in E. congruence.
Qed.

Lemma sizeOfSet_total B uf x : uf_inv n B uf -> x < n -> exists v, sizeOfSet uf x v.
Proof.
  intros Inv Hx. destruct (reaches_total n B uf x Inv Hx) as [r Hr].
  destruct (reaches_bound n B uf x r Inv Hr) as [_ Lr].
  destruct Inv as (_ & _ & Ls & _).
  destruct (UnionFind.size uf !! r) as [v|] eqn:E; [|apply lookup_ge_None in E; lia].
  exists v, r. auto.
Qed.

Lemma getSize_spec B fuel uf x :
  uf_inv n B uf -> x < n -> B < fuel ->
  exists v uf',
    UnionFind.getSize fuel uf x = Some (v, uf')
    /\ sizeOfSet uf x v
    /\ uf_inv n B uf' /\ sameRoots uf uf' /\ UnionFind.size uf' = UnionFind.size uf.
Proof.
  intros Inv Hx Hfuel. unfold UnionFind.getSize.
  destruct (find_spec n B fuel uf x Inv Hx Hfuel) as (r & uf1 & F & R & Inv1 & _ & Z1 & S1).
  rewrite F. cbn [mbind option_bind fst snd].
  destruct (reaches_bound n B uf x r Inv R) as [_ Lr].
  pose proof Inv1 as (_ & _ & Ls & _).
  destruct (UnionFind.size uf1 !! r) as [v|] eqn:E; [|apply lookup_ge_None in E; lia].
  cbn [mbind option_bind]. exists v, uf1. split; [reflexivity|].
  split; [exists r; split; [exact R | congruence]|]. auto.
Qed.

(** [setSize(x, s)] records [s] for the set of [x] and for no other set. *)
Lemma setSize_sets B fuel uf x s :
  uf_inv n B uf -> x < n -> B < fuel ->
  exists uf1,
    UnionFind.setSize fuel uf x s = Some uf1
    /\ uf_inv n B uf1 /\ sameRoots uf uf1
    /\ (forall y, same uf x y -> sizeOfSet uf1 y s)
    /\ (forall y v, ~ same uf x y -> sizeOfSet uf y v -> sizeOfSet uf1 y v).
Proof.
  intros Inv Hx Hfuel. unfold UnionFind.setSize.
  destruct (find_spec n B fuel uf x Inv Hx Hfuel) as (r & uf1 & F & R & Inv1 & _ & Z1 & S1).
  rewrite F. cbn [mbind option_bind fst snd]. eexists. split; [reflexivity|].
  destruct (reaches_bound n B uf x r Inv R) as [_ Lr].
  pose proof Inv1 as (H1 & H2 & H3 & H4 & H5 & H6).
  split; [|split; [exact S1|split]].
  - unfold uf_inv. cbn [UnionFind.parent UnionFind.rank UnionFind.size].
    rewrite length_insert. auto 10.
  - intros y (r' & Rx & Ry). rewrite <- (reaches_det _ _ _ _ R Rx) in Ry.
    exists r. cbn [UnionFind.parent UnionFind.size]. split; [apply S1; exact Ry|].
    apply list_lookup_insert_eq. lia.
  - intros y v Hn (r' & Ry & E). exists r'. cbn [UnionFind.parent UnionFind.size].
    split; [apply S1; exact Ry|].
    rewrite list_lookup_insert_ne; [congruence|].
    intros ->. apply Hn. exists r'. split; assumption.
Qed.

(** What a link does to the recorded weights. *)
Lemma link_sizes B uf uf' r1 r2 sz :
  uf_inv n B uf ->
  UnionFind.parent uf' = <[r1 := r2]> (UnionFind.parent uf) ->
  UnionFind.size uf' = <[r2 := sz]> (UnionFind.size uf) ->
  UnionFind.parent uf !! r1 = Some r1 -> UnionFind.parent uf !! r2 = Some r2 -> r1 <> r2 ->
  forall a ra, reaches (UnionFind.parent uf) a ra ->
    (ra = r1 \/ ra = r2 -> sizeOfSet uf' a sz)
    /\ (ra <> r1 -> ra <> r2 -> forall v, sizeOfSet uf a v -> sizeOfSet uf' a v).
Proof.
  intros Inv Ep Es H1 H2 Hne a ra Ra.
  pose proof (reaches_link _ a ra r1 r2 Ra H1 H2 Hne) as L.
  pose proof Inv as (_ & _ & Ls & _).
  pose proof (lookup_lt_Some _ _ _ H2) as L2. destruct Inv as (Lp & _).
  unfold sizeOfSet. rewrite Ep, Es. split.
  - intros D. exists r2. split.
    + destruct (decide (ra = r1)); [exact L|]. destruct D; [contradiction|subst; exact L].
    + apply list_lookup_insert_eq. lia.
  - intros N1 N2 v (r & R & E). rewrite (reaches_det _ _ _ _ R Ra) in E.
    exists ra. split.
    + destruct (decide (ra = r1)); [contradiction|exact L].
    + rewrite list_lookup_insert_ne by congruence. exact E.
Qed.

(** After a merging [unite(x, y)] the merged set weighs the sum of the two
    sets; the other sets keep their weight. *)
Lemma unite_sizes B fuel uf x y uf' vx vy :
  uf_inv n B uf -> x < n -> y < n -> B < fuel ->
  UnionFind.unite fuel uf x y = Some (true, uf') ->
  sizeOfSet uf x vx -> sizeOfSet uf y vy ->
  (forall a, same uf a x \/ same uf a y -> sizeOfSet uf' a (int64 (vx + vy)))
  /\ (forall a v, ~ same uf a x -> ~ same uf a y -> sizeOfSet uf a v -> sizeOfSet uf' a v).
Proof.
  intros Inv Hx Hy Hfuel. unfold UnionFind.unite.
  destruct (find_spec n B fuel uf x Inv Hx Hfuel) as (rx & uf1 & F1 & R1 & Inv1 & _ & Z1 & S1).
  destruct (find_spec n B fuel uf1 y Inv1 Hy Hfuel) as (ry & uf2 & F2 & R2 & Inv2 & _ & Z2 & S2).
  rewrite F1. cbn [mbind option_bind fst snd]. rewrite F2. cbn [mbind option_bind fst snd].
  pose proof (sameRoots_trans _ _ _ S1 S2) as S12.
  assert (Rx : reaches (UnionFind.parent uf2) x rx) by (apply S12; exact R1).
  assert (Ry : reaches (UnionFind.parent uf2) y ry) by (apply S2; exact R2).
  pose proof (reaches_is_root _ _ _ Rx) as Hrx.
  pose proof (reaches_is_root _ _ _ Ry) as Hry.
  assert (Zs : UnionFind.size uf2 = UnionFind.size uf) by congruence.
  destruct (Nat.eqb_spec rx ry) as [E|Hne]; [discriminate|].
  intros H Vx Vy.
  assert (Ex : UnionFind.size uf2 !! rx = Some vx).
  { destruct Vx as (r & R & E). rewrite Zs. rewrite (reaches_det _ _ _ _ R1 R). exact E. }
  assert (Ey : UnionFind.size uf2 !! ry = Some vy).
  { destruct Vy as (r & R & E). rewrite Zs.
    apply S1 in R2. rewrite (reaches_det _ _ _ _ R2 R). exact E. }
  rewrite Ex, Ey in H.
  destruct (UnionFind.rank uf2 !! rx) as [rankX|]; [|discriminate].
  destruct (UnionFind.rank uf2 !! ry) as [rankY|]; [|discriminate].
  cbn [mbind option_bind] in H.
  assert (T : forall a v, sizeOfSet uf a v <-> sizeOfSet uf2 a v).
  { intros a v. unfold sizeOfSet. rewrite Zs. split; intros (r & R & E); exists r;
      (split; [apply S12; exact R | exact E]). }
  assert (Q : forall a r, reaches (UnionFind.parent uf2) a r ->
                (same uf a x <-> r = rx) /\ (same uf a y <-> r = ry)).
  { intros a r Ra. apply S12 in Ra. apply S1 in R2. split; split.
    - intros (r' & A & X). rewrite (reaches_det _ _ _ _ Ra A), (reaches_det _ _ _ _ R1 X).
      reflexivity.
    - intros ->. exists rx. split; assumption.
    - intros (r' & A & Y). rewrite (reaches_det _ _ _ _ Ra A), (reaches_det _ _ _ _ R2 Y).
      reflexivity.
    - intros ->. exists ry. split; assumption. }
  assert (G : forall r1 r2 sz,
             UnionFind.parent uf' = <[r1 := r2]> (UnionFind.parent uf2) ->
             UnionFind.size uf' = <[r2 := sz]> (UnionFind.size uf2) ->
             (r1 = rx /\ r2 = ry) \/ (r1 = ry /\ r2 = rx) -> sz = int64 (vx + vy) ->
             (forall a, same uf a x \/ same uf a y -> sizeOfSet uf' a (int64 (vx + vy)))
             /\ (forall a v, ~ same uf a x -> ~ same uf a y ->
                             sizeOfSet uf a v -> sizeOfSet uf' a v)).
  { intros r1 r2 sz Ep Es D ->.
    assert (K1 : UnionFind.parent uf2 !! r1 = Some r1) by (destruct D as [[-> ->]|[-> ->]]; assumption).
    assert (K2 : UnionFind.parent uf2 !! r2 = Some r2) by (destruct D as [[-> ->]|[-> ->]]; assumption).
    assert (K3 : r1 <> r2) by (destruct D as [[-> ->]|[-> ->]]; congruence).
    split.
    - intros a Ha.
      assert (La : a < n).
      { destruct Ha as [(r & A & _)|(r & A & _)];
          apply (reaches_bound n B uf a r Inv A). }
      destruct (reaches_total n B uf2 a Inv2 La) as [ra Ra].
      destruct (Q a ra Ra) as [Qx Qy].
      apply (proj1 (link_sizes B uf2 uf' r1 r2 _ Inv2 Ep Es K1 K2 K3 a ra Ra)).
      destruct D as [[-> ->]|[-> ->]]; tauto.
    - intros a v Nx Ny V. apply T in V. pose proof V as (ra & Ra & _).
      destruct (Q a ra Ra) as [Qx Qy].
      apply (proj2 (link_sizes B uf2 uf' r1 r2 _ Inv2 Ep Es K1 K2 K3 a ra Ra)); [| |exact V];
        destruct D as [[-> ->]|[-> ->]]; tauto. }
  destruct (rankX <? rankY); [|destruct (rankY <? rankX)]; injection H as <-.
  - apply (G rx ry (int64 (vy + vx))); auto. f_equal. apply Z.add_comm.
  - apply (G ry rx (int64 (vx + vy))); auto.
  - apply (G ry rx (int64 (vx + vy))); auto.
Qed.

End UnionFindObserved.

(** X10.  [UnionFind::unite] and [UnionFind::connected].  In a well-formed
    state ([uf_inv]: the vectors have [n] entries and every parent link
    leads to an element of strictly higher rank, as after the constructor
    and after every operation), [unite(x, y)] returns; it returns [false]
    exactly when [x] and [y] were already in one set, and then the count of
    sets stays, otherwise it drops by one; afterwards [connected(x, y)]
    answers [true]; and two elements are in one set afterwards exactly when
    they were before or one was with [x] and the other with [y]. *)
Theorem unite_then_connected (n B fuel : nat) (uf : UnionFind.t) (x y : nat) :
  uf_inv n B uf -> (x < n)%nat -> (y < n)%nat -> (S B < fuel)%nat ->
  exists b uf',
    UnionFind.unite fuel uf x y = Some (b, uf')
    /\ uf_inv n (S B) uf'
    /\ (b = false <-> same uf x y)
    /\ UnionFind.getNumComponents uf'
       = (if b then int32 (UnionFind.getNumComponents uf - 1)
          else UnionFind.getNumComponents uf)
    /\ (exists uf'', UnionFind.connected fuel uf' x y = Some (true, uf''))
    /\ (forall a c,
          same uf' a c <->
          same uf a c \/ (same uf a x /\ same uf y c) \/ (same uf a y /\ same uf x c)).
Proof.
  intros Inv Hx Hy Hfuel.
  destruct (unite_spec n B fuel uf x y Inv Hx Hy ltac:(lia)) as (b & uf' & E & Inv' & U).
  destruct (unite_returns n B fuel uf x y b uf' Inv Hx Hy ltac:(lia) E) as [Rb Rn].
  exists b, uf'. do 4 (split; [assumption|]). split; [|exact U].
  destruct (connected_spec n (S B) fuel uf' x y Inv' Hx Hy Hfuel) as (c & uf'' & Ec & Hc & _).
  exists uf''. rewrite Ec. do 2 f_equal. apply Hc. apply U.
  right. left. split; eapply same_refl; eauto.
Qed.

Lemma unite_then_connected_witness :
  exists uf' uf'',
    UnionFind.unite 10 (UnionFind.new 4) 0 1 = Some (true, uf')
    /\ UnionFind.getNumComponents uf' = 3
    /\ UnionFind.connected 10 uf' 0 1 = Some (true, uf'').
Proof.
  destruct (unite_then_connected 4 0 10 (UnionFind.new 4) 0 1
              (new_inv (replicate 4 RegionTree.defaultNode))
              ltac:(lia) ltac:(lia) ltac:(lia))
    as (b & uf' & E & _ & _ & N & (uf'' & C) & _).
  assert (Hb : b = true).
  { revert E. vm_compute. intros E. injection E as <- _. reflexivity. }
  subst b. exists uf', uf''. split; [exact E|]. split; [rewrite N; reflexivity | exact C].
Defined.

(** X11.  [UnionFind::setSize] and [UnionFind::getSize].  In a well-formed
    state, after [setSize(x, s)] a [getSize(y)] returns [s] for every [y]
    in the set of [x] and the weight recorded before for every other [y];
    [setSize] changes no set. *)
Theorem setSize_then_getSize (n B fuel : nat) (uf : UnionFind.t) (x : nat) (s : Z) :
  uf_inv n B uf -> (x < n)%nat -> (B < fuel)%nat ->
  exists uf1,
    UnionFind.setSize fuel uf x s = Some uf1
    /\ uf_inv n B uf1
    /\ (forall a c, same uf1 a c <-> same uf a c)
    /\ forall y, (y < n)%nat ->
         exists v uf2,
           UnionFind.getSize fuel uf1 y = Some (v, uf2)
           /\ (same uf x y -> v = s)
           /\ (~ same uf x y -> sizeOfSet uf y v).
Proof.
  intros Inv Hx Hfuel.
  destruct (setSize_sets n B fuel uf x s Inv Hx Hfuel) as (uf1 & E & Inv1 & S1 & In & Out).
  exists uf1. split; [exact E|]. split; [exact Inv1|]. split.
  - intros a c. symmetry. apply sameRoots_same. exact S1.
  - intros y Hy.
    destruct (getSize_spec n B fuel uf1 y Inv1 Hy Hfuel) as (v & uf2 & G & V & _).
    exists v, uf2. split; [exact G|]. split.
    + intros Sxy. eapply sizeOfSet_det; [exact V | apply In; exact Sxy].
    + intros Nxy. destruct (sizeOfSet_total n B uf y Inv Hy) as [v0 V0].
      rewrite (sizeOfSet_det _ _ _ _ V (Out y v0 Nxy V0)). exact V0.
Qed.

Lemma setSize_then_getSize_witness :
  exists uf1 uf2 uf3,
    UnionFind.setSize 10 (UnionFind.new 4) 2 256 = Some uf1
    /\ UnionFind.getSize 10 uf1 2 = Some (256, uf2)
    /\ UnionFind.getSize 10 uf1 3 = Some (1, uf3).
Proof.
  destruct (setSize_then_getSize 4 0 10 (UnionFind.new 4) 2 256
              (new_inv (replicate 4 RegionTree.defaultNode)) ltac:(lia) ltac:(lia))
    as (uf1 & E & _ & _ & G).
  destruct (G 2%nat ltac:(lia)) as (v2 & uf2 & G2 & _).
  destruct (G 3%nat ltac:(lia)) as (v3 & uf3 & G3 & _).
  exists uf1, uf2, uf3. split; [exact E|].
  assert (E1 : uf1 = UnionFind.mk [0; 1; 2; 3]%nat [0; 0; 0; 0]%nat [1; 1; 256; 1] 4).
  { revert E. vm_compute. intros E. injection E as <-. reflexivity. }
  subst uf1. split.
  - rewrite G2. revert G2. vm_compute. intros G2. injection G2 as <- _. reflexivity.
  - rewrite G3. revert G3. vm_compute. intros G3. injection G3 as <- _. reflexivity.
Defined.

(** X12.  Weights add up: when [unite(x, y)] merges two sets, every element
    of the merged set then reports the sum (as an [int64_t]) of the two
    weights that [getSize(x)] and [getSize(y)] reported before, and every
    element of another set reports the weight it had. *)
Theorem unite_adds_sizes (n B fuel : nat) (uf uf' ux uy : UnionFind.t)
    (x y : nat) (vx vy : Z) :
  uf_inv n B uf -> (x < n)%nat -> (y < n)%nat -> (S B < fuel)%nat ->
  UnionFind.getSize fuel uf x = Some (vx, ux) ->
  UnionFind.getSize fuel uf y = Some (vy, uy) ->
  UnionFind.unite fuel uf x y = Some (true, uf') ->
  forall a, (a < n)%nat ->
    exists v u,
      UnionFind.getSize fuel uf' a = Some (v, u)
      /\ (same uf a x \/ same uf a y -> v = int64 (vx + vy))
      /\ (~ same uf a x -> ~ same uf a y -> sizeOfSet uf a v).
Proof.
  intros Inv Hx Hy Hfuel Gx Gy E a Ha.
  destruct (getSize_spec n B fuel uf x Inv Hx ltac:(lia)) as (vx' & ux' & Gx' & Vx & _).
  destruct (getSize_spec n B fuel uf y Inv Hy ltac:(lia)) as (vy' & uy' & Gy' & Vy & _).
  assert (vx' = vx) by congruence. assert (vy' = vy) by congruence. subst vx' vy'.
  destruct (unite_spec n B fuel uf x y Inv Hx Hy ltac:(lia)) as (b & uf1 & E1 & Inv' & _).
  assert (uf1 = uf') by congruence. subst uf1.
  destruct (unite_sizes n B fuel uf x y uf' vx vy Inv Hx Hy ltac:(lia) E Vx Vy) as [In Out].
  destruct (getSize_spec n (S B) fuel uf' a Inv' Ha Hfuel) as (v & u & G & V & _).
  exists v, u. split; [exact G|]. split.
  - intros D. eapply sizeOfSet_det; [exact V | apply In; exact D].
  - intros Nx Ny. destruct (sizeOfSet_total n B uf a Inv Ha) as [v0 V0].
    rewrite (sizeOfSet_det _ _ _ _ V (Out a v0 Nx Ny V0)). exact V0.
Qed.

Lemma unite_adds_sizes_witness :
  exists v u,
    UnionFind.getSize 10 (UnionFind.mk [0; 0; 2]%nat [1; 0; 0]%nat [2; 1; 1] 2) 1
    = Some (v, u)
    /\ v = 2.
Proof.
  destruct (unite_adds_sizes 3 0 10 (UnionFind.new 3)
              (UnionFind.mk [0; 0; 2]%nat [1; 0; 0]%nat [2; 1; 1] 2)
              (UnionFind.new 3) (UnionFind.new 3) 0 1 1 1
              (new_inv (replicate 3 RegionTree.defaultNode))
              ltac:(lia) ltac:(lia) ltac:(lia) eq_refl eq_refl eq_refl 1%nat ltac:(lia))
    as (v & u & G & In & _).
  exists v, u. split; [exact G|]. rewrite In; [reflexivity|].
  right. exists 1%nat. split; apply reaches_root; reflexivity.
Defined.

Section CountOfSets.

Local Open Scope nat_scope.

Variable n : nat.

(** The representatives: the elements that are their own parent. *)
Definition roots (uf : UnionFind.t) : list nat :=
  filter (fun i => UnionFind.parent uf !! i = Some i) (seq 0 n).

Lemma elem_of_roots uf i : i ∈ roots uf <-> UnionFind.parent uf !! i = Some i /\ i < n.
Proof. unfold roots. rewrite list_elem_of_filter, elem_of_seq. intuition lia. Qed.

Lemma NoDup_roots uf : NoDup (roots uf).
Proof. apply NoDup_filter, NoDup_seq. Qed.

Lemma roots_sameRoots uf uf' : sameRoots uf uf' -> roots uf' = roots uf.
Proof.
  intros S. unfold roots. apply list_filter_iff. intros i. split; intros H.
  - apply (reaches_is_root _ i i). apply S. apply reaches_root. exact H.
  - apply (reaches_is_root _ i i). apply S. apply reaches_root. exact H.
Qed.

Lemma roots_new : length (roots (UnionFind.new n)) = n.
Proof.
  transitivity (length (seq 0 n)); [|apply length_seq]. apply Permutation_length.
  apply NoDup_Permutation; [apply NoDup_roots | apply NoDup_seq|].
  intros i. rewrite elem_of_roots, elem_of_seq. unfold UnionFind.new.
  cbn [UnionFind.parent]. rewrite lookup_seq. lia.
Qed.

(** A link removes one representative. *)
Lemma roots_link B uf uf' r1 r2 :
  uf_inv n B uf ->
  UnionFind.parent uf' = <[r1 := r2]> (UnionFind.parent uf) ->
  UnionFind.parent uf !! r1 = Some r1 -> r1 <> r2 ->
  length (roots uf) = S (length (roots uf')).
Proof.
  intros (Lp & _) Ep H1 Hne.
  pose proof (lookup_lt_Some _ _ _ H1) as L1.
  change (S (length (roots uf'))) with (length (r1 :: roots uf')).
  apply Permutation_length. apply NoDup_Permutation.
  - apply NoDup_roots.
  - apply NoDup_cons. split; [|apply NoDup_roots].
    rewrite elem_of_roots, Ep, list_lookup_insert_eq by lia. intros [E _]. congruence.
  - intros i. rewrite elem_of_cons, !elem_of_roots, Ep.
    destruct (Nat.eq_dec i r1) as [->|Hi].
    + split; [auto|]. intros _. split; [exact H1 | lia].
    + rewrite list_lookup_insert_ne by congruence. split; [auto|].
      intros [E|E]; [congruence | exact E].
Qed.

(** The counter [numComponents] is the number of representatives. *)
Definition counts (uf : UnionFind.t) : Prop :=
  UnionFind.numComponents uf = Z.of_nat (length (roots uf)).

Lemma unite_counts B fuel uf x y b uf' :
  (Z.of_nat n < 2 ^ 31)%Z ->
  uf_inv n B uf -> x < n -> y < n -> B < fuel -> counts uf ->
  UnionFind.unite fuel uf x y = Some (b, uf') -> counts uf'.
Proof.
  intros Hn Inv Hx Hy Hfuel C. unfold UnionFind.unite.
  destruct (find_spec n B fuel uf x Inv Hx Hfuel) as (rx & uf1 & F1 & R1 & Inv1 & _ & _ & S1).
  destruct (find_spec n B fuel uf1 y Inv1 Hy Hfuel) as (ry & uf2 & F2 & R2 & Inv2 & _ & _ & S2).
  rewrite F1. cbn [mbind option_bind fst snd]. rewrite F2. cbn [mbind option_bind fst snd].
  pose proof (sameRoots_trans _ _ _ S1 S2) as S12.
  assert (C2 : counts uf2).
  { unfold counts. rewrite (roots_sameRoots uf uf2 S12).
    rewrite (find_numComponents _ _ _ _ _ F2), (find_numComponents _ _ _ _ _ F1). exact C. }
  assert (Rx : reaches (UnionFind.parent uf2) x rx) by (apply S12; exact R1).
  assert (Ry : reaches (UnionFind.parent uf2) y ry) by (apply S2; exact R2).
  pose proof (reaches_is_root _ _ _ Rx) as Hrx.
  pose proof (reaches_is_root _ _ _ Ry) as Hry.
  destruct (Nat.eqb_spec rx ry) as [E|Hne].
  { intros H. injection H as _ <-. exact C2. }
  intros H.
  destruct (UnionFind.rank uf2 !! rx) as [rankX|]; [|discriminate].
  destruct (UnionFind.rank uf2 !! ry) as [rankY|]; [|discriminate].
  destruct (UnionFind.size uf2 !! rx) as [sizeX|]; [|discriminate].
  destruct (UnionFind.size uf2 !! ry) as [sizeY|]; [|discriminate].
  cbn [mbind option_bind] in H.
  assert (G : forall r1 r2,
             UnionFind.parent uf' = <[r1 := r2]> (UnionFind.parent uf2) ->
             UnionFind.numComponents uf' = int32 (UnionFind.numComponents uf2 - 1) ->
             UnionFind.parent uf2 !! r1 = Some r1 -> r1 <> r2 -> counts uf').
  { intros r1 r2 Ep En K1 K3. unfold counts in *.
    pose proof (roots_link B uf2 uf' r1 r2 Inv2 Ep K1 K3) as L.
    assert (length (roots uf2) <= n).
    { unfold roots. etransitivity; [apply length_filter|]. rewrite length_seq. lia. }
    rewrite En, C2, int32_small by (unfold in_int32; lia). lia. }
  destruct (rankX <? rankY); [|destruct (rankY <? rankX)]; injection H as _ <-.
  - apply (G rx ry); auto.
  - apply (G ry rx); auto.
  - apply (G ry rx); auto.
Qed.

End CountOfSets.

(** X13.  [UnionFind::getNumComponents] counts the sets.  A fresh
    [UnionFind(n)] has [n] representatives and reports [n]; and in a
    well-formed state in which the counter equals the number of
    representatives (the elements that are their own parent, one for each
    set), it still does after a [unite], whether it merged or not.
    ([n] fits an [int].) *)
Theorem getNumComponents_counts_sets (n B fuel : nat) (uf uf' : UnionFind.t)
    (x y : nat) (b : bool) :
  Z.of_nat n < 2 ^ 31 ->
  (UnionFind.getNumComponents (UnionFind.new n) = Z.of_nat (length (roots n (UnionFind.new n))))
  /\ (uf_inv n B uf -> (x < n)%nat -> (y < n)%nat -> (B < fuel)%nat ->
      UnionFind.getNumComponents uf = Z.of_nat (length (roots n uf)) ->
      UnionFind.unite fuel uf x y = Some (b, uf') ->
      UnionFind.getNumComponents uf' = Z.of_nat (length (roots n uf'))).
Proof.
  intros Hn. split.
  - rewrite roots_new. reflexivity.
  - intros Inv Hx Hy Hfuel C E.
    apply (unite_counts n B fuel uf x y b uf' Hn Inv Hx Hy Hfuel C E).
Qed.

Lemma getNumComponents_counts_sets_witness :
  UnionFind.getNumComponents (UnionFind.mk [0; 0; 2]%nat [1; 0; 0]%nat [2; 1; 1] 2)
  = Z.of_nat (length (roots 3 (UnionFind.mk [0; 0; 2]%nat [1; 0; 0]%nat [2; 1; 1] 2))).
Proof.
  destruct (getNumComponents_counts_sets 3 0 10 (UnionFind.new 3)
              (UnionFind.mk [0; 0; 2]%nat [1; 0; 0]%nat [2; 1; 1] 2) 0 1 true
              ltac:(lia)) as [C0 C1].
  apply C1; [exact (new_inv (replicate 3 RegionTree.defaultNode)) | lia | lia | lia
            | exact C0 | reflexivity].
Defined.

(** ** Sorting regions by score *)

Section SortByScore.

Lemma SFcompare_antisym (x y : spec_float) :
  SFcompare y x = option_map CompOpp (SFcompare x y).
Proof.
  destruct x as [sx|sx| |sx mx ex], y as [sy|sy| |sy my ey]; cbn;
    try reflexivity; try (destruct sx; reflexivity); try (destruct sy; reflexivity);
    try (destruct sx, sy; reflexivity).
  rewrite (Z.compare_antisym ey ex), !Pos.compare_cont_spec. cbn [Pos.switch_Eq].
  rewrite (Pos.compare_antisym my mx).
  destruct sx, sy; try reflexivity;
    destruct (ey ?= ex); cbn; try reflexivity;
    destruct (my ?= mx)%positive; reflexivity.
Qed.

(** [a < b] excludes [b < a], NaNs included. *)
Lemma ltb_asym (a b : float) : PrimFloat.ltb a b = true -> PrimFloat.ltb b a = false.
Proof.
  rewrite !FloatAxioms.ltb_spec. unfold SFltb.
  rewrite (SFcompare_antisym (Prim2SF a) (Prim2SF b)).
  destruct (SFcompare (Prim2SF a) (Prim2SF b)) as [[| |]|]; cbn; congruence.
Qed.

Lemma insertByScore_Permutation x l : insertByScore x l ≡ₚ x :: l.
Proof.
  induction l as [|y l IH]; [reflexivity|]. cbn [insertByScore].
  destruct (PrimFloat.ltb (ar_anomalyScore y) (ar_anomalyScore x)); [reflexivity|].
  rewrite IH. apply perm_swap.
Qed.

Lemma sortByScore_loop l : forall acc,
  fold_left (fun acc x => insertByScore x acc) l acc ≡ₚ acc ++ l.
Proof.
  induction l as [|x l IH]; intros acc; cbn [fold_left].
  - rewrite app_nil_r. reflexivity.
  - rewrite IH, insertByScore_Permutation. cbn [app]. apply Permutation_middle.
Qed.

Lemma sortByScore_Permutation l : sortByScore l ≡ₚ l.
Proof. apply (sortByScore_loop l []). Qed.

Lemma insertByScore_sorted x l :
  nonIncreasing l = true -> nonIncreasing (insertByScore x l) = true.
Proof.
  induction l as [|y l IH]; intros H; [reflexivity|]. cbn [insertByScore].
  destruct (PrimFloat.ltb (ar_anomalyScore y) (ar_anomalyScore x)) eqn:E.
  - cbn [nonIncreasing]. rewrite (ltb_asym _ _ E). exact H.
  - destruct l as [|z l].
    + cbn [insertByScore nonIncreasing]. rewrite E. reflexivity.
    + cbn [nonIncreasing] in H. apply andb_prop in H as [Hyz Hzl].
      specialize (IH Hzl). cbn [insertByScore] in IH |- *.
      destruct (PrimFloat.ltb (ar_anomalyScore z) (ar_anomalyScore x)).
      * cbn [nonIncreasing] in IH |- *. rewrite E. cbn [negb andb]. exact IH.
      * cbn [nonIncreasing] in IH |- *. rewrite Hyz. cbn [andb]. exact IH.
Qed.

Lemma sortByScore_sorted l : nonIncreasing (sortByScore l) = true.
Proof.
  unfold sortByScore.
  assert (G : forall acc, nonIncreasing acc = true ->
                nonIncreasing (fold_left (fun acc x => insertByScore x acc) l acc) = true).
  { induction l as [|x l IH]; intros acc H; cbn [fold_left]; [exact H|].
    apply IH. apply insertByScore_sorted. exact H. }
  apply G. reflexivity.
Qed.

End SortByScore.

(** X14.  [AnomalyDetector::getAnomalousRegions] returns the anomalous
    leaves of the tree, each once, with its bounds, score and node id, and
    in an order in which no region scores below its successor. *)
Theorem getAnomalousRegions_sorted_anomalous_leaves
    (det : AnomalyDetector.t) (tree : RegionTree.t) :
  AnomalyDetector.getAnomalousRegions det tree
    ≡ₚ map QueryEngine.regionOf (QueryEngine.anomalousLeaves tree)
  /\ nonIncreasing (AnomalyDetector.getAnomalousRegions det tree) = true.
Proof.
  split.
  - unfold AnomalyDetector.getAnomalousRegions. rewrite sortByScore_Permutation. reflexivity.
  - apply sortByScore_sorted.
Qed.

(** ** The statistics of a detection run *)

Section DetectionStatistics.

(** The nodes that [isLeaf] accepts, and those among them flagged. *)
Definition leavesOf (ns : list RegionTree.RegionTreeNode) : list RegionTree.RegionTreeNode :=
  filter (fun n => RegionTree.isLeaf n = true) ns.

Definition flaggedOf (ns : list RegionTree.RegionTreeNode) : list RegionTree.RegionTreeNode :=
  filter (fun n => RegionTree.isAnomaly n = true) ns.

Lemma scoreNodes_tally det : forall ns acc ns' acc',
  AnomalyDetector.scoreNodes det ns acc = Some (ns', acc') ->
  0 <= AnomalyDetector.anomalousRegions (AnomalyDetector.tally_stats acc)
    <= AnomalyDetector.totalRegions (AnomalyDetector.tally_stats acc) ->
  AnomalyDetector.totalRegions (AnomalyDetector.tally_stats acc) + Z.of_nat (length ns)
    < 2 ^ 31 ->
  AnomalyDetector.totalRegions (AnomalyDetector.tally_stats acc')
  = AnomalyDetector.totalRegions (AnomalyDetector.tally_stats acc)
    + Z.of_nat (length (leavesOf ns'))
  /\ AnomalyDetector.anomalousRegions (AnomalyDetector.tally_stats acc')
     = AnomalyDetector.anomalousRegions (AnomalyDetector.tally_stats acc)
       + Z.of_nat (length (flaggedOf (leavesOf ns'))).
Proof.
  induction ns as [|node ns IH]; intros acc ns' acc' H Hc Hb.
  - cbn in H. injection H as <- <-. cbn. lia.
  - cbn [AnomalyDetector.scoreNodes] in H.
    destruct (AnomalyDetector.scoreNode det node acc) as [[node' acc1]|] eqn:E1;
      [|discriminate].
    cbn [mbind option_bind fst snd] in H.
    destruct (AnomalyDetector.scoreNodes det ns acc1) as [[ns1 acc2]|] eqn:E2;
      [|discriminate].
    cbn [mbind option_bind fst snd] in H. injection H as <- <-.
    cbn [length] in Hb. unfold AnomalyDetector.scoreNode in E1.
    destruct (AnomalyDetector.computeScore det (RegionTree.bounds node)) as [score|];
      [|discriminate].
    cbn [mbind option_bind] in E1. unfold leavesOf, flaggedOf in *.
    destruct (RegionTree.isLeaf _) eqn:L in E1; injection E1 as <- <-.
    + rewrite filter_cons_True by exact L.
      specialize (IH _ _ _ E2). cbn [AnomalyDetector.tally_stats
        AnomalyDetector.totalRegions AnomalyDetector.anomalousRegions] in IH.
      rewrite (int32_small (AnomalyDetector.totalRegions (AnomalyDetector.tally_stats acc) + 1))
        in IH by (unfold in_int32; lia).
      destruct (AnomalyDetector.isAnomalous det score) eqn:A.
      * rewrite filter_cons_True by reflexivity.
        rewrite (int32_small (AnomalyDetector.anomalousRegions
                                (AnomalyDetector.tally_stats acc) + 1))
          in IH by (unfold in_int32; lia).
        cbn [length]. destruct IH as [I1 I2]; lia.
      * rewrite filter_cons_False by (cbn [RegionTree.isAnomaly]; discriminate).
        cbn [length]. destruct IH as [I1 I2]; lia.
    + rewrite filter_cons_False by congruence.
      apply (IH _ _ _ E2); lia.
Qed.

Lemma countAnomalous_fold (l : list RegionTree.RegionTreeNode) : forall c,
  0 <= c -> c + Z.of_nat (length l) < 2 ^ 31 ->
  fold_left (fun count leaf =>
               if RegionTree.isAnomaly leaf then int32 (count + 1) else count) l c
  = c + Z.of_nat (length (flaggedOf l)).
Proof.
  unfold flaggedOf. induction l as [|n l IH]; intros c Hc Hb; cbn [fold_left].
  - cbn. lia.
  - cbn [length] in Hb. destruct (RegionTree.isAnomaly n) eqn:A.
    + rewrite filter_cons_True by exact A. rewrite int32_small by (unfold in_int32; lia).
      rewrite IH by lia. cbn [length]. lia.
    + rewrite filter_cons_False by congruence. apply IH; lia.
Qed.

Lemma length_leavesOf ns : (length (leavesOf ns) <= length ns)%nat.
Proof. apply length_filter. Qed.

(** [countAnomalousRegions] is the number of anomalous leaves. *)
Lemma countAnomalousRegions_spec tree prefix det :
  Z.of_nat (length (RegionTree.nodes tree)) < 2 ^ 31 ->
  QueryEngine.countAnomalousRegions (QueryEngine.initialize (Some tree) prefix det)
  = Z.of_nat (length (QueryEngine.anomalousLeaves tree)).
Proof.
  intros Hn. unfold QueryEngine.countAnomalousRegions, QueryEngine.initialize.
  cbn [QueryEngine.regionTree].
  pose proof (length_leavesOf (RegionTree.nodes tree)) as L.
  rewrite countAnomalous_fold by (unfold RegionTree.getLeaves; fold (leavesOf (RegionTree.nodes tree)); lia).
  reflexivity.
Qed.

End DetectionStatistics.

(** X15.  The statistics that [detectInTree] leaves behind, on a tree built
    over a built index: the run is marked complete, [totalRegions] is the
    number of leaves of the tree, and [anomalousRegions] is the number of
    leaves it flagged, which is also what
    [QueryEngine::countAnomalousRegions] counts on the scored tree.  (The
    nodes are fewer than [2^31], the range of the [int] counters.) *)
Theorem detectInTree_counts_leaves
    (ps0 : PrefixSum.t) (image : Matrix) (h w : nat) (tr0 tree : RegionTree.t)
    (minSize : Z) (fuel : nat) (threshold : float) :
  rectangular image h w -> supported h w -> 1 <= minSize -> (h < fuel)%nat ->
  RegionTree.build fuel tr0 (Some (PrefixSum.build ps0 image)) minSize = Some tree ->
  Z.of_nat (length (RegionTree.nodes tree)) < 2 ^ 31 ->
  let ps := PrefixSum.build ps0 image in
  let det := AnomalyDetector.initialize (AnomalyDetector.new threshold) (Some ps) in
  exists det' tree',
    AnomalyDetector.detectInTree det tree = Some (det', tree')
    /\ AnomalyDetector.detectionComplete det' = true
    /\ AnomalyDetector.totalRegions (AnomalyDetector.stats det')
       = Z.of_nat (length (RegionTree.getLeaves tree'))
    /\ AnomalyDetector.anomalousRegions (AnomalyDetector.stats det')
       = Z.of_nat (length (QueryEngine.anomalousLeaves tree'))
    /\ QueryEngine.countAnomalousRegions
         (QueryEngine.initialize (Some tree') (Some ps) (Some det'))
       = AnomalyDetector.anomalousRegions (AnomalyDetector.stats det').
Proof.
  intros Hrect Hsup Hm Hfuel Hbuild Hn ps det.
  destruct (build_result ps0 image h w tr0 minSize fuel Hrect Hsup Hm Hfuel)
    as (tree0 & Hb0 & Hin & _).
  rewrite Hbuild in Hb0. injection Hb0 as <-.
  pose proof (build_indexes ps0 image h w Hrect ltac:(apply Hsup) ltac:(apply Hsup)
                (supported_machine_sized h w Hsup)) as Hidx.
  fold ps in Hidx. pose proof Hidx as (Hbuilt & _).
  assert (Hdet : det = AnomalyDetector.mk (Some ps) threshold (PrefixSum.globalMean ps)
                         (PrefixSum.globalStdDev ps)
                         (AnomalyDetector.stats (AnomalyDetector.new threshold)) false).
  { unfold det, AnomalyDetector.initialize. rewrite Hbuilt. reflexivity. }
  unfold AnomalyDetector.detectInTree.
  rewrite Hdet. cbn [AnomalyDetector.prefixSum]. rewrite Hbuilt. cbn [negb].
  match goal with |- context [AnomalyDetector.scoreNodes ?d ?ns ?a] =>
    destruct (scoreNodes_within d ps image h w ns Hidx eq_refl eq_refl eq_refl Hin a)
      as [acc' E];
    pose proof (scoreNodes_tally d ns a _ acc' E) as T
  end.
  rewrite E. cbn [mbind option_bind fst snd AnomalyDetector.threshold].
  cbn [AnomalyDetector.tally_stats AnomalyDetector.totalRegions
       AnomalyDetector.anomalousRegions] in T.
  destruct T as [T1 T2]; [lia | lia |].
  eexists. eexists. split; [reflexivity|].
  cbn [AnomalyDetector.detectionComplete AnomalyDetector.stats
       AnomalyDetector.totalRegions AnomalyDetector.anomalousRegions].
  split; [reflexivity|].
  assert (Ln : length (map (scored ps threshold image) (RegionTree.nodes tree))
               = length (RegionTree.nodes tree)) by apply length_map.
  split; [exact T1|]. split; [exact T2|].
  rewrite countAnomalousRegions_spec
    by (cbn [RegionTree.withNodes RegionTree.nodes]; rewrite Ln; exact Hn).
  rewrite T2. reflexivity.
Qed.

Lemma detectInTree_counts_leaves_witness :
  exists det' tree',
    AnomalyDetector.detectInTree
      (AnomalyDetector.initialize (AnomalyDetector.new 0.5%float) (Some index4)) tree4
    = Some (det', tree')
    /\ AnomalyDetector.totalRegions (AnomalyDetector.stats det') = 4
    /\ AnomalyDetector.anomalousRegions (AnomalyDetector.stats det') = 3.
Proof.
  destruct (detectInTree_counts_leaves PrefixSum.init blocks4 4 4 RegionTree.init tree4 2 100
              0.5%float blocks4_rectangular supported_4_4 ltac:(lia) ltac:(lia)
              tree4_built ltac:(vm_compute; reflexivity))
    as (det' & tree' & E & _ & T & A & _).
  exists det', tree'. split; [exact E|].
  assert (E' : tree' = scoredTree4).
  { unfold scoredTree4, detector4, index4. rewrite E. reflexivity. }
  subst tree'. split; [rewrite T | rewrite A]; vm_compute; reflexivity.
Defined.

(** ** What the component finders return *)

Section ComponentSummaries.

Local Open Scope nat_scope.

Variable anomalousNodes : list RegionTree.RegionTreeNode.

Let n := length anomalousNodes.

(** [anomalousNodes[i]->bounds] *)
Definition boundsAt (i : nat) : Region :=
  RegionTree.bounds (QueryEngine.nodeAt anomalousNodes i).

(** The areas of the members, added up. *)
Definition areaSum (members : list nat) : Z :=
  Zsum (map (fun i => area (boundsAt i)) members).

(** The component [c] lists the ids of the leaves [members], in this
    order; its area is the sum of theirs, as an [int64_t]; and its bounding
    box contains each of them. *)
Definition summarises (c : QueryEngine.ConnectedComponent) (members : list nat) : Prop :=
  QueryEngine.nodeIndices c = map (idAt anomalousNodes) members
  /\ QueryEngine.totalArea c = int64 (areaSum members)
  /\ forall i, i ∈ members -> subregion (boundsAt i) (QueryEngine.boundingBox c).

Lemma subregion_refl R : subregion R R.
Proof. unfold subregion. lia. Qed.

Lemma subregion_trans a b c : subregion a b -> subregion b c -> subregion a c.
Proof. unfold subregion. lia. Qed.

Lemma subregion_merge_l a b : subregion a (QueryEngine.mergeBounds a b).
Proof. unfold subregion, QueryEngine.mergeBounds. cbn [row1 row2 col1 col2]. lia. Qed.

Lemma subregion_merge_r a b : subregion b (QueryEngine.mergeBounds a b).
Proof. unfold subregion, QueryEngine.mergeBounds. cbn [row1 row2 col1 col2]. lia. Qed.

Lemma areaSum_snoc members i : areaSum (members ++ [i]) = (areaSum members + area (boundsAt i))%Z.
Proof. unfold areaSum. rewrite map_app, Zsum_app. cbn. lia. Qed.

(** The state of a component while its members [ms] are gathered. *)
Definition gathered (g : QueryEngine.Gathering) (ms : list nat) : Prop :=
  QueryEngine.g_nodeIndices g = map (idAt anomalousNodes) ms
  /\ QueryEngine.g_totalArea g = int64 (areaSum ms)
  /\ forall i, i ∈ ms -> subregion (boundsAt i) (QueryEngine.g_boundingBox g).

Lemma gathered_step mergeFirst g ms i :
  gathered g ms -> (mergeFirst = false -> ms = []) ->
  gathered (QueryEngine.gather mergeFirst (QueryEngine.nodeAt anomalousNodes i) g) (ms ++ [i]).
Proof.
  intros (G1 & G2 & G3) Hm. split; [|split].
  - cbn [QueryEngine.gather QueryEngine.g_nodeIndices]. rewrite G1, map_app. reflexivity.
  - cbn [QueryEngine.gather QueryEngine.g_totalArea]. rewrite G2, areaSum_snoc.
    apply int64_add_l.
  - intros j Hj. cbn [QueryEngine.gather QueryEngine.g_boundingBox].
    apply elem_of_app in Hj. destruct Hj as [Hj|Hj].
    + destruct mergeFirst.
      * eapply subregion_trans; [apply G3; exact Hj | apply subregion_merge_l].
      * rewrite (Hm eq_refl) in Hj. apply elem_of_nil in Hj. destruct Hj.
    + apply list_elem_of_singleton in Hj. subst j.
      destruct mergeFirst; [apply subregion_merge_r | apply subregion_refl].
Qed.

Lemma gathered_finish componentId g ms :
  gathered g ms -> summarises (QueryEngine.finish componentId g) ms.
Proof. intros G. exact G. Qed.

Lemma gathered_loop members : forall g ms,
  gathered g ms ->
  gathered (fold_left (fun g idx =>
                         QueryEngine.gather true (QueryEngine.nodeAt anomalousNodes idx) g)
                      members g)
           (ms ++ members).
Proof.
  induction members as [|i members IH]; intros g ms G; cbn [fold_left].
  - rewrite app_nil_r. exact G.
  - replace (ms ++ i :: members) with ((ms ++ [i]) ++ members)
      by (rewrite <- List.app_assoc; reflexivity).
    apply IH. apply gathered_step; [exact G | discriminate].
Qed.

Lemma componentOfGroup_summarises componentId members :
  summarises (QueryEngine.componentOfGroup anomalousNodes componentId members) members.
Proof.
  unfold QueryEngine.componentOfGroup. apply gathered_finish.
  apply (gathered_loop members _ []).
  split; [reflexivity|]. split; [reflexivity|].
  intros i Hi. apply elem_of_nil in Hi. destruct Hi.
Qed.

Lemma componentsOfGroups_summarise (groups : list (nat * list nat)) :
  Forall2 summarises (QueryEngine.componentsOfGroups anomalousNodes groups) groups.*2.
Proof.
  unfold QueryEngine.componentsOfGroups.
  assert (G : forall h : nat -> Z,
             Forall2 summarises
               (imap (fun k g => QueryEngine.componentOfGroup anomalousNodes (h k) (snd g))
                     groups) groups.*2).
  { induction groups as [|g groups IH]; intros h; [constructor|].
    rewrite imap_cons. cbn [fmap list_fmap]. constructor.
    - apply componentOfGroup_summarises.
    - apply (IH (fun k => h (S k))). }
  apply (G (fun k => Z.of_nat k)).
Qed.

End ComponentSummaries.

Section DepthFirstSummaries.

Local Open Scope nat_scope.

Variable anomalousNodes : list RegionTree.RegionTreeNode.

Let n := length anomalousNodes.

Let es := edges anomalousNodes.

Variable adj : list (list nat).

Hypothesis adj_length : length adj = n.

Hypothesis adj_neighbours : forall u l v, adj !! u = Some l -> (v ∈ l <-> linked es u v).

Hypothesis adj_sum : sum_list (length <$> adj) <= 2 * length (QueryEngine.pairs n).

Lemma summarises_nodeIndices comps Ms :
  Forall2 (summarises anomalousNodes) comps Ms ->
  map QueryEngine.nodeIndices comps = map (map (idAt anomalousNodes)) Ms.
Proof.
  induction 1 as [|c M comps Ms (H & _) _ IH]; [reflexivity|].
  cbn [map]. rewrite H, IH. reflexivity.
Qed.

(** The traversal loop gathers the nodes it visits. *)
Lemma dfsLoop_gathered visited0 s :
  ~ vis visited0 s ->
  forall fuel stack visited mergeFirst g ms,
    dfs_inv anomalousNodes visited0 s stack visited ms ->
    gathered anomalousNodes g ms -> (mergeFirst = false -> ms = []) ->
    weight adj visited + length stack <= fuel ->
    exists visited' g' ms',
      QueryEngine.dfsLoop fuel anomalousNodes adj stack visited mergeFirst g
        = Some (visited', g') /\
      dfs_inv anomalousNodes visited0 s [] visited' ms' /\
      gathered anomalousNodes g' ms'.
Proof.
  intros Hs. induction fuel as [|fuel IH];
    intros stack visited mergeFirst g ms Inv Hg Hm Hfuel.
  - destruct stack as [|u stack]; [|cbn [length] in Hfuel; lia].
    exists visited, g, ms. auto.
  - destruct stack as [|u stack]; [exists visited, g, ms; auto|].
    cbn [QueryEngine.dfsLoop]. cbn [length] in Hfuel.
    destruct (inv_stack _ _ _ _ _ _ Inv u ltac:(left)) as [Lu _].
    pose proof (inv_length _ _ _ _ _ _ Inv) as Lv.
    destruct (visited !! u) as [[|]|] eqn:Eu; [| |apply lookup_ge_None in Eu; fold n in Lu; lia];
      cbn [mbind option_bind].
    + apply (IH stack visited mergeFirst g ms); [|assumption|assumption|lia].
      eapply dfs_inv_skip; eauto.
    + destruct (adj !! u) as [l|] eqn:El; [|apply lookup_ge_None in El; fold n in Lu; lia].
      cbn [mbind option_bind].
      pose proof (weight_visit adj visited u l El Eu) as W.
      pose proof (pushNeighbours_length anomalousNodes adj adj_length (<[u := true]> visited) l stack) as P.
      apply (IH _ _ true _ (ms ++ [u])); [| | |].
      * apply (dfs_inv_visit anomalousNodes adj adj_length adj_neighbours); assumption.
      * apply gathered_step; assumption.
      * discriminate.
      * lia.
Qed.

(** The state of the loop over the start nodes, with what the components
    found so far hold. *)
Definition traversedWith (k : nat) (visited : list bool)
    (comps : list QueryEngine.ConnectedComponent) (Ms : list (list nat)) : Prop :=
  traversed anomalousNodes k visited comps Ms
  /\ Forall2 (summarises anomalousNodes) comps Ms.

Lemma dfsFrom_gathered fuel k visited comps Ms :
  n * n < fuel -> k < n -> traversedWith k visited comps Ms ->
  exists st Ms',
    QueryEngine.dfsFrom fuel anomalousNodes adj (Some (visited, comps)) k = Some st /\
    traversedWith (S k) (fst st) (snd st) Ms'.
Proof.
  intros Hfuel Hk [T F]. pose proof T as (L & V & C & N & G & D).
  unfold QueryEngine.dfsFrom. cbn [mbind option_bind fst snd].
  destruct (visited !! k) as [[|]|] eqn:Ek;
    [| |apply lookup_ge_None in Ek; fold n in L; lia];
    cbn [mbind option_bind].
  - exists (visited, comps), Ms. split; [reflexivity|]. cbn [fst snd].
    split; [|exact F].
    do 5 (split; [assumption|]). intros u Hu.
    destruct (Nat.eq_dec u k) as [->|Hne]; [exact Ek|]. apply D. lia.
  - assert (Nk : ~ vis visited k) by (unfold vis; congruence).
    assert (I0 : dfs_inv anomalousNodes visited k [k] visited []).
    { constructor; auto.
      - intros u. rewrite elem_of_nil. tauto.
      - intros u H. apply elem_of_nil in H. destruct H.
      - constructor.
      - intros u H. apply elem_of_nil in H. destruct H.
      - intros v H. apply list_elem_of_singleton in H. subst v. split; [exact Hk|apply conn_refl].
      - intros u v H. apply elem_of_nil in H. destruct H.
      - right. left. }
    pose proof (weight_le anomalousNodes adj adj_length adj_sum visited) as W.
    assert (G0 : gathered anomalousNodes
              (QueryEngine.mkGathering [] (mkRegion 0 0 0 0) 0 PrimFloat.zero PrimFloat.zero) []).
    { split; [reflexivity|]. split; [reflexivity|].
      intros i Hi. apply elem_of_nil in Hi. destruct Hi. }
    destruct (dfsLoop_gathered visited k Nk fuel [k] visited false _ [] I0 G0
                ltac:(reflexivity) ltac:(cbn [length]; fold n in W; lia))
      as (visited' & g' & ms & E & I & Hg).
    rewrite E. cbn [mbind option_bind fst snd].
    eexists (_, _), (Ms ++ [ms]). split; [reflexivity|]. cbn [fst snd].
    pose proof (dfs_inv_class anomalousNodes k visited comps Ms visited' ms T I) as Cms.
    assert (F' : Forall2 (summarises anomalousNodes)
                   (comps ++ [QueryEngine.finish (Z.of_nat (length comps)) g']) (Ms ++ [ms])).
    { apply Forall2_app; [exact F|]. constructor; [|constructor].
      apply gathered_finish. exact Hg. }
    split; [|exact F'].
    destruct I as [I1 I2 I3 I4 I5 I6 I7 I8].
    assert (J : mjoin (Ms ++ [ms]) = mjoin Ms ++ ms).
    { rewrite join_app. cbn. rewrite app_nil_r. reflexivity. }
    split; [exact I1|]. split; [|split; [|split; [|split]]].
    + intros u. rewrite J, elem_of_app, I2, V. reflexivity.
    + apply Forall_app. split; [exact C|]. apply Forall_singleton. exact Cms.
    + rewrite J. apply NoDup_app. split; [exact N|]. split; [|exact I4].
      intros u Hu Hu'. apply (I3 u Hu'). apply V. exact Hu.
    + apply summarises_nodeIndices. exact F'.
    + intros u Hu. apply I2. destruct (Nat.eq_dec u k) as [->|Hne].
      * right. destruct I8 as [H|H]; [exact H|apply elem_of_nil in H; destruct H].
      * left. apply D. lia.
Qed.

Lemma dfsStarts_gathered_loop fuel : forall len k visited comps Ms,
  n * n < fuel -> k + len <= n -> traversedWith k visited comps Ms ->
  exists st Ms',
    fold_left (QueryEngine.dfsFrom fuel anomalousNodes adj) (seq k len)
      (Some (visited, comps)) = Some st /\
    traversedWith (k + len) (fst st) (snd st) Ms'.
Proof.
  induction len as [|len IH]; intros k visited comps Ms Hfuel Hk T.
  - exists (visited, comps), Ms. rewrite Nat.add_0_r. split; [reflexivity|exact T].
  - destruct (dfsFrom_gathered fuel k visited comps Ms Hfuel ltac:(lia) T)
      as ([visited1 comps1] & Ms1 & E1 & T1).
    cbn [seq fold_left]. rewrite E1. cbn [fst snd] in T1.
    destruct (IH (S k) visited1 comps1 Ms1 Hfuel ltac:(lia) T1) as (st & Ms' & E & T').
    exists st, Ms'. split; [exact E|].
    replace (k + S len) with (S k + len) by lia. exact T'.
Qed.

(** Lines 498-547: one component for each class of the graph. *)
Lemma dfsStarts_gathered fuel :
  n * n < fuel ->
  exists st Ms,
    fold_left (QueryEngine.dfsFrom fuel anomalousNodes adj) (seq 0 n)
      (Some (replicate n false, [])) = Some st /\
    classPartition es n Ms /\
    Forall2 (summarises anomalousNodes) (snd st) Ms.
Proof.
  intros Hfuel.
  assert (T0 : traversedWith 0 (replicate n false) [] []).
  { split; [|constructor].
    split; [apply length_replicate|]. split; [|split; [constructor|split; [constructor|]]].
    - intros u. cbn. rewrite elem_of_nil. unfold vis. split; [|tauto].
      intros H. apply lookup_replicate in H. destruct H. discriminate.
    - split; [reflexivity|]. intros u Hu. lia. }
  destruct (dfsStarts_gathered_loop fuel n 0 (replicate n false) [] [] Hfuel ltac:(lia) T0)
    as (st & Ms & E & ((L & V & C & N & G & D) & F)).
  exists st, Ms. split; [exact E|]. split; [|exact F].
  split; [exact C|]. split; [exact N|]. intros u. rewrite <- V. split.
  - intros H. apply lookup_lt_Some in H. fold n in L. lia.
  - apply D.
Qed.

End DepthFirstSummaries.

Section ComponentsReturned.

Local Open Scope nat_scope.

(** The components are in the order of [std::sort] with the comparison
    [a.totalArea > b.totalArea]: none is larger than one before it. *)
Fixpoint descendingArea (l : list QueryEngine.ConnectedComponent) : Prop :=
  match l with
  | [] => True
  | c :: l' =>
      Forall (fun d => (QueryEngine.totalArea d <= QueryEngine.totalArea c)%Z) l'
      /\ descendingArea l'
  end.

Lemma insertByArea_descending c l :
  descendingArea l -> descendingArea (QueryEngine.insertByArea c l).
Proof.
  induction l as [|d l IH]; intros D.
  - cbn. split; [constructor|exact I].
  - cbn [QueryEngine.insertByArea]. destruct D as [F D].
    destruct (Z.ltb_spec (QueryEngine.totalArea d) (QueryEngine.totalArea c)) as [L|L].
    + split; [|split; assumption]. constructor; [lia|].
      eapply Forall_impl; [exact F|]. cbn. intros x Hx. lia.
    + cbn [descendingArea]. split; [|apply IH; exact D].
      rewrite insertByArea_Permutation. constructor; assumption.
Qed.

Lemma sortByArea_descending l : descendingArea (QueryEngine.sortByArea l).
Proof.
  unfold QueryEngine.sortByArea.
  assert (G : forall acc, descendingArea acc ->
                descendingArea (fold_left (fun acc c => QueryEngine.insertByArea c acc) l acc)).
  { induction l as [|c l IH]; intros acc D; cbn [fold_left]; [exact D|].
    apply IH. apply insertByArea_descending. exact D. }
  apply G. exact I.
Qed.

Lemma classPartition_Permutation es k Ms Ms' :
  Ms ≡ₚ Ms' -> classPartition es k Ms -> classPartition es k Ms'.
Proof.
  intros P (C & N & Cov). split; [|split].
  - rewrite <- P. exact C.
  - rewrite <- P. exact N.
  - intros u. rewrite <- P. apply Cov.
Qed.

(** [comps] holds one component for each class of the adjacency graph of
    the anomalous leaves, in descending order of area. *)
Definition componentsOfClasses (anomalousNodes : list RegionTree.RegionTreeNode)
    (comps : list QueryEngine.ConnectedComponent) : Prop :=
  descendingArea comps /\
  exists Ms, classPartition (edges anomalousNodes) (length anomalousNodes) Ms
             /\ Forall2 (summarises anomalousNodes) comps Ms.

Lemma sortByArea_classes ns comps Ms :
  classPartition (edges ns) (length ns) Ms -> Forall2 (summarises ns) comps Ms ->
  componentsOfClasses ns (QueryEngine.sortByArea comps).
Proof.
  intros C F. split; [apply sortByArea_descending|].
  destruct (Forall2_Permutation_l _ _ _
              (symmetry (sortByArea_Permutation comps)) Ms F) as (Ms' & P & F').
  exists Ms'. split; [|exact F']. eapply classPartition_Permutation; eassumption.
Qed.

Lemma componentsOfClasses_nil : componentsOfClasses [] [].
Proof.
  split; [exact I|]. exists []. split; [|constructor].
  split; [constructor|]. split; [constructor|].
  intros u. cbn. rewrite elem_of_nil. lia.
Qed.

(** Both finders return, and what they return. *)
Lemma finders_return (qe : QueryEngine.t) (fuel : nat) :
  length (anomalousNodesOf qe) * length (anomalousNodesOf qe) < fuel ->
  exists dsu dfs,
    QueryEngine.findConnectedComponents fuel qe = Some dsu /\
    QueryEngine.findConnectedComponentsDFS fuel qe = Some dfs /\
    componentsOfClasses (anomalousNodesOf qe) dsu /\
    componentsOfClasses (anomalousNodesOf qe) dfs.
Proof.
  unfold anomalousNodesOf, QueryEngine.findConnectedComponents,
    QueryEngine.findConnectedComponentsDFS.
  destruct (QueryEngine.regionTree qe) as [tree|].
  2:{ intros _. exists [], []. repeat split; try reflexivity; apply componentsOfClasses_nil. }
  set (ns := QueryEngine.anomalousLeaves tree). intros Hfuel.
  destruct (Nat.eqb_spec (length ns) 0) as [E|E].
  { apply nil_length_inv in E. rewrite E.
    exists [], []. repeat split; try reflexivity; apply componentsOfClasses_nil. }
  pose proof (pairs_length (length ns)) as PL.
  assert (Hpairs : (length (QueryEngine.pairs (length ns)) < fuel)%nat) by nia.
  destruct (uniteAdjacent_spec ns fuel Hpairs) as (uf0 & uf & E0 & E1 & Inv & M).
  destruct (groupByRoot_spec ns _ fuel uf Inv M Hpairs) as (groups & E2 & PG).
  rewrite E0. cbn [mbind option_bind]. rewrite E1. cbn [mbind option_bind].
  rewrite E2. cbn [mbind option_bind].
  destruct (adjacencyLists_spec ns) as (AL & AN & AS).
  destruct (dfsStarts_gathered ns (QueryEngine.adjacencyLists ns) AL AN AS fuel Hfuel)
    as (st & Ms & E3 & PM & G).
  rewrite E3. cbn [mbind option_bind].
  eexists _, _. split; [reflexivity|]. split; [reflexivity|]. split.
  - eapply sortByArea_classes; [exact PG|]. apply componentsOfGroups_summarise.
  - eapply sortByArea_classes; [exact PM|exact G].
Qed.

End ComponentsReturned.

Section ComponentTotals.

Local Open Scope nat_scope.

Lemma Zsum_Permutation (l l' : list Z) : l ≡ₚ l' -> Zsum l = Zsum l'.
Proof.
  induction 1 as [|x l l' _ IH|x y l|l l' l'' _ IH1 _ IH2];
    rewrite ?Zsum_cons; lia.
Qed.

Lemma Zsum_int64 {A : Type} (f : A -> Z) (l : list A) :
  int64 (Zsum (map (fun x => int64 (f x)) l)) = int64 (Zsum (map f l)).
Proof.
  induction l as [|x l IH]; [reflexivity|]. cbn [map]. rewrite !Zsum_cons.
  rewrite int64_add_l, <- int64_add_r, IH, int64_add_r. reflexivity.
Qed.

Variable anomalousNodes : list RegionTree.RegionTreeNode.

Lemma areaSum_join (Ms : list (list nat)) :
  Zsum (map (areaSum anomalousNodes) Ms) = areaSum anomalousNodes (mjoin Ms).
Proof.
  induction Ms as [|M Ms IH]; [reflexivity|]. cbn [map]. rewrite Zsum_cons, IH.
  change (mjoin (M :: Ms)) with (M ++ mjoin Ms). unfold areaSum.
  rewrite map_app, Zsum_app. reflexivity.
Qed.

Lemma areaSum_seq :
  areaSum anomalousNodes (seq 0 (length anomalousNodes))
  = Zsum (map (fun node => area (RegionTree.bounds node)) anomalousNodes).
Proof.
  unfold areaSum. f_equal.
  apply list_eq. intros i. change (map ?f ?l) with (f <$> l). rewrite !list_lookup_fmap.
  destruct (anomalousNodes !! i) as [x|] eqn:E.
  - rewrite lookup_seq_lt by (eapply lookup_lt_Some; eauto). cbn.
    unfold boundsAt, QueryEngine.nodeAt. rewrite E. reflexivity.
  - rewrite lookup_seq_ge by (apply lookup_ge_None; exact E). reflexivity.
Qed.

Lemma classPartition_seq es Ms :
  classPartition es (length anomalousNodes) Ms -> mjoin Ms ≡ₚ seq 0 (length anomalousNodes).
Proof.
  intros (_ & N & Cov). apply NoDup_Permutation; [exact N|apply NoDup_seq|].
  intros u. rewrite Cov, elem_of_seq. lia.
Qed.

Lemma summarises_totalArea comps Ms :
  Forall2 (summarises anomalousNodes) comps Ms ->
  map QueryEngine.totalArea comps = map (fun M => int64 (areaSum anomalousNodes M)) Ms.
Proof.
  induction 1 as [|c M comps Ms (_ & H & _) _ IH]; [reflexivity|].
  cbn [map]. rewrite H, IH. reflexivity.
Qed.

(** The areas of the components add up to the area of the anomalous leaves. *)
Lemma classes_totalArea comps :
  componentsOfClasses anomalousNodes comps ->
  int64 (Zsum (map QueryEngine.totalArea comps))
  = int64 (Zsum (map (fun node => area (RegionTree.bounds node)) anomalousNodes)).
Proof.
  intros (_ & Ms & C & F). rewrite (summarises_totalArea comps Ms F).
  rewrite (Zsum_int64 (areaSum anomalousNodes) Ms), areaSum_join, <- areaSum_seq.
  f_equal. unfold areaSum. apply Zsum_Permutation.
  apply (fmap_Permutation (fun i => area (boundsAt anomalousNodes i))).
  eapply classPartition_seq. exact C.
Qed.

(** The components hold as many ids as there are anomalous leaves. *)
Lemma classes_count comps :
  componentsOfClasses anomalousNodes comps ->
  length (mjoin (map QueryEngine.nodeIndices comps)) = length anomalousNodes.
Proof.
  intros (_ & Ms & C & F). rewrite (summarises_nodeIndices anomalousNodes comps Ms F).
  rewrite join_map_map, length_map.
  rewrite (Permutation_length (classPartition_seq _ _ C)). apply length_seq.
Qed.

Lemma classes_nonempty comps :
  componentsOfClasses anomalousNodes comps -> anomalousNodes <> [] -> comps <> [].
Proof.
  intros H Hne ->. apply classes_count in H. cbn in H.
  destruct anomalousNodes; [congruence|discriminate].
Qed.

End ComponentTotals.

Lemma totalArea_fold (l : list RegionTree.RegionTreeNode) : forall total,
  total = int64 total ->
  fold_left (fun total leaf =>
               if RegionTree.isAnomaly leaf
               then int64 (total + area (RegionTree.bounds leaf)) else total) l total
  = int64 (total + Zsum (map (fun node => area (RegionTree.bounds node))
                             (filter (fun leaf => RegionTree.isAnomaly leaf = true) l))).
Proof.
  induction l as [|leaf l IH]; intros total Ht; cbn [fold_left].
  - cbn. rewrite Z.add_0_r. exact Ht.
  - destruct (RegionTree.isAnomaly leaf) eqn:A.
    + rewrite filter_cons_True by exact A. cbn [map]. rewrite Zsum_cons.
      rewrite IH.
      * rewrite int64_add_l. f_equal. lia.
      * rewrite <- (Z.add_0_r (int64 (total + area (RegionTree.bounds leaf)))) at 2.
        rewrite int64_add_l, Z.add_0_r. reflexivity.
    + rewrite filter_cons_False by congruence. apply IH. exact Ht.
Qed.

Lemma getTotalAnomalousArea_spec (qe : QueryEngine.t) :
  QueryEngine.getTotalAnomalousArea qe
  = int64 (Zsum (map (fun node => area (RegionTree.bounds node)) (anomalousNodesOf qe))).
Proof.
  unfold QueryEngine.getTotalAnomalousArea, anomalousNodesOf.
  destruct (QueryEngine.regionTree qe) as [tree|]; [|reflexivity].
  rewrite totalArea_fold by reflexivity. reflexivity.
Qed.

Lemma count_fold (l : list RegionTree.RegionTreeNode) : forall c,
  (0 <= c)%Z ->
  (c + Z.of_nat (length (filter (fun leaf => RegionTree.isAnomaly leaf = true) l)) < 2 ^ 31)%Z ->
  fold_left (fun count leaf =>
               if RegionTree.isAnomaly leaf then int32 (count + 1) else count) l c
  = (c + Z.of_nat (length (filter (fun leaf => RegionTree.isAnomaly leaf = true) l)))%Z.
Proof.
  induction l as [|leaf l IH]; intros c Hc Hb; cbn [fold_left].
  - cbn. lia.
  - destruct (RegionTree.isAnomaly leaf) eqn:A.
    + rewrite filter_cons_True in Hb |- * by exact A. cbn [length] in Hb |- *.
      rewrite int32_small by (unfold in_int32; lia).
      rewrite IH by lia. lia.
    + rewrite filter_cons_False in Hb |- * by congruence. apply IH; assumption.
Qed.

Lemma countAnomalousRegions_anomalousNodes (qe : QueryEngine.t) :
  (Z.of_nat (length (anomalousNodesOf qe)) < 2 ^ 31)%Z ->
  QueryEngine.countAnomalousRegions qe = Z.of_nat (length (anomalousNodesOf qe)).
Proof.
  unfold QueryEngine.countAnomalousRegions, anomalousNodesOf.
  destruct (QueryEngine.regionTree qe) as [tree|]; [|reflexivity].
  intros Hb. rewrite count_fold; [reflexivity|lia|exact Hb].
Qed.

(** X16.  [findConnectedComponents] returns, with fuel above the square of
    the number of anomalous leaves, one component for each connected class
    of the graph that joins two anomalous leaves when [areAdjacent] holds
    of their bounds: there is a list [Ms] of classes, each leaf in exactly
    one, and the components are, in order, the summaries of these classes
    (the ids of the members, the sum of their areas as an [int64_t], a
    bounding box that contains each member).  The components are in
    descending order of area. *)
Theorem findConnectedComponents_returns_the_classes (qe : QueryEngine.t) (fuel : nat) :
  (length (anomalousNodesOf qe) * length (anomalousNodesOf qe) < fuel)%nat ->
  exists comps Ms,
    QueryEngine.findConnectedComponents fuel qe = Some comps /\
    classPartition (edges (anomalousNodesOf qe)) (length (anomalousNodesOf qe)) Ms /\
    Forall2 (summarises (anomalousNodesOf qe)) comps Ms /\
    descendingArea comps.
Proof.
  intros Hfuel.
  destruct (finders_return qe fuel Hfuel) as (dsu & _ & E & _ & (D & Ms & C & F) & _).
  exists dsu, Ms. auto.
Qed.

Lemma findConnectedComponents_returns_the_classes_witness :
  exists comps Ms,
    QueryEngine.findConnectedComponents 100 engine4 = Some comps /\
    classPartition (edges (anomalousNodesOf engine4)) (length (anomalousNodesOf engine4)) Ms /\
    Forall2 (summarises (anomalousNodesOf engine4)) comps Ms /\
    descendingArea comps.
Proof.
  apply (findConnectedComponents_returns_the_classes engine4 100). vm_compute. lia.
Defined.

(** X17.  [findConnectedComponentsDFS] returns, with fuel above the square
    of the number of anomalous leaves, one component for each connected
    class of the same graph, with the ids of the members of the class, the
    sum of their areas as an [int64_t] and a bounding box that contains each
    member; the components are in descending order of area. *)
Theorem findConnectedComponentsDFS_returns_the_classes (qe : QueryEngine.t) (fuel : nat) :
  (length (anomalousNodesOf qe) * length (anomalousNodesOf qe) < fuel)%nat ->
  exists comps Ms,
    QueryEngine.findConnectedComponentsDFS fuel qe = Some comps /\
    classPartition (edges (anomalousNodesOf qe)) (length (anomalousNodesOf qe)) Ms /\
    Forall2 (summarises (anomalousNodesOf qe)) comps Ms /\
    descendingArea comps.
Proof.
  intros Hfuel.
  destruct (finders_return qe fuel Hfuel) as (_ & dfs & _ & E & _ & (D & Ms & C & F)).
  exists dfs, Ms. auto.
Qed.

Lemma findConnectedComponentsDFS_returns_the_classes_witness :
  exists comps Ms,
    QueryEngine.findConnectedComponentsDFS 100 engine4 = Some comps /\
    classPartition (edges (anomalousNodesOf engine4)) (length (anomalousNodesOf engine4)) Ms /\
    Forall2 (summarises (anomalousNodesOf engine4)) comps Ms /\
    descendingArea comps.
Proof.
  apply (findConnectedComponentsDFS_returns_the_classes engine4 100). vm_compute. lia.
Defined.

(** X18.  The components account for the anomalous leaves: for either
    finder, the areas of the components add up, in [int64_t] arithmetic, to
    [getTotalAnomalousArea], and, when there are fewer than 2^31 anomalous
    leaves, the components hold [countAnomalousRegions] node ids in all. *)
Theorem components_account_for_the_anomalous_leaves (qe : QueryEngine.t) (fuel : nat) :
  (length (anomalousNodesOf qe) * length (anomalousNodesOf qe) < fuel)%nat ->
  Z.of_nat (length (anomalousNodesOf qe)) < 2 ^ 31 ->
  exists dsu dfs,
    QueryEngine.findConnectedComponents fuel qe = Some dsu /\
    QueryEngine.findConnectedComponentsDFS fuel qe = Some dfs /\
    int64 (Zsum (map QueryEngine.totalArea dsu)) = QueryEngine.getTotalAnomalousArea qe /\
    int64 (Zsum (map QueryEngine.totalArea dfs)) = QueryEngine.getTotalAnomalousArea qe /\
    Z.of_nat (length (mjoin (map QueryEngine.nodeIndices dsu)))
      = QueryEngine.countAnomalousRegions qe /\
    Z.of_nat (length (mjoin (map QueryEngine.nodeIndices dfs)))
      = QueryEngine.countAnomalousRegions qe.
Proof.
  intros Hfuel Hn.
  destruct (finders_return qe fuel Hfuel) as (dsu & dfs & E1 & E2 & C1 & C2).
  exists dsu, dfs. split; [exact E1|]. split; [exact E2|].
  rewrite getTotalAnomalousArea_spec, (countAnomalousRegions_anomalousNodes qe Hn).
  rewrite (classes_totalArea _ _ C1), (classes_totalArea _ _ C2).
  rewrite (classes_count _ _ C1), (classes_count _ _ C2). auto.
Qed.

Lemma components_account_for_the_anomalous_leaves_witness :
  exists dsu dfs,
    QueryEngine.findConnectedComponents 100 engine4 = Some dsu /\
    QueryEngine.findConnectedComponentsDFS 100 engine4 = Some dfs /\
    int64 (Zsum (map QueryEngine.totalArea dsu)) = 12 /\
    int64 (Zsum (map QueryEngine.totalArea dfs)) = 12 /\
    Z.of_nat (length (mjoin (map QueryEngine.nodeIndices dsu))) = 3 /\
    Z.of_nat (length (mjoin (map QueryEngine.nodeIndices dfs))) = 3.
Proof.
  assert (A : QueryEngine.getTotalAnomalousArea engine4 = 12) by (vm_compute; reflexivity).
  assert (B : QueryEngine.countAnomalousRegions engine4 = 3) by (vm_compute; reflexivity).
  rewrite <- A, <- B.
  apply (components_account_for_the_anomalous_leaves engine4 100); vm_compute; [lia|reflexivity].
Defined.

(** X19.  [findLargestConnectedRegion] returns, with fuel above the square
    of the number of anomalous leaves: the default component (id -1, no
    node, area 0) when there is no anomalous leaf, and otherwise a component
    of [findConnectedComponents] that no other component exceeds in area. *)
Theorem findLargestConnectedRegion_is_largest (qe : QueryEngine.t) (fuel : nat) :
  (length (anomalousNodesOf qe) * length (anomalousNodesOf qe) < fuel)%nat ->
  exists comps largest,
    QueryEngine.findConnectedComponents fuel qe = Some comps /\
    QueryEngine.findLargestConnectedRegion fuel qe = Some largest /\
    (anomalousNodesOf qe = [] -> largest = QueryEngine.defaultComponent) /\
    (anomalousNodesOf qe <> [] ->
     largest ∈ comps /\
     forall c, c ∈ comps -> QueryEngine.totalArea c <= QueryEngine.totalArea largest).
Proof.
  intros Hfuel.
  destruct (finders_return qe fuel Hfuel) as (dsu & _ & E & _ & C & _).
  unfold QueryEngine.findLargestConnectedRegion. rewrite E. cbn [mbind option_bind].
  exists dsu. eexists. split; [reflexivity|]. split; [reflexivity|]. split.
  - intros Hnil. destruct dsu as [|c dsu]; [reflexivity|]. exfalso.
    destruct C as (_ & Ms & (Cl & _ & Cov) & F). rewrite Hnil in Cov.
    inversion F as [|? M ? Ms' _ _]; subst Ms.
    apply Forall_cons in Cl. destruct Cl as [Cl _]. apply is_class_nonempty in Cl.
    destruct M as [|u M]; [congruence|].
    specialize (Cov u). cbn [length] in Cov.
    assert (u < 0)%nat; [|lia]. apply Cov. apply list_elem_of_join.
    exists (u :: M). split; left.
  - intros Hne. pose proof (classes_nonempty _ _ C Hne) as Hd.
    destruct dsu as [|c dsu]; [congruence|]. split; [left|].
    destruct C as ((F & _) & _). intros d Hd'. apply elem_of_cons in Hd'.
    destruct Hd' as [->|Hd']; [lia|]. rewrite Forall_forall in F. apply F. exact Hd'.
Qed.

Lemma findLargestConnectedRegion_is_largest_witness :
  exists comps largest,
    QueryEngine.findConnectedComponents 100 engine4 = Some comps /\
    QueryEngine.findLargestConnectedRegion 100 engine4 = Some largest /\
    largest ∈ comps /\
    forall c, c ∈ comps -> QueryEngine.totalArea c <= QueryEngine.totalArea largest.
Proof.
  destruct (findLargestConnectedRegion_is_largest engine4 100)
    as (comps & largest & E1 & E2 & _ & H).
  - vm_compute. lia.
  - exists comps, largest. split; [exact E1|]. split; [exact E2|].
    apply H. vm_compute. discriminate.
Defined.

(** ** RegionTree::build with a minimum size that is not positive *)

Section TreeBuildNonPositive.

Import RegionTree.

(** No region is small enough to be a leaf, and the first quadrant of a
    region is always valid: the recursion never ends. *)
Lemma buildRecursive_nonpositive fuel : forall region d p tr,
  good region -> minRegionSize tr <= 0 -> buildRecursive fuel region d p tr = None.
Proof.
  induction fuel as [|fuel IH]; intros region d p tr Hg Hms; [reflexivity|].
  cbn [buildRecursive]. cbv zeta.
  set (pre := nodes tr).
  set (tra := emplace_back tr).
  set (node := refTo tra (length pre)).
  set (trb := writeVia node (initNode (Z.of_nat (length pre)) region d p) tra).
  set (trc := computeNodeStats node region trb).
  set (trd := countNode d trc).
  pose proof (emplace_back_nodes tr) as Ea. fold tra pre in Ea.
  pose proof (emplace_back_frame tr) as (Aps & Ams & Ad & Amv & Afit).
  fold tra pre in Aps, Ams, Ad, Amv, Afit.
  assert (Hst : ref_storage node = moves tra) by reflexivity.
  assert (Hix : ref_index node = length pre) by reflexivity.
  pose proof (writeVia_frame node (initNode (Z.of_nat (length pre)) region d p) tra)
    as (Bps & Bms & Bmv & Bcap). fold trb in Bps, Bms, Bmv, Bcap.
  destruct (writeVia_live node (initNode (Z.of_nat (length pre)) region d p) tra Hst)
    as [Bn Bd]. fold trb in Bn, Bd.
  rewrite Ea, Hix, alter_middle in Bn.
  destruct (computeNodeStats_spec node region trb pre _ ltac:(congruence) Hix Bn)
    as (X & Cn & CbX & CcX & Cps & Cms & Cmv & Ccap & Cd).
  fold trc in Cn, Cps, Cms, Cmv, Ccap, Cd.
  assert (Dms : minRegionSize trd = minRegionSize tr) by (cbn; congruence).
  destruct (good_dims region Hg) as [-> ->]. rewrite Dms.
  pose proof Hg as (Hv & _). apply isValid_spec in Hv. destruct Hv as [Hr Hc].
  replace (regionHeight region <=? minRegionSize tr) with false
    by (symmetry; apply Z.leb_gt; unfold regionHeight; lia).
  replace (regionWidth region <=? minRegionSize tr) with false
    by (symmetry; apply Z.leb_gt; unfold regionWidth; lia).
  cbn [orb].
  destruct (splitRegion_good region Hg) as (q0 & q1 & q2 & q3 & Hsplit & V0 & Hq & _).
  rewrite Hsplit. cbn [zip zip_with fold_left].
  apply Forall_cons in Hq. destruct Hq as [Hq0 _]. destruct (Hq0 V0) as [G0 _].
  unfold buildChild at 4. cbn [mbind option_bind fst snd]. rewrite V0.
  rewrite (IH q0 _ _ trd G0 ltac:(rewrite Dms; exact Hms)).
  cbn [mbind option_bind]. reflexivity.
Qed.

End TreeBuildNonPositive.

(** X20.  [RegionTree::build] needs a positive minimum size.  On a built
    index of a supported raster and for [minSize <= 0], [build] does not
    return, whatever the fuel: for 0 it divides by zero, and for a negative
    size either the reservation is negative ([std::length_error]) or the
    recursion never reaches a leaf, no region being that small and the
    first quadrant of a region being always valid. *)
Theorem build_needs_positive_minSize
    (ps0 : PrefixSum.t) (image : Matrix) (h w : nat) (tr0 : RegionTree.t)
    (minSize : Z) (fuel : nat) :
  rectangular image h w -> supported h w -> minSize <= 0 ->
  RegionTree.build fuel tr0 (Some (PrefixSum.build ps0 image)) minSize = None.
Proof.
  intros Hrect Hsup Hm. pose proof Hsup as (Hh & Hw & Mh & Mw).
  unfold MAX_IMAGE_DIM in Mh, Mw.
  pose proof (build_indexes ps0 image h w Hrect Hh Hw (supported_machine_sized h w Hsup))
    as (Hb & Hhe & Hwi & _).
  unfold RegionTree.build. rewrite Hb, Hhe, Hwi. cbn [negb].
  destruct (minSize =? 0); [reflexivity|].
  match goal with |- (if ?c then _ else _) = _ => destruct c end; [reflexivity|].
  cbv zeta.
  rewrite (int32_small (Z.of_nat h - 1)), (int32_small (Z.of_nat w - 1))
    by (unfold in_int32; lia).
  rewrite buildRecursive_nonpositive; [reflexivity| |].
  - unfold good. rewrite isValid_spec. cbn [row1 row2 col1 col2]. lia.
  - match goal with |- RegionTree.minRegionSize (RegionTree.reserve ?n ?t) <= 0 =>
      destruct (reserve_spec n t) as (_ & _ & -> & _) end.
    cbn. exact Hm.
Qed.

Lemma build_needs_positive_minSize_witness :
  RegionTree.build 1000 RegionTree.init (Some (PrefixSum.build PrefixSum.init sample3x3)) (-1)
  = None.
Proof.
  apply (build_needs_positive_minSize PrefixSum.init sample3x3 3 3 RegionTree.init (-1) 1000
           sample3x3_rectangular).
  - unfold supported, MAX_IMAGE_DIM. lia.
  - lia.
Defined.

(** ** The shape of a built tree *)

Section TreeShape.

Import RegionTree.

(** The child [j] of [X] and the nodes [b] stored from index [a] on: no
    child and no node, or the child is [a] and [b] is its subtree. *)
Definition kidOf (sub : nat -> Z -> Z -> list RegionTreeNode -> Prop)
    (X : RegionTreeNode) (j a : nat) (b : list RegionTreeNode) : Prop :=
  (child X j = -1 /\ b = [])
  \/ (child X j = Z.of_nat a /\ b <> [] /\ sub a (depth X + 1) (id X) b).

(** [new], stored from index [i] on, is a subtree of at most [d] levels:
    its first node has the id [i], the depth [dep] and the parent [par],
    and covers the regions of all the others; it is a leaf alone, or it is
    followed by the subtrees of its four children, in their order. *)
Fixpoint block (d : nat) (i : nat) (dep par : Z) (new : list RegionTreeNode) : Prop :=
  match d with
  | O => False
  | S d =>
      exists X rest,
        new = X :: rest
        /\ id X = Z.of_nat i /\ depth X = dep /\ parent X = par
        /\ Forall (fun n => subregion (bounds n) (bounds X)) rest
        /\ ((isLeaf X = true /\ rest = [])
            \/ (isLeaf X = false
                /\ exists bs,
                     length bs = 4%nat /\ rest = mjoin bs
                     /\ forall j b, bs !! j = Some b ->
                          kidOf (block d) X j (S i + length (mjoin (take j bs))) b))
  end.

(** The counters agree with the vector so far. *)
Definition countersFit (tr : t) : Prop :=
  0 <= nodeCount tr <= Z.of_nat (length (nodes tr))
  /\ 0 <= leafCount tr <= Z.of_nat (length (nodes tr)).

(** The number of nodes that [isLeaf] accepts. *)
Definition leavesIn (ns : list RegionTreeNode) : Z :=
  Z.of_nat (length (filter (fun n => isLeaf n = true) ns)).

(** No write was lost, and the nodes can be countersFit in an [int]. *)
Definition sound (tr : t) : Prop :=
  dangling tr = false /\ Z.of_nat (length (nodes tr)) < 2 ^ 31.

(** What a call of [buildRecursive] that returns a sound tree has appended. *)
Definition recurse_shape (d : nat) (recurse : Region -> Z -> Z -> t -> option (Z * t))
    : Prop :=
  forall q dep p tr idx tr',
    good q -> 0 <= dep -> dep + regionHeight q <= 2 ^ 30 ->
    1 <= minRegionSize tr -> countersFit tr ->
    recurse q dep p tr = Some (idx, tr') -> sound tr' ->
    exists new,
      nodes tr' = nodes tr ++ new
      /\ block d (length (nodes tr)) dep p new
      /\ nodeCount tr' = nodeCount tr + Z.of_nat (length new)
      /\ leafCount tr' = leafCount tr + leavesIn new.

Lemma leavesIn_app a b : leavesIn (a ++ b) = leavesIn a + leavesIn b.
Proof. unfold leavesIn. rewrite filter_app, length_app. lia. Qed.

Lemma leavesIn_bounds a : 0 <= leavesIn a <= Z.of_nat (length a).
Proof. unfold leavesIn. pose proof (length_filter (fun n => isLeaf n = true) a). lia. Qed.

Lemma counters_frame_writeVia node upd tr :
  nodeCount (writeVia node upd tr) = nodeCount tr
  /\ leafCount (writeVia node upd tr) = leafCount tr.
Proof. unfold writeVia. destruct (_ =? _)%nat; split; reflexivity. Qed.

Lemma counters_frame_emplace_back tr :
  nodeCount (emplace_back tr) = nodeCount tr /\ leafCount (emplace_back tr) = leafCount tr.
Proof. unfold emplace_back. destruct (_ <? _)%nat; split; reflexivity. Qed.

Lemma computeNodeStats_fields node region tr pre X :
  ref_storage node = moves tr -> ref_index node = length pre ->
  nodes tr = pre ++ [X] ->
  exists X',
    nodes (computeNodeStats node region tr) = pre ++ [X']
    /\ id X' = id X /\ depth X' = depth X /\ parent X' = parent X
    /\ bounds X' = bounds X /\ children X' = children X
    /\ nodeCount (computeNodeStats node region tr) = nodeCount tr
    /\ leafCount (computeNodeStats node region tr) = leafCount tr.
Proof.
  intros Hst Hix Hn. unfold computeNodeStats.
  destruct (prefixSum tr) as [ps|] eqn:Eps; [|exists X; repeat split; auto].
  destruct (negb (PrefixSum.built ps)); [exists X; repeat split; auto|].
  destruct (PrefixSum.queryStatsR ps region) as [s|];
    [|exists X; repeat split; auto].
  destruct (counters_frame_writeVia node (setStats s) tr) as [K1 K2].
  destruct (writeVia_live node (setStats s) tr Hst) as [Wn Wd].
  exists (setStats s X). rewrite Wn, Hn, Hix, alter_middle.
  repeat split; auto.
Qed.

Lemma block_mono d : forall d' i dep par new,
  (d <= d')%nat -> block d i dep par new -> block d' i dep par new.
Proof.
  induction d as [|d IH]; intros d' i dep par new Hd B; [destruct B|].
  destruct d' as [|d']; [lia|].
  destruct B as (X & rest & E & I1 & I2 & I3 & F & S).
  exists X, rest. do 5 (split; [assumption|]).
  destruct S as [S|(L & bs & Lb & Er & K)]; [left; exact S|right].
  split; [exact L|]. exists bs. do 2 (split; [assumption|]).
  intros j b Hb. destruct (K j b Hb) as [K1|(K1 & K2 & K3)]; [left; exact K1|right].
  split; [exact K1|]. split; [exact K2|]. apply (IH d'); [lia|exact K3].
Qed.

End TreeShape.

Section TreeShapeBuild.

Import RegionTree.

(** The invariant of the loop over the four quadrants, for the call that
    created the node [X0] after the nodes [pre]: the node, as it is now,
    is followed by the subtrees [bs] of the [m] quadrants done so far. *)
Definition loopShape (d : nat) (pre : list RegionTreeNode) (X0 : RegionTreeNode)
    (ms nc lc : Z) (m : nat) (tr : t) : Prop :=
  exists X bs,
    nodes tr = pre ++ X :: mjoin bs
    /\ length bs = m
    /\ id X = id X0 /\ depth X = depth X0 /\ parent X = parent X0
    /\ bounds X = bounds X0 /\ length (children X) = 4%nat
    /\ (forall j, (m <= j)%nat -> child X j = -1)
    /\ ((0 < m)%nat -> 0 <= child X 0)
    /\ (forall j b, bs !! j = Some b ->
          kidOf (block d) X j (S (length pre) + length (mjoin (take j bs))) b)
    /\ minRegionSize tr = ms
    /\ nodeCount tr = nc + Z.of_nat (length (mjoin bs))
    /\ leafCount tr = lc + leavesIn (mjoin bs).

Lemma kidOf_fields sub X X' j a b :
  child X' j = child X j -> depth X' = depth X -> id X' = id X ->
  kidOf sub X j a b -> kidOf sub X' j a b.
Proof. unfold kidOf. intros -> -> ->. tauto. Qed.

Lemma join_snoc {A : Type} (bs : list (list A)) (b : list A) :
  mjoin (bs ++ [b]) = mjoin bs ++ b.
Proof. rewrite join_app. cbn. rewrite app_nil_r. reflexivity. Qed.

Lemma buildChild_shape d recurse pre node X0 ms nc lc m q tr tr2 :
  recurse_ok recurse -> recurse_shape d recurse ->
  ref_index node = length pre -> id X0 = Z.of_nat (length pre) -> (m < 4)%nat ->
  0 <= depth X0 -> 1 <= ms ->
  0 <= nc <= Z.of_nat (length pre) + 1 -> 0 <= lc <= Z.of_nat (length pre) + 1 ->
  (isValid q = true -> good q /\ depth X0 + 1 + regionHeight q <= 2 ^ 30) ->
  (m = 0%nat -> isValid q = true) ->
  (sound tr -> loopShape d pre X0 ms nc lc m tr) ->
  buildChild recurse node (id X0) (depth X0) (Some tr) (m, q) = Some tr2 ->
  sound tr2 -> loopShape d pre X0 ms nc lc (S m) tr2.
Proof.
  intros Hok Hrec Hix Hid Hm Hdep Hms Hnc Hlc Hq Hfirst Hinv Hstep [D2 N2].
  unfold buildChild in Hstep. cbn [mbind option_bind fst snd] in Hstep.
  destruct (isValid q) eqn:V.
  - destruct (Hq eq_refl) as [Gq Hh].
    destruct (recurse q (int32 (depth X0 + 1)) (id X0) tr) as [[cidx tr1]|] eqn:R;
      [|discriminate].
    cbn [mbind option_bind fst snd] in Hstep. injection Hstep as <-.
    destruct (Hok _ _ _ _ _ _ Gq R)
      as [Hc (new & Gn & Glen & Gin & Gps & Gms & Gmv & Gd & Gcover & Gfit)].
    destruct (counters_frame_writeVia node (setChild m cidx) tr1) as [Wnc Wlc].
    pose proof (writeVia_frame node (setChild m cidx) tr1) as (_ & Wms & _ & _).
    destruct (Nat.eq_dec (ref_storage node) (moves tr1)) as [Elive|Estale];
      [|destruct (writeVia_stale node (setChild m cidx) tr1 Estale) as [_ Wd];
        congruence].
    destruct (writeVia_live node (setChild m cidx) tr1 Elive) as [Wn Wd].
    rewrite Wd in D2. rewrite Wn, length_alter in N2.
    assert (D : dangling tr = false).
    { destruct (dangling tr) eqn:D; [|reflexivity]. rewrite (Gd eq_refl) in D2.
      discriminate. }
    assert (N : Z.of_nat (length (nodes tr)) < 2 ^ 31).
    { rewrite Gn, length_app in N2. lia. }
    destruct (Hinv (conj D N))
      as (X & bs & Hn & Hlen & I1 & I2 & I3 & I4 & I5 & I6 & I7 & I8 & I9 & I10 & I11).
    assert (Hcounted : countersFit tr).
    { unfold countersFit. rewrite I10, I11, Hn, length_app. cbn [length].
      pose proof (leavesIn_bounds (mjoin bs)). lia. }
    rewrite (int32_small (depth X0 + 1)) in R
      by (unfold in_int32; destruct Gq as (Vq & _); apply isValid_spec in Vq;
          unfold regionHeight in Hh; lia).
    destruct (Hrec q (depth X0 + 1) (id X0) tr cidx tr1 Gq ltac:(lia) Hh
                ltac:(rewrite I9; exact Hms) Hcounted R (conj D2 N2))
      as (new' & Gn' & Bnew & Cn & Cl).
    assert (new' = new) by (rewrite Gn in Gn'; apply app_inv_head in Gn'; congruence).
    subst new'.
    exists (setChild m cidx X), (bs ++ [new]).
    rewrite Wn, Gn, Hn, Hix, join_snoc. rewrite <- List.app_assoc. cbn [app].
    rewrite alter_middle.
    split; [reflexivity|]. split; [rewrite length_app; cbn; lia|].
    do 4 (split; [assumption|]).
    split; [cbn; rewrite length_insert; exact I5|].
    split; [intros j Hj; rewrite child_setChild_ne by lia; apply I6; lia|].
    split.
    { intros _. destruct (Nat.eq_dec m 0%nat) as [->|Hne].
      - rewrite child_setChild_eq by lia. lia.
      - rewrite child_setChild_ne by lia. apply I7. lia. }
    split.
    { intros j b Hb. destruct (Nat.lt_ge_cases j (length bs)) as [Hj|Hj].
      - rewrite lookup_app_l in Hb by exact Hj.
        rewrite take_app_le by lia.
        eapply kidOf_fields; [| | |exact (I8 j b Hb)]; try reflexivity.
        apply child_setChild_ne. lia.
      - rewrite lookup_app_r in Hb by exact Hj.
        destruct (j - length bs)%nat as [|k] eqn:Ek; [|destruct k; discriminate].
        cbn in Hb. injection Hb as <-.
        assert (j = m) by lia. subst j.
        rewrite take_app_ge by lia. replace (m - length bs)%nat with 0%nat by lia.
        rewrite take_0, app_nil_r. right.
        rewrite child_setChild_eq by lia. split; [|split].
        + rewrite Hc, Hn, length_app. cbn [length]. f_equal. lia.
        + destruct new; [cbn in Glen; lia|discriminate].
        + cbn [setChild depth id]. rewrite I2, I1.
          replace (S (length pre) + length (mjoin bs))%nat with (length (nodes tr))
            by (rewrite Hn, length_app; cbn [length]; lia).
          exact Bnew. }
    split; [congruence|].
    rewrite length_app, leavesIn_app. split; lia.
  - injection Hstep as <-.
    destruct (Hinv (conj D2 N2))
      as (X & bs & Hn & Hlen & I1 & I2 & I3 & I4 & I5 & I6 & I7 & I8 & I9 & I10 & I11).
    exists X, (bs ++ [[]]). rewrite join_snoc, app_nil_r.
    split; [exact Hn|]. split; [rewrite length_app; cbn; lia|].
    do 5 (split; [assumption|]).
    split; [intros j Hj; apply I6; lia|].
    split; [intros _; destruct (Nat.eq_dec m 0%nat) as [E|E];
            [specialize (Hfirst E); discriminate | apply I7; lia]|].
    split; [|auto].
    intros j b Hb. destruct (Nat.lt_ge_cases j (length bs)) as [Hj|Hj].
    + rewrite lookup_app_l in Hb by exact Hj. rewrite take_app_le by lia.
      exact (I8 j b Hb).
    + rewrite lookup_app_r in Hb by exact Hj.
      destruct (j - length bs)%nat as [|k] eqn:Ek; [|destruct k; discriminate].
      cbn in Hb. injection Hb as <-. left. split; [apply I6; lia|reflexivity].
Qed.

Lemma buildChildren_shape d recurse pre node X0 ms nc lc :
  recurse_ok recurse -> recurse_shape d recurse ->
  ref_index node = length pre -> id X0 = Z.of_nat (length pre) ->
  0 <= depth X0 -> 1 <= ms ->
  0 <= nc <= Z.of_nat (length pre) + 1 -> 0 <= lc <= Z.of_nat (length pre) + 1 ->
  forall qs m tr tr',
    Forall (fun q => isValid q = true ->
                     good q /\ depth X0 + 1 + regionHeight q <= 2 ^ 30) qs ->
    (m = 0%nat -> isValid (default (mkRegion 0 0 0 0) (head qs)) = true) ->
    (m + length qs <= 4)%nat ->
    (sound tr -> loopShape d pre X0 ms nc lc m tr) ->
    fold_left (buildChild recurse node (id X0) (depth X0)) (zip (seq m (length qs)) qs)
              (Some tr) = Some tr' ->
    sound tr' -> loopShape d pre X0 ms nc lc (m + length qs) tr'.
Proof.
  intros Hok Hrec Hix Hid Hdep Hms Hnc Hlc.
  induction qs as [|q qs IH]; intros m tr tr' Hqs Hfirst Hm Hinv Hfold Hs.
  - cbn in Hfold. injection Hfold as <-. rewrite Nat.add_0_r. auto.
  - cbn [length seq zip zip_with fold_left] in Hfold. cbn [length] in Hm.
    apply Forall_cons in Hqs. destruct Hqs as [Hq Hqs].
    destruct (buildChild recurse node (id X0) (depth X0) (Some tr) (m, q))
      as [tr2|] eqn:Hstep; [|rewrite fold_buildChild_None in Hfold; discriminate].
    cbn [length]. replace (m + S (length qs))%nat with (S m + length qs)%nat by lia.
    apply (IH (S m) tr2 tr' Hqs ltac:(lia) ltac:(lia)); [|exact Hfold|exact Hs].
    intros Hs2.
    eapply (buildChild_shape d recurse pre node X0 ms nc lc m q tr tr2); eauto. lia.
Qed.

End TreeShapeBuild.

Section TreeShapeRecursion.

Import RegionTree.

(** Every call of [buildRecursive] that returns a sound tree has appended a
    subtree. *)
Lemma buildRecursive_shape fuel : recurse_shape fuel (buildRecursive fuel).
Proof.
  induction fuel as [|fuel IH];
    intros region d p tr idx tr' Hg Hd Hh Hms Hcnt Hrun [Ds Ns]; [discriminate|].
  pose proof (buildRecursive_grows (S fuel) region d p tr idx tr' Hg Hrun)
    as [_ (new0 & Wn & Wlen & Win & _ & _ & _ & Wd & _ & _)].
  cbn [buildRecursive] in Hrun. cbv zeta in Hrun.
  set (pre := nodes tr) in *.
  set (tra := emplace_back tr) in *.
  set (node := refTo tra (length pre)) in *.
  set (trb := writeVia node (initNode (Z.of_nat (length pre)) region d p) tra) in *.
  set (trc := computeNodeStats node region trb) in *.
  set (trd := countNode d trc) in *.
  pose proof (emplace_back_nodes tr) as Ea. fold tra pre in Ea.
  pose proof (emplace_back_frame tr) as (Aps & Ams & Ad & Amv & Afit).
  fold tra pre in Aps, Ams, Ad, Amv, Afit.
  destruct (counters_frame_emplace_back tr) as [Anc Alc]. fold tra in Anc, Alc.
  assert (Hst : ref_storage node = moves tra) by reflexivity.
  assert (Hix : ref_index node = length pre) by reflexivity.
  pose proof (writeVia_frame node (initNode (Z.of_nat (length pre)) region d p) tra)
    as (Bps & Bms & Bmv & Bcap). fold trb in Bps, Bms, Bmv, Bcap.
  destruct (counters_frame_writeVia node (initNode (Z.of_nat (length pre)) region d p) tra)
    as [Bnc Blc]. fold trb in Bnc, Blc.
  destruct (writeVia_live node (initNode (Z.of_nat (length pre)) region d p) tra Hst)
    as [Bn Bd]. fold trb in Bn, Bd.
  rewrite Ea, Hix, alter_middle in Bn.
  destruct (computeNodeStats_fields node region trb pre _ ltac:(congruence) Hix Bn)
    as (X & Cn & CiX & CdX & CpX & CbX & CcX & Cnc & Clc).
  fold trc in Cn, Cnc, Clc.
  destruct (computeNodeStats_spec node region trb pre _ ltac:(congruence) Hix Bn)
    as (X1 & Cn1 & _ & _ & _ & Cms & _ & _ & Cd).
  fold trc in Cn1, Cms, Cd.
  cbn [initNode id depth parent bounds children] in CiX, CdX, CpX, CbX, CcX.
  assert (Dn : nodes trd = pre ++ [X]) by exact Cn.
  assert (Dms : minRegionSize trd = minRegionSize tr) by (cbn; congruence).
  assert (Dd : dangling trd = dangling tr) by (cbn; congruence).
  destruct Hcnt as [Hnc Hlc]. fold pre in Hnc, Hlc.
  assert (Nn : Z.of_nat (length pre) + Z.of_nat (length new0) < 2 ^ 31).
  { rewrite Wn, length_app in Ns. lia. }
  assert (Dnc : nodeCount trd = nodeCount tr + 1).
  { cbn [trd countNode nodeCount]. rewrite Cnc, Bnc, Anc.
    apply int32_small. unfold in_int32. lia. }
  assert (Dlc : leafCount trd = leafCount tr) by (cbn; congruence).
  destruct (good_dims region Hg) as [Eh Ew]. rewrite Eh, Ew, Dms in Hrun.
  destruct ((regionHeight region <=? minRegionSize tr)
            || (regionWidth region <=? minRegionSize tr)) eqn:Leaf.
  - (* a leaf *)
    injection Hrun as <- <-. exists [X].
    cbn [nodes nodeCount leafCount countLeaf]. fold pre.
    assert (L : isLeaf X = true) by (unfold isLeaf, child; rewrite CcX; reflexivity).
    split; [exact Dn|]. split.
    + cbn [block]. exists X, []. split; [reflexivity|]. do 3 (split; [assumption|]).
      split; [constructor|]. left. split; [exact L|reflexivity].
    + split; [cbn [length]; lia|].
      unfold leavesIn. rewrite filter_cons_True by exact L. cbn [length filter].
      rewrite Dlc, filter_nil. cbn [length].
      rewrite int32_small by (unfold in_int32; lia). lia.
  - (* the recursive case *)
    match type of Hrun with (?o ≫= _) = _ => destruct o as [tre|] eqn:Hfold end;
      [|discriminate].
    cbn [mbind option_bind] in Hrun. injection Hrun as <- <-.
    apply orb_false_elim in Leaf as [L1 L2]. apply Z.leb_gt in L1, L2.
    destruct (splitRegion_good region Hg) as (q0 & q1 & q2 & q3 & Hsplit & V0 & Hq & _).
    pose proof (splitRegion_shorter region Hg ltac:(lia)) as Hshort.
    rewrite Hsplit in Hshort, Hfold.
    assert (Hqs : Forall (fun q => isValid q = true ->
                            good q /\ depth X + 1 + regionHeight q <= 2 ^ 30)
                    [q0; q1; q2; q3]).
    { rewrite CdX.
      assert (G : forall q, (isValid q = true -> good q /\ subregion q region) ->
                  regionHeight q < regionHeight region ->
                  isValid q = true -> good q /\ d + 1 + regionHeight q <= 2 ^ 30).
      { intros q Q S V. split; [apply (Q V)|lia]. }
      rewrite !Forall_cons in Hq, Hshort.
      destruct Hq as (Q0 & Q1 & Q2 & Q3 & _).
      destruct Hshort as (S0 & S1 & S2 & S3 & _).
      repeat (apply Forall_cons; split); try (apply Forall_nil; exact I);
        apply G; assumption. }
    assert (Hinv0 : sound trd ->
              loopShape fuel pre X (minRegionSize tr) (nodeCount tr + 1) (leafCount tr)
                        0 trd).
    { intros _. exists X, []. cbn [mjoin list_join length]. rewrite !Z.add_0_r.
      split; [exact Dn|]. do 5 (split; [reflexivity|]).
      split; [rewrite CcX; reflexivity|].
      split; [intros j _; unfold child; rewrite CcX;
              do 4 (destruct j as [|j]; [reflexivity|]); reflexivity|].
      split; [lia|]. split; [intros j b Hb; discriminate|].
      split; [exact Dms|]. split; [exact Dnc|]. exact Dlc. }
    rewrite <- CiX, <- CdX in Hfold.
    pose proof (buildChildren_shape fuel (buildRecursive fuel) pre node X
                  (minRegionSize tr) (nodeCount tr + 1) (leafCount tr)
                  (buildRecursive_grows fuel) IH Hix CiX ltac:(lia) Hms
                  ltac:(lia) ltac:(lia)
                  [q0; q1; q2; q3] 0%nat trd tre Hqs ltac:(intros _; exact V0)
                  ltac:(cbn; lia) Hinv0 Hfold (conj Ds Ns))
      as (X' & bs & En & Elen & I1 & I2 & I3 & I4 & I5 & I6 & I7 & I8 & I9 & I10 & I11).
    cbn [Nat.add length] in Elen, I7.
    assert (L : isLeaf X' = false).
    { unfold isLeaf. specialize (I7 ltac:(lia)).
      replace (child X' 0 =? -1) with false by (symmetry; apply Z.eqb_neq; lia).
      reflexivity. }
    fold pre in Wn. rewrite En in Wn. apply app_inv_head in Wn. subst new0.
    exists (X' :: mjoin bs). split; [exact En|]. split.
    + cbn [block]. exists X', (mjoin bs). split; [reflexivity|].
      split; [congruence|]. split; [congruence|]. split; [congruence|]. split.
      * apply Forall_cons in Win. destruct Win as [_ Win].
        eapply Forall_impl; [exact Win|]. intros n [_ Sn]. rewrite I4, CbX. exact Sn.
      * right. split; [exact L|]. exists bs. split; [exact Elen|].
        split; [reflexivity|]. intros j b Hb.
        specialize (I8 j b Hb). fold pre. exact I8.
    + assert (E : leavesIn (X' :: mjoin bs) = leavesIn (mjoin bs)).
      { unfold leavesIn. rewrite filter_cons_False by congruence. reflexivity. }
      rewrite E. cbn [length]. split; lia.
Qed.

End TreeShapeRecursion.

(** ** RegionTree::queryRegion on a tree of that shape *)

Section QueryRegion.

Import RegionTree.

Variable ns : list RegionTreeNode.

Variable queryRegion : Region.

(** The leaves that the query is to return. *)
Definition hit (n : RegionTreeNode) : bool :=
  isLeaf n && intersects (bounds n) queryRegion.

Definition hits (l : list RegionTreeNode) : list RegionTreeNode :=
  filter (fun n => hit n = true) l.

(** The index [idx] is in the queue for the subtree [b], stored from there on. *)
Definition queued (idx : Z) (b : list RegionTreeNode) : Prop :=
  b <> [] /\
  exists a d dep par pre post,
    idx = Z.of_nat a /\ block d a dep par b
    /\ ns = pre ++ b ++ post /\ length pre = a.

Lemma hits_app a b : hits (a ++ b) = hits a ++ hits b.
Proof. apply filter_app. Qed.

Lemma hits_outside X rest :
  intersects (bounds X) queryRegion = false ->
  Forall (fun n => subregion (bounds n) (bounds X)) rest ->
  hits (X :: rest) = [].
Proof.
  intros HX F. unfold hits.
  rewrite filter_cons_False by (unfold hit; rewrite HX, andb_false_r; discriminate).
  induction F as [|n rest Hn _ IH]; [reflexivity|].
  rewrite filter_cons_False; [exact IH|].
  unfold hit. intros H. apply andb_prop in H as [_ H].
  unfold intersects in HX, H. unfold subregion in Hn.
  apply negb_true_iff in H. apply negb_false_iff in HX.
  rewrite !orb_false_iff in H. rewrite !orb_true_iff in HX.
  rewrite !Z.ltb_ge in H. rewrite !Z.ltb_lt in HX.
  rewrite !Z.gtb_ltb in H, HX. rewrite !Z.ltb_ge in H. rewrite !Z.ltb_lt in HX. lia.
Qed.

Lemma join_nonempty (Bs : list (list RegionTreeNode)) :
  Forall (fun b => b <> []) Bs -> length (mjoin Bs) = 0%nat -> Bs = [].
Proof.
  intros F L. destruct Bs as [|b Bs]; [reflexivity|].
  apply Forall_cons in F. destruct F as [Hb _].
  destruct b; [congruence|]. cbn in L. discriminate.
Qed.

(** What [enqueueChildren] appends, child by child. *)
Lemma enqueueChildren_loop X : forall js bs queue,
  Forall2 (fun j b => (child X j = -1 /\ b = []) \/ (0 <= child X j /\ queued (child X j) b))
          js bs ->
  exists ks Bk,
    fold_left (fun q i => if child X i >=? 0 then q ++ [child X i] else q) js queue
    = queue ++ ks
    /\ Forall2 queued ks Bk /\ mjoin Bk = mjoin bs.
Proof.
  intros js bs queue F. revert queue.
  induction F as [|j b js bs Hjb _ IH]; intros queue.
  - exists [], []. rewrite app_nil_r. repeat split. constructor.
  - cbn [fold_left]. destruct Hjb as [[Hc ->]|[Hc Hq]].
    + rewrite Hc. cbn. exact (IH queue).
    + replace (child X j >=? 0) with true by (symmetry; apply Z.geb_le; lia).
      destruct (IH (queue ++ [child X j])) as (ks & Bk & E & Fk & J).
      exists (child X j :: ks), (b :: Bk). rewrite E, <- List.app_assoc.
      split; [reflexivity|]. split; [constructor; assumption|].
      change (b ++ mjoin Bk = b ++ mjoin bs). rewrite J. reflexivity.
Qed.

Lemma kids_queued d a pre post X bs :
  ns = pre ++ (X :: mjoin bs) ++ post -> length pre = a -> length bs = 4%nat ->
  (forall j b, bs !! j = Some b ->
     kidOf (block d) X j (S a + length (mjoin (take j bs))) b) ->
  Forall2 (fun j b => (child X j = -1 /\ b = []) \/ (0 <= child X j /\ queued (child X j) b))
          [0; 1; 2; 3]%nat bs.
Proof.
  intros Hns Hpre Hlen K. apply Forall2_same_length_lookup_2.
  - cbn. symmetry. exact Hlen.
  - intros j i b Hi Hb.
    assert (i = j).
    { do 4 (destruct j as [|j]; [cbn in Hi; congruence|]). discriminate. }
    subst i. destruct (K j b Hb) as [K1|(K1 & K2 & K3)]; [left; exact K1|right].
    split; [lia|]. split; [exact K2|].
    exists (S a + length (mjoin (take j bs)))%nat, d, (depth X + 1), (id X),
           (pre ++ X :: mjoin (take j bs)), (mjoin (drop (S j) bs) ++ post).
    split; [exact K1|]. split; [exact K3|]. split.
    + rewrite Hns. rewrite <- (take_drop_middle bs j b Hb) at 1.
      rewrite join_app. change (mjoin (b :: drop (S j) bs)) with (b ++ mjoin (drop (S j) bs)).
      rewrite <- ?List.app_assoc. cbn [app]. rewrite <- ?List.app_assoc. reflexivity.
    + rewrite length_app. cbn [length]. lia.
Qed.

(** The loop of [queryRegion] ends and returns the leaves that intersect
    the query region. *)
Lemma queryLoop_spec target : forall fuel queue result Bs,
  Forall2 queued queue Bs ->
  result ++ hits (mjoin Bs) ≡ₚ target ->
  (length (mjoin Bs) <= fuel)%nat ->
  exists res, queryLoop fuel ns queryRegion queue result = Some res /\ res ≡ₚ target.
Proof.
  induction fuel as [|fuel IH]; intros queue result Bs F P L.
  - assert (Bs = []).
    { apply join_nonempty; [|lia]. clear -F.
      induction F as [|? ? ? ? [H _]]; constructor; assumption. }
    subst Bs. inversion F; subst. exists result. split; [reflexivity|].
    cbn in P. rewrite app_nil_r in P. exact P.
  - destruct F as [|idx b queue Bs Hq F].
    { exists result. split; [reflexivity|]. cbn in P. rewrite app_nil_r in P. exact P. }
    destruct Hq as (Hne & a & d & dep & par & pre & post & -> & B & Hns & Hpre).
    destruct d as [|d]; [destruct B|].
    destruct B as (X & rest & -> & I1 & I2 & I3 & Fin & S).
    cbn [queryLoop].
    replace (Z.of_nat a <? 0) with false by (symmetry; apply Z.ltb_ge; lia).
    rewrite Nat2Z.id.
    assert (Ea : ns !! a = Some X).
    { rewrite Hns, lookup_app_r by lia. replace (a - length pre)%nat with 0%nat by lia.
      reflexivity. }
    rewrite Ea. cbn [mbind option_bind].
    change (mjoin ((X :: rest) :: Bs)) with ((X :: rest) ++ mjoin Bs) in P, L.
    rewrite hits_app in P. cbn [app length] in L.
    destruct (intersects (bounds X) queryRegion) eqn:Hi; cbn [negb].
    2:{ rewrite (hits_outside X rest Hi Fin) in P.
        apply (IH queue result Bs F P). rewrite length_app in L. lia. }
    destruct (isLeaf X) eqn:Hl.
    + destruct S as [[_ ->]|[Hl' _]]; [|congruence].
      apply (IH queue (result ++ [X]) Bs F); [|cbn in L; lia].
      rewrite <- P. unfold hits at 2.
      rewrite filter_cons_True by (unfold hit; rewrite Hl, Hi; reflexivity).
      rewrite filter_nil, <- List.app_assoc. reflexivity.
    + destruct S as [[Hl' _]|(_ & bs & Hlen & -> & K)]; [congruence|].
      destruct (enqueueChildren_loop X _ _ queue (kids_queued d a pre post X bs Hns Hpre Hlen K))
        as (ks & Bk & E & Fk & J).
      unfold enqueueChildren. rewrite E.
      apply (IH (queue ++ ks) result (Bs ++ Bk)).
      * apply Forall2_app; assumption.
      * rewrite <- P, join_app, hits_app, J. unfold hits at 3.
        rewrite filter_cons_False by (unfold hit; rewrite Hl; discriminate).
        fold (hits (mjoin bs)).
        apply Permutation_app_head. apply Permutation_app_comm.
      * rewrite join_app, length_app, J. rewrite length_app in L. lia.
Qed.

End QueryRegion.

Section ShapedTrees.

Import RegionTree.

(** The nodes of the tree are the subtree of the root, stored from index 0 on. *)
Definition shaped (tree : t) : Prop :=
  rootIndex tree = 0 /\ exists d, block d 0 0 (-1) (nodes tree).

(** A tree that [build] returns within its reservation has that shape, and
    its counters count its nodes and its leaves. *)
Lemma build_shaped ps0 image h w tr0 minSize fuel tree :
  rectangular image h w -> supported h w -> 1 <= minSize ->
  build fuel tr0 (Some (PrefixSum.build ps0 image)) minSize = Some tree ->
  dangling tr0 = false ->
  Z.of_nat (length (nodes tree)) <= estimatedNodes h w minSize ->
  shaped tree
  /\ dangling tree = false
  /\ nodeCount tree = Z.of_nat (length (nodes tree))
  /\ leafCount tree = Z.of_nat (length (getLeaves tree)).
Proof.
  intros Hrect Hsup Hm Hbuild D0 Hfit. pose proof Hsup as (Hh & Hw & Mh & Mw).
  unfold MAX_IMAGE_DIM in Mh, Mw.
  pose proof (build_indexes ps0 image h w Hrect Hh Hw (supported_machine_sized h w Hsup))
    as (Hb & Hhe & Hwi & _).
  unfold build in Hbuild. rewrite Hb, Hhe, Hwi in Hbuild. cbn [negb] in Hbuild.
  replace (minSize =? 0) with false in Hbuild by (symmetry; apply Z.eqb_neq; lia).
  unfold cdiv in Hbuild. rewrite !Z.quot_div_nonneg in Hbuild by lia.
  assert (Dh : 0 <= Z.of_nat h / minSize <= 8192).
  { split; [apply Z.div_pos; lia|].
    transitivity (Z.of_nat h); [apply Z.div_le_upper_bound; nia | lia]. }
  assert (Dw : 0 <= Z.of_nat w / minSize <= 8192).
  { split; [apply Z.div_pos; lia|].
    transitivity (Z.of_nat w); [apply Z.div_le_upper_bound; nia | lia]. }
  assert (Dp : 0 <= (Z.of_nat h / minSize + 1) * (Z.of_nat w / minSize + 1)
               <= 8193 * 8193).
  { split; [apply Z.mul_nonneg_nonneg; lia | apply Z.mul_le_mono_nonneg; lia]. }
  rewrite (int32_small (Z.of_nat h / minSize + 1)) in Hbuild by (unfold in_int32; lia).
  rewrite (int32_small (Z.of_nat w / minSize + 1)) in Hbuild by (unfold in_int32; lia).
  rewrite (int32_small ((Z.of_nat h / minSize + 1) * (Z.of_nat w / minSize + 1)))
    in Hbuild by (unfold in_int32; lia).
  rewrite (int32_small ((Z.of_nat h / minSize + 1) * (Z.of_nat w / minSize + 1) * 2))
    in Hbuild by (unfold in_int32; lia).
  fold (estimatedNodes h w minSize) in Hbuild.
  assert (De : 0 <= estimatedNodes h w minSize < 2 ^ 31)
    by (unfold estimatedNodes; lia).
  replace (estimatedNodes h w minSize <? 0) with false in Hbuild
    by (symmetry; apply Z.ltb_ge; lia).
  cbv zeta in Hbuild.
  rewrite (int32_small (Z.of_nat h - 1)), (int32_small (Z.of_nat w - 1)) in Hbuild
    by (unfold in_int32; lia).
  set (tr1 := mk [] (capacity tr0) (moves tr0) (dangling tr0)
                 (Some (PrefixSum.build ps0 image)) (rootIndex tr0) 0 0 0 minSize)
    in Hbuild.
  set (tr2 := reserve (Z.to_nat (estimatedNodes h w minSize)) tr1) in Hbuild.
  pose proof (reserve_spec (Z.to_nat (estimatedNodes h w minSize)) tr1)
    as (Rn & Rd & Rms & _ & Rcap & _). fold tr2 in Rn, Rd, Rms, Rcap.
  change (nodes tr1) with (@nil RegionTreeNode) in Rn.
  assert (Rc : nodeCount tr2 = 0 /\ leafCount tr2 = 0).
  { unfold tr2, reserve. destruct (_ <=? _)%nat; split; reflexivity. }
  set (root := mkRegion 0 0 (Z.of_nat h - 1) (Z.of_nat w - 1)) in Hbuild.
  assert (Groot : good root).
  { unfold good, root. rewrite isValid_spec. cbn [row1 row2 col1 col2]. lia. }
  destruct (buildRecursive fuel root 0 (-1) tr2) as [[idx tr']|] eqn:Hrun;
    [|discriminate].
  cbn [mbind option_bind fst snd] in Hbuild. injection Hbuild as <-.
  cbn [nodes dangling nodeCount leafCount rootIndex] in Hfit |- *.
  destruct (buildRecursive_grows fuel _ _ _ _ _ _ Groot Hrun)
    as [Hidx (new & Gn & _ & _ & _ & _ & _ & _ & _ & Gfit)].
  rewrite Rn in Gn, Hidx. cbn [app length] in Gn, Hidx.
  destruct Gfit as (_ & _ & Gd); [lia|].
  assert (Ds : dangling tr' = false) by (rewrite Gd, Rd; exact D0).
  assert (Ns : Z.of_nat (length (nodes tr')) < 2 ^ 31) by lia.
  assert (Hh0 : 0 + regionHeight root <= 2 ^ 30)
    by (unfold regionHeight, root; cbn [row1 row2]; lia).
  assert (Hms2 : 1 <= minRegionSize tr2) by (rewrite Rms; exact Hm).
  assert (Hc2 : countersFit tr2)
    by (unfold countersFit; destruct Rc as [-> ->]; rewrite Rn; cbn; lia).
  destruct (buildRecursive_shape fuel root 0 (-1) tr2 idx tr' Groot ltac:(lia)
              Hh0 Hms2 Hc2 Hrun (conj Ds Ns))
    as (new' & Sn & B & Cn & Cl).
  rewrite Rn in Sn, B. cbn [app length] in Sn, B.
  destruct Rc as [Rc1 Rc2]. rewrite Rc1 in Cn. rewrite Rc2 in Cl.
  unfold shaped. cbn [rootIndex nodes]. rewrite Sn.
  split; [split; [exact Hidx|exists fuel; exact B]|].
  split; [exact Ds|]. split; [lia|]. unfold getLeaves. cbn [nodes]. exact Cl.
Qed.

(** [queryRegion] on a tree of that shape. *)
Lemma queryRegion_shaped (tree : t) (queryRegion : Region) (fuel : nat) :
  shaped tree -> (length (nodes tree) <= fuel)%nat ->
  exists result,
    RegionTree.queryRegion fuel tree queryRegion = Some result
    /\ result ≡ₚ filter (fun n => intersects (bounds n) queryRegion = true)
                        (getLeaves tree).
Proof.
  intros (Hroot & d & B) Hfuel. unfold RegionTree.queryRegion. rewrite Hroot.
  cbn [Z.ltb Z.compare].
  assert (Hne : nodes tree <> []).
  { destruct d; [destruct B|]. destruct B as (X & rest & -> & _). discriminate. }
  destruct (queryLoop_spec (nodes tree) queryRegion (hits queryRegion (nodes tree))
              fuel [0] [] [nodes tree]) as (res & E & P).
  - constructor; [|constructor]. split; [exact Hne|].
    exists 0%nat, d, 0, (-1), [], []. rewrite app_nil_r. repeat split. exact B.
  - cbn. rewrite app_nil_r. reflexivity.
  - cbn. rewrite app_nil_r. exact Hfuel.
  - exists res. split; [exact E|]. rewrite P. unfold hits, getLeaves, hit.
    clear. induction (nodes tree) as [|n l IH]; [reflexivity|].
    destruct (isLeaf n) eqn:L.
    + rewrite (filter_cons_True (fun n => isLeaf n = true)) by exact L.
      destruct (intersects (bounds n) queryRegion) eqn:Hi.
      * rewrite !filter_cons_True by (rewrite ?L, ?Hi; reflexivity). rewrite IH. reflexivity.
      * rewrite !filter_cons_False by (rewrite ?L, ?Hi; discriminate). exact IH.
    + rewrite (filter_cons_False (fun n => isLeaf n = true)) by congruence.
      rewrite filter_cons_False by (rewrite L; discriminate). exact IH.
Qed.

End ShapedTrees.

Section QueriesOnBuiltTrees.

Import RegionTree.

Lemma leafCover_Permutation (l l' : list RegionTreeNode) r c :
  l ≡ₚ l' -> leafCover l r c = leafCover l' r c.
Proof.
  induction 1 as [|x l l' _ IH|x y l|l l' l'' _ IH1 _ IH2]; cbn [leafCover]; lia.
Qed.

(** A leaf that holds a cell of the query region intersects it. *)
Lemma leafCover_intersecting (ns : list RegionTreeNode) (Q : Region) r c :
  contains Q r c = true ->
  leafCover (filter (fun n => intersects (bounds n) Q = true)
                    (filter (fun n => isLeaf n = true) ns)) r c
  = leafCover ns r c.
Proof.
  intros HQ. apply contains_spec in HQ.
  induction ns as [|n ns IH]; [reflexivity|]. cbn [leafCover].
  destruct (isLeaf n) eqn:L.
  - rewrite (filter_cons_True (fun n => isLeaf n = true)) by exact L.
    destruct (contains (bounds n) r c) eqn:Hc.
    + apply contains_spec in Hc.
      assert (Hi : intersects (bounds n) Q = true).
      { unfold intersects. apply negb_true_iff. rewrite !orb_false_iff.
        rewrite !Z.gtb_ltb, !Z.ltb_ge. lia. }
      rewrite filter_cons_True by exact Hi. cbn [leafCover].
      rewrite L, IH. apply contains_spec in Hc. rewrite Hc. reflexivity.
    + destruct (intersects (bounds n) Q) eqn:Hi.
      * rewrite filter_cons_True by exact Hi. cbn [leafCover]. rewrite L, Hc, IH.
        reflexivity.
      * rewrite filter_cons_False by congruence. rewrite IH. reflexivity.
  - rewrite (filter_cons_False (fun n => isLeaf n = true)) by congruence.
    rewrite IH. reflexivity.
Qed.

(** A change of the nodes that keeps their ids, depths, links and regions
    keeps the shape. *)
Lemma block_map (f : RegionTreeNode -> RegionTreeNode) :
  (forall n, id (f n) = id n /\ depth (f n) = depth n /\ parent (f n) = parent n
             /\ bounds (f n) = bounds n /\ children (f n) = children n) ->
  forall d i dep par new, block d i dep par new -> block d i dep par (map f new).
Proof.
  intros Hf.
  assert (Hleaf : forall n, isLeaf (f n) = isLeaf n).
  { intros n. unfold isLeaf, child. destruct (Hf n) as (_ & _ & _ & _ & ->). reflexivity. }
  assert (Hchild : forall n j, child (f n) j = child n j).
  { intros n j. unfold child. destruct (Hf n) as (_ & _ & _ & _ & ->). reflexivity. }
  induction d as [|d IH]; intros i dep par new B; [destruct B|].
  destruct B as (X & rest & -> & I1 & I2 & I3 & F & S).
  destruct (Hf X) as (F1 & F2 & F3 & F4 & F5).
  exists (f X), (map f rest). split; [reflexivity|].
  split; [congruence|]. split; [congruence|]. split; [congruence|]. split.
  - rewrite F4. apply Forall_fmap. eapply Forall_impl; [exact F|].
    intros n Hn. cbn. destruct (Hf n) as (_ & _ & _ & -> & _). exact Hn.
  - rewrite Hleaf. destruct S as [[L ->]|(L & bs & Hlen & -> & K)];
      [left; split; [exact L|reflexivity]|right].
    split; [exact L|]. exists (map (map f) bs).
    split; [rewrite length_map; exact Hlen|]. split; [symmetry; apply join_map_map|].
    intros j b Hb. change (map (map f) bs) with (map f <$> bs) in Hb.
    rewrite list_lookup_fmap in Hb.
    destruct (bs !! j) as [b0|] eqn:Eb; [|discriminate]. cbn in Hb. injection Hb as <-.
    assert (E : length (mjoin (take j (map (map f) bs))) = length (mjoin (take j bs))).
    { change (map (map f) bs) with (map f <$> bs). rewrite <- fmap_take. change (map f <$> take j bs) with (map (map f) (take j bs)).
      rewrite join_map_map. apply length_map. }
    rewrite E.
    destruct (K j b0 Eb) as [[K1 ->]|(K1 & K2 & K3)].
    + left. rewrite Hchild. split; [exact K1|reflexivity].
    + right. rewrite Hchild, F1, F2. split; [exact K1|].
      split; [destruct b0; [congruence|discriminate]|]. apply IH. exact K3.
Qed.

Lemma shaped_scored ps threshold image tree :
  shaped tree -> shaped (withNodes tree (map (scored ps threshold image) (nodes tree))).
Proof.
  intros (Hr & d & B). split; [exact Hr|]. exists d. cbn [withNodes nodes].
  apply block_map; [|exact B]. intros n. repeat split.
Qed.

End QueriesOnBuiltTrees.

Section Rectangles.

Lemma detectInTree_nodes ps0 image h w tr0 tree minSize fuel threshold :
  rectangular image h w -> supported h w -> 1 <= minSize -> (h < fuel)%nat ->
  RegionTree.build fuel tr0 (Some (PrefixSum.build ps0 image)) minSize = Some tree ->
  exists det',
    AnomalyDetector.detectInTree
      (AnomalyDetector.initialize (AnomalyDetector.new threshold)
         (Some (PrefixSum.build ps0 image))) tree
    = Some (det', RegionTree.withNodes tree
                    (map (scored (PrefixSum.build ps0 image) threshold image)
                         (RegionTree.nodes tree))).
Proof.
  intros Hrect Hsup Hm Hfuel Hbuild.
  set (ps := PrefixSum.build ps0 image).
  set (det := AnomalyDetector.initialize (AnomalyDetector.new threshold) (Some ps)).
  destruct (build_result ps0 image h w tr0 minSize fuel Hrect Hsup Hm Hfuel)
    as (tree0 & Hb0 & Hin & _).
  rewrite Hbuild in Hb0. injection Hb0 as <-.
  pose proof (build_indexes ps0 image h w Hrect ltac:(apply Hsup) ltac:(apply Hsup)
                (supported_machine_sized h w Hsup)) as Hidx.
  fold ps in Hidx. pose proof Hidx as (Hbuilt & _).
  assert (Hdet : det = AnomalyDetector.mk (Some ps) threshold (PrefixSum.globalMean ps)
                         (PrefixSum.globalStdDev ps)
                         (AnomalyDetector.stats (AnomalyDetector.new threshold)) false).
  { unfold det, AnomalyDetector.initialize. rewrite Hbuilt. reflexivity. }
  unfold AnomalyDetector.detectInTree.
  rewrite Hdet. cbn [AnomalyDetector.prefixSum]. rewrite Hbuilt. cbn [negb].
  match goal with |- context [AnomalyDetector.scoreNodes ?d ?ns ?a] =>
    destruct (scoreNodes_within d ps image h w ns Hidx eq_refl eq_refl eq_refl Hin a)
      as [acc' ->] end.
  cbn [mbind option_bind fst snd AnomalyDetector.threshold].
  eexists. reflexivity.
Qed.

(** The loop of [queryRectangle] over the matching nodes. *)
Lemma queryRectangle_loop (matching : list RegionTree.RegionTreeNode) :
  forall (st : list AnomalyRegion * Z),
    0 <= snd st -> snd st + Z.of_nat (length matching) < 2 ^ 31 ->
    fold_left
      (fun (st : list AnomalyRegion * Z) node =>
         (if RegionTree.isAnomaly node
          then fst st ++ [mkAnomalyRegion (RegionTree.bounds node)
                            (RegionTree.anomalyScore node) (RegionTree.id node)]
          else fst st,
          int32 (snd st + 1)))
      matching st
    = (fst st ++ map QueryEngine.regionOf
                     (filter (fun n => RegionTree.isAnomaly n = true) matching),
       snd st + Z.of_nat (length matching)).
Proof.
  induction matching as [|n l IH]; intros [rs k] H0 Hb; cbn [fold_left fst snd] in *.
  - rewrite app_nil_r, Z.add_0_r. reflexivity.
  - cbn [length] in Hb. rewrite IH; cbn [fst snd];
      rewrite ?int32_small by (unfold in_int32; lia); try lia.
    f_equal; [|cbn [length]; lia].
    destruct (RegionTree.isAnomaly n) eqn:A.
    + rewrite filter_cons_True by exact A. rewrite <- List.app_assoc. reflexivity.
    + rewrite filter_cons_False by congruence. reflexivity.
Qed.

Lemma filter_filter_comm {A : Type} (P Q : A -> bool) (l : list A) :
  filter (fun x => P x = true) (filter (fun x => Q x = true) l)
  = filter (fun x => Q x = true) (filter (fun x => P x = true) l).
Proof.
  induction l as [|x l IH]; [reflexivity|].
  destruct (P x) eqn:HP, (Q x) eqn:HQ;
    rewrite ?(filter_cons_True (fun x => Q x = true)) by assumption;
    rewrite ?(filter_cons_False (fun x => Q x = true)) by congruence;
    rewrite ?(filter_cons_True (fun x => P x = true)) by assumption;
    rewrite ?(filter_cons_False (fun x => P x = true)) by congruence;
    rewrite ?(filter_cons_True (fun x => Q x = true)) by assumption;
    rewrite ?(filter_cons_False (fun x => Q x = true)) by congruence;
    rewrite ?IH; reflexivity.
Qed.

End Rectangles.

(** X21.  [RegionTree::queryRegion] on a tree that [build] returned within
    its reservation: the traversal ends (one unit of fuel per node is
    enough) and returns exactly the leaves whose region intersects the
    query region, each once, in some order.  Every cell of the raster that
    the query region holds lies in exactly one of the returned leaves. *)
Theorem queryRegion_returns_intersecting_leaves
    (ps0 : PrefixSum.t) (image : Matrix) (h w : nat) (minSize : Z) (fuel : nat)
    (tree : RegionTree.t) (query : Region) (fuelQ : nat) :
  rectangular image h w -> supported h w -> 1 <= minSize -> (h < fuel)%nat ->
  RegionTree.build fuel RegionTree.init (Some (PrefixSum.build ps0 image)) minSize
    = Some tree ->
  Z.of_nat (length (RegionTree.nodes tree)) <= estimatedNodes h w minSize ->
  (length (RegionTree.nodes tree) <= fuelQ)%nat ->
  exists result,
    RegionTree.queryRegion fuelQ tree query = Some result
    /\ result ≡ₚ filter (fun n => RegionTree.intersects (RegionTree.bounds n) query = true)
                        (RegionTree.getLeaves tree)
    /\ forall r c, contains query r c = true ->
                   leafCover result r c = b2n (inRaster h w r c).
Proof.
  intros Hrect Hsup Hm Hfuel Hbuild Hfit HfuelQ.
  destruct (build_shaped ps0 image h w RegionTree.init minSize fuel tree
              Hrect Hsup Hm Hbuild eq_refl Hfit) as (Hs & Hd & _).
  destruct (queryRegion_shaped tree query fuelQ Hs HfuelQ) as (result & E & P).
  exists result. split; [exact E|]. split; [exact P|].
  intros r c Hq.
  destruct (build_result ps0 image h w RegionTree.init minSize fuel Hrect Hsup Hm Hfuel)
    as (tree0 & Hb0 & _ & _ & Hcover).
  rewrite Hbuild in Hb0. injection Hb0 as <-.
  rewrite (leafCover_Permutation _ _ r c P). unfold RegionTree.getLeaves.
  rewrite (leafCover_intersecting _ query r c Hq). apply (Hcover Hd).
Qed.

Lemma queryRegion_returns_intersecting_leaves_witness :
  exists result,
    RegionTree.queryRegion 5 tree4 (mkRegion 1 1 2 5) = Some result
    /\ map RegionTree.id result = [1; 2; 3; 4]
    /\ leafCover result 2 3 = 1%nat
    /\ leafCover result 1 4 = 0%nat.
Proof.
  destruct (queryRegion_returns_intersecting_leaves PrefixSum.init blocks4 4 4 2 100 tree4
              (mkRegion 1 1 2 5) 5 blocks4_rectangular supported_4_4 ltac:(lia) ltac:(lia)
              tree4_built ltac:(vm_compute; discriminate) ltac:(vm_compute; lia))
    as (result & E & _ & C).
  exists result. split; [exact E|].
  split; [|split; [apply (C 2 3) | apply (C 1 4)]; reflexivity].
  revert E. vm_compute. intros E. injection E as <-. reflexivity.
Defined.

(** X22.  [QueryEngine::queryRectangle] on a tree built within its
    reservation and scored by [detectInTree]: it returns the anomalous
    leaves whose region intersects the query region, each once, with
    bounds, score and node id, in an order in which no region scores below
    its successor; [nodesVisited] is the number of leaves, anomalous or
    not, that intersect the query region. *)
Theorem queryRectangle_returns_anomalies_in_rectangle
    (ps0 : PrefixSum.t) (image : Matrix) (h w : nat) (minSize : Z) (fuel : nat)
    (tree : RegionTree.t) (threshold : float) (query : Region) (fuelQ : nat) :
  rectangular image h w -> supported h w -> 1 <= minSize -> (h < fuel)%nat ->
  RegionTree.build fuel RegionTree.init (Some (PrefixSum.build ps0 image)) minSize
    = Some tree ->
  Z.of_nat (length (RegionTree.nodes tree)) <= estimatedNodes h w minSize ->
  (length (RegionTree.nodes tree) <= fuelQ)%nat ->
  let ps := PrefixSum.build ps0 image in
  let det := AnomalyDetector.initialize (AnomalyDetector.new threshold) (Some ps) in
  exists det' tree' r,
    AnomalyDetector.detectInTree det tree = Some (det', tree')
    /\ QueryEngine.queryRectangle fuelQ
         (QueryEngine.initialize (Some tree') (Some ps) (Some det')) query = Some r
    /\ QueryEngine.regions r
       ≡ₚ map QueryEngine.regionOf
              (filter (fun n => RegionTree.intersects (RegionTree.bounds n) query = true)
                      (QueryEngine.anomalousLeaves tree'))
    /\ nonIncreasing (QueryEngine.regions r) = true
    /\ QueryEngine.nodesVisited r
       = Z.of_nat (length (filter (fun n => RegionTree.intersects (RegionTree.bounds n) query
                                            = true)
                                  (RegionTree.getLeaves tree'))).
Proof.
  intros Hrect Hsup Hm Hfuel Hbuild Hfit HfuelQ ps det.
  destruct (detectInTree_nodes ps0 image h w RegionTree.init tree minSize fuel threshold
              Hrect Hsup Hm Hfuel Hbuild) as (det' & E).
  fold ps in E. fold det in E.
  set (tree' := RegionTree.withNodes tree
                  (map (scored ps threshold image) (RegionTree.nodes tree))) in *.
  destruct (build_shaped ps0 image h w RegionTree.init minSize fuel tree
              Hrect Hsup Hm Hbuild eq_refl Hfit) as (Hs & _).
  assert (Hs' : shaped tree') by (apply shaped_scored; exact Hs).
  assert (Ln : length (RegionTree.nodes tree') = length (RegionTree.nodes tree))
    by (cbn; apply length_map).
  destruct (queryRegion_shaped tree' query fuelQ Hs' ltac:(rewrite Ln; exact HfuelQ))
    as (result & Eq & P).
  assert (Le : (length result <= length (RegionTree.nodes tree'))%nat).
  { rewrite (Permutation_length P). etransitivity; [apply length_filter|].
    apply length_filter. }
  assert (De : estimatedNodes h w minSize < 2 ^ 31).
  { destruct Hsup as (_ & _ & Mh & Mw). unfold MAX_IMAGE_DIM in Mh, Mw.
    unfold estimatedNodes.
    assert (0 <= Z.of_nat h / minSize <= 8192).
    { split; [apply Z.div_pos; lia|].
      transitivity (Z.of_nat h); [apply Z.div_le_upper_bound; nia | lia]. }
    assert (0 <= Z.of_nat w / minSize <= 8192).
    { split; [apply Z.div_pos; lia|].
      transitivity (Z.of_nat w); [apply Z.div_le_upper_bound; nia | lia]. }
    nia. }
  exists det', tree'. eexists. split; [exact E|].
  unfold QueryEngine.queryRectangle, QueryEngine.initialize.
  cbn [QueryEngine.regionTree]. rewrite Eq. cbn [mbind option_bind].
  rewrite queryRectangle_loop by (cbn [snd]; lia). cbn [fst snd app].
  split; [reflexivity|]. cbn [QueryEngine.regions QueryEngine.nodesVisited].
  split; [|split].
  - rewrite sortByScore_Permutation. apply (fmap_Permutation QueryEngine.regionOf).
    rewrite P. unfold QueryEngine.anomalousLeaves.
    rewrite (filter_filter_comm
               (fun n => RegionTree.intersects (RegionTree.bounds n) query)
               RegionTree.isAnomaly).
    reflexivity.
  - apply sortByScore_sorted.
  - rewrite (Permutation_length P). lia.
Qed.

Lemma queryRectangle_returns_anomalies_in_rectangle_witness :
  exists det' tree' r,
    AnomalyDetector.detectInTree
      (AnomalyDetector.initialize (AnomalyDetector.new 0.5%float) (Some index4)) tree4
    = Some (det', tree')
    /\ QueryEngine.queryRectangle 5
         (QueryEngine.initialize (Some tree') (Some index4) (Some det')) (mkRegion 0 0 1 3)
       = Some r
    /\ nonIncreasing (QueryEngine.regions r) = true
    /\ QueryEngine.nodesVisited r = 2.
Proof.
  destruct (queryRectangle_returns_anomalies_in_rectangle PrefixSum.init blocks4 4 4 2 100
              tree4 0.5%float (mkRegion 0 0 1 3) 5 blocks4_rectangular supported_4_4
              ltac:(lia) ltac:(lia) tree4_built ltac:(vm_compute; discriminate)
              ltac:(vm_compute; lia))
    as (det' & tree' & r & E & Q & _ & S & V).
  exists det', tree', r. split; [exact E|]. split; [exact Q|]. split; [exact S|].
  rewrite V.
  assert (E' : tree' = scoredTree4).
  { unfold scoredTree4, detector4, index4. rewrite E. reflexivity. }
  subst tree'. vm_compute. reflexivity.
Defined.

(** ** The links of a built tree *)

Section TreeLinks.

Import RegionTree.

Local Open Scope nat_scope.

Lemma lookup_join_at {A : Type} (bs : list (list A)) j b k x :
  bs !! j = Some b -> b !! k = Some x ->
  mjoin bs !! (length (mjoin (take j bs)) + k) = Some x.
Proof.
  intros Hb Hx. pose proof (take_drop_middle bs j b Hb) as E.
  apply (f_equal mjoin) in E. rewrite join_app in E.
  change (mjoin (b :: drop (S j) bs)) with (b ++ mjoin (drop (S j) bs)) in E.
  rewrite <- E. rewrite lookup_app_r by lia.
  replace (length (mjoin (take j bs)) + k - length (mjoin (take j bs))) with k by lia.
  rewrite lookup_app_l by (eapply lookup_lt_Some; exact Hx). exact Hx.
Qed.

Lemma lookup_join_Some {A : Type} (bs : list (list A)) : forall k x,
  mjoin bs !! k = Some x ->
  exists j b k', bs !! j = Some b /\ b !! k' = Some x
                 /\ k = length (mjoin (take j bs)) + k'.
Proof.
  induction bs as [|b bs IH]; intros k x H; [discriminate|].
  change (mjoin (b :: bs)) with (b ++ mjoin bs) in H.
  destruct (Nat.lt_ge_cases k (length b)) as [Hk|Hk].
  - rewrite lookup_app_l in H by exact Hk. exists 0, b, k. repeat split. exact H.
  - rewrite lookup_app_r in H by exact Hk.
    destruct (IH _ _ H) as (j & b' & k' & Hb & Hx & E).
    exists (S j), b', k'. split; [exact Hb|]. split; [exact Hx|].
    cbn [take]. change (mjoin (b :: take j bs)) with (b ++ mjoin (take j bs)).
    rewrite length_app. lia.
Qed.

(** What the node at position [k] of a subtree stored from index [i] on
    says of itself, of its parent and of its children. *)
Definition linked_at (i : nat) (dep par : Z) (new : list RegionTreeNode)
    (k : nat) (X : RegionTreeNode) : Prop :=
  id X = Z.of_nat (i + k)
  /\ (k = 0 -> depth X = dep /\ parent X = par)
  /\ (0 < k ->
      exists kp P j,
        kp < k /\ new !! kp = Some P /\ parent X = Z.of_nat (i + kp)
        /\ depth X = (depth P + 1)%Z /\ j < 4 /\ child P j = Z.of_nat (i + k)
        /\ subregion (bounds X) (bounds P))
  /\ (forall j, j < 4 -> child X j <> (-1)%Z ->
        exists kc C,
          k < kc /\ child X j = Z.of_nat (i + kc) /\ new !! kc = Some C
          /\ parent C = Z.of_nat (i + k)).

Lemma isLeaf_child X j : isLeaf X = true -> j < 4 -> child X j = (-1)%Z.
Proof.
  unfold isLeaf. rewrite !andb_true_iff, !Z.eqb_eq. intros (((H0 & H1) & H2) & H3) Hj.
  do 4 (destruct j as [|j]; [assumption|]). lia.
Qed.

Lemma block_linked d : forall i dep par new k X,
  block d i dep par new -> new !! k = Some X -> linked_at i dep par new k X.
Proof.
  induction d as [|d IH]; intros i dep par new k X B Hk; [destruct B|].
  destruct B as (X0 & rest & -> & I1 & I2 & I3 & F & S).
  destruct k as [|k1].
  - (* the root of the subtree *)
    cbn in Hk. injection Hk as <-. split; [rewrite Nat.add_0_r; exact I1|].
    split; [auto|]. split; [lia|].
    intros j Hj Hc.
    destruct S as [[L _]|(L & bs & Hlen & -> & K)];
      [rewrite (isLeaf_child X0 j L Hj) in Hc; congruence|].
    destruct (bs !! j) as [b|] eqn:Eb; [|apply lookup_ge_None in Eb; lia].
    destruct (K j b Eb) as [[K1 _]|(K1 & K2 & K3)]; [congruence|].
    destruct d as [|d']; [destruct K3|].
    destruct K3 as (C & restC & -> & C1 & C2 & C3 & _).
    exists (S (length (mjoin (take j bs)))), C.
    split; [lia|]. split; [rewrite K1; f_equal; lia|]. split.
    + cbn [lookup list_lookup]. rewrite <- (Nat.add_0_r (length _)).
      eapply lookup_join_at; [exact Eb|reflexivity].
    + rewrite C3, I1. f_equal. lia.
  - (* a node below the root *)
    cbn [lookup list_lookup] in Hk.
    destruct S as [[_ ->]|(L & bs & Hlen & -> & K)]; [discriminate|].
    destruct (lookup_join_Some bs k1 X Hk) as (j & b & k' & Eb & Hx & ->).
    destruct (K j b Eb) as [[_ ->]|(K1 & K2 & K3)]; [discriminate|].
    set (a := S i + length (mjoin (take j bs))) in *.
    destruct (IH a _ _ b k' X K3 Hx) as (J1 & J2 & J3 & J4).
    assert (Hj : j < 4) by (apply lookup_lt_Some in Eb; lia).
    assert (T : forall m Y, b !! m = Some Y ->
                  (X0 :: mjoin bs) !! S (length (mjoin (take j bs)) + m) = Some Y).
    { intros m Y HY. cbn [lookup list_lookup]. eapply lookup_join_at; eassumption. }
    split; [rewrite J1; f_equal; unfold a; lia|].
    split; [lia|]. split.
    + intros _. destruct k' as [|k''].
      * destruct (J2 eq_refl) as [Jd Jp].
        exists 0, X0, j. split; [lia|]. split; [reflexivity|].
        split; [rewrite Jp, I1; f_equal; lia|]. split; [exact Jd|].
        split; [exact Hj|]. split; [rewrite K1; f_equal; unfold a; lia|].
        rewrite Forall_forall in F. apply F.
        apply list_elem_of_lookup. exists (length (mjoin (take j bs)) + 0). exact Hk.
      * destruct (J3 ltac:(lia)) as (kp & P & j' & Hkp & HP & Hpar & Hdep & Hj' & Hch & Hsub).
        exists (S (length (mjoin (take j bs)) + kp)), P, j'.
        split; [lia|]. split; [apply T; exact HP|].
        split; [rewrite Hpar; f_equal; unfold a; lia|]. split; [exact Hdep|].
        split; [exact Hj'|]. split; [rewrite Hch; f_equal; unfold a; lia|exact Hsub].
    + intros j' Hj' Hc. destruct (J4 j' Hj' Hc) as (kc & C & Hkc & Hch & HC & Hpar).
      exists (S (length (mjoin (take j bs)) + kc)), C.
      split; [lia|]. split; [rewrite Hch; f_equal; unfold a; lia|].
      split; [apply T; exact HC|]. rewrite Hpar. f_equal. unfold a. lia.
Qed.

End TreeLinks.

(** X23.  The tree that [build] returns within its reservation is linked
    up: the root is node 0, at depth 0 and without a parent; every node
    has its index as id; every other node has a parent stored before it,
    one level up, that lists it among its four children and covers its
    region; and each child that a node lists is stored after it and names
    it as parent.  [nodeCount] is the number of nodes and [leafCount] the
    number of nodes that [isLeaf] accepts. *)
Theorem build_links_the_nodes
    (ps0 : PrefixSum.t) (image : Matrix) (h w : nat) (minSize : Z) (fuel : nat)
    (tree : RegionTree.t) :
  rectangular image h w -> supported h w -> 1 <= minSize ->
  RegionTree.build fuel RegionTree.init (Some (PrefixSum.build ps0 image)) minSize
    = Some tree ->
  Z.of_nat (length (RegionTree.nodes tree)) <= estimatedNodes h w minSize ->
  RegionTree.rootIndex tree = 0
  /\ RegionTree.nodeCount tree = Z.of_nat (length (RegionTree.nodes tree))
  /\ RegionTree.leafCount tree = Z.of_nat (length (RegionTree.getLeaves tree))
  /\ forall i X, RegionTree.nodes tree !! i = Some X ->
       linked_at 0 0 (-1) (RegionTree.nodes tree) i X.
Proof.
  intros Hrect Hsup Hm Hbuild Hfit.
  destruct (build_shaped ps0 image h w RegionTree.init minSize fuel tree
              Hrect Hsup Hm Hbuild eq_refl Hfit) as ((Hr & d & B) & _ & Hn & Hl).
  split; [exact Hr|]. split; [exact Hn|]. split; [exact Hl|].
  intros i X Hi. eapply block_linked; eassumption.
Qed.

Lemma build_links_the_nodes_witness :
  RegionTree.rootIndex tree4 = 0
  /\ RegionTree.nodeCount tree4 = 5
  /\ RegionTree.leafCount tree4 = 4
  /\ forall i X, RegionTree.nodes tree4 !! i = Some X ->
       linked_at 0 0 (-1) (RegionTree.nodes tree4) i X.
Proof.
  destruct (build_links_the_nodes PrefixSum.init blocks4 4 4 2 100 tree4
              blocks4_rectangular supported_4_4 ltac:(lia) tree4_built
              ltac:(vm_compute; discriminate)) as (R & N & L & K).
  split; [exact R|]. split; [rewrite N; reflexivity|].
  split; [rewrite L; reflexivity|exact K].
Defined.

(** ** What the top-K queries return *)

Section TopK.

Import QueryEngine.

Lemma heap_push_Permutation ar h : heap_push ar h ≡ₚ ar :: h.
Proof.
  unfold heap_push. induction h as [|y h IH]; [reflexivity|].
  cbn [PriorityQueue.push]. destruct (std_greater y ar); [reflexivity|].
  rewrite IH. apply perm_swap.
Qed.

Lemma drain_id (h : list AnomalyRegion) : PriorityQueue.drain AnomalyRegion h = h.
Proof. induction h as [|x h IH]; [reflexivity|]. cbn. rewrite IH. reflexivity. Qed.

(** One candidate: the heap keeps at most [k] elements, all of them
    candidates it was offered. *)
Lemma offer_spec k ar h :
  1 <= k -> Z.of_nat (length h) <= k -> Z.of_nat (length h) < 2 ^ 31 ->
  exists h',
    offer k ar h = Ok h'
    /\ h' ⊆+ ar :: h
    /\ Z.of_nat (length h') = Z.min k (Z.of_nat (length h) + 1).
Proof.
  intros Hk Hh Hb. unfold offer.
  rewrite int32_small by (unfold in_int32; lia).
  destruct (Z.ltb_spec (Z.of_nat (length h)) k) as [L|L].
  - eexists. split; [reflexivity|]. pose proof (heap_push_Permutation ar h) as P.
    split; [rewrite P; reflexivity|]. rewrite (Permutation_length P). cbn [length]. lia.
  - destruct h as [|t h]; [cbn in L; lia|]. cbn [heap_top PriorityQueue.top head].
    destruct (PrimFloat.ltb _ _).
    + eexists. split; [reflexivity|].
      pose proof (heap_push_Permutation ar (heap_pop (t :: h))) as P.
      split.
      * rewrite P. cbn [heap_pop PriorityQueue.pop tail].
        apply submseteq_skip. apply submseteq_cons. reflexivity.
      * rewrite (Permutation_length P). cbn [heap_pop PriorityQueue.pop tail length] in *.
        lia.
    + eexists. split; [reflexivity|]. split; [apply submseteq_cons; reflexivity|].
      cbn [length] in *. lia.
Qed.

(** The nodes that [topKAnomalies] offers to the heap. *)
Definition considered (leafOnly : bool) (nodes : list RegionTree.RegionTreeNode)
    : list RegionTree.RegionTreeNode :=
  if leafOnly then filter (fun n => RegionTree.isLeaf n = true) nodes else nodes.

Lemma considered_cons leafOnly node rest :
  considered leafOnly (node :: rest)
  = if leafOnly && negb (RegionTree.isLeaf node) then considered leafOnly rest
    else node :: considered leafOnly rest.
Proof.
  unfold considered. destruct leafOnly; [|reflexivity]. cbn [andb].
  destruct (RegionTree.isLeaf node) eqn:L; cbn [negb].
  - rewrite filter_cons_True by exact L. reflexivity.
  - rewrite filter_cons_False by congruence. reflexivity.
Qed.

Lemma considered_length leafOnly nodes :
  (length (considered leafOnly nodes) <= length nodes)%nat.
Proof. unfold considered. destruct leafOnly; [apply length_filter|lia]. Qed.

Lemma visitAll_spec k leafOnly : 1 <= k ->
  forall nodes h v,
    Z.of_nat (length h) <= k -> Z.of_nat (length h) <= v ->
    v + Z.of_nat (length nodes) < 2 ^ 31 ->
    exists h',
      visitAll k leafOnly nodes (h, v)
      = Ok (h', v + Z.of_nat (length (considered leafOnly nodes)))
      /\ h' ⊆+ map regionOf (considered leafOnly nodes) ++ h
      /\ Z.of_nat (length h')
         = Z.min k (Z.of_nat (length h) + Z.of_nat (length (considered leafOnly nodes))).
Proof.
  intros Hk. induction nodes as [|node rest IH]; intros h v Hh Hv Hb.
  - exists h. cbn [visitAll]. unfold considered. destruct leafOnly; cbn.
    + rewrite Z.add_0_r. repeat split; [reflexivity|lia].
    + rewrite Z.add_0_r. repeat split; [reflexivity|lia].
  - cbn [visitAll length] in *. unfold visit. cbn [fst snd].
    rewrite considered_cons.
    destruct (leafOnly && negb (RegionTree.isLeaf node)); cbn [bind].
    + apply IH; lia.
    + destruct (offer_spec k (regionOf node) h Hk Hh ltac:(lia)) as (h1 & -> & S1 & L1).
      cbn [bind]. rewrite int32_small by (unfold in_int32; lia).
      pose proof (considered_length leafOnly rest) as Lc.
      destruct (IH h1 (v + 1) ltac:(lia) ltac:(lia) ltac:(lia)) as (h' & E & S & L).
      exists h'. cbn [length map]. split; [rewrite E; f_equal; f_equal; lia|]. split.
      * etransitivity; [exact S|].
        transitivity (map regionOf (considered leafOnly rest) ++ regionOf node :: h).
        -- apply submseteq_app; [reflexivity|exact S1].
        -- apply Permutation_submseteq. symmetry. apply Permutation_middle.
      * lia.
Qed.

End TopK.

(** X24.  [topKAnomalies(k)] for [k >= 1], on a tree of fewer than 2^31
    nodes: it returns [min(k, m)] regions, where [m] is the number of nodes
    it considers (the nodes that [isLeaf] accepts when [leafOnly] is set,
    all the nodes otherwise); every region it returns is the region of a
    node it considered, no node twice; and [nodesVisited] is [m]. *)
Theorem topKAnomalies_returns_k_regions
    (qe : QueryEngine.t) (tree : RegionTree.t) (k : Z) (leafOnly : bool) :
  QueryEngine.regionTree qe = Some tree -> 1 <= k ->
  Z.of_nat (length (RegionTree.nodes tree)) < 2 ^ 31 ->
  exists r,
    QueryEngine.topKAnomalies qe k leafOnly = QueryEngine.Ok r
    /\ Z.of_nat (length (QueryEngine.regions r))
       = Z.min k (Z.of_nat (length (considered leafOnly (RegionTree.nodes tree))))
    /\ QueryEngine.regions r
       ⊆+ map QueryEngine.regionOf (considered leafOnly (RegionTree.nodes tree))
    /\ QueryEngine.nodesVisited r
       = Z.of_nat (length (considered leafOnly (RegionTree.nodes tree))).
Proof.
  intros Ht Hk Hn. unfold QueryEngine.topKAnomalies. rewrite Ht.
  destruct (visitAll_spec k leafOnly Hk (RegionTree.nodes tree) [] 0
              ltac:(cbn; lia) ltac:(cbn; lia) ltac:(lia)) as (h' & E & S & L).
  rewrite E. cbn [QueryEngine.bind fst snd]. eexists. split; [reflexivity|].
  cbn [QueryEngine.regions QueryEngine.nodesVisited]. rewrite drain_id.
  split; [rewrite length_rev, L; cbn [length]; lia|].
  split; [|lia]. rewrite app_nil_r in S. rewrite <- S.
  apply Permutation_submseteq. symmetry. apply Permutation_rev.
Qed.

Lemma topKAnomalies_returns_k_regions_witness :
  exists r,
    QueryEngine.topKAnomalies engine4 2 true = QueryEngine.Ok r
    /\ Z.of_nat (length (QueryEngine.regions r)) = 2
    /\ QueryEngine.nodesVisited r = 4.
Proof.
  destruct (topKAnomalies_returns_k_regions engine4 scoredTree4 2 true eq_refl
              ltac:(lia) ltac:(vm_compute; reflexivity)) as (r & E & L & _ & V).
  exists r. split; [exact E|]. split; [rewrite L | rewrite V]; vm_compute; reflexivity.
Defined.

Section PrunedTopK.

Import QueryEngine.

Variable ns : list RegionTree.RegionTreeNode.

Variable k : Z.

Hypothesis k_pos : 1 <= k.

Hypothesis ns_int : Z.of_nat (length ns) < 2 ^ 31.

Let leavesOfList (l : list RegionTree.RegionTreeNode) : list RegionTree.RegionTreeNode :=
  filter (fun n => RegionTree.isLeaf n = true) l.

(** The loop of [topKWithPruning] on a tree of the shape that [build]
    gives: it ends, and the heap holds at most [k] regions, of leaves it
    has met, no leaf twice. *)
Lemma pruningLoop_spec : forall fuel heap toVisit v p Bs met,
  Forall2 (queued ns) toVisit Bs ->
  heap ⊆+ map regionOf met ->
  met ++ leavesOfList (mjoin Bs) ⊆+ leavesOfList ns ->
  Z.of_nat (length heap) <= k ->
  0 <= p <= v -> v + Z.of_nat (length (mjoin Bs)) <= Z.of_nat (length ns) ->
  (length (mjoin Bs) <= fuel)%nat ->
  exists heap' v' p',
    pruningLoop fuel ns k (mkPruning heap toVisit v p)
    = Ok (mkPruning heap' [] v' p')
    /\ heap' ⊆+ map regionOf (leavesOfList ns)
    /\ Z.of_nat (length heap') <= k
    /\ 0 <= p' <= v' /\ v' <= Z.of_nat (length ns).
Proof.
  induction fuel as [|fuel IH]; intros heap toVisit v p Bs met F Hh Hm Hk Hp Hv L.
  - assert (Bs = []).
    { apply join_nonempty; [|lia]. clear -F.
      induction F as [|? ? ? ? [H _]]; constructor; assumption. }
    subst Bs. inversion F; subst. exists heap, v, p. split; [reflexivity|].
    cbn in Hm, Hv. rewrite app_nil_r in Hm. split; [|lia].
    etransitivity; [exact Hh|]. apply (fmap_submseteq regionOf). exact Hm.
  - destruct F as [|idx b toVisit Bs Hq F].
    { exists heap, v, p. split; [reflexivity|].
      cbn in Hm, Hv. rewrite app_nil_r in Hm. split; [|lia].
      etransitivity; [exact Hh|]. apply (fmap_submseteq regionOf). exact Hm. }
    destruct Hq as (Hne & a & d & dep & par & pre & post & -> & B & Hns & Hpre).
    destruct d as [|d]; [destruct B|].
    destruct B as (X & rest & -> & I1 & I2 & I3 & Fin & S).
    assert (Ea : ns !! a = Some X).
    { rewrite Hns, lookup_app_r by lia. replace (a - length pre)%nat with 0%nat by lia.
      reflexivity. }
    pose proof (lookup_lt_Some _ _ _ Ea) as La.
    assert (Lh : (length heap <= length ns)%nat).
    { rewrite (submseteq_length _ _ Hh), length_map.
      transitivity (length (met ++ leavesOfList (mjoin ((X :: rest) :: Bs))));
        [rewrite length_app; lia|].
      rewrite (submseteq_length _ _ Hm). apply length_filter. }
    change (mjoin ((X :: rest) :: Bs)) with ((X :: rest) ++ mjoin Bs) in Hm, Hv, L.
    cbn [app length] in Hv, L.
    cbn [pruningLoop pr_toVisit pr_heap pr_visited pr_pruned].
    rewrite (int32_small (Z.of_nat (length ns))) by (unfold in_int32; lia).
    replace (Z.of_nat a <? 0) with false by (symmetry; apply Z.ltb_ge; lia).
    replace (Z.of_nat a >=? Z.of_nat (length ns)) with false
      by (symmetry; rewrite Z.geb_leb; apply Z.leb_gt; lia).
    cbn [orb]. rewrite Nat2Z.id, Ea.
    change (default RegionTree.defaultNode (Some X)) with X.
    rewrite (int32_small (v + 1)) by (unfold in_int32; lia).
    rewrite (int32_small (Z.of_nat (length heap))) by (unfold in_int32; lia).
    assert (C : exists canPrune,
              (if Z.of_nat (length heap) >=? k
               then match heap_top heap with
                    | None => EmptyTop
                    | Some t => Ok (PrimFloat.ltb (RegionTree.anomalyScore X)
                                                  (ar_anomalyScore t))
                    end
               else Ok false) = Ok canPrune).
    { destruct (Z.of_nat (length heap) >=? k) eqn:E; [|eauto].
      rewrite Z.geb_leb in E. apply Z.leb_le in E.
      destruct heap as [|t heap]; [cbn in E; lia|]. cbn. eauto. }
    destruct C as [canPrune ->]. cbn [bind].
    assert (Hrest : met ++ leavesOfList (mjoin Bs) ⊆+ leavesOfList ns).
    { etransitivity; [|exact Hm]. apply submseteq_app; [reflexivity|].
      unfold leavesOfList. rewrite filter_app. apply submseteq_inserts_l. reflexivity. }
    destruct (RegionTree.isLeaf X) eqn:Hl; cbn [negb];
      rewrite ?andb_false_r, ?andb_true_r.
    + (* a leaf is offered to the heap *)
      destruct S as [[_ ->]|[Hl' _]]; [|congruence]. cbn [app] in Hv, L.
      assert (Hb31 : Z.of_nat (length heap) < 2 ^ 31) by (clear -Lh ns_int; lia).
      destruct (offer_spec k (regionOf X) heap k_pos Hk Hb31) as (h1 & -> & S1 & L1).
      cbn [bind].
      apply (IH h1 toVisit (v + 1) p Bs (met ++ [X])); try assumption; try lia.
      * etransitivity; [exact S1|]. rewrite map_app. cbn [map].
        transitivity (regionOf X :: map regionOf met);
          [apply submseteq_skip; exact Hh|].
        apply Permutation_submseteq. apply Permutation_cons_append.
      * rewrite <- List.app_assoc. etransitivity; [|exact Hm].
        apply submseteq_app; [reflexivity|]. unfold leavesOfList.
        rewrite (filter_app _ [X]). rewrite filter_cons_True by exact Hl. reflexivity.
    + destruct canPrune.
      * (* a pruned subtree *)
        rewrite (int32_small (p + 1)) by (unfold in_int32; lia).
        apply (IH heap toVisit (v + 1) (p + 1) Bs met); try assumption; try lia.
        -- rewrite length_app in Hv. lia.
        -- rewrite length_app in L. lia.
      * (* the children join the queue *)
        destruct S as [[Hl' _]|(_ & bs & Hlen & -> & K)]; [congruence|].
        destruct (enqueueChildren_loop ns X _ _ toVisit
                    (kids_queued ns d a pre post X bs Hns Hpre Hlen K))
          as (ks & Bk & E & Fk & J).
        unfold pushChildren. rewrite E.
        apply (IH heap (toVisit ++ ks) (v + 1) p (Bs ++ Bk) met); try assumption; try lia.
        -- apply Forall2_app; assumption.
        -- etransitivity; [|exact Hm]. apply submseteq_app; [reflexivity|].
           unfold leavesOfList. rewrite join_app, J, !filter_app.
           rewrite (filter_cons_False _ X) by congruence.
           apply Permutation_submseteq. apply Permutation_app_comm.
        -- rewrite join_app, length_app, J. rewrite length_app in Hv. lia.
        -- rewrite join_app, length_app, J. rewrite length_app in L. lia.
Qed.

End PrunedTopK.

(** X25.  [topKWithPruning(k)] for [k >= 1], on a tree built within its
    reservation and scored by [detectInTree]: the traversal ends (one unit
    of fuel per node is enough) and returns at most [k] regions, each the
    region of a leaf of the tree, no leaf twice; it visits no more nodes
    than the tree has and prunes no more than it visits. *)
Theorem topKWithPruning_returns_leaves
    (ps0 : PrefixSum.t) (image : Matrix) (h w : nat) (minSize : Z) (fuel : nat)
    (tree : RegionTree.t) (threshold : float) (k : Z) (fuelQ : nat) :
  rectangular image h w -> supported h w -> 1 <= minSize -> (h < fuel)%nat ->
  RegionTree.build fuel RegionTree.init (Some (PrefixSum.build ps0 image)) minSize
    = Some tree ->
  Z.of_nat (length (RegionTree.nodes tree)) <= estimatedNodes h w minSize ->
  (length (RegionTree.nodes tree) <= fuelQ)%nat ->
  1 <= k ->
  let ps := PrefixSum.build ps0 image in
  let det := AnomalyDetector.initialize (AnomalyDetector.new threshold) (Some ps) in
  exists det' tree' r,
    AnomalyDetector.detectInTree det tree = Some (det', tree')
    /\ QueryEngine.topKWithPruning fuelQ
         (QueryEngine.initialize (Some tree') (Some ps) (Some det')) k = QueryEngine.Ok r
    /\ QueryEngine.regions r ⊆+ map QueryEngine.regionOf (RegionTree.getLeaves tree')
    /\ Z.of_nat (length (QueryEngine.regions r)) <= k
    /\ 0 <= QueryEngine.nodesPruned r <= QueryEngine.nodesVisited r
    /\ QueryEngine.nodesVisited r <= Z.of_nat (length (RegionTree.nodes tree')).
Proof.
  intros Hrect Hsup Hm Hfuel Hbuild Hfit HfuelQ Hk ps det.
  destruct (detectInTree_nodes ps0 image h w RegionTree.init tree minSize fuel threshold
              Hrect Hsup Hm Hfuel Hbuild) as (det' & E).
  fold ps in E. fold det in E.
  set (tree' := RegionTree.withNodes tree
                  (map (scored ps threshold image) (RegionTree.nodes tree))) in *.
  destruct (build_shaped ps0 image h w RegionTree.init minSize fuel tree
              Hrect Hsup Hm Hbuild eq_refl Hfit) as (Hs & _).
  destruct (shaped_scored ps threshold image tree Hs) as (_ & d & B). fold tree' in B.
  assert (Ln : length (RegionTree.nodes tree') = length (RegionTree.nodes tree))
    by (cbn; apply length_map).
  assert (De : estimatedNodes h w minSize < 2 ^ 31).
  { destruct Hsup as (_ & _ & Mh & Mw). unfold MAX_IMAGE_DIM in Mh, Mw.
    unfold estimatedNodes.
    assert (0 <= Z.of_nat h / minSize <= 8192).
    { split; [apply Z.div_pos; lia|].
      transitivity (Z.of_nat h); [apply Z.div_le_upper_bound; nia | lia]. }
    assert (0 <= Z.of_nat w / minSize <= 8192).
    { split; [apply Z.div_pos; lia|].
      transitivity (Z.of_nat w); [apply Z.div_le_upper_bound; nia | lia]. }
    nia. }
  assert (Hne : RegionTree.nodes tree' <> []).
  { destruct d; [destruct B|]. destruct B as (X & rest & -> & _). discriminate. }
  assert (Hint : Z.of_nat (length (RegionTree.nodes tree')) < 2 ^ 31)
    by (rewrite Ln; lia).
  assert (Ej : mjoin [RegionTree.nodes tree'] = RegionTree.nodes tree')
    by (cbn [mjoin list_join]; apply app_nil_r).
  destruct (pruningLoop_spec (RegionTree.nodes tree') k Hk Hint
              fuelQ [] [0] 0 0 [RegionTree.nodes tree'] [])
    as (heap' & v' & p' & El & S & L & P & V).
  - constructor; [|constructor]. split; [exact Hne|].
    exists 0%nat, d, 0, (-1), [], []. rewrite app_nil_r. repeat split. exact B.
  - reflexivity.
  - rewrite Ej. reflexivity.
  - cbn [length]. lia.
  - lia.
  - rewrite Ej. lia.
  - rewrite Ej, Ln. exact HfuelQ.
  - exists det', tree'. eexists. split; [exact E|].
    unfold QueryEngine.topKWithPruning, QueryEngine.initialize.
    cbn [QueryEngine.regionTree]. rewrite El. cbn [QueryEngine.bind].
    split; [reflexivity|].
    cbn [QueryEngine.regions QueryEngine.nodesVisited QueryEngine.nodesPruned
         QueryEngine.pr_heap QueryEngine.pr_visited QueryEngine.pr_pruned].
    rewrite drain_id. split; [|split; [rewrite length_rev; exact L|split; assumption]].
    rewrite <- S. apply Permutation_submseteq. symmetry. apply Permutation_rev.
Qed.

Lemma topKWithPruning_returns_leaves_witness :
  exists det' tree' r,
    AnomalyDetector.detectInTree
      (AnomalyDetector.initialize (AnomalyDetector.new 0.5%float) (Some index4)) tree4
    = Some (det', tree')
    /\ QueryEngine.topKWithPruning 5
         (QueryEngine.initialize (Some tree') (Some index4) (Some det')) 2
       = QueryEngine.Ok r
    /\ Z.of_nat (length (QueryEngine.regions r)) <= 2
    /\ QueryEngine.nodesVisited r <= 5.
Proof.
  destruct (topKWithPruning_returns_leaves PrefixSum.init blocks4 4 4 2 100
              tree4 0.5%float 2 5 blocks4_rectangular supported_4_4
              ltac:(lia) ltac:(lia) tree4_built ltac:(vm_compute; discriminate)
              ltac:(vm_compute; lia) ltac:(lia))
    as (det' & tree' & r & E & Q & _ & L & _ & V).
  exists det', tree', r. split; [exact E|]. split; [exact Q|]. split; [exact L|].
  assert (E' : tree' = scoredTree4).
  { unfold scoredTree4, detector4, index4. rewrite E. reflexivity. }
  subst tree'.
  assert (N5 : Z.of_nat (length (RegionTree.nodes scoredTree4)) = 5)
    by (vm_compute; reflexivity).
  rewrite N5 in V. exact V.
Defined.

(** ** formatNumber *)

Section FormatNumber.

(** The characters of [s] other than the separator. *)
Definition withoutCommas (s : list byte) : list byte :=
  filter (fun ch => Byte.eqb ch ","%byte = false) s.

(** Counted from the right, the separators are the characters 3, 7, 11, ... *)
Definition commasEveryFourth (s : list byte) : Prop :=
  forall i ch, rev s !! i = Some ch -> (ch = ","%byte <-> Z.of_nat i mod 4 = 3).

Lemma digits_no_comma d : Forall (fun ch => Byte.eqb ch ","%byte = false) (digits d).
Proof. induction d; cbn [digits]; constructor; auto. Qed.

Lemma to_string_no_comma number :
  Forall (fun ch => Byte.eqb ch ","%byte = false) (to_string number).
Proof.
  unfold to_string. destruct (Z.to_int number); [apply digits_no_comma|].
  constructor; [reflexivity|apply digits_no_comma].
Qed.

(** The state of the loop after [m] characters. *)
Definition formatted (done : list byte) (m : nat) (result : list byte) : Prop :=
  withoutCommas result = done
  /\ commasEveryFourth result
  /\ Z.of_nat (length result)
     = (if (m =? 0)%nat then 0 else Z.of_nat m + (Z.of_nat m - 1) / 3).

Lemma commasEveryFourth_cons ch s :
  commasEveryFourth s ->
  (ch = ","%byte <-> Z.of_nat (length s) mod 4 = 3) ->
  commasEveryFourth (ch :: s).
Proof.
  intros Hs Hch i c Hi. cbn [rev] in Hi.
  destruct (Nat.lt_ge_cases i (length (rev s))) as [L|L].
  - rewrite lookup_app_l in Hi by exact L. apply Hs. exact Hi.
  - rewrite lookup_app_r in Hi by exact L. rewrite length_rev in L, Hi.
    destruct (i - length s)%nat as [|k] eqn:E; [|destruct k; discriminate].
    cbn in Hi. injection Hi as <-. replace i with (length s) by lia. exact Hch.
Qed.

Lemma formatStep_formatted done m result ch :
  formatted done m result -> Byte.eqb ch ","%byte = false ->
  Z.of_nat m + 1 < 2 ^ 31 ->
  formatStep (result, Z.of_nat m) ch
  = (fst (formatStep (result, Z.of_nat m) ch), Z.of_nat (S m))
  /\ formatted (ch :: done) (S m) (fst (formatStep (result, Z.of_nat m) ch)).
Proof.
  intros (F1 & F2 & F3) Hch Hm. unfold formatStep. cbn [fst snd].
  rewrite int32_small by (unfold in_int32; lia).
  split; [f_equal; lia|].
  assert (Hne : ch <> ","%byte) by (intros ->; discriminate).
  rewrite Z.rem_mod_nonneg by lia.
  destruct m as [|m'].
  - cbn [Z.of_nat Z.gtb Z.compare andb]. destruct result; [|discriminate].
    split; [|split].
    + cbn in F1. subst done. unfold withoutCommas.
      rewrite filter_cons_True by exact Hch. reflexivity.
    + apply commasEveryFourth_cons; [exact F2|]. cbn. split; [congruence|discriminate].
    + reflexivity.
  - cbn [Nat.eqb] in F3.
    assert (HS : Z.of_nat (S (S m')) = Z.of_nat (S m') + 1) by lia.
    set (M := Z.of_nat (S m')) in *. assert (HM : 0 < M) by (unfold M; lia).
    replace (M >? 0) with true by (symmetry; apply Z.gtb_lt; lia).
    cbn [andb]. unfold formatted. cbn [Nat.eqb]. rewrite HS.
    set (len := Z.of_nat (length result)) in *.
    destruct (Z.eqb_spec (M mod 3) 0) as [E|E].
    + assert (A : len mod 4 = 3) by (Z.div_mod_to_equations; lia).
      split; [|split].
      * unfold withoutCommas in *. rewrite filter_cons_True by exact Hch.
        rewrite filter_cons_False by (cbn; discriminate).
        rewrite F1. reflexivity.
      * apply commasEveryFourth_cons.
        -- apply commasEveryFourth_cons; [exact F2|]. split; [|reflexivity].
           intros _. exact A.
        -- cbn [length]. split; [congruence|]. intros H. exfalso.
           rewrite Nat2Z.inj_succ in H. fold len in H.
           Z.div_mod_to_equations. lia.
      * cbn [length]. rewrite !Nat2Z.inj_succ. fold len.
        Z.div_mod_to_equations. lia.
    + assert (A : len mod 4 <> 3) by (Z.div_mod_to_equations; lia).
      split; [|split].
      * unfold withoutCommas in *. rewrite filter_cons_True by exact Hch.
        rewrite F1. reflexivity.
      * apply commasEveryFourth_cons; [exact F2|]. split; [congruence|].
        intros H. exfalso. fold len in H. congruence.
      * cbn [length]. rewrite !Nat2Z.inj_succ. fold len.
        Z.div_mod_to_equations. lia.
Qed.

Lemma formatLoop_formatted : forall chars done m result,
  Forall (fun ch => Byte.eqb ch ","%byte = false) chars ->
  formatted done m result ->
  Z.of_nat m + Z.of_nat (length chars) < 2 ^ 31 ->
  formatted (rev chars ++ done) (m + length chars)
            (fst (fold_left formatStep chars (result, Z.of_nat m))).
Proof.
  induction chars as [|ch chars IH]; intros done m result Hc F Hm.
  - cbn. rewrite Nat.add_0_r. exact F.
  - apply Forall_cons in Hc. destruct Hc as [Hch Hc]. cbn [length] in Hm.
    destruct (formatStep_formatted done m result ch F Hch ltac:(lia)) as [E F'].
    cbn [fold_left rev length]. rewrite E.
    replace (m + S (length chars))%nat with (S m + length chars)%nat by lia.
    rewrite <- List.app_assoc. cbn [app]. apply IH; [exact Hc|exact F'|lia].
Qed.

End FormatNumber.

(** X26.  [formatNumber] only inserts separators: without its commas the
    result is [std::to_string(number)]; and counted from the right, the
    commas are exactly the characters 3, 7, 11, ... of the result, so that
    three characters of the numeral stand between two commas.  The minus
    sign counts as a character of the numeral: a negative number of three,
    six, ... digits gets a comma right after its sign, as in ["-,123"].
    (The numeral is to have fewer than 2^31 characters, the range of the
    counter [count].) *)
Theorem formatNumber_groups_by_three (number : Z) :
  Z.of_nat (length (to_string number)) < 2 ^ 31 ->
  withoutCommas (formatNumber number) = to_string number
  /\ commasEveryFourth (formatNumber number).
Proof.
  intros Hlen. unfold formatNumber.
  destruct (formatLoop_formatted (rev (to_string number)) [] 0 []) as (F1 & F2 & _).
  - apply Forall_rev. apply to_string_no_comma.
  - split; [reflexivity|]. split; [|reflexivity]. intros i ch Hi. discriminate.
  - rewrite length_rev. lia.
  - split; [|exact F2]. change (Z.of_nat 0) with 0 in F1.
    rewrite F1, rev_involutive, app_nil_r. reflexivity.
Qed.

Lemma formatNumber_groups_by_three_witness :
  formatNumber (-123) = ["-"; ","; "1"; "2"; "3"]%byte
  /\ withoutCommas (formatNumber (-1234567)) = to_string (-1234567)
  /\ commasEveryFourth (formatNumber (-1234567)).
Proof.
  split; [reflexivity|].
  apply (formatNumber_groups_by_three (-1234567)). vm_compute. reflexivity.
Defined.

(** ** RegionTree::splitRegion: the four quadrants *)

(** X27.  The quadrants of [splitRegion] partition the region.  For a valid
    region of non-negative coordinates below [2^30]: every cell of the
    region lies in exactly one of the four quadrants and no quadrant holds
    any other cell; the quadrants that are valid lie within the region;
    the first quadrant is always valid, and all four are when the region
    has at least two rows and two columns. *)
Theorem splitRegion_partitions_the_region (R : Region) :
  good R ->
  (forall r c,
     regionCover (zip [0; 1; 2; 3]%nat (RegionTree.splitRegion R)) r c
     = b2n (contains R r c))
  /\ Forall (fun q => isValid q = true -> good q /\ subregion q R)
            (RegionTree.splitRegion R)
  /\ isValid (default R (head (RegionTree.splitRegion R))) = true
  /\ (2 <= regionHeight R -> 2 <= regionWidth R ->
      Forall (fun q => isValid q = true) (RegionTree.splitRegion R)).
Proof.
  intros HR.
  destruct (splitRegion_good R HR) as (q0 & q1 & q2 & q3 & E & V0 & F & C).
  split; [rewrite E; exact C|]. split; [rewrite E; exact F|].
  split; [rewrite E; exact V0|].
  intros H2 W2. pose proof HR as (Hv & H1 & H3 & H4 & H5).
  rewrite (splitRegion_small R (good_small R HR) Hv).
  apply isValid_spec in Hv as [Hr Hc]. unfold regionHeight, regionWidth in *.
  assert (Mr : row1 R <= cdiv (row1 R + row2 R) 2 < row2 R).
  { unfold cdiv. rewrite Z.quot_div_nonneg by lia. Z.div_mod_to_equations. lia. }
  assert (Mc : col1 R <= cdiv (col1 R + col2 R) 2 < col2 R).
  { unfold cdiv. rewrite Z.quot_div_nonneg by lia. Z.div_mod_to_equations. lia. }
  unfold quadrantsAt.
  repeat (apply Forall_cons; split); try (apply Forall_nil; exact I);
    apply isValid_spec; cbn [row1 row2 col1 col2]; lia.
Qed.

Lemma splitRegion_partitions_the_region_witness :
  regionCover (zip [0; 1; 2; 3]%nat (RegionTree.splitRegion (mkRegion 0 0 4 6))) 2 3 = 1%nat
  /\ regionCover (zip [0; 1; 2; 3]%nat (RegionTree.splitRegion (mkRegion 0 0 4 6))) 5 3 = 0%nat
  /\ Forall (fun q => isValid q = true) (RegionTree.splitRegion (mkRegion 0 0 4 6)).
Proof.
  assert (G : good (mkRegion 0 0 4 6)).
  { unfold good. rewrite isValid_spec. cbn [row1 row2 col1 col2]. lia. }
  destruct (splitRegion_partitions_the_region (mkRegion 0 0 4 6) G) as (C & _ & _ & V).
  split; [rewrite C; reflexivity|]. split; [rewrite C; reflexivity|].
  apply V; unfold regionHeight, regionWidth; cbn [row1 row2 col1 col2]; lia.
Defined.

(** ** The statistics of the nodes *)

Section NodeStatistics.

Import RegionTree.

Variable ps : PrefixSum.t.

Hypothesis ps_built : PrefixSum.built ps = true.

(** The node covers a good region and carries its statistics. *)
Definition carriesStats (n : RegionTreeNode) : Prop :=
  good (bounds n) /\ PrefixSum.queryStatsR ps (bounds n) = Some (stats n).

Hypothesis stats_total : forall q, good q -> exists s, PrefixSum.queryStatsR ps q = Some s.

Definition recurse_stats (recurse : Region -> Z -> Z -> t -> option (Z * t)) : Prop :=
  forall q d p tr idx tr',
    good q -> prefixSum tr = Some ps -> recurse q d p tr = Some (idx, tr') ->
    Forall carriesStats (nodes tr) -> Forall carriesStats (nodes tr').

Lemma writeVia_setChild_stats node i c tr :
  Forall carriesStats (nodes tr) ->
  Forall carriesStats (nodes (writeVia node (setChild i c) tr)).
Proof.
  intros F. unfold writeVia. destruct (_ =? _)%nat; cbn [nodes withNodes]; [|exact F].
  apply Forall_alter; [exact F|]. intros n _ H. exact H.
Qed.

Lemma buildChildren_stats recurse node nodeIdx depth :
  recurse_ok recurse -> recurse_stats recurse ->
  forall qs tr tr',
    Forall (fun iq => isValid (snd iq) = true -> good (snd iq)) qs ->
    prefixSum tr = Some ps -> Forall carriesStats (nodes tr) ->
    fold_left (buildChild recurse node nodeIdx depth) qs (Some tr) = Some tr' ->
    Forall carriesStats (nodes tr').
Proof.
  intros Hok Hrec. induction qs as [|[i q] qs IH]; intros tr tr' Hqs Hps F Hfold.
  - cbn in Hfold. injection Hfold as <-. exact F.
  - apply Forall_cons in Hqs. destruct Hqs as [Hq Hqs]. cbn [snd] in Hq.
    cbn [fold_left] in Hfold.
    destruct (buildChild recurse node nodeIdx depth (Some tr) (i, q)) as [tr2|] eqn:Hstep;
      [|rewrite fold_buildChild_None in Hfold; discriminate].
    unfold buildChild in Hstep. cbn [mbind option_bind fst snd] in Hstep.
    destruct (isValid q) eqn:V.
    + destruct (recurse q (int32 (depth + 1)) nodeIdx tr) as [[cidx tr1]|] eqn:R;
        [|discriminate].
      cbn [mbind option_bind fst snd] in Hstep. injection Hstep as <-.
      destruct (Hok _ _ _ _ _ _ (Hq eq_refl) R) as [_ (new & _ & _ & _ & Gps & _)].
      apply (IH (writeVia node (setChild i cidx) tr1) tr' Hqs); [| |exact Hfold].
      * destruct (writeVia_frame node (setChild i cidx) tr1) as (-> & _). congruence.
      * apply writeVia_setChild_stats. eapply Hrec; eauto.
    + injection Hstep as <-. apply (IH tr tr' Hqs Hps F Hfold).
Qed.

Lemma buildRecursive_stats fuel : recurse_stats (buildRecursive fuel).
Proof.
  induction fuel as [|fuel IH]; intros region d p tr idx tr' Hg Hps Hrun F;
    [discriminate|].
  cbn [buildRecursive] in Hrun. cbv zeta in Hrun.
  set (pre := nodes tr) in *.
  set (tra := emplace_back tr) in *.
  set (node := refTo tra (length pre)) in *.
  set (trb := writeVia node (initNode (Z.of_nat (length pre)) region d p) tra) in *.
  set (trc := computeNodeStats node region trb) in *.
  set (trd := countNode d trc) in *.
  pose proof (emplace_back_nodes tr) as Ea. fold tra pre in Ea.
  pose proof (emplace_back_frame tr) as (Aps & _). fold tra in Aps.
  assert (Hst : ref_storage node = moves tra) by reflexivity.
  assert (Hix : ref_index node = length pre) by reflexivity.
  pose proof (writeVia_frame node (initNode (Z.of_nat (length pre)) region d p) tra)
    as (Bps & _ & Bmv & _). fold trb in Bps, Bmv.
  destruct (writeVia_live node (initNode (Z.of_nat (length pre)) region d p) tra Hst)
    as [Bn _]. fold trb in Bn.
  rewrite Ea, Hix, alter_middle in Bn.
  destruct (stats_total region Hg) as [s Hs].
  assert (Cn : nodes trc
               = pre ++ [setStats s (initNode (Z.of_nat (length pre)) region d p defaultNode)]
               /\ prefixSum trc = Some ps).
  { unfold trc, computeNodeStats. rewrite Bps, Aps, Hps, ps_built, Hs. cbn [negb].
    destruct (writeVia_live node (setStats s) trb ltac:(congruence)) as [Wn _].
    destruct (writeVia_frame node (setStats s) trb) as (Wps & _).
    rewrite Wn, Bn, Hix, alter_middle, Wps, Bps, Aps. split; [reflexivity|exact Hps]. }
  destruct Cn as [Cn Cps].
  assert (Fd : Forall carriesStats (nodes trd)).
  { change (nodes trd) with (nodes trc). rewrite Cn. apply Forall_app. split; [exact F|].
    apply Forall_singleton. split; [exact Hg|exact Hs]. }
  match type of Hrun with (if ?b then _ else _) = _ => destruct b end.
  - injection Hrun as <- <-. exact Fd.
  - match type of Hrun with (?o ≫= _) = _ => destruct o as [tre|] eqn:Hfold end;
      [|discriminate].
    cbn [mbind option_bind] in Hrun. injection Hrun as <- <-.
    destruct (splitRegion_good region Hg) as (q0 & q1 & q2 & q3 & Hsplit & _ & Hq & _).
    rewrite Hsplit in Hfold. cbn [zip zip_with] in Hfold.
    eapply (buildChildren_stats (buildRecursive fuel) node _ d
              (buildRecursive_grows fuel) IH _ trd tre); [|exact Cps|exact Fd|exact Hfold].
    rewrite !Forall_cons in Hq. destruct Hq as (Q0 & Q1 & Q2 & Q3 & _).
    repeat (apply Forall_cons; split); try (apply Forall_nil; exact I);
      cbn [snd]; intros V; [apply (Q0 V)|apply (Q1 V)|apply (Q2 V)|apply (Q3 V)].
Qed.

End NodeStatistics.

(** The statistics of the region [R] of a raster, as [queryStats] computes
    them: the sum, the area, the mean [sum / area], the variance
    [max(0, squares / area - mean * mean)] and its square root. *)
Definition statsOfRegion (image : Matrix) (R : Region) : RegionStats :=
  let area := regionHeight R * regionWidth R in
  let mean := PrimFloat.div (double_of_int (bruteForce id image R)) (double_of_int area) in
  let variance :=
    fmax PrimFloat.zero
      (PrimFloat.sub
         (PrimFloat.div (double_of_int (bruteForce square image R)) (double_of_int area))
         (PrimFloat.mul mean mean)) in
  mkRegionStats mean variance (PrimFloat.sqrt variance) (bruteForce id image R) area.

(** X28.  Every node of a tree that [build] returns carries the statistics
    of its own region: the sum of its pixels, its area, and the mean,
    variance and standard deviation computed from the sums in binary64.
    This holds whether or not the nodes fit the reservation. *)
Theorem build_nodes_carry_their_statistics
    (ps0 : PrefixSum.t) (image : Matrix) (h w : nat) (tr0 : RegionTree.t)
    (minSize : Z) (fuel : nat) (tree : RegionTree.t) :
  rectangular image h w -> supported h w -> 1 <= minSize -> (h < fuel)%nat ->
  RegionTree.build fuel tr0 (Some (PrefixSum.build ps0 image)) minSize = Some tree ->
  Forall (fun n => RegionTree.stats n = statsOfRegion image (RegionTree.bounds n))
         (RegionTree.nodes tree).
Proof.
  intros Hrect Hsup Hm Hfuel Hbuild.
  destruct (build_result ps0 image h w tr0 minSize fuel Hrect Hsup Hm Hfuel)
    as (tree0 & Hb0 & Hin & _).
  rewrite Hbuild in Hb0. injection Hb0 as <-.
  pose proof Hsup as (Hh & Hw & Mh & Mw). unfold MAX_IMAGE_DIM in Mh, Mw.
  pose proof (build_indexes ps0 image h w Hrect Hh Hw (supported_machine_sized h w Hsup))
    as Hidx.
  set (ps := PrefixSum.build ps0 image) in *.
  pose proof Hidx as (Hb & Hhe & Hwi & _).
  assert (Htotal : forall q, good q -> exists s, PrefixSum.queryStatsR ps q = Some s).
  { intros q (Vq & G1 & G2 & G3 & G4). apply isValid_spec in Vq as [Vr Vc].
    unfold PrefixSum.queryStatsR.
    rewrite (queryStats_on_index ps image h w _ _ _ _ Hidx Vr Vc)
      by (unfold INT_MAX; lia).
    eexists. reflexivity. }
  assert (F : Forall (carriesStats ps) (RegionTree.nodes tree)).
  { unfold RegionTree.build in Hbuild. rewrite Hb in Hbuild. cbn [negb] in Hbuild.
    destruct (minSize =? 0); [discriminate|].
    match type of Hbuild with (if ?c then _ else _) = _ => destruct c end;
      [discriminate|].
    cbv zeta in Hbuild. rewrite Hhe, Hwi in Hbuild.
    rewrite (int32_small (Z.of_nat h - 1)), (int32_small (Z.of_nat w - 1)) in Hbuild
      by (unfold in_int32; lia).
    match type of Hbuild with
      (RegionTree.buildRecursive _ ?root _ _ ?tr2 ≫= _) = _ =>
        destruct (RegionTree.buildRecursive fuel root 0 (-1) tr2) as [[idx tr']|] eqn:Hrun;
          [|discriminate];
        assert (Groot : good root)
          by (unfold good; rewrite isValid_spec; cbn [row1 row2 col1 col2]; lia);
        pose proof (buildRecursive_stats ps Hb Htotal fuel root 0 (-1) tr2 idx tr' Groot)
          as K
    end.
    cbn [mbind option_bind fst snd] in Hbuild. injection Hbuild as <-.
    cbn [RegionTree.nodes]. apply K; [|exact Hrun|].
    - match goal with |- RegionTree.prefixSum (RegionTree.reserve ?n ?t) = _ =>
        destruct (reserve_spec n t) as (_ & _ & _ & -> & _) end. reflexivity.
    - match goal with |- Forall _ (RegionTree.nodes (RegionTree.reserve ?n ?t)) =>
        destruct (reserve_spec n t) as (-> & _) end. constructor. }
  rewrite Forall_forall in F, Hin |- *. intros n Hn.
  destruct (F n Hn) as [(Vq & G1 & G2 & G3 & G4) Hs]. destruct (Hin n Hn) as [_ Hw'].
  apply isValid_spec in Vq as [Vr Vc].
  unfold PrefixSum.queryStatsR in Hs.
  rewrite (queryStats_on_index ps image h w _ _ _ _ Hidx Vr Vc) in Hs
    by (unfold INT_MAX; lia).
  rewrite (clamp_within _ _ _ Hw') in Hs. injection Hs as <-. reflexivity.
Qed.

Lemma build_nodes_carry_their_statistics_witness :
  Forall (fun n => RegionTree.stats n = statsOfRegion blocks4 (RegionTree.bounds n))
         (RegionTree.nodes tree4).
Proof.
  apply (build_nodes_carry_their_statistics PrefixSum.init blocks4 4 4 RegionTree.init 2 100
           tree4 blocks4_rectangular supported_4_4 ltac:(lia) ltac:(lia) tree4_built).
Defined.

(** ** RegionTree::getNodesAtDepth *)

Section Levels.

Import RegionTree.

Variable ns : list RegionTreeNode.

Hypothesis ns_linked : forall i X, ns !! i = Some X -> linked_at 0 0 (-1) ns i X.

Lemma depth_by_index : forall i X,
  ns !! i = Some X -> (i = 0%nat -> depth X = 0) /\ ((0 < i)%nat -> 1 <= depth X).
Proof.
  induction i as [i IH] using lt_wf_ind. intros X HX.
  destruct (ns_linked i X HX) as (_ & L0 & L1 & _).
  split; [intros E; apply (L0 E)|]. intros Hi.
  destruct (L1 Hi) as (kp & P & j & Hkp & HP & _ & Hd & _).
  cbn [Nat.add] in HP. destruct (IH kp Hkp P HP) as [D0 D1].
  destruct kp as [|kp]; [rewrite Hd, (D0 eq_refl); lia|].
  specialize (D1 ltac:(lia)). lia.
Qed.

Lemma filter_none {A : Type} (P : A -> Prop) `{forall x, Decision (P x)} (l : list A) :
  Forall (fun x => ~ P x) l -> filter P l = [].
Proof.
  induction 1 as [|x l Hx _ IH]; [reflexivity|].
  rewrite filter_cons_False by exact Hx. exact IH.
Qed.

End Levels.

Lemma levels (ns : list RegionTree.RegionTreeNode) :
  (forall i X, ns !! i = Some X -> linked_at 0 0 (-1) ns i X) ->
  ns <> [] ->
  (exists root, ns !! 0%nat = Some root /\ filter (fun n => RegionTree.depth n = 0) ns = [root])
  /\ (forall d, d < 0 -> filter (fun n => RegionTree.depth n = d) ns = [])
  /\ (forall d n, 0 <= d -> n ∈ filter (fun n => RegionTree.depth n = d + 1) ns ->
        exists P, P ∈ filter (fun n => RegionTree.depth n = d) ns
                  /\ RegionTree.parent n = RegionTree.id P /\ subregion (RegionTree.bounds n) (RegionTree.bounds P)).
Proof.
  intros ns_linked Hne. pose proof (depth_by_index ns ns_linked) as depth_at.
  split; [|split].
  - destruct ns as [|root rest]; [congruence|]. exists root. split; [reflexivity|].
    destruct (depth_at 0%nat root eq_refl) as [D0 _].
    rewrite filter_cons_True by (apply D0; reflexivity). f_equal.
    apply filter_none. apply Forall_forall. intros n Hn.
    apply list_elem_of_lookup in Hn. destruct Hn as [i Hi].
    destruct (depth_at (S i) n Hi) as [_ D1].
    specialize (D1 ltac:(lia)). lia.
  - intros d Hd. apply filter_none. apply Forall_forall. intros n Hn.
    apply list_elem_of_lookup in Hn. destruct Hn as [i Hi].
    destruct (depth_at i n Hi) as [D0 D1].
    destruct i as [|i]; [rewrite (D0 eq_refl); lia|]. specialize (D1 ltac:(lia)). lia.
  - intros d n H0 Hn. apply list_elem_of_filter in Hn. destruct Hn as [Hd Hn].
    apply list_elem_of_lookup in Hn. destruct Hn as [i Hi].
    destruct (ns_linked i n Hi) as (_ & L0 & L1 & _).
    destruct i as [|i]; [destruct (L0 eq_refl) as [Dn _]; lia|].
    destruct (L1 ltac:(lia)) as (kp & P & j & Hkp & HP & Hpar & Hdep & _ & _ & Hsub).
    cbn [Nat.add] in HP, Hpar.
    destruct (ns_linked kp P HP) as (Hid & _). cbn [Nat.add] in Hid.
    exists P. split; [|split; [congruence|exact Hsub]].
    apply list_elem_of_filter. split; [lia|].
    apply list_elem_of_lookup. exists kp. exact HP.
Qed.

(** X29.  [RegionTree::getNodesAtDepth] on a tree that [build] returned
    within its reservation: depth 0 holds the root alone, a negative depth
    holds nothing, and every node at depth [d + 1] has its parent at depth
    [d], a node that covers its region. *)
Theorem getNodesAtDepth_levels
    (ps0 : PrefixSum.t) (image : Matrix) (h w : nat) (minSize : Z) (fuel : nat)
    (tree : RegionTree.t) :
  rectangular image h w -> supported h w -> 1 <= minSize ->
  RegionTree.build fuel RegionTree.init (Some (PrefixSum.build ps0 image)) minSize
    = Some tree ->
  Z.of_nat (length (RegionTree.nodes tree)) <= estimatedNodes h w minSize ->
  (exists root, RegionTree.nodes tree !! 0%nat = Some root
                /\ RegionTree.getNodesAtDepth tree 0 = [root])
  /\ (forall d, d < 0 -> RegionTree.getNodesAtDepth tree d = [])
  /\ (forall d n, 0 <= d -> n ∈ RegionTree.getNodesAtDepth tree (d + 1) ->
        exists P, P ∈ RegionTree.getNodesAtDepth tree d
                  /\ RegionTree.parent n = RegionTree.id P
                  /\ subregion (RegionTree.bounds n) (RegionTree.bounds P)).
Proof.
  intros Hrect Hsup Hm Hbuild Hfit.
  destruct (build_shaped ps0 image h w RegionTree.init minSize fuel tree
              Hrect Hsup Hm Hbuild eq_refl Hfit) as ((_ & d & B) & _).
  apply levels.
  - intros i X Hi. eapply block_linked; eassumption.
  - destruct d; [destruct B|]. destruct B as (X & rest & -> & _). discriminate.
Qed.

Lemma getNodesAtDepth_levels_witness :
  map RegionTree.id (RegionTree.getNodesAtDepth tree4 0) = [0]
  /\ RegionTree.getNodesAtDepth tree4 (-1) = []
  /\ forall n, n ∈ RegionTree.getNodesAtDepth tree4 1 ->
        exists P, P ∈ RegionTree.getNodesAtDepth tree4 0
                  /\ RegionTree.parent n = RegionTree.id P.
Proof.
  destruct (getNodesAtDepth_levels PrefixSum.init blocks4 4 4 2 100 tree4
              blocks4_rectangular supported_4_4 ltac:(lia) tree4_built
              ltac:(vm_compute; discriminate)) as (_ & N & L).
  split; [vm_compute; reflexivity|]. split; [apply N; lia|].
  intros n Hn. destruct (L 0 n ltac:(lia) Hn) as (P & HP & Hpar & _).
  exists P. split; assumption.
Defined.
